(** * Hashline edit engine: a shallow embedding of the patch engine

    The TypeScript sources embedded here are [hashline.ts] (fingerprints,
    anchors, the batch validator and applier), [normalize.ts] (line endings,
    byte-order mark, indentation), [fuzzy.ts] (exact and fuzzy search),
    [diff.ts] ([replaceText]) and the pure part of the [edit_file] handler of
    [server.ts].

    JavaScript strings are sequences of UTF-16 code units; a string is
    modelled as the list of its code units, each an [N].  Line numbers,
    indices and lengths are [nat]; 32-bit hash arithmetic is on [Z] with the
    wrap-around written out. *)

From Stdlib Require Import ZArith NArith List Ascii String Lia Bool.
From Stdlib Require Import Uint63 PrimFloat.
From stdpp Require Import base option list gmap sets sorting.

Local Open Scope nat_scope.

(* ===================================================================== *)
(** ** JavaScript strings *)
(* ===================================================================== *)

Module Js.

(** A string is its list of UTF-16 code units. *)
Abbreviation jsstring := (list N).

(** Code units of an ASCII literal. *)
Definition lit (s : String.string) : jsstring :=
  map N_of_ascii (list_ascii_of_string s).

Definition CR : N := 13%N.
Definition LF : N := 10%N.
Definition BOM : N := 65279%N.

Definition streq (a b : jsstring) : bool := bool_decide (a = b).

(** [\s] of a regular expression and the characters [String.prototype.trim]
    removes: WhiteSpace and LineTerminator of the ECMAScript grammar. *)
Definition isWhitespace (c : N) : bool :=
  ((9 <=? c) && (c <=? 13) || (c =? 32) || (c =? 160) || (c =? 5760)
   || (8192 <=? c) && (c <=? 8202) || (c =? 8232) || (c =? 8233)
   || (c =? 8239) || (c =? 8287) || (c =? 12288) || (c =? 65279))%N.

(** [.] of a regular expression without the [s] flag: anything but a line
    terminator. *)
Definition isLineTerminator (c : N) : bool :=
  ((c =? 10) || (c =? 13) || (c =? 8232) || (c =? 8233))%N.

(** [\d] *)
Definition isDigit (c : N) : bool := ((48 <=? c) && (c <=? 57))%N.

(** [[0-9a-zA-Z]] *)
Definition isAlnum (c : N) : bool :=
  (isDigit c || (97 <=? c) && (c <=? 122) || (65 <=? c) && (c <=? 90))%N.

(** [s.replace(/\s+/g, "")] *)
Definition removeWhitespace (s : jsstring) : jsstring :=
  filter (fun c => isWhitespace c = false) s.

(** [s.trimStart()], [s.trimEnd()], [s.trim()] *)
Fixpoint trimStart (s : jsstring) : jsstring :=
  match s with
  | c :: r => if isWhitespace c then trimStart r else s
  | [] => []
  end.

Definition trimEnd (s : jsstring) : jsstring := rev (trimStart (rev s)).

Definition trim (s : jsstring) : jsstring := trimEnd (trimStart s).

(** The longest prefix of [s] whose characters satisfy [p], and the rest. *)
Fixpoint spanWhile (p : N -> bool) (s : jsstring) : jsstring * jsstring :=
  match s with
  | c :: r =>
      if p c then let '(a, b) := spanWhile p r in (c :: a, b) else ([], s)
  | [] => ([], [])
  end.

(** [s.startsWith(p)] *)
Fixpoint startsWith (p s : jsstring) : bool :=
  match p, s with
  | [], _ => true
  | a :: p', b :: s' => (a =? b)%N && startsWith p' s'
  | _ :: _, [] => false
  end.

(** [s.endsWith(p)] *)
Definition endsWith (p s : jsstring) : bool := startsWith (rev p) (rev s).

(** [s.indexOf(sub)], the suffix [s] starting at index [i] of the whole
    string. *)
Fixpoint indexOfAt (sub s : jsstring) (i : nat) : option nat :=
  if startsWith sub s then Some i
  else match s with
       | [] => None
       | _ :: r => indexOfAt sub r (S i)
       end.

Definition indexOf (sub s : jsstring) : option nat := indexOfAt sub s 0.

(** [s.indexOf(sub, from)] *)
Definition indexOfFrom (sub s : jsstring) (from : nat) : option nat :=
  let from' := Nat.min from (length s) in
  indexOfAt sub (drop from' s) from'.

(** [s.includes(c)] for a single code unit. *)
Definition includesChar (c : N) (s : jsstring) : bool :=
  existsb (fun d => (d =? c)%N) s.

(** [s.split(sep)]: cut at each occurrence found left to right, the search
    resuming after the occurrence.  An empty separator splits into code
    units.  The fuel bounds the number of cuts by the length. *)
Fixpoint splitFuel (fuel : nat) (sep s : jsstring) : list jsstring :=
  match fuel with
  | 0 => [s]
  | S f =>
      match indexOf sep s with
      | None => [s]
      | Some i => take i s :: splitFuel f sep (drop (i + length sep) s)
      end
  end.

Definition split (sep s : jsstring) : list jsstring :=
  match sep with
  | [] => map (fun c => [c]) s
  | _ => splitFuel (length s) sep s
  end.

(** [parts.join(sep)] *)
Fixpoint join (sep : jsstring) (parts : list jsstring) : jsstring :=
  match parts with
  | [] => []
  | [p] => p
  | p :: rest => p ++ sep ++ join sep rest
  end.

Definition NL : jsstring := [LF].

(** [s.split("\n")] *)
Definition splitLines (s : jsstring) : list jsstring := split NL s.

(** [lines.join("\n")] *)
Definition joinLines (l : list jsstring) : jsstring := join NL l.

(** [String(n)] for a non-negative integer: its decimal digits.  Line
    numbers are [nat] here; JavaScript holds them exactly and prints their
    digits below 2^53 (from 1e21 on it prints an exponent). *)
Definition digitChar (d : nat) : N := (48 + N.of_nat d)%N.

Fixpoint digitsFuel (fuel n : nat) (acc : jsstring) : jsstring :=
  match fuel with
  | 0 => acc
  | S f =>
      let acc' := digitChar (n mod 10) :: acc in
      if n / 10 =? 0 then acc' else digitsFuel f (n / 10) acc'
  end.

Definition numberToString (n : nat) : jsstring := digitsFuel (S n) n [].

(** [Number.parseInt(s, 10)] on a string of decimal digits; the value is
    exact here, in JavaScript it is exact below 2^53. *)
Definition digitValue (c : N) : nat := N.to_nat (c - 48)%N.

Definition parseDigits (s : jsstring) : nat :=
  fold_left (fun acc c => acc * 10 + digitValue c) s 0.

(** [s.toLowerCase()] on the characters an anchor hash can hold
    ([[0-9a-zA-Z]], see [parseLineRef]). *)
Definition toLowerChar (c : N) : N :=
  if ((65 <=? c) && (c <=? 90))%N then (c + 32)%N else c.

Definition toLowerCase (s : jsstring) : jsstring := map toLowerChar s.

End Js.
Export Js.

(* ===================================================================== *)
(** ** The runtime's [Bun.hash.xxHash32] *)
(* ===================================================================== *)

Module XXH.

Local Open Scope Z_scope.

Definition u32 (x : Z) : Z := x mod 4294967296.

Definition rotl (x : Z) (r : Z) : Z :=
  u32 (Z.lor (Z.shiftl x r) (Z.shiftr x (32 - r))).

Definition PRIME32_1 : Z := 2654435761.
Definition PRIME32_2 : Z := 2246822519.
Definition PRIME32_3 : Z := 3266489917.
Definition PRIME32_4 : Z := 668265263.
Definition PRIME32_5 : Z := 374761393.

(** The string is hashed as its UTF-8 encoding.  Surrogate pairs are
    combined into one code point; an unpaired surrogate is encoded as
    U+FFFD. *)
Definition utf8OfCodePoint (c : Z) : list Z :=
  if c <? 128 then [c]
  else if c <? 2048 then [192 + c / 64; 128 + c mod 64]
  else if c <? 65536 then [224 + c / 4096; 128 + (c / 64) mod 64; 128 + c mod 64]
  else [240 + c / 262144; 128 + (c / 4096) mod 64; 128 + (c / 64) mod 64; 128 + c mod 64].

Definition isHighSurrogate (c : Z) : bool := (55296 <=? c) && (c <=? 56319).
Definition isLowSurrogate (c : Z) : bool := (56320 <=? c) && (c <=? 57343).

Fixpoint utf8Encode (s : jsstring) : list Z :=
  match s with
  | [] => []
  | c :: r =>
      let c := Z.of_N c in
      if isHighSurrogate c then
        match r with
        | d :: r' =>
            let d := Z.of_N d in
            if isLowSurrogate d
            then utf8OfCodePoint (65536 + (c - 55296) * 1024 + (d - 56320)) ++ utf8Encode r'
            else utf8OfCodePoint 65533 ++ utf8Encode r
        | [] => utf8OfCodePoint 65533
        end
      else if isLowSurrogate c then utf8OfCodePoint 65533 ++ utf8Encode r
      else utf8OfCodePoint c ++ utf8Encode r
  end.

Definition read32le (b0 b1 b2 b3 : Z) : Z :=
  b0 + 256 * b1 + 65536 * b2 + 16777216 * b3.

Definition round (acc input : Z) : Z :=
  u32 (rotl (u32 (acc + input * PRIME32_2)) 13 * PRIME32_1).

(** The four accumulators over the 16-byte stripes; the bytes left over
    (fewer than 16) are returned with them. *)
Fixpoint stripes (bs : list Z) (v1 v2 v3 v4 : Z) : Z * Z * Z * Z * list Z :=
  match bs with
  | a0 :: a1 :: a2 :: a3 :: b0 :: b1 :: b2 :: b3
      :: c0 :: c1 :: c2 :: c3 :: d0 :: d1 :: d2 :: d3 :: rest =>
      stripes rest
        (round v1 (read32le a0 a1 a2 a3)) (round v2 (read32le b0 b1 b2 b3))
        (round v3 (read32le c0 c1 c2 c3)) (round v4 (read32le d0 d1 d2 d3))
  | _ => (v1, v2, v3, v4, bs)
  end.

(** The tail: whole 32-bit words first, then single bytes. *)
Fixpoint finalize (bs : list Z) (h : Z) : Z :=
  match bs with
  | b0 :: b1 :: b2 :: b3 :: rest =>
      finalize rest (u32 (rotl (u32 (h + read32le b0 b1 b2 b3 * PRIME32_3)) 17 * PRIME32_4))
  | b :: rest =>
      finalize rest (u32 (rotl (u32 (h + b * PRIME32_5)) 11 * PRIME32_1))
  | [] => h
  end.

Definition avalanche (h : Z) : Z :=
  let h := u32 (Z.lxor h (Z.shiftr h 15)) in
  let h := u32 (h * PRIME32_2) in
  let h := u32 (Z.lxor h (Z.shiftr h 13)) in
  let h := u32 (h * PRIME32_3) in
  u32 (Z.lxor h (Z.shiftr h 16)).

Definition xxh32 (bs : list Z) (seed : Z) : Z :=
  let len := Z.of_nat (length bs) in
  let '(h, rest) :=
    if 16 <=? len then
      let '(v1, v2, v3, v4, rest) :=
        stripes bs (u32 (seed + PRIME32_1 + PRIME32_2)) (u32 (seed + PRIME32_2))
                (u32 seed) (u32 (seed - PRIME32_1)) in
      (u32 (rotl v1 1 + rotl v2 7 + rotl v3 12 + rotl v4 18), rest)
    else (u32 (seed + PRIME32_5), bs) in
  avalanche (finalize rest (u32 (h + len))).

(** [Bun.hash.xxHash32(s)]: seed 0. *)
Definition xxHash32 (s : jsstring) : Z := xxh32 (utf8Encode s) 0.

End XXH.

(* ===================================================================== *)
(** ** hashline.ts: helpers on replacement lines *)
(* ===================================================================== *)

Module Hashline.

(** [dst === "" ? [] : dst.split("\n")] *)
Definition splitDstLines (dst : jsstring) : list jsstring :=
  match dst with
  | [] => []
  | _ => splitLines dst
  end.

(** [/^\d+:[0-9a-zA-Z]{1,16}\|/]: the rest of the line after the matched
    prefix, when the line has one.  The digits and then the alphanumerics
    are matched greedily; giving characters back cannot help, since the next
    character has to be [:] (not a digit) and then [|] (not alphanumeric). *)
Definition matchHashlinePrefix (l : jsstring) : option jsstring :=
  let '(ds, r1) := spanWhile isDigit l in
  match ds, r1 with
  | _ :: _, c :: r2 =>
      if (c =? 58)%N then
        let '(hs, r3) := spanWhile isAlnum r2 in
        match r3 with
        | b :: r4 =>
            if (b =? 124)%N && (1 <=? length hs) && (length hs <=? 16)
            then Some r4 else None
        | [] => None
        end
      else None
  | _, _ => None
  end.

(** [/^\+(?!\+)/]: a leading [+] not followed by another [+]. *)
Definition matchDiffPlus (l : jsstring) : option jsstring :=
  match l with
  | c :: r =>
      if (c =? 43)%N then
        match r with
        | d :: _ => if (d =? 43)%N then None else Some r
        | [] => Some r
        end
      else None
  | [] => None
  end.

(** [vibeCheck], formerly [equalsIgnoringWhitespace] *)
Definition vibeCheck (a b : jsstring) : bool :=
  if streq a b then true
  else streq (removeWhitespace a) (removeWhitespace b).

Definition stripAllWhitespace (s : jsstring) : jsstring := removeWhitespace s.

(** [s.replace(/(?:&&|\|\||\?\?|\?|:|=|,|\+|-|\*|\/|\.|\()\s*$/u, "")].
    The match has to reach the end of the string, so the token sits right
    before the trailing whitespace; the leftmost match is a two-character
    token when there is one. *)
Definition isSingleContinuationToken (c : N) : bool :=
  ((c =? 63) || (c =? 58) || (c =? 61) || (c =? 44) || (c =? 43) || (c =? 45)
   || (c =? 42) || (c =? 47) || (c =? 46) || (c =? 40))%N.

Definition stripTrailingContinuationTokens (s : jsstring) : jsstring :=
  match trimStart (rev s) with
  | c :: d :: r =>
      if ((c =? 38) && (d =? 38) || (c =? 124) && (d =? 124)
          || (c =? 63) && (d =? 63))%N then rev r
      else if isSingleContinuationToken c then rev (d :: r)
      else s
  | [c] => if isSingleContinuationToken c then [] else s
  | [] => s
  end.

(** [s.replace(/[|&?]/g, "")] *)
Definition stripMergeOperatorChars (s : jsstring) : jsstring :=
  filter (fun c => ((c =? 124) || (c =? 38) || (c =? 63))%N = false) s.

(** [s.match(/^\s*/)[0]] *)
Definition leadingWhitespace (s : jsstring) : jsstring :=
  fst (spanWhile isWhitespace s).

Definition restoreLeadingIndent (templateLine line : jsstring) : jsstring :=
  if length line =? 0 then line
  else
    let templateIndent := leadingWhitespace templateLine in
    if length templateIndent =? 0 then line
    else
      let indent := leadingWhitespace line in
      if 0 <? length indent then line
      else templateIndent ++ line.

(** [/[‐‑‒–—−﹣－]/] *)
Definition isConfusableHyphen (c : N) : bool :=
  ((8208 <=? c) && (c <=? 8212) || (c =? 8722) || (c =? 65123) || (c =? 65293))%N.

(** [CONFUSABLE_HYPHENS_RE.test(l)].  The expression has the [g] flag, so
    [test] starts at its [lastIndex]; every call of [test] in the applier
    finds [lastIndex] at 0, because a failed [test] resets it and a
    successful one is followed by [replace], which resets it too. *)
Definition hasConfusableHyphen (l : jsstring) : bool :=
  existsb isConfusableHyphen l.

Definition normalizeConfusableHyphens (s : jsstring) : jsstring :=
  map (fun c => if isConfusableHyphen c then 45%N else c) s.

Definition normalizeConfusableHyphensInLines (lines : list jsstring) : list jsstring :=
  map normalizeConfusableHyphens lines.

(** [oldLines[i]] is read for every [i] below [newLines.length], which is
    [oldLines.length] here. *)
Fixpoint zipRestore (oldLines newLines : list jsstring) : list jsstring :=
  match oldLines, newLines with
  | o :: os, n :: ns => restoreLeadingIndent o n :: zipRestore os ns
  | _, _ => []
  end.

Definition restoreIndentForPairedReplacement (oldLines newLines : list jsstring)
  : list jsstring :=
  if negb (length oldLines =? length newLines) then newLines
  else
    let out := zipRestore oldLines newLines in
    if negb (bool_decide (out = newLines)) then out else newLines.

Definition isSubstantive (line : jsstring) : bool := 0 <? length (trim line).

Definition stripInsertAnchorEchoAfter (anchorLine : jsstring) (dstLines : list jsstring)
  : list jsstring :=
  if length dstLines <=? 1 then dstLines
  else
    match dstLines with
    | d0 :: rest =>
        if negb (isSubstantive anchorLine) || negb (isSubstantive d0) then dstLines
        else if vibeCheck d0 anchorLine then rest
        else dstLines
    | [] => dstLines
    end.

(** [out.slice(0, -1)] *)
Definition dropLast {A} (l : list A) : list A := take (length l - 1) l.

(** [startLine] and [endLine] are 1-based.  [beforeIdx = startLine - 2] is
    non-negative exactly when [2 <= startLine]. *)
Definition stripRangeBoundaryEcho (fileLines : list jsstring) (startLine endLine : nat)
    (dstLines : list jsstring) : list jsstring :=
  let count := endLine - startLine + 1 in
  if (length dstLines <=? 1) || (length dstLines <=? count) then dstLines
  else
    let out := dstLines in
    let out :=
      match out, fileLines !! (startLine - 2) with
      | o0 :: rest, Some before =>
          if (2 <=? startLine) && isSubstantive o0 && isSubstantive before
             && vibeCheck o0 before
          then rest else out
      | _, _ => out
      end in
    let afterIdx := endLine in
    match last out, fileLines !! afterIdx with
    | Some oLast, Some after =>
        if (afterIdx <? length fileLines) && (0 <? length out)
           && isSubstantive oLast && isSubstantive after && vibeCheck oLast after
        then dropLast out else out
    | _, _ => out
    end.

(** [stripNewLinePrefixes]: [hashPrefixCount >= nonEmpty * 0.5] is
    [2 * hashPrefixCount >= nonEmpty] on integers. *)
Definition stripNewLinePrefixes (lines : list jsstring) : list jsstring :=
  let nonEmptyLines := filter (fun l => l ≠ []) lines in
  let nonEmpty := length nonEmptyLines in
  let hashPrefixCount :=
    length (filter (fun l => is_Some (matchHashlinePrefix l)) nonEmptyLines) in
  let diffPlusCount :=
    length (filter (fun l => is_Some (matchDiffPlus l)) nonEmptyLines) in
  if nonEmpty =? 0 then lines
  else
    let stripHash := (0 <? hashPrefixCount) && (nonEmpty <=? 2 * hashPrefixCount) in
    let stripPlus :=
      negb stripHash && (0 <? diffPlusCount) && (nonEmpty <=? 2 * diffPlusCount) in
    if negb stripHash && negb stripPlus then lines
    else
      map (fun l =>
             if stripHash then default l (matchHashlinePrefix l)
             else if stripPlus then default l (matchDiffPlus l)
             else l) lines.

End Hashline.
Export Hashline.

(* ===================================================================== *)
(** ** hashline.ts: fingerprints and anchors *)
(* ===================================================================== *)

Module Fingerprint.

Definition HASH_LEN : nat := 2.
Definition RADIX : nat := 16.
Definition HASH_MOD : nat := RADIX ^ HASH_LEN.

(** [i.toString(16)] *)
Definition hexDigitChar (d : nat) : N :=
  if d <? 10 then (48 + N.of_nat d)%N else (87 + N.of_nat d)%N.

Fixpoint hexFuel (fuel n : nat) (acc : jsstring) : jsstring :=
  match fuel with
  | 0 => acc
  | S f =>
      let acc' := hexDigitChar (n mod 16) :: acc in
      if n / 16 =? 0 then acc' else hexFuel f (n / 16) acc'
  end.

Definition toStringRadix16 (n : nat) : jsstring := hexFuel (S n) n [].

(** [s.padStart(len, "0")] *)
Definition padStart0 (len : nat) (s : jsstring) : jsstring :=
  replicate (len - length s) 48%N ++ s.

Definition DICT : list jsstring :=
  map (fun i => padStart0 HASH_LEN (toStringRadix16 i)) (seq 0 HASH_MOD).

(** The hash is an unsigned 32-bit number, [%] is the remainder of the
    truncated division. *)
(** [if (line.endsWith("\r")) line = line.slice(0, -1)] *)
Definition stripTrailingCR (line : jsstring) : jsstring :=
  if endsWith [CR] line then take (length line - 1) line else line.

Definition computeLineHash (_idx : nat) (line : jsstring) : jsstring :=
  let line := stripTrailingCR line in
  let line := removeWhitespace line in
  DICT !!! Z.to_nat (Z.rem (XXH.xxHash32 line) (Z.of_nat HASH_MOD)).

(** [`${num}:${hash}`] *)
Definition formatRef (num : nat) (hash : jsstring) : jsstring :=
  numberToString num ++ [58%N] ++ hash.

(** One row of [formatHashLines]: [`${num}:${hash}|${line}`]. *)
Definition formatHashLine (num : nat) (line : jsstring) : jsstring :=
  formatRef num (computeLineHash num line) ++ [124%N] ++ line.

Fixpoint formatRows (lines : list jsstring) (num : nat) : list jsstring :=
  match lines with
  | [] => []
  | l :: r => formatHashLine num l :: formatRows r (S num)
  end.

Definition formatHashLines (content : jsstring) (startLine : nat) : jsstring :=
  joinLines (formatRows (splitLines content) startLine).

Record LineRef := mkRef { line : nat; hash : jsstring }.

Inductive ParseError :=
| InvalidLineReference (ref : jsstring)
| LineNumberBelowOne (line : nat) (ref : jsstring).

(** [s.replace(re, "")] for an expression that has to match up to the end
    of the string: the string is cut at the first position whose suffix
    [m] accepts. *)
Fixpoint cutWhere (m : jsstring -> bool) (s : jsstring) : jsstring :=
  if m s then []
  else match s with
       | [] => []
       | c :: r => c :: cutWhere m r
       end.

Definition noLineTerminator (s : jsstring) : bool :=
  forallb (fun c => negb (isLineTerminator c)) s.

(** [/\|.*$/] at the start of [s] *)
Definition pipeToEnd (s : jsstring) : bool :=
  match s with
  | c :: r => (c =? 124)%N && noLineTerminator r
  | [] => false
  end.

(** [/ {2}.*$/] at the start of [s] *)
Definition twoSpacesToEnd (s : jsstring) : bool :=
  match s with
  | c :: d :: r => (c =? 32)%N && (d =? 32)%N && noLineTerminator r
  | _ => false
  end.

(** [s.replace(/\s*:\s*/, ":")]: the first colon with the whitespace around
    it. *)
Definition normalizeColon (s : jsstring) : jsstring :=
  match indexOf [58%N] s with
  | None => s
  | Some c => trimEnd (take c s) ++ [58%N] ++ trimStart (drop (S c) s)
  end.

(** [/^(\d+):([0-9a-zA-Z]{1,16})$/] *)
Definition strictMatch (s : jsstring) : option (jsstring * jsstring) :=
  let '(ds, r1) := spanWhile isDigit s in
  match ds, r1 with
  | _ :: _, c :: r2 =>
      if (c =? 58)%N && forallb isAlnum r2 && (1 <=? length r2) && (length r2 <=? 16)
      then Some (ds, r2) else None
  | _, _ => None
  end.

(** [/^(\d+):([0-9a-zA-Z]{2})/] *)
Definition prefixMatch (s : jsstring) : option (jsstring * jsstring) :=
  let '(ds, r1) := spanWhile isDigit s in
  match ds, r1 with
  | _ :: _, c :: h1 :: h2 :: _ =>
      if (c =? 58)%N && isAlnum h1 && isAlnum h2 then Some (ds, [h1; h2]) else None
  | _, _ => None
  end.

Definition parseLineRef (ref : jsstring) : ParseError + LineRef :=
  let cleaned := trim (cutWhere twoSpacesToEnd (cutWhere pipeToEnd ref)) in
  let normalized := normalizeColon cleaned in
  let matched :=
    match strictMatch normalized with
    | Some m => Some m
    | None => prefixMatch normalized
    end in
  match matched with
  | None => inl (InvalidLineReference ref)
  | Some (ds, h) =>
      let line := parseDigits ds in
      if line <? 1 then inl (LineNumberBelowOne line ref)
      else inr (mkRef line h)
  end.

End Fingerprint.
Export Fingerprint.

(* ===================================================================== *)
(** ** hashline.ts: the batch validator and applier *)
(* ===================================================================== *)

Module Engine.

(** [types.ts] *)
Inductive HashlineEdit :=
| SetLine (anchor new_text : jsstring)
| ReplaceLines (start_anchor end_anchor new_text : jsstring)
| InsertAfter (anchor text : jsstring)
| Replace (old_text new_text : jsstring) (all : option bool).

Record HashMismatch :=
  mkMismatch { mline : nat; expected : jsstring; actual : jsstring }.

Inductive ParsedRefs :=
| Single (ref : LineRef)
| Range (start end_ : LineRef)
| InsertAfterRef (after : LineRef).

Record Parsed := mkParsed { spec : ParsedRefs; dstLines : list jsstring }.

Record NoopEdit :=
  mkNoop { editIndex : nat; loc : jsstring; currentContent : jsstring }.

(** Every [throw] of the engine, one constructor per site.  The message of
    an [Error] is a rendering of the constructor's arguments. *)
Inductive Error :=
| LineRefError (e : ParseError)
| ReplaceInAnchorBatch
| LineDoesNotExist (line total : nat)
| InsertAfterEmpty
| RangeStartAfterEnd (startLine endLine : nat)
| HashlineMismatchError (mismatches : list HashMismatch) (fileLines : list jsstring)
| OldTextEmpty
| AmbiguousOccurrences (occurrences : nat) (previews : list jsstring) (message : jsstring)
| ReplaceOldTextEmpty
| NoChanges (noops : list NoopEdit).

Definition bindE {A B} (x : Error + A) (k : A -> Error + B) : Error + B :=
  match x with
  | inl e => inl e
  | inr a => k a
  end.

Notation "'let*' x := e 'in' k" := (bindE e (fun x => k))
  (at level 10, x pattern, e at level 100, k at level 200).

(** [l.map(f)] for an [f] that may throw: the first exception ends it. *)
Fixpoint mapE {A B} (f : A -> Error + B) (l : list A) : Error + list B :=
  match l with
  | [] => inr []
  | x :: r =>
      let* y := f x in
      let* ys := mapE f r in
      inr (y :: ys)
  end.

Definition liftParse (r : ParseError + LineRef) : Error + LineRef :=
  match r with
  | inl e => inl (LineRefError e)
  | inr x => inr x
  end.

Definition parseHashlineEdit (edit : HashlineEdit) : Error + (ParsedRefs * jsstring) :=
  match edit with
  | SetLine anchor new_text =>
      let* ref := liftParse (parseLineRef anchor) in
      inr (Single ref, new_text)
  | ReplaceLines start_anchor end_anchor new_text =>
      let* start := liftParse (parseLineRef start_anchor) in
      match end_anchor with
      | [] => inr (Single start, new_text)
      | _ =>
          let* end_ := liftParse (parseLineRef end_anchor) in
          inr (if line start =? line end_ then Single start else Range start end_,
               new_text)
      end
  | Replace _ _ _ => inl ReplaceInAnchorBatch
  | InsertAfter anchor text =>
      let* after := liftParse (parseLineRef anchor) in
      inr (InsertAfterRef after, text)
  end.

Definition parseEdit (edit : HashlineEdit) : Error + Parsed :=
  let* (spec, dst) := parseHashlineEdit edit in
  inr (mkParsed spec (stripNewLinePrefixes (splitDstLines dst))).

(** A stable sort by a JavaScript comparator: [x] goes before the first
    element it does not follow. *)
Fixpoint insertBy {A} (cmp : A -> A -> Z) (x : A) (l : list A) : list A :=
  match l with
  | [] => [x]
  | y :: r => if (0 <? cmp x y)%Z then y :: insertBy cmp x r else x :: l
  end.

Fixpoint sortBy {A} (cmp : A -> A -> Z) (l : list A) : list A :=
  match l with
  | [] => []
  | x :: r => insertBy cmp x (sortBy cmp r)
  end.

(** [l.slice(a, b)] and [l.splice(start, deleteCount, ...items)] *)
Definition slice {A} (a b : nat) (l : list A) : list A := take (b - a) (drop a l).

Definition splice {A} (start deleteCount : nat) (items l : list A) : list A :=
  take start l ++ items ++ drop (start + deleteCount) l.

(** *** restoreOldWrappedLines *)

Record Candidate :=
  mkCandidate { cstart : nat; clen : nat; replacement : jsstring; canon : jsstring }.

Definition canonBuckets (oldLines : list jsstring) : gmap (list N) (jsstring * nat) :=
  fold_left
    (fun m l =>
       let c := stripAllWhitespace l in
       match m !! c with
       | Some (l0, n) => <[c := (l0, S n)]> m
       | None => <[c := (l, 1)]> m
       end)
    oldLines ∅.

Definition wrapCandidates (canonToOld : gmap (list N) (jsstring * nat))
    (newLines : list jsstring) : list Candidate :=
  flat_map
    (fun start =>
       flat_map
         (fun len =>
            if start + len <=? length newLines then
              let canonSpan :=
                stripAllWhitespace (concat (slice start (start + len) newLines)) in
              match canonToOld !! canonSpan with
              | Some (l, n) =>
                  if (n =? 1) && (6 <=? length canonSpan)
                  then [mkCandidate start len l canonSpan] else []
              | None => []
              end
            else [])
         (seq 2 9))
    (seq 0 (length newLines)).

Definition restoreOldWrappedLines (oldLines newLines : list jsstring) : list jsstring :=
  if (length oldLines =? 0) || (length newLines <? 2) then newLines
  else
    let candidates := wrapCandidates (canonBuckets oldLines) newLines in
    if length candidates =? 0 then newLines
    else
      let canonCount (c : jsstring) :=
        length (filter (fun d => canon d = c) candidates) in
      let uniqueCandidates := filter (fun c => canonCount (canon c) = 1) candidates in
      if length uniqueCandidates =? 0 then newLines
      else
        let sorted :=
          sortBy (fun a b => (Z.of_nat (cstart b) - Z.of_nat (cstart a))%Z)
                 uniqueCandidates in
        fold_left (fun out c => splice (cstart c) (clen c) [replacement c] out)
                  sorted newLines.

(** *** Validation *)

Definition touchedBy (s : ParsedRefs) : gset nat :=
  match s with
  | Single ref => {[line ref]}
  | Range start end_ => list_to_set (seq (line start) (line end_ + 1 - line start))
  | InsertAfterRef after => {[line after]}
  end.

Definition collectExplicitlyTouchedLines (parsed : list Parsed) : gset nat :=
  fold_left (fun touched p => touched ∪ touchedBy (spec p)) parsed ∅.

(** The fingerprint index: [uniqueLineByHash] and [seenDuplicateHashes]
    after the lines from index [i] on. *)
Fixpoint hashIndexLoop (lines : list jsstring) (i : nat)
    (uniqueLineByHash : gmap (list N) nat) (seenDuplicateHashes : gset (list N))
  : gmap (list N) nat * gset (list N) :=
  match lines with
  | [] => (uniqueLineByHash, seenDuplicateHashes)
  | l :: r =>
      let lineNo := i + 1 in
      let hash := computeLineHash lineNo l in
      if bool_decide (hash ∈ seenDuplicateHashes)
      then hashIndexLoop r (S i) uniqueLineByHash seenDuplicateHashes
      else if bool_decide (is_Some (uniqueLineByHash !! hash))
      then hashIndexLoop r (S i) (delete hash uniqueLineByHash)
                         ({[hash]} ∪ seenDuplicateHashes)
      else hashIndexLoop r (S i) (<[hash := lineNo]> uniqueLineByHash)
                         seenDuplicateHashes
  end.

Definition uniqueLineByHash (fileLines : list jsstring) : gmap (list N) nat :=
  fst (hashIndexLoop fileLines 0 ∅ ∅).

Definition buildMismatch (fileLines : list jsstring) (ref : LineRef) (ln : nat)
  : HashMismatch :=
  mkMismatch ln (hash ref) (computeLineHash ln (fileLines !!! (ln - 1))).

Inductive RefStatus := RefOk (relocated : bool) | RefFailed.

(** The anchor after the call ([ref.line] may have been reassigned) and
    the mismatches recorded so far. *)
Definition validateOrRelocateRef (fileLines : list jsstring)
    (uniq : gmap (list N) nat) (ref : LineRef) (mismatches : list HashMismatch)
  : Error + (RefStatus * LineRef * list HashMismatch) :=
  if (line ref <? 1) || (length fileLines <? line ref)
  then inl (LineDoesNotExist (line ref) (length fileLines))
  else
    let expected := toLowerCase (hash ref) in
    let actualHash := computeLineHash (line ref) (fileLines !!! (line ref - 1)) in
    if streq actualHash expected then inr (RefOk false, ref, mismatches)
    else
      match uniq !! expected with
      | None =>
          inr (RefFailed, ref,
               mismatches ++ [mkMismatch (line ref) (hash ref) actualHash])
      | Some relocated =>
          inr (RefOk true, mkRef relocated (hash ref), mismatches)
      end.

Definition validateEdit (fileLines : list jsstring) (uniq : gmap (list N) nat)
    (p : Parsed) (mismatches : list HashMismatch)
  : Error + (Parsed * list HashMismatch) :=
  match spec p with
  | Single ref =>
      let* (_, ref', ms) := validateOrRelocateRef fileLines uniq ref mismatches in
      inr (mkParsed (Single ref') (dstLines p), ms)
  | InsertAfterRef after =>
      if length (dstLines p) =? 0 then inl InsertAfterEmpty
      else
        let* (_, after', ms) := validateOrRelocateRef fileLines uniq after mismatches in
        inr (mkParsed (InsertAfterRef after') (dstLines p), ms)
  | Range start end_ =>
      if line end_ <? line start
      then inl (RangeStartAfterEnd (line start) (line end_))
      else
        let originalStart := line start in
        let originalEnd := line end_ in
        let originalCount := (Z.of_nat originalEnd - Z.of_nat originalStart + 1)%Z in
        let* (startStatus, start', ms1) :=
          validateOrRelocateRef fileLines uniq start mismatches in
        let* (endStatus, end', ms2) :=
          validateOrRelocateRef fileLines uniq end_ ms1 in
        match startStatus, endStatus with
        | RefOk startRelocated, RefOk endRelocated =>
            let relocatedCount := (Z.of_nat (line end') - Z.of_nat (line start') + 1)%Z in
            let changedByRelocation := startRelocated || endRelocated in
            let invalidRange := line end' <? line start' in
            let scopeChanged := negb (relocatedCount =? originalCount)%Z in
            if changedByRelocation && (invalidRange || scopeChanged) then
              let start'' := mkRef originalStart (hash start') in
              let end'' := mkRef originalEnd (hash end') in
              inr (mkParsed (Range start'' end'') (dstLines p),
                   ms2 ++ [buildMismatch fileLines start'' originalStart;
                           buildMismatch fileLines end'' originalEnd])
            else inr (mkParsed (Range start' end') (dstLines p), ms2)
        | _, _ => inr (mkParsed (Range start' end') (dstLines p), ms2)
        end
  end.

Fixpoint validateAll (fileLines : list jsstring) (uniq : gmap (list N) nat)
    (parsed : list Parsed) (mismatches : list HashMismatch)
  : Error + (list Parsed * list HashMismatch) :=
  match parsed with
  | [] => inr ([], mismatches)
  | p :: r =>
      let* (p', ms) := validateEdit fileLines uniq p mismatches in
      let* (r', ms') := validateAll fileLines uniq r ms in
      inr (p' :: r', ms')
  end.

(** *** Deduplication and ordering *)

Definition editKey (p : Parsed) : jsstring :=
  let lineKey :=
    match spec p with
    | Single ref => lit "s:" ++ numberToString (line ref)
    | Range start end_ =>
        lit "r:" ++ numberToString (line start) ++ lit ":" ++ numberToString (line end_)
    | InsertAfterRef after => lit "i:" ++ numberToString (line after)
    end in
  lineKey ++ lit "|" ++ joinLines (dstLines p).

Fixpoint dedup (seenEditKeys : gset (list N)) (parsed : list Parsed) : list Parsed :=
  match parsed with
  | [] => []
  | p :: r =>
      let dstKey := editKey p in
      if bool_decide (dstKey ∈ seenEditKeys) then dedup seenEditKeys r
      else p :: dedup ({[dstKey]} ∪ seenEditKeys) r
  end.

Record Annotated :=
  mkAnnotated { aspec : ParsedRefs; adstLines : list jsstring; idx : nat;
                sortLine : nat; precedence : nat }.

Definition annotate (i : nat) (p : Parsed) : Annotated :=
  match spec p with
  | Single ref => mkAnnotated (spec p) (dstLines p) i (line ref) 0
  | Range _ end_ => mkAnnotated (spec p) (dstLines p) i (line end_) 0
  | InsertAfterRef after => mkAnnotated (spec p) (dstLines p) i (line after) 1
  end.

(** [b.sortLine - a.sortLine || a.precedence - b.precedence || a.idx - b.idx] *)
Definition bottomUp (a b : Annotated) : Z :=
  let d1 := (Z.of_nat (sortLine b) - Z.of_nat (sortLine a))%Z in
  let d2 := (Z.of_nat (precedence a) - Z.of_nat (precedence b))%Z in
  let d3 := (Z.of_nat (idx a) - Z.of_nat (idx b))%Z in
  if negb (d1 =? 0)%Z then d1 else if negb (d2 =? 0)%Z then d2 else d3.

(** *** Application *)

Record Merge :=
  mkMerge { startLine : nat; deleteCount : nat; newLines : list jsstring }.

(** [fileLines] is the array as the edits applied so far have left it. *)
Definition maybeExpandSingleLineMerge (fileLines : list jsstring)
    (explicitlyTouchedLines : gset nat) (ln : nat) (dst : list jsstring)
  : option Merge :=
  match dst with
  | [newLine] =>
      if (ln <? 1) || (length fileLines <? ln) then None
      else
        let newCanon := stripAllWhitespace newLine in
        let newCanonForMergeOps := stripMergeOperatorChars newCanon in
        if length newCanon =? 0 then None
        else
          let orig := fileLines !!! (ln - 1) in
          let origCanon := stripAllWhitespace orig in
          let origCanonForMatch := stripTrailingContinuationTokens origCanon in
          let origCanonForMergeOps := stripMergeOperatorChars origCanon in
          let origLooksLikeContinuation :=
            length origCanonForMatch <? length origCanon in
          if length origCanon =? 0 then None
          else
            let nextIdx := ln in
            let withNext :=
              if origLooksLikeContinuation && (nextIdx <? length fileLines)
                 && negb (bool_decide (ln + 1 ∈ explicitlyTouchedLines))
              then
                let next := fileLines !!! nextIdx in
                let nextCanon := stripAllWhitespace next in
                match indexOf origCanonForMatch newCanon, indexOf nextCanon newCanon with
                | Some a, Some b =>
                    if (a <? b)
                       && (length newCanon <=? length origCanon + length nextCanon + 32)
                    then Some (mkMerge ln 2 [newLine]) else None
                | _, _ => None
                end
              else None in
            match withNext with
            | Some m => Some m
            | None =>
                if (2 <=? ln) && negb (bool_decide (ln - 1 ∈ explicitlyTouchedLines))
                then
                  let prev := fileLines !!! (ln - 2) in
                  let prevCanon := stripAllWhitespace prev in
                  let prevCanonForMatch := stripTrailingContinuationTokens prevCanon in
                  let prevLooksLikeContinuation :=
                    length prevCanonForMatch <? length prevCanon in
                  if negb prevLooksLikeContinuation then None
                  else
                    match indexOf (stripMergeOperatorChars prevCanonForMatch)
                                  newCanonForMergeOps,
                          indexOf origCanonForMergeOps newCanonForMergeOps with
                    | Some a, Some b =>
                        if (a <? b)
                           && (length newCanon <=? length prevCanon + length origCanon + 32)
                        then Some (mkMerge (ln - 1) 2 [newLine]) else None
                    | _, _ => None
                    end
                else None
            end
  | _ => None
  end.

Record ApplyState :=
  mkState { fileLines : list jsstring; firstChangedLine : option nat;
            noopEdits : list NoopEdit }.

Definition trackFirstChanged (ln : nat) (first : option nat) : option nat :=
  match first with
  | None => Some ln
  | Some f => if ln <? f then Some ln else Some f
  end.

(** The confusable-hyphen step shared by every replacement. *)
Definition hyphenFallback (origLines newLines : list jsstring) : list jsstring :=
  if streq (joinLines origLines) (joinLines newLines)
     && existsb hasConfusableHyphen origLines
  then normalizeConfusableHyphensInLines newLines
  else newLines.

(** The replacement lines of an ordinary replace of the lines
    [startLn..endLn]: echo stripping, wrapped-line and indent restoration,
    hyphen fallback. *)
Definition resolveReplacement (originalFileLines origLines : list jsstring)
    (startLn endLn : nat) (dst : list jsstring) : list jsstring :=
  let stripped := stripRangeBoundaryEcho originalFileLines startLn endLn dst in
  let stripped := restoreOldWrappedLines origLines stripped in
  let newLines := restoreIndentForPairedReplacement origLines stripped in
  hyphenFallback origLines newLines.

Definition replaceOrNoop (st : ApplyState) (i : nat) (ref : LineRef)
    (origLines nextLines : list jsstring) (start count : nat) : ApplyState :=
  if streq (joinLines origLines) (joinLines nextLines) then
    mkState (fileLines st) (firstChangedLine st)
            (noopEdits st ++ [mkNoop i (formatRef (line ref) (hash ref)) (joinLines origLines)])
  else
    mkState (splice (start - 1) count nextLines (fileLines st))
            (trackFirstChanged start (firstChangedLine st))
            (noopEdits st).

Definition applyEdit (originalFileLines : list jsstring)
    (explicitlyTouchedLines : gset nat) (st : ApplyState) (a : Annotated)
  : ApplyState :=
  match aspec a with
  | Single ref =>
      match maybeExpandSingleLineMerge (fileLines st) explicitlyTouchedLines
                                       (line ref) (adstLines a) with
      | Some merged =>
          let origLines :=
            slice (startLine merged - 1) (startLine merged - 1 + deleteCount merged)
                  originalFileLines in
          let nextLines :=
            restoreIndentForPairedReplacement [default [] (head origLines)]
                                              (newLines merged) in
          let nextLines := hyphenFallback origLines nextLines in
          replaceOrNoop st (idx a) ref origLines nextLines
                        (startLine merged) (deleteCount merged)
      | None =>
          let origLines := slice (line ref - 1) (line ref) originalFileLines in
          let newLines :=
            resolveReplacement originalFileLines origLines (line ref) (line ref)
                               (adstLines a) in
          replaceOrNoop st (idx a) ref origLines newLines (line ref) 1
      end
  | Range start end_ =>
      let count := line end_ - line start + 1 in
      let origLines :=
        slice (line start - 1) (line start - 1 + count) originalFileLines in
      let newLines :=
        resolveReplacement originalFileLines origLines (line start) (line end_)
                           (adstLines a) in
      replaceOrNoop st (idx a) start origLines newLines (line start) count
  | InsertAfterRef after =>
      let anchorLine := originalFileLines !!! (line after - 1) in
      let inserted := stripInsertAnchorEchoAfter anchorLine (adstLines a) in
      if length inserted =? 0 then
        mkState (fileLines st) (firstChangedLine st)
                (noopEdits st ++ [mkNoop (idx a) (formatRef (line after) (hash after))
                                         (originalFileLines !!! (line after - 1))])
      else
        mkState (splice (line after) 0 inserted (fileLines st))
                (trackFirstChanged (line after + 1) (firstChangedLine st))
                (noopEdits st)
  end.

(** The advisory warning carries the two numbers its text shows. *)
Record Warning := mkWarning { diffLineCount : nat; operations : nat }.

Fixpoint countDiffering (a b : list jsstring) : nat :=
  match a, b with
  | x :: a', y :: b' => (if streq x y then 0 else 1) + countDiffering a' b'
  | _, _ => 0
  end.

Record ApplyResult :=
  mkResult { content : jsstring; resFirstChangedLine : option nat;
             warnings : list Warning; resNoopEdits : list NoopEdit }.

(** The warning about unintended reformatting, when it is due. *)
Definition reformatWarnings (originalFileLines fileLines : list jsstring)
    (nEdits : nat) : list Warning :=
  let lenDiff :=
    Z.to_nat (Z.abs (Z.of_nat (length fileLines)
                     - Z.of_nat (length originalFileLines))) in
  let diffLineCount := lenDiff + countDiffering fileLines originalFileLines in
  if nEdits * 4 <? diffLineCount then [mkWarning diffLineCount nEdits] else [].

(** The part of [applyHashlineEdits] after [edits.map(parseHashlineEdit)]
    and the validation loop. *)
Definition applyValidated (originalFileLines : list jsstring) (nEdits : nat)
    (parsed : list Parsed) : ApplyResult :=
  let explicitlyTouchedLines := collectExplicitlyTouchedLines parsed in
  let parsed := dedup ∅ parsed in
  let annotated := sortBy bottomUp (imap annotate parsed) in
  let st :=
    fold_left (applyEdit originalFileLines explicitlyTouchedLines) annotated
              (mkState originalFileLines None []) in
  mkResult (joinLines (fileLines st)) (firstChangedLine st)
           (reformatWarnings originalFileLines (fileLines st) nEdits) (noopEdits st).

Definition applyHashlineEdits (content : jsstring) (edits : list HashlineEdit)
  : Error + ApplyResult :=
  if length edits =? 0 then inr (mkResult content None [] [])
  else
    let fileLines := splitLines content in
    let* parsed := mapE parseEdit edits in
    let* (parsed, mismatches) :=
      validateAll fileLines (uniqueLineByHash fileLines) parsed [] in
    if 0 <? length mismatches then inl (HashlineMismatchError mismatches fileLines)
    else inr (applyValidated fileLines (length edits) parsed).

End Engine.
Export Engine.

(* ===================================================================== *)
(** ** normalize.ts *)
(* ===================================================================== *)

Module Normalize.

Inductive LineEnding := CRLF | LFOnly.

Definition detectLineEnding (content : jsstring) : LineEnding :=
  match indexOf [LF] content with
  | None => LFOnly
  | Some lfIdx =>
      match indexOf [CR; LF] content with
      | None => LFOnly
      | Some crlfIdx => if crlfIdx <? lfIdx then CRLF else LFOnly
      end
  end.

(** [text.replace(/\r\n/g, "\n")] *)
Fixpoint replaceCRLF (s : jsstring) : jsstring :=
  match s with
  | [] => []
  | c :: r =>
      match r with
      | d :: r' =>
          if (c =? CR)%N && (d =? LF)%N then LF :: replaceCRLF r'
          else c :: replaceCRLF r
      | [] => [c]
      end
  end.

(** [text.replace(/\r/g, "\n")] *)
Definition replaceCR (s : jsstring) : jsstring :=
  map (fun c => if (c =? CR)%N then LF else c) s.

Definition normalizeToLF (text : jsstring) : jsstring := replaceCR (replaceCRLF text).

Definition restoreLineEndings (text : jsstring) (ending : LineEnding) : jsstring :=
  match ending with
  | CRLF => flat_map (fun c => if (c =? LF)%N then [CR; LF] else [c]) text
  | LFOnly => text
  end.

Record BomResult := mkBom { bom : jsstring; text : jsstring }.

Definition stripBom (content : jsstring) : BomResult :=
  if startsWith [BOM] content then mkBom [BOM] (drop 1 content)
  else mkBom [] content.

Definition isSpaceOrTab (c : N) : bool := ((c =? 32) || (c =? 9))%N.

Definition countLeadingWhitespace (l : jsstring) : nat :=
  length (fst (spanWhile isSpaceOrTab l)).

Definition getLeadingWhitespace (l : jsstring) : jsstring :=
  take (countLeadingWhitespace l) l.

Definition detectIndentChar (t : jsstring) : N :=
  default 32%N
    (head (flat_map (fun l => take 1 (getLeadingWhitespace l)) (splitLines t))).

(** The character classes are those of the source text. *)
Definition isQuoteLike (c : N) : bool :=
  ((c =? 34) || (c =? 8222) || (c =? 8223) || (c =? 171) || (c =? 187))%N.

Definition isApostropheLike (c : N) : bool :=
  ((c =? 39) || (c =? 8218) || (c =? 8219) || (c =? 96) || (c =? 180))%N.

Definition isDashLike (c : N) : bool :=
  ((8208 <=? c) && (c <=? 8212) || (c =? 8722))%N.

(** [s.replace(/[ \t]+/g, " ")] *)
Fixpoint collapseBlanks (s : jsstring) : jsstring :=
  match s with
  | [] => []
  | c :: r =>
      if isSpaceOrTab c then
        match r with
        | d :: _ => if isSpaceOrTab d then collapseBlanks r else 32%N :: collapseBlanks r
        | [] => [32%N]
        end
      else c :: collapseBlanks r
  end.

Definition normalizeForFuzzy (l : jsstring) : jsstring :=
  let trimmed := trim l in
  if length trimmed =? 0 then []
  else
    collapseBlanks
      (map (fun c => if isDashLike c then 45%N else c)
         (map (fun c => if isApostropheLike c then 39%N else c)
            (map (fun c => if isQuoteLike c then 34%N else c) trimmed))).

(** Euclid's loop; the second argument decreases, so it bounds the number
    of rounds. *)
Fixpoint gcdFuel (fuel x y : nat) : nat :=
  match fuel with
  | 0 => x
  | S f => if y =? 0 then x else gcdFuel f y (x mod y)
  end.

Definition gcd (a b : nat) : nat := gcdFuel (S b) a b.

Record IndentProfile :=
  mkProfile { plines : list jsstring; indentCounts : list nat; pmin : nat;
              pchar : option N; spaceOnly : bool; tabOnly : bool; mixed : bool;
              unit_ : nat; nonEmptyCount : nat }.

Record ProfileAcc :=
  mkAcc { accCounts : list nat; accMin : option nat; accChar : option N;
          accSpaceOnly : bool; accTabOnly : bool; accMixed : bool; accNonEmpty : nat }.

Definition profileStep (acc : ProfileAcc) (l : jsstring) : ProfileAcc :=
  if length (trim l) =? 0 then acc
  else
    let indent := getLeadingWhitespace l in
    let n := length indent in
    let hasSpace := includesChar 32%N indent in
    let hasTab := includesChar 9%N indent in
    let '(ch', mixed') :=
      match head indent with
      | Some currentChar =>
          match accChar acc with
          | None => (Some currentChar, false)
          | Some c => (Some c, negb (c =? currentChar)%N)
          end
      | None => (accChar acc, false)
      end in
    mkAcc (accCounts acc ++ [n])
          (Some (match accMin acc with Some m => Nat.min m n | None => n end))
          ch'
          (accSpaceOnly acc && negb hasTab)
          (accTabOnly acc && negb hasSpace)
          (accMixed acc || (hasSpace && hasTab) || mixed')
          (S (accNonEmpty acc)).

Definition buildIndentProfile (t : jsstring) : IndentProfile :=
  let lines := splitLines t in
  let acc := fold_left profileStep lines (mkAcc [] None None true true false 0) in
  let unit0 :=
    if accSpaceOnly acc && (0 <? accNonEmpty acc) then
      fold_left (fun current count =>
                   if count =? 0 then current
                   else if current =? 0 then count else gcd current count)
                (accCounts acc) 0
    else 0 in
  let unit1 := if accTabOnly acc && (0 <? accNonEmpty acc) then 1 else unit0 in
  mkProfile lines (accCounts acc) (default 0 (accMin acc)) (accChar acc)
            (accSpaceOnly acc) (accTabOnly acc) (accMixed acc) unit1 (accNonEmpty acc).

Definition convertLeadingTabsToSpaces (t : jsstring) (spacesPerTab : nat) : jsstring :=
  if spacesPerTab =? 0 then t
  else
    joinLines
      (map (fun l =>
              let trimmed := trimStart l in
              if length trimmed =? 0 then l
              else
                let leading := getLeadingWhitespace l in
                if negb (includesChar 9%N leading) || includesChar 32%N leading then l
                else replicate (length leading * spacesPerTab) 32%N ++ trimmed)
           (splitLines t)).

Definition isBlankLine (l : jsstring) : bool := length (trim l) =? 0.

(** The pairs of lines both profiles have at the same index, neither of
    them blank. *)
Fixpoint pairedLines (oldLines actualLines : list jsstring) : list (jsstring * jsstring) :=
  match oldLines, actualLines with
  | o :: os, a :: as_ =>
      if isBlankLine o || isBlankLine a then pairedLines os as_
      else (o, a) :: pairedLines os as_
  | _, _ => []
  end.

Fixpoint sameTrimmed (a b : list jsstring) : bool :=
  match a, b with
  | x :: a', y :: b' => streq (trim x) (trim y) && sameTrimmed a' b'
  | _, _ => true
  end.

Definition adjustIndentation (oldText actualText newText : jsstring) : jsstring :=
  if streq oldText actualText then newText
  else
    let oldLines := splitLines oldText in
    let newLines := splitLines newText in
    if (length oldLines =? length newLines) && sameTrimmed oldLines newLines then newText
    else
      let oldProfile := buildIndentProfile oldText in
      let actualProfile := buildIndentProfile actualText in
      let newProfile := buildIndentProfile newText in
      if (nonEmptyCount newProfile =? 0) || (nonEmptyCount oldProfile =? 0)
         || (nonEmptyCount actualProfile =? 0) then newText
      else if mixed oldProfile || mixed actualProfile || mixed newProfile then newText
      else
        let charsDiffer (a b : option N) :=
          match a, b with
          | Some x, Some y => negb (x =? y)%N
          | _, _ => false
          end in
        if charsDiffer (pchar oldProfile) (pchar actualProfile) then
          if spaceOnly actualProfile && tabOnly oldProfile && tabOnly newProfile
             && (0 <? unit_ actualProfile)
          then
            let consistent :=
              forallb
                (fun '(oldLine, actualLine) =>
                   let oldIndent := getLeadingWhitespace oldLine in
                   let actualIndent := getLeadingWhitespace actualLine in
                   (length oldIndent =? 0)
                   || (length actualIndent =? length oldIndent * unit_ actualProfile))
                (pairedLines (plines oldProfile) (plines actualProfile)) in
            if consistent then convertLeadingTabsToSpaces newText (unit_ actualProfile)
            else newText
          else newText
        else
          let deltas :=
            map (fun '(oldLine, actualLine) =>
                   (Z.of_nat (countLeadingWhitespace actualLine)
                    - Z.of_nat (countLeadingWhitespace oldLine))%Z)
                (pairedLines (plines oldProfile) (plines actualProfile)) in
          match deltas with
          | [] => newText
          | delta :: _ =>
              if negb (forallb (fun v => (v =? delta)%Z) deltas) then newText
              else if (delta =? 0)%Z then newText
              else if charsDiffer (pchar newProfile) (pchar actualProfile) then newText
              else
                let indentChar :=
                  match pchar actualProfile, pchar oldProfile with
                  | Some c, _ => c
                  | None, Some c => c
                  | None, None => detectIndentChar actualText
                  end in
                joinLines
                  (map (fun l =>
                          if isBlankLine l then l
                          else if (0 <? delta)%Z
                          then replicate (Z.to_nat delta) indentChar ++ l
                          else
                            let toRemove :=
                              Nat.min (Z.to_nat (- delta)) (countLeadingWhitespace l) in
                            drop toRemove l)
                       (splitLines newText))
          end.

End Normalize.
Export Normalize.

(* ===================================================================== *)
(** ** fuzzy.ts *)
(* ===================================================================== *)

Module Fuzzy.

(** Scores are IEEE 754 binary64 numbers, as in JavaScript. *)
Definition floatOfNat (n : nat) : float := PrimFloat.of_uint63 (Uint63.of_Z (Z.of_nat n)).

Definition DEFAULT_FUZZY_THRESHOLD : float := 0.95%float.
Definition FALLBACK_THRESHOLD : float := 0.8%float.
Definition OCCURRENCE_PREVIEW_CONTEXT : nat := 5.
Definition OCCURRENCE_PREVIEW_MAX_LEN : nat := 80.

Definition fge (a b : float) : bool := PrimFloat.leb b a.
Definition fgt (a b : float) : bool := PrimFloat.ltb b a.

Record FuzzyMatch :=
  mkMatch { actualText : jsstring; startIndex : nat; startLine : nat;
            confidence : float }.

Record MatchOutcome :=
  mkOutcome { match_ : option FuzzyMatch; closest : option FuzzyMatch;
              occurrences : option nat; occurrenceLines : option (list nat);
              occurrencePreviews : option (list jsstring);
              fuzzyMatches : option nat; dominantFuzzy : option bool }.

Definition emptyOutcome : MatchOutcome := mkOutcome None None None None None None None.

(** One row of the distance table: [prev] starts at [prev[j-1]], [left]
    is [curr[j-1]]. *)
Fixpoint levRow (aCode : N) (b : jsstring) (prev : list nat) (left : nat) : list nat :=
  match b, prev with
  | bc :: b', pdiag :: ((pj :: _) as prev') =>
      let cost := if (aCode =? bc)%N then 0 else 1 in
      let deletion := pj + 1 in
      let insertion := left + 1 in
      let substitution := pdiag + cost in
      let v := Nat.min (Nat.min deletion insertion) substitution in
      v :: levRow aCode b' prev' v
  | _, _ => []
  end.

Definition levenshteinDistance (a b : jsstring) : nat :=
  if streq a b then 0
  else if length a =? 0 then length b
  else if length b =? 0 then length a
  else
    let '(prev, _) :=
      fold_left (fun '(prev, i) aCode => (i :: levRow aCode b prev i, S i))
                a (seq 0 (S (length b)), 1) in
    default 0 (last prev).

Definition similarity (a b : jsstring) : float :=
  if (length a =? 0) && (length b =? 0) then 1%float
  else
    let maxLen := Nat.max (length a) (length b) in
    if maxLen =? 0 then 1%float
    else (1 - floatOfNat (levenshteinDistance a b) / floatOfNat maxLen)%float.

Definition minOf (l : list nat) (d : nat) : nat :=
  match l with
  | [] => d
  | x :: r => fold_left Nat.min r x
  end.

(** [Math.round(relativeIndent / indentUnit)] of two non-negative
    integers, the second positive: the nearest integer, halves upwards. *)
Definition roundDiv (a b : nat) : nat := (2 * a + b) / (2 * b).

Definition computeRelativeIndentDepths (lines : list jsstring) : list nat :=
  let nonEmptyIndents :=
    map countLeadingWhitespace (filter (fun l => isBlankLine l = false) lines) in
  let minIndent := minOf nonEmptyIndents 0 in
  let indentSteps :=
    filter (fun step => 0 < step) (map (fun indent => indent - minIndent) nonEmptyIndents) in
  let indentUnit := minOf indentSteps 1 in
  map (fun l =>
         if isBlankLine l then 0
         else if indentUnit <=? 0 then 0
         else roundDiv (countLeadingWhitespace l - minIndent) indentUnit)
      lines.

Definition normalizeLines (lines : list jsstring) (includeDepth : bool) : list jsstring :=
  let indentDepths :=
    if includeDepth then map Some (computeRelativeIndentDepths lines)
    else map (fun _ => None) lines in
  map (fun '(l, depth) =>
         let trimmed := trim l in
         let prefix :=
           match depth with
           | Some d => numberToString d ++ [124%N]
           | None => [124%N]
           end in
         if length trimmed =? 0 then prefix
         else prefix ++ normalizeForFuzzy trimmed)
      (zip lines indentDepths).

Fixpoint computeLineOffsetsFrom (lines : list jsstring) (offset : nat) : list nat :=
  match lines with
  | [] => []
  | l :: r =>
      offset :: computeLineOffsetsFrom r
                  (offset + length l + (match r with [] => 0 | _ => 1 end))
  end.

Definition computeLineOffsets (lines : list jsstring) : list nat :=
  computeLineOffsetsFrom lines 0.

Record BestFuzzyMatchResult :=
  mkBest { best : option FuzzyMatch; aboveThresholdCount : nat;
           secondBestScore : float }.

Record CoreState :=
  mkCore { cBest : option FuzzyMatch; cBestScore : float; cSecond : float;
           cAbove : nat }.

Definition windowScore (targetNormalized windowNormalized : list jsstring)
    (nTarget : nat) : float :=
  (fold_left (fun score '(t, w) => score + similarity t w)
             (zip targetNormalized windowNormalized) 0 / floatOfNat nTarget)%float.

Definition coreStep (contentLines targetLines targetNormalized : list jsstring)
    (offsets : list nat) (threshold : float) (includeDepth : bool)
    (st : CoreState) (start : nat) : CoreState :=
  let windowLines := slice start (start + length targetLines) contentLines in
  let windowNormalized := normalizeLines windowLines includeDepth in
  let score := windowScore targetNormalized windowNormalized (length targetLines) in
  let above := if fge score threshold then S (cAbove st) else cAbove st in
  if fgt score (cBestScore st) then
    mkCore (Some (mkMatch (joinLines windowLines) (offsets !!! start) (start + 1) score))
           score (cBestScore st) above
  else if fgt score (cSecond st) then mkCore (cBest st) (cBestScore st) score above
  else mkCore (cBest st) (cBestScore st) (cSecond st) above.

Definition findBestFuzzyMatchCore (contentLines targetLines : list jsstring)
    (offsets : list nat) (threshold : float) (includeDepth : bool)
  : BestFuzzyMatchResult :=
  let targetNormalized := normalizeLines targetLines includeDepth in
  let st :=
    fold_left
      (coreStep contentLines targetLines targetNormalized offsets threshold includeDepth)
      (seq 0 (length contentLines + 1 - length targetLines))
      (mkCore None (-1)%float (-1)%float 0) in
  mkBest (cBest st) (cAbove st) (cSecond st).

Definition findBestFuzzyMatch (content target : jsstring) (threshold : float)
  : BestFuzzyMatchResult :=
  let contentLines := splitLines content in
  let targetLines := splitLines target in
  if (length targetLines =? 0) || (length target =? 0) then mkBest None 0 0%float
  else if length contentLines <? length targetLines then mkBest None 0 0%float
  else
    let offsets := computeLineOffsets contentLines in
    let result := findBestFuzzyMatchCore contentLines targetLines offsets threshold true in
    match best result with
    | Some b =>
        if negb (fge (confidence b) threshold) && fge (confidence b) FALLBACK_THRESHOLD
        then
          let noDepthResult :=
            findBestFuzzyMatchCore contentLines targetLines offsets threshold false in
          match best noDepthResult with
          | Some nb => if fgt (confidence nb) (confidence b) then noDepthResult else result
          | None => result
          end
        else result
    | None => result
    end.

(** [content.split(target).length - 1] *)
Definition countOccurrences (target content : jsstring) : nat :=
  length (split target content) - 1.

(** [content.slice(0, idx).split("\n").length] *)
Definition lineNumberAt (content : jsstring) (i : nat) : nat :=
  length (splitLines (take i content)).

Definition ELLIPSIS : N := 8230%N.

Definition previewRow (num : nat) (l : jsstring) : jsstring :=
  lit "  " ++ numberToString num ++ lit " | "
  ++ (if OCCURRENCE_PREVIEW_MAX_LEN <? length l
      then take (OCCURRENCE_PREVIEW_MAX_LEN - 1) l ++ [ELLIPSIS] else l).

Definition occurrencePreview (contentLines : list jsstring) (lineNumber : nat) : jsstring :=
  let start := lineNumber - 1 - OCCURRENCE_PREVIEW_CONTEXT in
  let end_ := Nat.min (length contentLines) (lineNumber + OCCURRENCE_PREVIEW_CONTEXT + 1) in
  joinLines (imap (fun i l => previewRow (start + i + 1) l) (slice start end_ contentLines)).

(** The loop [for (let i = 0; i < 5; i++)] over the occurrences. *)
Fixpoint collectOccurrences (rounds : nat) (content target : jsstring)
    (contentLines : list jsstring) (searchStart : nat) : list (nat * jsstring) :=
  match rounds with
  | 0 => []
  | S k =>
      match indexOfFrom target content searchStart with
      | None => []
      | Some i =>
          let lineNumber := lineNumberAt content i in
          (lineNumber, occurrencePreview contentLines lineNumber)
          :: collectOccurrences k content target contentLines (i + 1)
      end
  end.

Definition findMatch (content target : jsstring) (allowFuzzy : bool)
    (threshold : option float) : MatchOutcome :=
  if length target =? 0 then emptyOutcome
  else
    match indexOf target content with
    | Some exactIndex =>
        let occurrences := countOccurrences target content in
        if 1 <? occurrences then
          let found := collectOccurrences 5 content target (splitLines content) 0 in
          mkOutcome None None (Some occurrences) (Some (map fst found))
                    (Some (map snd found)) None None
        else
          let startLine := lineNumberAt content exactIndex in
          mkOutcome (Some (mkMatch target exactIndex startLine 1%float))
                    None None None None None None
    | None =>
        let threshold := default DEFAULT_FUZZY_THRESHOLD threshold in
        let r := findBestFuzzyMatch content target threshold in
        match best r with
        | None => emptyOutcome
        | Some b =>
            let dominantDelta := 0.08%float in
            let dominantMin := 0.97%float in
            if allowFuzzy && fge (confidence b) threshold
               && (aboveThresholdCount r =? 1)
            then mkOutcome (Some b) (Some b) None None None None None
            else if allowFuzzy && fge (confidence b) threshold
                    && (1 <? aboveThresholdCount r) && fge (confidence b) dominantMin
                    && fge (confidence b - secondBestScore r)%float dominantDelta
            then mkOutcome (Some b) (Some b) None None None
                           (Some (aboveThresholdCount r)) (Some true)
            else mkOutcome None (Some b) None None None
                           (Some (aboveThresholdCount r)) None
        end
    end.

End Fuzzy.
Export Fuzzy.

(* ===================================================================== *)
(** ** diff.ts: replaceText *)
(* ===================================================================== *)

Module Diff.

Record ReplaceOptions :=
  mkOptions { fuzzy : bool; all : bool; threshold : option float }.

Record ReplaceResult := mkReplaced { rcontent : jsstring; count : nat }.

(** [matchOutcome.match || (shouldUseClosest ? matchOutcome.closest : undefined)] *)
Definition chosenMatch (useFuzzy : bool) (threshold : float) (mo : MatchOutcome)
  : option FuzzyMatch :=
  let shouldUseClosest :=
    useFuzzy
    && match closest mo with
       | Some c =>
           fge (confidence c) threshold
           && match fuzzyMatches mo with
              | None => true
              | Some k => k <=? 1
              end
       | None => false
       end in
  match match_ mo with
  | Some m => Some m
  | None => if shouldUseClosest then closest mo else None
  end.

Definition substitute (content : jsstring) (m : FuzzyMatch) (adjusted : jsstring)
  : jsstring :=
  take (startIndex m) content ++ adjusted
  ++ drop (startIndex m + length (actualText m)) content.

(** The loop [while (true)] of the replace-all branch.  [None] means that
    the rounds allowed were not enough to leave the loop. *)
Fixpoint replaceAllLoop (rounds : nat) (normalizedContent normalizedOldText
    normalizedNewText : jsstring) (useFuzzy : bool) (threshold : float) (count : nat)
  : option ReplaceResult :=
  match rounds with
  | 0 => None
  | S k =>
      let matchOutcome :=
        findMatch normalizedContent normalizedOldText useFuzzy (Some threshold) in
      match chosenMatch useFuzzy threshold matchOutcome with
      | None => Some (mkReplaced normalizedContent count)
      | Some m =>
          let adjustedNewText :=
            adjustIndentation normalizedOldText (actualText m) normalizedNewText in
          if streq adjustedNewText (actualText m)
          then Some (mkReplaced normalizedContent count)
          else replaceAllLoop k (substitute normalizedContent m adjustedNewText)
                              normalizedOldText normalizedNewText useFuzzy threshold
                              (S count)
      end
  end.

Definition ambiguousMessage (occurrences : nat) (previews : list jsstring) : jsstring :=
  let moreMsg :=
    if 5 <? occurrences
    then lit " (showing first 5 of " ++ numberToString occurrences ++ lit ")"
    else [] in
  lit "Found " ++ numberToString occurrences ++ lit " occurrences" ++ moreMsg
  ++ [58%N; LF; LF] ++ join [LF; LF] previews
  ++ [LF; LF] ++ lit "Add more context lines to disambiguate.".

Definition replaceText (rounds : nat) (content oldText newText : jsstring)
    (options : ReplaceOptions) : option (Error + ReplaceResult) :=
  if length oldText =? 0 then Some (inl OldTextEmpty)
  else
    let threshold := default DEFAULT_FUZZY_THRESHOLD (threshold options) in
    let normalizedContent := normalizeToLF content in
    let normalizedOldText := normalizeToLF oldText in
    let normalizedNewText := normalizeToLF newText in
    if all options then
      let exactCount := countOccurrences normalizedOldText normalizedContent in
      if 0 <? exactCount then
        Some (inr (mkReplaced
                     (join normalizedNewText (split normalizedOldText normalizedContent))
                     exactCount))
      else
        inr <$> replaceAllLoop rounds normalizedContent normalizedOldText
                               normalizedNewText (fuzzy options) threshold 0
    else
      let matchOutcome :=
        findMatch normalizedContent normalizedOldText (fuzzy options) (Some threshold) in
      let n := default 0 (occurrences matchOutcome) in
      if 1 <? n then
        let previews := default [] (occurrencePreviews matchOutcome) in
        Some (inl (AmbiguousOccurrences n previews (ambiguousMessage n previews)))
      else
        match match_ matchOutcome with
        | None => Some (inr (mkReplaced normalizedContent 0))
        | Some m =>
            let adjustedNewText :=
              adjustIndentation normalizedOldText (actualText m) normalizedNewText in
            Some (inr (mkReplaced (substitute normalizedContent m adjustedNewText) 1))
        end.

End Diff.
Export Diff.

(* ===================================================================== *)
(** ** server.ts: the edit_file handler, between the read and the write *)
(* ===================================================================== *)

Module Server.

Record Updated := mkUpdated { finalContent : jsstring; uwarnings : list Warning }.

Definition isAnchorEdit (e : HashlineEdit) : bool :=
  match e with
  | Replace _ _ _ => false
  | _ => true
  end.

(** The loop over the [replace] edits. *)
Fixpoint applyReplaceEdits (rounds : nat) (normalizedContent : jsstring)
    (replaceEdits : list HashlineEdit) : option (Error + jsstring) :=
  match replaceEdits with
  | [] => Some (inr normalizedContent)
  | Replace old_text new_text all_ :: rest =>
      if length old_text =? 0 then Some (inl ReplaceOldTextEmpty)
      else
        match replaceText rounds normalizedContent old_text new_text
                (mkOptions true (default false all_) (Some DEFAULT_FUZZY_THRESHOLD)) with
        | None => None
        | Some (inl e) => Some (inl e)
        | Some (inr rep) => applyReplaceEdits rounds (rcontent rep) rest
        end
  | _ :: rest => applyReplaceEdits rounds normalizedContent rest
  end.

(** What the handler does with the text it has read: the error it reports,
    or the text it writes.  The edits have one of the four shapes of
    [HashlineEdit], so the shape checks of the handler pass. *)
Definition editFile (rounds : nat) (rawContent : jsstring) (edits : list HashlineEdit)
  : option (Error + Updated) :=
  let b := stripBom rawContent in
  let originalEnding := detectLineEnding (text b) in
  let originalNormalized := normalizeToLF (text b) in
  let anchorEdits := List.filter isAnchorEdit edits in
  let replaceEdits := List.filter (fun e => negb (isAnchorEdit e)) edits in
  match applyHashlineEdits originalNormalized anchorEdits with
  | inl e => Some (inl e)
  | inr anchorResult =>
      match applyReplaceEdits rounds (content anchorResult) replaceEdits with
      | None => None
      | Some (inl e) => Some (inl e)
      | Some (inr normalizedContent) =>
          if streq originalNormalized normalizedContent
          then Some (inl (NoChanges (resNoopEdits anchorResult)))
          else Some (inr (mkUpdated
                            (bom b ++ restoreLineEndings normalizedContent originalEnding)
                            (warnings anchorResult)))
      end
  end.

End Server.
Export Server.
(* ===================================================================== *)
(** ** hashline.ts: HashlineMismatchError *)
(* ===================================================================== *)

Module Report.

Definition MISMATCH_CONTEXT : nat := 2.

(** [fileLines[m.line - 1]] is a line of the file for the mismatches the
    validator records; they all name lines from 1 to [fileLines.length]. *)
Definition currentRef (fileLines : list jsstring) (m : HashMismatch) : jsstring :=
  formatRef (mline m) (computeLineHash (mline m) (fileLines !!! (mline m - 1))).

(** The [remaps] of the error: from the stale reference to the current
    one, a later entry for the same key replacing the earlier one. *)
Definition remaps (mismatches : list HashMismatch) (fileLines : list jsstring)
  : gmap (list N) jsstring :=
  fold_left
    (fun remaps m =>
       <[formatRef (mline m) (expected m) := currentRef fileLines m]> remaps)
    mismatches ∅.

(** [for (let i = lo; i <= hi; i++)] around one mismatch. *)
Definition displayWindow (total : nat) (m : HashMismatch) : list nat :=
  let lo := Nat.max 1 (mline m - MISMATCH_CONTEXT) in
  let hi := Nat.min total (mline m + MISMATCH_CONTEXT) in
  seq lo (hi + 1 - lo).

(** [displayLines.add(i)]: a [Set] keeps the order of the first
    insertions. *)
Definition addDisplay (displayLines : list nat) (i : nat) : list nat :=
  if bool_decide (i ∈ displayLines) then displayLines else displayLines ++ [i].

Definition displayLines (mismatches : list HashMismatch) (total : nat) : list nat :=
  fold_left (fun acc m => fold_left addDisplay (displayWindow total m) acc)
            mismatches [].

(** [mismatchSet.has(lineNum)] *)
Definition isMismatchLine (mismatches : list HashMismatch) (lineNum : nat) : bool :=
  existsb (fun m => mline m =? lineNum) mismatches.

Definition GAP_ROW : jsstring := lit "    ...".

(** The loop over the sorted line numbers; [prevLine] is [None] for the
    initial [-1]. *)
Fixpoint reportRows (mismatches : list HashMismatch) (fileLines : list jsstring)
    (prevLine : option nat) (sorted : list nat) : list jsstring :=
  match sorted with
  | [] => []
  | lineNum :: rest =>
      let gap :=
        match prevLine with
        | Some p => if p + 1 <? lineNum then [GAP_ROW] else []
        | None => []
        end in
      let content := fileLines !!! (lineNum - 1) in
      let row := formatHashLine lineNum content in
      let shown :=
        if isMismatchLine mismatches lineNum then lit ">>> " ++ row
        else lit "    " ++ row in
      gap ++ shown :: reportRows mismatches fileLines (Some lineNum) rest
  end.

(** ["\t" + stale + " → " + current] *)
Definition remapEntry (fileLines : list jsstring) (m : HashMismatch) : jsstring :=
  [9%N] ++ formatRef (mline m) (expected m) ++ [32%N; 8594%N; 32%N]
  ++ currentRef fileLines m.

Definition messageLines (mismatches : list HashMismatch) (fileLines : list jsstring)
  : list jsstring :=
  let sorted :=
    sortBy (fun a b => (Z.of_nat a - Z.of_nat b)%Z)
           (displayLines mismatches (length fileLines)) in
  let header :=
    numberToString (length mismatches) ++ lit " line"
    ++ (if 1 <? length mismatches then lit "s have" else lit " has")
    ++ lit " changed since last read. Use the updated LINE:HASH references shown below (>>> marks changed lines)." in
  let remapEntries := map (remapEntry fileLines) mismatches in
  [header; []] ++ reportRows mismatches fileLines None sorted
  ++ (if 0 <? length remapEntries
      then [[]; lit "Quick fix " ++ [8212%N] ++ lit " replace stale refs:"] ++ remapEntries
      else []).

Definition formatMessage (mismatches : list HashMismatch) (fileLines : list jsstring)
  : jsstring :=
  joinLines (messageLines mismatches fileLines).

End Report.
Export Report.

(* ===================================================================== *)
(** ** server.ts: the read_file handler, after the read *)
(* ===================================================================== *)

Module ReadFile.

Definition DEFAULT_MAX_LINES : Z := 2000.

(** [l.slice(start, end)] with the relative indices of JavaScript: a
    negative index counts from the end. *)
Definition sliceZ {A} (start end_ : Z) (l : list A) : list A :=
  let len := Z.of_nat (length l) in
  let rel (k : Z) := if (k <? 0)%Z then Z.max (len + k) 0 else Z.min k len in
  take (Z.to_nat (rel end_ - rel start)) (drop (Z.to_nat (rel start)) l).

(** [String(n)] for an integer. *)
Definition integerToString (z : Z) : jsstring :=
  if (z <? 0)%Z then 45%N :: numberToString (Z.to_nat (- z))
  else numberToString (Z.to_nat z).

(** [offset] and [limit] are taken to be integers. *)
Definition readStartLine (offset : option Z) : Z := Z.max 1 (default 1%Z offset).

Definition readEndLine (content : jsstring) (offset limit : option Z) : Z :=
  let lines := splitLines content in
  let maxLines := default DEFAULT_MAX_LINES limit in
  Z.min (Z.of_nat (length lines)) (readStartLine offset - 1 + maxLines).

Definition selectedLines (content : jsstring) (offset limit : option Z) : list jsstring :=
  sliceZ (readStartLine offset - 1) (readEndLine content offset limit)
         (splitLines content).

Definition readFormatted (content : jsstring) (offset limit : option Z) : jsstring :=
  formatHashLines (joinLines (selectedLines content offset limit))
                  (Z.to_nat (readStartLine offset)).

Definition readHeader (filePath content : jsstring) (offset limit : option Z) : jsstring :=
  let totalLines := Z.of_nat (length (splitLines content)) in
  let startLine := readStartLine offset in
  let endLine := readEndLine content offset limit in
  lit "File: " ++ filePath ++ lit " (" ++ integerToString totalLines ++ lit " lines)"
  ++ (if (1 <? startLine)%Z || (endLine <? totalLines)%Z
      then lit " [showing lines " ++ integerToString startLine ++ lit "-"
           ++ integerToString endLine ++ lit "]"
      else [])
  ++ (if (endLine <? totalLines)%Z
      then lit " (" ++ integerToString (totalLines - endLine) ++ lit " more lines below)"
      else []).

(** The text [read_file] answers with for a file it could read. *)
Definition readFile (filePath content : jsstring) (offset limit : option Z) : jsstring :=
  readHeader filePath content offset limit ++ [LF; LF]
  ++ readFormatted content offset limit.

End ReadFile.
Export ReadFile.


(* ===================================================================== *)
(** ** Notions used in the statements *)
(* ===================================================================== *)

Module Notions.

Definition isLowerHexDigit (c : N) : bool :=
  (isDigit c || (97 <=? c) && (c <=? 102))%N.

(** What [edit_file] writes back when nothing in between touches the
    normalised text: BOM and line-ending style captured, line endings
    collapsed, then both restored. *)
Definition roundTrip (rawContent : jsstring) : jsstring :=
  let b := stripBom rawContent in
  let originalEnding := detectLineEnding (text b) in
  bom b ++ restoreLineEndings (normalizeToLF (text b)) originalEnding.

Definition hasNoCR (s : jsstring) : bool := forallb (fun c => negb (c =? CR)%N) s.

(** Every line break is a carriage return followed by a line feed. *)
Fixpoint allCRLF (s : jsstring) : bool :=
  match s with
  | [] => true
  | c :: r =>
      if (c =? CR)%N then
        match r with
        | d :: r' => (d =? LF)%N && allCRLF r'
        | [] => false
        end
      else if (c =? LF)%N then false
      else allCRLF r
  end.

Definition uniformLineEndings (s : jsstring) : bool := hasNoCR s || allCRLF s.

(** The line numbers (from [i + 1] on) of the lines with fingerprint [h]. *)
Fixpoint fingerprintLinesFrom (lines : list jsstring) (i : nat) (h : jsstring)
  : list nat :=
  match lines with
  | [] => []
  | l :: r =>
      if decide (computeLineHash (i + 1) l = h)
      then (i + 1) :: fingerprintLinesFrom r (S i) h
      else fingerprintLinesFrom r (S i) h
  end.

(** The numbers of the lines of the file whose fingerprint is [h]. *)
Definition linesWithFingerprint (lines : list jsstring) (h : jsstring) : list nat :=
  fingerprintLinesFrom lines 0 h.

(** The anchors of a parsed edit. *)
Definition anchorsOf (s : ParsedRefs) : list LineRef :=
  match s with
  | Single ref => [ref]
  | Range start end_ => [start; end_]
  | InsertAfterRef after => [after]
  end.

(** The anchors of a submitted operation that [parseHashlineEdit] keeps
    for validation.  A replace_lines without end anchor, or whose two
    anchors parse to the same line number, is read as the set_line of its
    start anchor: its end anchor is dropped. *)
Definition keptAnchors (e : HashlineEdit) : list jsstring :=
  match e with
  | SetLine anchor _ => [anchor]
  | InsertAfter anchor _ => [anchor]
  | ReplaceLines start_anchor end_anchor _ =>
      match end_anchor with
      | [] => [start_anchor]
      | _ =>
          match parseLineRef start_anchor, parseLineRef end_anchor with
          | inr s, inr e =>
              if line s =? line e then [start_anchor] else [start_anchor; end_anchor]
          | _, _ => [start_anchor; end_anchor]
          end
      end
  | Replace _ _ _ => []
  end.

(** An anchor fails validation: it names a line of the file, its
    fingerprint is not that of the line, and it is not the fingerprint of
    exactly one line of the file. *)
Definition anchorFails (lines : list jsstring) (ref : LineRef) : Prop :=
  1 ≤ line ref ≤ length lines
  ∧ computeLineHash (line ref) (lines !!! (line ref - 1)) ≠ toLowerCase (hash ref)
  ∧ length (linesWithFingerprint lines (toLowerCase (hash ref))) ≠ 1.

(** The mismatch recorded for an anchor. *)
Definition mismatchOf (lines : list jsstring) (ref : LineRef) : HashMismatch :=
  mkMismatch (line ref) (hash ref)
             (computeLineHash (line ref) (lines !!! (line ref - 1))).

(** What the index holds for a fingerprint seen on the lines [occ]. *)
Definition indexRepr (occ : list nat) (uniq : gmap (list N) nat)
    (dups : gset (list N)) (h : jsstring) : Prop :=
  match occ with
  | [] => uniq !! h = None ∧ h ∉ dups
  | [n] => uniq !! h = Some n ∧ h ∉ dups
  | _ => uniq !! h = None ∧ h ∈ dups
  end.

(** A line that the pre-processing of replacement text and the hyphen
    fallback leave alone: no hashline prefix, no leading diff [+], no
    confusable hyphen. *)
Definition plainLine (l : jsstring) : Prop :=
  matchHashlinePrefix l = None ∧ matchDiffPlus l = None
  ∧ hasConfusableHyphen l = false.

(** The no-change edit of line [i + 1]: its own anchor, its own text. *)
Definition ownEdit (i : nat) (l : jsstring) : HashlineEdit :=
  SetLine (formatRef (i + 1) (computeLineHash (i + 1) l)) l.

(** The batch that submits every line of the file as a no-change edit. *)
Definition ownEdits (lines : list jsstring) : list HashlineEdit := imap ownEdit lines.

Definition ownDst (l : jsstring) : list jsstring :=
  match l with [] => [] | _ => [l] end.

Definition ownParsed (i : nat) (l : jsstring) : Parsed :=
  mkParsed (Single (mkRef (i + 1) (computeLineHash (i + 1) l))) (ownDst l).

Definition ownAnnotated (i : nat) (l : jsstring) : Annotated :=
  mkAnnotated (Single (mkRef (i + 1) (computeLineHash (i + 1) l))) (ownDst l) i (i + 1) 0.

(** The no-op recorded for the no-change edit of line [i + 1]. *)
Definition ownNoop (i : nat) (l : jsstring) : NoopEdit :=
  mkNoop i (formatRef (i + 1) (computeLineHash (i + 1) l)) l.

(** The lines of the file [edit_file] works on. *)
Definition sourceLines (rawContent : jsstring) : list jsstring :=
  splitLines (normalizeToLF (text (stripBom rawContent))).

(** The no-op an operation is recorded as, when it is one. *)
Definition noopOf (a : Annotated) : NoopEdit :=
  mkNoop (idx a)
         (match aspec a with
          | Single r | InsertAfterRef r | Range r _ => formatRef (line r) (hash r)
          end)
         (joinLines (adstLines a)).

(** The indices at which [target] stands in [content], in increasing
    order; occurrences that overlap are all there. *)
Definition occurrenceIndices (target content : jsstring) : list nat :=
  List.filter (fun i => startsWith target (drop i content)) (seq 0 (length content)).

(** The number of the line that holds the index [i] of [content]: one more
    than the number of line feeds before the index. *)
Definition lineOfIndex (content : jsstring) (i : nat) : nat :=
  S (length (List.filter (fun ch => (ch =? LF)%N) (take i content))).

(** A line as a preview shows it: cut to 79 characters followed by an
    ellipsis when it has more than 80. *)
Definition shownLine (l : jsstring) : jsstring :=
  if 80 <? length l then take 79 l ++ [8230%N] else l.

(** The rows of the preview for line [ln] of [lines]: the lines of the file
    from 5 before line [ln] to 6 after it, each after its number. *)
Definition contextRows (lines : list jsstring) (ln : nat) : list jsstring :=
  let lo := Nat.max 1 (ln - 5) in
  let hi := Nat.min (length lines) (ln + 6) in
  map (fun j => lit "  " ++ numberToString j ++ lit " | " ++ shownLine (lines !!! (j - 1)))
      (seq lo (hi + 1 - lo)).

(** Replace by [new] every occurrence of [old] met from left to right, the
    search resuming after the occurrence; the text obtained and the number
    of replacements. *)
Fixpoint replaceOccurrences (fuel : nat) (old new s : jsstring) : jsstring * nat :=
  match fuel with
  | 0 => (s, 0)
  | S f =>
      match indexOf old s with
      | None => (s, 0)
      | Some i =>
          let '(r, k) := replaceOccurrences f old new (drop (i + length old) s) in
          (take i s ++ new ++ r, S k)
      end
  end.

(** Two outcomes of a batch agree: both are errors, or both are results
    with the same text, first changed line and no-op records. *)
Definition sameOutcome (a b : Error + ApplyResult) : Prop :=
  match a, b with
  | inr x, inr y =>
      Engine.content x = Engine.content y
      ∧ resFirstChangedLine x = resFirstChangedLine y
      ∧ resNoopEdits x = resNoopEdits y
  | inl _, inl _ => True
  | _, _ => False
  end.

(** Every carriage return is followed at once by a line feed. *)
Fixpoint everyCRbeforeLF (s : jsstring) : bool :=
  match s with
  | [] => true
  | c :: r =>
      (if (c =? CR)%N
       then match r with d :: _ => (d =? LF)%N | [] => false end
       else true)
      && everyCRbeforeLF r
  end.

(** The fingerprints of the lines, each computed with its line number. *)
Definition fingerprints (lines : list jsstring) : list jsstring :=
  imap (fun i l => computeLineHash (i + 1) l) lines.

(** A mismatch names a line of the file and carries, as [actual], the
    fingerprint that line has now. *)
Definition currentMismatch (lines : list jsstring) (m : HashMismatch) : Prop :=
  1 ≤ mline m ≤ length lines
  ∧ actual m = computeLineHash (mline m) (lines !!! (mline m - 1)).

(** A cell of the distance table, for the first [i] characters of [a] and
    the first [j] of [b]: at least the difference of the lengths, at most
    the longer length, and zero exactly when the two prefixes are equal. *)
Definition levCell (a b : jsstring) (i j v : nat) : Prop :=
  i - j ≤ v ∧ j - i ≤ v ∧ v ≤ Nat.max i j ∧ (v = 0 ↔ take i a = take j b).

(** The text of a match is the text that stands in the content at the
    index of the match, and the line of the match is the line of that
    index. *)
Definition matchInContent (content : jsstring) (m : FuzzyMatch) : Prop :=
  content = take (startIndex m) content ++ actualText m
            ++ drop (startIndex m + length (actualText m)) content
  ∧ startLine m = lineNumberAt content (startIndex m).

(** Two outcomes of a batch agree on the text: both are errors, or both
    are results with the same text and the same first changed line. *)
Definition sameText (a b : Error + ApplyResult) : Prop :=
  match a, b with
  | inr x, inr y =>
      Engine.content x = Engine.content y
      ∧ resFirstChangedLine x = resFirstChangedLine y
  | inl _, inl _ => True
  | _, _ => False
  end.

(** Where a validated operation is applied in the bottom-up order: the
    line it is sorted by, and its precedence on that line. *)
Definition targetOf (p : Parsed) : nat * nat :=
  (sortLine (annotate 0 p), precedence (annotate 0 p)).

(** The order of application: lower lines later, and on one line the
    replacement before the insertion. *)
Definition appliedBefore (a b : nat * nat) : Prop :=
  a.1 > b.1 ∨ (a.1 = b.1 ∧ a.2 < b.2).

(** An annotated operation without its index, and the pair it is sorted
    by. *)
Definition eraseIdx (a : Annotated) : Parsed := mkParsed (aspec a) (adstLines a).

Definition keyOf (a : Annotated) : nat * nat := (sortLine a, precedence a).


(** The first line an operation can change by itself: the line of its
    anchor, the first line of its range, the line after its anchor. *)
Definition firstLine (s : ParsedRefs) : nat :=
  match s with
  | Single ref => line ref
  | Range start _ => line start
  | InsertAfterRef after => line after + 1
  end.

(** The lines above the first changed line are those of the original file;
    without a first changed line, the lines are the original ones. *)
Definition unchangedAbove (lines : list jsstring) (first : option nat)
    (fl : list jsstring) : Prop :=
  match first with
  | None => fl = lines
  | Some n => 1 ≤ n ≤ length lines + 1 ∧ take (n - 1) fl = take (n - 1) lines
  end.

(** What line [n] of the original file, [l], becomes under a batch of
    validated set_line operations [ps]: the resolved replacement of the
    operation on line [n] when it changes the line, the line itself
    otherwise. *)
Definition lineOutcome (lines : list jsstring) (ps : list Parsed) (n : nat)
    (l : jsstring) : list jsstring :=
  match List.find (fun p => firstLine (spec p) =? n) ps with
  | Some p =>
      let r := resolveReplacement lines [l] n n (dstLines p) in
      if streq (joinLines [l]) (joinLines r) then [l] else r
  | None => [l]
  end.

(** The lines from index [b] on, each with its outcome. *)
Definition outcomesFrom (lines : list jsstring) (ps : list Parsed) (b : nat)
  : list jsstring :=
  concat (imap (fun i l => lineOutcome lines ps (b + i + 1) l) (drop b lines)).

(** Below this bound, 2^53, a JavaScript number holds an integer exactly,
    prints it as its decimal digits and parses it back unrounded: up to it
    the line numbers of [numberToString] and [parseDigits] are those of the
    code. *)
Definition exactIntegerBound : Z := 9007199254740992.

Definition exactInteger (n : nat) : Prop := (Z.of_nat n < exactIntegerBound)%Z.
End Notions.
Export Notions.

(* ===================================================================== *)
(** * Properties *)
(* ===================================================================== *)

#[local] Arguments N.eqb : simpl never.
#[local] Arguments N.leb : simpl never.
#[local] Arguments Nat.div : simpl never.
#[local] Arguments Nat.modulo : simpl never.

(** ** Fingerprints *)

Lemma u32_range x : (0 <= XXH.u32 x < 4294967296)%Z.
Proof. unfold XXH.u32. apply Z.mod_pos_bound. lia. Qed.

Lemma xxHash32_range s : (0 <= XXH.xxHash32 s < 4294967296)%Z.
Proof.
  unfold XXH.xxHash32, XXH.xxh32.
  destruct (_ <=? _)%Z.
  - destruct (XXH.stripes _ _ _ _ _) as [[[[v1 v2] v3] v4] rest].
    unfold XXH.avalanche. apply u32_range.
  - unfold XXH.avalanche. apply u32_range.
Qed.

Lemma DICT_length : length DICT = 256.
Proof. reflexivity. Qed.

Lemma DICT_entries :
  forallb (fun h => (length h =? 2) && forallb isLowerHexDigit h) DICT = true.
Proof. vm_compute. reflexivity. Qed.

Lemma computeLineHash_in_DICT i l : computeLineHash i l ∈ DICT.
Proof.
  unfold computeLineHash.
  apply list_elem_of_lookup_total_2.
  rewrite DICT_length.
  pose proof (xxHash32_range (removeWhitespace (stripTrailingCR l))) as H.
  change (Z.of_nat HASH_MOD) with 256%Z.
  pose proof (Z.rem_bound_pos (XXH.xxHash32 (removeWhitespace (stripTrailingCR l))) 256).
  lia.
Qed.

Lemma computeLineHash_shape i l :
  length (computeLineHash i l) = 2
  ∧ forallb isLowerHexDigit (computeLineHash i l) = true.
Proof.
  pose proof (computeLineHash_in_DICT i l) as Hin.
  pose proof DICT_entries as Hall.
  rewrite forallb_forall in Hall.
  apply list_elem_of_In in Hin.
  specialize (Hall _ Hin).
  apply andb_prop in Hall as [Hlen Hhex].
  split; [by apply Nat.eqb_eq | done].
Qed.

Lemma removeWhitespace_app a b :
  removeWhitespace (a ++ b) = removeWhitespace a ++ removeWhitespace b.
Proof. unfold removeWhitespace. apply filter_app. Qed.

Lemma startsWith_spec p s : startsWith p s = true ↔ ∃ r, s = p ++ r.
Proof.
  revert s. induction p as [|a p IH]; intros s; simpl.
  - split; eauto.
  - destruct s as [|b s].
    + split; [done | intros [r Hr]; done].
    + rewrite andb_true_iff, N.eqb_eq, IH. split.
      * intros [-> [r ->]]. eauto.
      * intros [r Hr]. injection Hr as -> ->. eauto.
Qed.

Lemma endsWith_spec p s : endsWith p s = true ↔ ∃ r, s = r ++ p.
Proof.
  unfold endsWith. rewrite startsWith_spec. split.
  - intros [r Hr]. exists (rev r).
    rewrite <- (rev_involutive s), Hr, rev_app_distr, rev_involutive. done.
  - intros [r ->]. exists (rev r). by rewrite rev_app_distr.
Qed.

(** The carriage return stripped first is whitespace itself. *)
Lemma removeWhitespace_stripTrailingCR l :
  removeWhitespace (stripTrailingCR l) = removeWhitespace l.
Proof.
  unfold stripTrailingCR.
  destruct (endsWith [CR] l) eqn:E; [|done].
  apply endsWith_spec in E as [r ->].
  rewrite length_app. simpl.
  replace (length r + 1 - 1) with (length r) by lia.
  rewrite take_app_length, removeWhitespace_app.
  unfold removeWhitespace at 3. simpl. by rewrite app_nil_r.
Qed.

(** C2.  The fingerprint of a line depends only on the line without its
    trailing carriage return and without its whitespace: two lines for which
    that form is the same have the same fingerprint, whatever their index.
    The fingerprint is one of the 256 entries of [DICT], always two
    lowercase hexadecimal characters.  In particular, two lines that differ
    in whitespace only (the same once all whitespace is removed) have the
    same fingerprint, and so has a line under any new indentation. *)
Theorem computeLineHash_fingerprint (i j : nat) (l1 l2 : jsstring) :
  removeWhitespace (stripTrailingCR l1) = removeWhitespace (stripTrailingCR l2) →
  computeLineHash i l1 = computeLineHash j l2
  ∧ length (computeLineHash i l1) = 2
  ∧ forallb isLowerHexDigit (computeLineHash i l1) = true
  ∧ computeLineHash i l1 ∈ DICT
  ∧ length DICT = 256
  ∧ (∀ l3, removeWhitespace l3 = removeWhitespace l1 →
           computeLineHash j l3 = computeLineHash i l1)
  ∧ (∀ indent, forallb isWhitespace indent = true →
               computeLineHash i (indent ++ trimStart l1) = computeLineHash i l1).
Proof.
  intros Heq.
  split; [unfold computeLineHash; by rewrite Heq|].
  destruct (computeLineHash_shape i l1) as [Hlen Hhex].
  split; [done|]. split; [done|].
  split; [apply computeLineHash_in_DICT|].
  split; [apply DICT_length|].
  assert (Hws : ∀ a b, removeWhitespace a = removeWhitespace b →
                       computeLineHash j a = computeLineHash i b).
  { intros a b Hab. unfold computeLineHash.
    by rewrite !removeWhitespace_stripTrailingCR, Hab. }
  split; [intros l3 H3; by apply Hws|].
  intros indent Hind.
  unfold computeLineHash. rewrite !removeWhitespace_stripTrailingCR.
  do 2 f_equal. f_equal.
  rewrite removeWhitespace_app.
  assert (removeWhitespace indent = []) as ->.
  { unfold removeWhitespace. induction indent as [|c r IH]; [done|].
    simpl in Hind. apply andb_prop in Hind as [Hc Hr].
    rewrite filter_cons. rewrite decide_False by (rewrite Hc; done). auto. }
  simpl. clear.
  induction l1 as [|c r IH]; [done|]. simpl.
  destruct (isWhitespace c) eqn:E.
  - rewrite IH. unfold removeWhitespace. rewrite filter_cons.
    rewrite decide_False by (rewrite E; done). done.
  - done.
Qed.

Lemma computeLineHash_fingerprint_witness :
  computeLineHash 1 (lit "  return 1;") = computeLineHash 7 [9%N; 114%N; 101%N; 116%N; 117%N; 114%N; 110%N; 49%N; 59%N; 13%N]
  ∧ length (computeLineHash 1 (lit "  return 1;")) = 2.
Proof.
  pose proof (computeLineHash_fingerprint 1 7 (lit "  return 1;")
    [9%N; 114%N; 101%N; 116%N; 117%N; 114%N; 110%N; 49%N; 59%N; 13%N]
    ltac:(vm_compute; reflexivity)) as (H1 & H2 & _).
  split; [exact H1 | exact H2].
Defined.

(** ** Echo stripping *)

(** C6.  Boundary-echo stripping removes at most the first and the last
    replacement line.  The first one goes only if it and the file line
    right before the span are both non-blank and equal up to whitespace, the
    last one only if it and the file line right after the span are both
    non-blank and equal up to whitespace; when, at each end, one of the two
    lines is blank or the file has no such line, the replacement comes
    back as it was.  Anchor-echo stripping of insert_after returns the
    replacement as it was when the anchor line or the first replacement
    line is blank, and otherwise removes at most the first line, which is
    then non-blank like the anchor line and equal to it up to whitespace. *)
Theorem echo_stripping_blank_exclusion
    (fileLines dstLines : list jsstring) (startLn endLn : nat) (anchorLine : jsstring) :
  let blank (l : option jsstring) :=
    match l with Some x => isSubstantive x = false | None => True end in
  let before := if 2 <=? startLn then fileLines !! (startLn - 2) else None in
  let after := fileLines !! endLn in
  (∃ lead trail : bool,
      stripRangeBoundaryEcho fileLines startLn endLn dstLines
      = (if trail then dropLast else id) ((if lead then drop 1 else id) dstLines)
      ∧ (lead = true →
         ∃ d0 b, head dstLines = Some d0 ∧ before = Some b
                 ∧ isSubstantive d0 = true ∧ isSubstantive b = true
                 ∧ vibeCheck d0 b = true)
      ∧ (trail = true →
         ∃ dl a, last dstLines = Some dl ∧ after = Some a
                 ∧ isSubstantive dl = true ∧ isSubstantive a = true
                 ∧ vibeCheck dl a = true))
  ∧ ((blank (head dstLines) ∨ blank before) →
     (blank (last dstLines) ∨ blank after) →
     stripRangeBoundaryEcho fileLines startLn endLn dstLines = dstLines)
  ∧ ((blank (head dstLines) ∨ isSubstantive anchorLine = false) →
     stripInsertAnchorEchoAfter anchorLine dstLines = dstLines)
  ∧ (stripInsertAnchorEchoAfter anchorLine dstLines = dstLines
     ∨ ∃ d0, head dstLines = Some d0
             ∧ stripInsertAnchorEchoAfter anchorLine dstLines = drop 1 dstLines
             ∧ isSubstantive d0 = true ∧ isSubstantive anchorLine = true
             ∧ vibeCheck d0 anchorLine = true).
Proof.
  intros blank before after.
  assert (Hmain : ∃ lead trail : bool,
      stripRangeBoundaryEcho fileLines startLn endLn dstLines
      = (if trail then dropLast else id) ((if lead then drop 1 else id) dstLines)
      ∧ (lead = true →
         ∃ d0 b, head dstLines = Some d0 ∧ before = Some b
                 ∧ isSubstantive d0 = true ∧ isSubstantive b = true
                 ∧ vibeCheck d0 b = true)
      ∧ (trail = true →
         ∃ dl a, last dstLines = Some dl ∧ after = Some a
                 ∧ isSubstantive dl = true ∧ isSubstantive a = true
                 ∧ vibeCheck dl a = true)).
  { unfold stripRangeBoundaryEcho.
    destruct ((length dstLines <=? 1) || (length dstLines <=? endLn - startLn + 1)) eqn:Eguard.
    { exists false, false. split; [done|]. split; discriminate. }
    apply orb_false_elim in Eguard as [Hlen _]. apply Nat.leb_gt in Hlen.
    destruct dstLines as [|d0 [|d1 rest]]; simpl in Hlen; try lia.
    set (out1 := match fileLines !! (startLn - 2) with
                 | Some b => if (2 <=? startLn) && isSubstantive d0 && isSubstantive b
                                && vibeCheck d0 b then d1 :: rest else d0 :: d1 :: rest
                 | None => d0 :: d1 :: rest end).
    assert (Hout1 : ∃ lead : bool, out1 = (if lead then drop 1 else id) (d0 :: d1 :: rest)
              ∧ (lead = true → ∃ x b, head (d0 :: d1 :: rest) = Some x ∧ before = Some b
                   ∧ isSubstantive x = true ∧ isSubstantive b = true ∧ vibeCheck x b = true)).
    { subst out1 before. destruct (fileLines !! (startLn - 2)) as [b|] eqn:Eb.
      - destruct ((2 <=? startLn) && isSubstantive d0 && isSubstantive b && vibeCheck d0 b) eqn:Ec.
        + exists true. split; [done|]. intros _.
          repeat (apply andb_prop in Ec as [Ec ?]).
          exists d0, b. rewrite Ec. done.
        + exists false. split; [done|discriminate].
      - exists false. split; [done|discriminate]. }
    destruct Hout1 as (lead & Hout1 & Hlead).
    assert (Hlast : last out1 = last (d0 :: d1 :: rest)).
    { rewrite Hout1. destruct lead; done. }
    assert (Hne : (0 <? length out1) = true).
    { rewrite Hout1. destruct lead; done. }
    change (match fileLines !! (startLn - 2) with
            | Some b => if (2 <=? startLn) && isSubstantive d0 && isSubstantive b
                           && vibeCheck d0 b then d1 :: rest else d0 :: d1 :: rest
            | None => d0 :: d1 :: rest end) with out1.
    destruct (last out1) as [dl|] eqn:El.
    2:{ exists lead, false. split; [by rewrite Hout1|]. split; [done|discriminate]. }
    subst after. destruct (fileLines !! endLn) as [a|] eqn:Ea.
    2:{ exists lead, false. split; [by rewrite Hout1|]. split; [done|discriminate]. }
    destruct ((endLn <? length fileLines) && (0 <? length out1) && isSubstantive dl
              && isSubstantive a && vibeCheck dl a) eqn:Ec.
    - exists lead, true. split; [by rewrite Hout1|]. split; [done|]. intros _.
      repeat (apply andb_prop in Ec as [Ec ?]).
      exists dl, a. rewrite <- Hlast. done.
    - exists lead, false. split; [by rewrite Hout1|]. split; [done|discriminate]. }
  split; [exact Hmain|].
  split.
  { intros Hb Ha. destruct Hmain as (lead & trail & -> & Hlead & Htrail).
    destruct lead.
    { destruct Hlead as (d0 & b & Hd & Hbf & Hs1 & Hs2 & _); [done|].
      exfalso. destruct Hb as [Hb|Hb].
      - rewrite Hd in Hb. simpl in Hb. congruence.
      - rewrite Hbf in Hb. simpl in Hb. congruence. }
    destruct trail; [|done].
    destruct Htrail as (dl & a & Hd & Haf & Hs1 & Hs2 & _); [done|].
    exfalso. destruct Ha as [Ha|Ha].
    - rewrite Hd in Ha. simpl in Ha. congruence.
    - rewrite Haf in Ha. simpl in Ha. congruence. }
  assert (Hins : stripInsertAnchorEchoAfter anchorLine dstLines = dstLines
     ∨ ∃ d0, head dstLines = Some d0
             ∧ stripInsertAnchorEchoAfter anchorLine dstLines = drop 1 dstLines
             ∧ isSubstantive d0 = true ∧ isSubstantive anchorLine = true
             ∧ vibeCheck d0 anchorLine = true).
  { unfold stripInsertAnchorEchoAfter.
    destruct (length dstLines <=? 1); [by left|].
    destruct dstLines as [|d0 rest]; [by left|].
    destruct (isSubstantive anchorLine) eqn:E1; simpl; [|by left].
    destruct (isSubstantive d0) eqn:E2; simpl; [|by left].
    destruct (vibeCheck d0 anchorLine) eqn:E3; [|by left].
    right. exists d0. done. }
  split; [|exact Hins].
  intros Hb. destruct Hins as [H|(d0 & Hd & _ & Hs1 & Hs2 & _)]; [done|].
  exfalso. destruct Hb as [Hb|Hb].
  - rewrite Hd in Hb. simpl in Hb. congruence.
  - congruence.
Qed.

(** ** Line endings and the byte-order mark *)

Lemma stripBom_inverse raw : bom (stripBom raw) ++ text (stripBom raw) = raw.
Proof.
  unfold stripBom. destruct (startsWith [BOM] raw) eqn:E; [|done].
  apply startsWith_spec in E as [r ->]. done.
Qed.

Lemma normalizeToLF_noCR s : hasNoCR s = true → normalizeToLF s = s.
Proof.
  unfold normalizeToLF, hasNoCR.
  induction s as [|c r IH]; [done|]. intros H. simpl in H.
  apply andb_prop in H as [Hc Hr]. apply negb_true_iff in Hc.
  assert (replaceCRLF (c :: r) = c :: replaceCRLF r) as ->.
  { simpl. destruct r; [done|]. by rewrite Hc. }
  simpl. rewrite Hc. f_equal. auto.
Qed.

Lemma indexOfAt_shift sub s k :
  indexOfAt sub s k = (λ i, k + i) <$> indexOfAt sub s 0.
Proof.
  revert k. induction s as [|c r IH]; intros k; simpl.
  - destruct (startsWith sub []); simpl; [f_equal; lia | done].
  - destruct (startsWith sub (c :: r)); simpl; [f_equal; lia|].
    rewrite (IH (S k)), (IH 1). destruct (indexOfAt sub r 0); simpl; [f_equal; lia | done].
Qed.

Lemma detectLineEnding_noCR s : hasNoCR s = true → detectLineEnding s = LFOnly.
Proof.
  intros H. unfold detectLineEnding.
  destruct (indexOf [LF] s); [|done].
  assert (indexOf [CR; LF] s = None) as ->; [|done].
  unfold indexOf. generalize 0. unfold hasNoCR in H.
  induction s as [|c r IH]; intros k; [done|].
  simpl in H. apply andb_prop in H as [Hc Hr]. apply negb_true_iff in Hc.
  simpl in *. rewrite N.eqb_sym, Hc. simpl. auto.
Qed.

(** Induction two characters at a time, as [allCRLF] recurses. *)
Lemma allCRLF_ind (P : jsstring → Prop) :
  P [] →
  (∀ r, allCRLF r = true → P r → P (CR :: LF :: r)) →
  (∀ c r, c ≠ CR → c ≠ LF → allCRLF r = true → P r → P (c :: r)) →
  ∀ s, allCRLF s = true → P s.
Proof.
  intros H0 H2 H1 s.
  remember (length s) as n eqn:Hn. revert s Hn.
  induction (lt_wf n) as [n _ IH]. intros s Hn Hs.
  destruct s as [|c r]; [done|]. simpl in Hs.
  destruct (c =? CR)%N eqn:Ec.
  - apply N.eqb_eq in Ec as ->. destruct r as [|d r']; [done|].
    apply andb_prop in Hs as [Hd Hr]. apply N.eqb_eq in Hd as ->.
    apply H2; [done|]. apply (IH (length r')); [simpl in Hn; lia | done | done].
  - destruct (c =? LF)%N eqn:El; [done|].
    apply N.eqb_neq in Ec, El.
    apply H1; [done..|]. apply (IH (length r)); [simpl in Hn; lia | done | done].
Qed.

Lemma restore_normalize_allCRLF s :
  allCRLF s = true → restoreLineEndings (normalizeToLF s) CRLF = s.
Proof.
  unfold normalizeToLF. revert s. apply allCRLF_ind.
  - done.
  - intros r _ IH. simpl in *. by rewrite IH.
  - intros c r Hc Hl _ IH.
    assert (replaceCRLF (c :: r) = c :: replaceCRLF r) as ->.
    { simpl. destruct r; [done|]. apply N.eqb_neq in Hc. by rewrite Hc. }
    simpl in *. apply N.eqb_neq in Hc, Hl. rewrite Hc, Hl. simpl. by rewrite IH.
Qed.

(** Under [allCRLF] the first line feed, if any, ends the first CR LF pair. *)
Lemma indexOf_allCRLF s :
  allCRLF s = true →
  (indexOf [LF] s = None ∧ hasNoCR s = true)
  ∨ ∃ i, indexOf [CR; LF] s = Some i ∧ indexOf [LF] s = Some (S i).
Proof.
  revert s. apply allCRLF_ind.
  - left. done.
  - intros r _ _. right. exists 0. done.
  - intros c r Hc Hl _ IH. unfold indexOf in *.
    apply N.eqb_neq in Hc, Hl.
    assert (Hc' : (CR =? c)%N = false) by (by rewrite N.eqb_sym).
    assert (Hl' : (LF =? c)%N = false) by (by rewrite N.eqb_sym).
    simpl. rewrite Hc', Hl'. simpl.
    rewrite (indexOfAt_shift [LF] r 1), (indexOfAt_shift [CR; LF] r 1).
    destruct IH as [[Hn Hcr]|(i & Hi & Hj)].
    + left. rewrite Hn. split; [done|]. simpl. rewrite Hc. done.
    + right. exists (S i). rewrite Hi, Hj. done.
Qed.

(** C4 (amended).  For every input text whose line endings are uniform
    after the byte-order mark (no carriage return at all, or every line
    break a carriage return followed by a line feed), capturing the BOM and
    the line-ending style, collapsing the line endings and restoring both
    gives back the input, character for character. *)
Theorem roundTrip_uniform_identity (rawContent : jsstring) :
  uniformLineEndings (text (stripBom rawContent)) = true →
  roundTrip rawContent = rawContent.
Proof.
  intros H. unfold roundTrip.
  rewrite <- (stripBom_inverse rawContent) at 4. f_equal.
  set (t := text (stripBom rawContent)) in *.
  apply orb_prop in H as [H|H].
  - rewrite detectLineEnding_noCR, normalizeToLF_noCR; done.
  - destruct (indexOf_allCRLF t H) as [[Hn Hcr]|(i & Hi & Hj)].
    + rewrite detectLineEnding_noCR, normalizeToLF_noCR; done.
    + unfold detectLineEnding. rewrite Hj, Hi.
      assert (i <? S i = true) as -> by (apply Nat.ltb_lt; lia).
      by apply restore_normalize_allCRLF.
Qed.

Lemma roundTrip_uniform_identity_witness :
  roundTrip [BOM; 97%N; CR; LF; 98%N; CR; LF] = [BOM; 97%N; CR; LF; 98%N; CR; LF].
Proof.
  apply (roundTrip_uniform_identity [BOM; 97%N; CR; LF; 98%N; CR; LF]).
  vm_compute. reflexivity.
Defined.

(** C4 as stated fails on a text with mixed line endings: the first line
    break of ["a\r\nb\nc"] makes CR LF the captured style, and the lone line
    feed comes back as CR LF.  A lone carriage return comes back as a line
    feed. *)
Lemma roundTrip_mixed_counterexample :
  roundTrip [97%N; CR; LF; 98%N; LF; 99%N] = [97%N; CR; LF; 98%N; CR; LF; 99%N]
  ∧ roundTrip [97%N; CR; LF; 98%N; LF; 99%N] ≠ [97%N; CR; LF; 98%N; LF; 99%N]
  ∧ roundTrip [97%N; CR; 98%N] = [97%N; LF; 98%N]
  ∧ ¬ (∀ rawContent, roundTrip rawContent = rawContent).
Proof.
  split; [vm_compute; reflexivity|].
  split; [vm_compute; discriminate|].
  split; [vm_compute; reflexivity|].
  intros H. specialize (H [97%N; CR; 98%N]). vm_compute in H. discriminate.
Qed.

(** ** Strings: search, split and join *)

Lemma startsWith_cons a p b s :
  startsWith (a :: p) (b :: s) = (a =? b)%N && startsWith p s.
Proof. done. Qed.

Lemma indexOfAt_unfold sub s i :
  indexOfAt sub s i =
  if startsWith sub s then Some i
  else match s with [] => None | _ :: r => indexOfAt sub r (S i) end.
Proof. destruct s; done. Qed.

(** The index found is that of the first occurrence. *)
Lemma indexOfAt_Some sub s k i :
  indexOfAt sub s k = Some i →
  ∃ j, i = k + j ∧ s = take j s ++ sub ++ drop (j + length sub) s
       ∧ ∀ j', j' < j → startsWith sub (drop j' s) = false.
Proof.
  revert k i. induction s as [|c r IH]; intros k i H.
  - rewrite indexOfAt_unfold in H. destruct (startsWith sub []) eqn:E; [|done].
    injection H as <-. exists 0. split; [lia|]. split; [|intros; lia].
    apply startsWith_spec in E as [x Hx]. destruct sub; [done|done].
  - rewrite indexOfAt_unfold in H. destruct (startsWith sub (c :: r)) eqn:E.
    + injection H as <-. exists 0. split; [lia|]. split; [|intros; lia].
      apply startsWith_spec in E as [x Hx]. rewrite Hx at 1. simpl.
      rewrite Hx, drop_app_length. done.
    + apply IH in H as (j & -> & Hs & Hmin). exists (S j). split; [lia|].
      split; [simpl; by rewrite <- Hs|].
      intros [|j'] Hj'; [done|]. simpl. apply Hmin. lia.
Qed.

Lemma indexOfAt_None sub s k :
  indexOfAt sub s k = None → ∀ j, startsWith sub (drop j s) = false.
Proof.
  revert k. induction s as [|c r IH]; intros k H j.
  - rewrite indexOfAt_unfold in H. rewrite drop_nil.
    destruct (startsWith sub []); done.
  - rewrite indexOfAt_unfold in H. destruct (startsWith sub (c :: r)) eqn:E; [done|].
    destruct j; [done|]. simpl. eauto.
Qed.

Lemma indexOf_Some sub s i :
  indexOf sub s = Some i →
  s = take i s ++ sub ++ drop (i + length sub) s
  ∧ ∀ j, j < i → startsWith sub (drop j s) = false.
Proof.
  intros H. apply indexOfAt_Some in H as (j & -> & H1 & H2). done.
Qed.

Lemma indexOf_lt sub s i : indexOf sub s = Some i → sub ≠ [] → i < length s.
Proof.
  intros H Hne. apply indexOf_Some in H as [H _].
  apply (f_equal length) in H. rewrite !length_app, length_take in H.
  destruct sub; [done|]. simpl in H. lia.
Qed.

Lemma splitFuel_join fuel sep s :
  join sep (splitFuel fuel sep s) = s.
Proof.
  revert s. induction fuel as [|f IH]; intros s; [done|]. simpl.
  destruct (indexOf sep s) as [i|] eqn:E; [|done].
  apply indexOf_Some in E as [E _].
  assert (Hj : ∀ p rest, rest ≠ [] → join sep (p :: rest) = p ++ sep ++ join sep rest).
  { intros p [|q rest] Hne; done. }
  rewrite Hj.
  - rewrite IH. done.
  - destruct f; simpl; [done|]. destruct (indexOf sep _); done.
Qed.

Lemma split_join sep s : sep ≠ [] → join sep (split sep s) = s.
Proof. intros H. unfold split. destruct sep; [done|]. apply splitFuel_join. Qed.

Lemma joinLines_splitLines s : joinLines (splitLines s) = s.
Proof. apply split_join. done. Qed.

Lemma splitFuel_nonempty fuel sep s : splitFuel fuel sep s ≠ [].
Proof. destruct fuel; simpl; [done|]. destruct (indexOf sep s); done. Qed.

Lemma splitLines_nonempty s : splitLines s ≠ [].
Proof. apply splitFuel_nonempty. Qed.

Lemma startsWith_single c s : startsWith [c] s = true ↔ ∃ r, s = c :: r.
Proof. rewrite startsWith_spec. done. Qed.

(** No line of [s.split("\n")] contains a line feed. *)
Lemma splitFuel_no_sep fuel c s :
  length s ≤ fuel → Forall (λ l, c ∉ l) (splitFuel fuel [c] s).
Proof.
  revert s. induction fuel as [|f IH]; intros s Hlen.
  - destruct s; [|simpl in Hlen; lia]. simpl. constructor; [|done]. apply not_elem_of_nil.
  - simpl. destruct (indexOf [c] s) as [i|] eqn:E.
    + pose proof (indexOf_lt _ _ _ E ltac:(done)) as Hi.
      apply indexOf_Some in E as [E Hmin]. constructor.
      * intros Hin. apply list_elem_of_lookup in Hin as [j Hj].
        pose proof (lookup_lt_Some _ _ _ Hj) as Hjl. rewrite length_take in Hjl.
        rewrite lookup_take_lt in Hj by lia.
        specialize (Hmin j ltac:(lia)).
        apply not_true_iff_false in Hmin. apply Hmin. apply startsWith_single.
        rewrite (drop_S _ _ _ Hj). eauto.
      * apply IH. rewrite length_drop. simpl. lia.
    + constructor; [|done]. intros Hin.
      apply list_elem_of_lookup in Hin as [j Hj].
      pose proof (indexOfAt_None _ _ _ E j) as Hn.
      apply not_true_iff_false in Hn. apply Hn. apply startsWith_single.
      rewrite (drop_S _ _ _ Hj). eauto.
Qed.

Lemma splitLines_no_LF s : Forall (λ l, LF ∉ l) (splitLines s).
Proof. apply splitFuel_no_sep. done. Qed.

(** ** Decimal numbers and anchors *)

Lemma digitChar_isDigit d : d < 10 → isDigit (digitChar d) = true.
Proof.
  intros H. unfold isDigit, digitChar.
  apply andb_true_intro. split; apply N.leb_le; lia.
Qed.

Lemma digitValue_digitChar d : digitValue (digitChar d) = d.
Proof. unfold digitValue, digitChar. lia. Qed.

Lemma digitsFuel_spec fuel n acc :
  n < fuel →
  ∃ ds, digitsFuel fuel n acc = ds ++ acc ∧ ds ≠ [] ∧ forallb isDigit ds = true
        ∧ ∀ a, fold_left (λ acc c, acc * 10 + digitValue c) ds a = a * 10 ^ length ds + n.
Proof.
  revert n acc. induction fuel as [|f IH]; intros n acc Hn; [lia|].
  simpl. destruct (n / 10 =? 0) eqn:E.
  - apply Nat.eqb_eq in E. exists [digitChar (n mod 10)].
    split; [done|]. split; [done|]. split.
    + simpl. rewrite digitChar_isDigit; [done|]. apply Nat.mod_upper_bound. lia.
    + intros a. simpl. rewrite digitValue_digitChar.
      pose proof (Nat.div_mod_eq n 10). lia.
  - apply Nat.eqb_neq in E.
    assert (Hlt : n / 10 < f).
    { pose proof (Nat.div_mod_eq n 10). pose proof (Nat.mod_upper_bound n 10). lia. }
    destruct (IH (n / 10) (digitChar (n mod 10) :: acc) Hlt) as (ds & -> & Hne & Hd & Hv).
    exists (ds ++ [digitChar (n mod 10)]).
    split; [by rewrite <- app_assoc|].
    split; [by destruct ds|].
    split.
    + rewrite forallb_app, Hd. simpl. rewrite digitChar_isDigit; [done|].
      apply Nat.mod_upper_bound. lia.
    + intros a. rewrite fold_left_app, Hv. simpl. rewrite digitValue_digitChar.
      rewrite length_app. simpl. rewrite Nat.add_1_r, Nat.pow_succ_r'.
      pose proof (Nat.div_mod_eq n 10). lia.
Qed.

Lemma numberToString_digits n :
  numberToString n ≠ [] ∧ forallb isDigit (numberToString n) = true.
Proof.
  unfold numberToString.
  destruct (digitsFuel_spec (S n) n [] ltac:(lia)) as (ds & -> & Hne & Hd & _).
  rewrite app_nil_r. done.
Qed.

Lemma parseDigits_numberToString n : parseDigits (numberToString n) = n.
Proof.
  unfold numberToString, parseDigits.
  destruct (digitsFuel_spec (S n) n [] ltac:(lia)) as (ds & -> & _ & _ & Hv).
  rewrite app_nil_r, Hv. lia.
Qed.

Lemma numberToString_inj n m : numberToString n = numberToString m → n = m.
Proof.
  intros H. rewrite <- (parseDigits_numberToString n), <- (parseDigits_numberToString m).
  by rewrite H.
Qed.

Lemma spanWhile_app p a c r :
  forallb p a = true → p c = false → spanWhile p (a ++ c :: r) = (a, c :: r).
Proof.
  intros Ha Hc. induction a as [|x a IH]; simpl.
  - by rewrite Hc.
  - simpl in Ha. apply andb_prop in Ha as [Hx Ha]. rewrite Hx, IH; done.
Qed.

Lemma cutWhere_id m s :
  (∀ j, m (drop j s) = false) → cutWhere m s = s.
Proof.
  induction s as [|c r IH]; intros H.
  - simpl. by destruct (m []).
  - simpl. pose proof (H 0) as H0. simpl in H0. rewrite H0.
    f_equal. apply IH. intros j. apply (H (S j)).
Qed.

Lemma trimStart_id c r : isWhitespace c = false → trimStart (c :: r) = c :: r.
Proof. intros H. simpl. by rewrite H. Qed.

Lemma trimEnd_id s c : isWhitespace c = false → trimEnd (s ++ [c]) = s ++ [c].
Proof.
  intros H. unfold trimEnd. rewrite rev_app_distr. simpl. rewrite H.
  simpl. by rewrite rev_involutive.
Qed.

Lemma isDigit_not_ws c : isDigit c = true → isWhitespace c = false.
Proof.
  unfold isDigit, isWhitespace. intros H. apply andb_prop in H as [H1 H2].
  apply N.leb_le in H1, H2.
  repeat (apply orb_false_intro); try (apply N.eqb_neq; lia);
    apply andb_false_iff; (left; apply N.leb_gt; lia) || (right; apply N.leb_gt; lia).
Qed.

Lemma isAlnum_not_ws c : isAlnum c = true → isWhitespace c = false.
Proof.
  unfold isAlnum, isDigit, isWhitespace. intros H.
  assert (Hr : (48 <= c <= 122)%N).
  { repeat (apply orb_prop in H as [H|H]); apply andb_prop in H as [H1 H2];
      apply N.leb_le in H1, H2; lia. }
  repeat (apply orb_false_intro); try (apply N.eqb_neq; lia);
    apply andb_false_iff; (left; apply N.leb_gt; lia) || (right; apply N.leb_gt; lia).
Qed.

Lemma isAlnum_props c :
  isAlnum c = true →
  c ≠ 124%N ∧ c ≠ 32%N ∧ c ≠ 58%N ∧ isLineTerminator c = false.
Proof.
  unfold isAlnum, isDigit, isLineTerminator. intros H.
  assert (Hr : (48 <= c <= 57 ∨ 65 <= c <= 122)%N).
  { repeat (apply orb_prop in H as [H|H]); apply andb_prop in H as [H1 H2];
      apply N.leb_le in H1, H2; lia. }
  repeat split; try lia.
  repeat (apply orb_false_intro); apply N.eqb_neq; lia.
Qed.

Lemma isDigit_isAlnum c : isDigit c = true → isAlnum c = true.
Proof. unfold isAlnum. intros ->. done. Qed.

Lemma indexOfAt_colon ds h k :
  forallb isDigit ds = true →
  indexOfAt [58%N] (ds ++ [58%N] ++ h) k = Some (k + length ds).
Proof.
  revert k. induction ds as [|d ds IH]; intros k Hd.
  - simpl. f_equal. lia.
  - simpl in Hd. apply andb_prop in Hd as [Hd0 Hd].
    rewrite <- app_comm_cons, indexOfAt_unfold, startsWith_cons.
    assert ((58 =? d)%N = false) as ->.
    { apply N.eqb_neq. unfold isDigit in Hd0. apply andb_prop in Hd0 as [H1 H2].
      apply N.leb_le in H1, H2. lia. }
    simpl. rewrite IH by done. f_equal. lia.
Qed.

(** A well-formed anchor: decimal digits, a colon, one to sixteen
    alphanumeric characters. *)
Lemma parseLineRef_wellformed ds h :
  ds ≠ [] → forallb isDigit ds = true →
  forallb isAlnum h = true → 1 ≤ length h ≤ 16 →
  parseLineRef (ds ++ [58%N] ++ h)
  = if parseDigits ds <? 1 then inl (LineNumberBelowOne (parseDigits ds) (ds ++ [58%N] ++ h))
    else inr (mkRef (parseDigits ds) h).
Proof.
  intros Hne Hd Hh Hlen.
  set (s := ds ++ [58%N] ++ h).
  assert (Hall : ∀ c, c ∈ s → c ≠ 124%N ∧ c ≠ 32%N ∧ isLineTerminator c = false).
  { intros c Hc. subst s. rewrite !elem_of_app in Hc.
    rewrite forallb_forall in Hd. rewrite forallb_forall in Hh.
    destruct Hc as [Hc|[Hc|Hc]].
    - apply list_elem_of_In, Hd, isDigit_isAlnum, isAlnum_props in Hc. tauto.
    - apply list_elem_of_singleton in Hc as ->. done.
    - apply list_elem_of_In, Hh, isAlnum_props in Hc. tauto. }
  assert (Hdrop : ∀ j c r, drop j s = c :: r → c ≠ 124%N ∧ c ≠ 32%N).
  { intros j c r Hj.
    assert (c ∈ s) as Hc.
    { rewrite <- (take_drop j s), Hj. rewrite elem_of_app. right. left. }
    apply Hall in Hc. tauto. }
  unfold parseLineRef.
  rewrite (cutWhere_id pipeToEnd s).
  2:{ intros j. destruct (drop j s) as [|c r] eqn:E; [done|].
      apply Hdrop in E as [E _]. simpl. apply N.eqb_neq in E. by rewrite E. }
  rewrite (cutWhere_id twoSpacesToEnd s).
  2:{ intros j. destruct (drop j s) as [|c r] eqn:E; [done|].
      apply Hdrop in E as [_ E]. simpl. apply N.eqb_neq in E. rewrite E.
      by destruct r. }
  assert (Htrim : trim s = s).
  { unfold trim, s.
    destruct ds as [|d ds']; [done|]. simpl in Hd. apply andb_prop in Hd as [Hd0 Hd].
    rewrite <- app_comm_cons, trimStart_id by (by apply isDigit_not_ws).
    destruct (exists_last (l := h)) as (h' & c & ->).
    { intros ->. simpl in Hlen. lia. }
    rewrite forallb_app in Hh. apply andb_prop in Hh as [_ Hc]. simpl in Hc.
    apply andb_prop in Hc as [Hc _].
    rewrite app_comm_cons, !app_assoc. apply trimEnd_id. by apply isAlnum_not_ws. }
  rewrite Htrim.
  assert (Hspan : spanWhile isDigit s = (ds, 58%N :: h)).
  { apply spanWhile_app; done. }
  assert (HtrimEnd : trimEnd ds = ds).
  { destruct (exists_last Hne) as (d' & c & ->).
    rewrite forallb_app in Hd. apply andb_prop in Hd as [_ Hc]. simpl in Hc.
    apply andb_prop in Hc as [Hc _]. apply trimEnd_id. by apply isDigit_not_ws. }
  assert (HtrimStart : trimStart h = h).
  { destruct h as [|c h']; [done|]. simpl in Hh. apply andb_prop in Hh as [Hc _].
    apply trimStart_id. by apply isAlnum_not_ws. }
  assert (Hidx : indexOf [58%N] s = Some (length ds)).
  { unfold indexOf, s. rewrite indexOfAt_colon by done. f_equal. }
  unfold normalizeColon. rewrite Hidx.
  assert (take (length ds) s = ds) as -> by apply take_app_length.
  assert (drop (S (length ds)) s = h) as ->.
  { unfold s. rewrite app_assoc. apply drop_app_length'.
    rewrite length_app. simpl. lia. }
  rewrite HtrimEnd, HtrimStart. fold s.
  unfold strictMatch. rewrite Hspan.
  destruct ds as [|d ds']; [done|].
  rewrite Hh.
  assert ((1 <=? length h) = true) as -> by (apply Nat.leb_le; lia).
  assert ((length h <=? 16) = true) as -> by (apply Nat.leb_le; lia).
  done.
Qed.

Lemma parseLineRef_formatRef n h :
  1 ≤ n → forallb isAlnum h = true → 1 ≤ length h ≤ 16 →
  parseLineRef (formatRef n h) = inr (mkRef n h).
Proof.
  intros Hn Hh Hlen. unfold formatRef.
  destruct (numberToString_digits n) as [Hne Hd].
  rewrite parseLineRef_wellformed by done.
  rewrite parseDigits_numberToString.
  assert ((n <? 1) = false) as -> by (apply Nat.ltb_ge; lia). done.
Qed.

Lemma isLowerHexDigit_isAlnum c : isLowerHexDigit c = true → isAlnum c = true.
Proof.
  unfold isLowerHexDigit, isAlnum. intros H.
  apply orb_prop in H as [->|H]; [done|].
  apply andb_prop in H as [H1 H2]. apply N.leb_le in H1, H2.
  apply orb_true_iff. left. apply orb_true_iff. right.
  apply andb_true_intro. split; apply N.leb_le; lia.
Qed.

Lemma computeLineHash_alnum i l :
  forallb isAlnum (computeLineHash i l) = true ∧ 1 ≤ length (computeLineHash i l) ≤ 16.
Proof.
  destruct (computeLineHash_shape i l) as [Hlen Hhex]. split; [|lia].
  rewrite forallb_forall in Hhex. apply forallb_forall.
  intros c Hc. apply isLowerHexDigit_isAlnum. auto.
Qed.

(** The anchor [read_file] shows for a line is parsed back to that line
    and fingerprint. *)
Lemma parseLineRef_own_anchor n l :
  1 ≤ n →
  parseLineRef (formatRef n (computeLineHash n l)) = inr (mkRef n (computeLineHash n l)).
Proof.
  intros Hn. destruct (computeLineHash_alnum n l). by apply parseLineRef_formatRef.
Qed.

Lemma toLowerCase_hash i l : toLowerCase (computeLineHash i l) = computeLineHash i l.
Proof.
  destruct (computeLineHash_shape i l) as [_ Hhex].
  unfold toLowerCase. induction (computeLineHash i l) as [|c r IH]; [done|].
  simpl in Hhex. apply andb_prop in Hhex as [Hc Hr]. simpl. rewrite IH by done.
  f_equal. unfold toLowerChar, isLowerHexDigit, isDigit in *.
  destruct ((65 <=? c)%N && (c <=? 90)%N) eqn:E; [|done].
  apply andb_prop in E as [E1 E2]. apply N.leb_le in E1, E2.
  apply orb_prop in Hc as [Hc|Hc]; apply andb_prop in Hc as [H1 H2];
    apply N.leb_le in H1, H2; lia.
Qed.

(** ** The fingerprint index *)

Lemma hashIndexLoop_spec lines i uniq dups (occ : jsstring → list nat) :
  (∀ h, indexRepr (occ h) uniq dups h) →
  ∀ h, indexRepr (occ h ++ fingerprintLinesFrom lines i h)
         (hashIndexLoop lines i uniq dups).1 (hashIndexLoop lines i uniq dups).2 h.
Proof.
  revert i uniq dups occ. induction lines as [|l r IH]; intros i uniq dups occ Hinv h.
  - simpl. rewrite app_nil_r. apply Hinv.
  - simpl. set (h0 := computeLineHash (i + 1) l).
    set (occ' := λ h, occ h ++ if decide (h0 = h) then [i + 1] else []).
    assert (Hocc : occ h ++ (if decide (h0 = h) then i + 1 :: fingerprintLinesFrom r (S i) h
                             else fingerprintLinesFrom r (S i) h)
                   = occ' h ++ fingerprintLinesFrom r (S i) h).
    { unfold occ'. destruct (decide (h0 = h)); [by rewrite <- app_assoc | by rewrite app_nil_r]. }
    rewrite Hocc. clear Hocc.
    destruct (bool_decide (h0 ∈ dups)) eqn:Ed.
    { apply bool_decide_eq_true in Ed. apply IH. intros h'. unfold occ'.
      destruct (decide (h0 = h')) as [<-|Hne]; [|rewrite app_nil_r; apply Hinv].
      pose proof (Hinv h0) as H0. unfold indexRepr in *.
      destruct (occ h0) as [|a [|b rest]]; simpl; [tauto | tauto | done]. }
    apply bool_decide_eq_false in Ed.
    destruct (bool_decide (is_Some (uniq !! h0))) eqn:Eu.
    { apply bool_decide_eq_true in Eu. destruct Eu as [n Hn].
      apply IH. intros h'. unfold occ'.
      destruct (decide (h0 = h')) as [<-|Hne].
      - pose proof (Hinv h0) as H0. unfold indexRepr in *.
        destruct (occ h0) as [|a [|b rest]]; simpl.
        + destruct H0; congruence.
        + rewrite lookup_delete_eq. split; [done|set_solver].
        + tauto.
      - rewrite app_nil_r. pose proof (Hinv h') as H'. unfold indexRepr in *.
        destruct (occ h') as [|a [|b rest]]; rewrite lookup_delete_ne by done;
          (split; [tauto|set_solver]). }
    apply bool_decide_eq_false in Eu.
    assert (Hn : uniq !! h0 = None).
    { destruct (uniq !! h0) eqn:E; [|done]. exfalso. apply Eu. eauto. }
    apply IH. intros h'. unfold occ'.
    destruct (decide (h0 = h')) as [<-|Hne].
    + pose proof (Hinv h0) as H0. unfold indexRepr in *.
      destruct (occ h0) as [|a [|b rest]]; simpl.
      * rewrite lookup_insert_eq. done.
      * destruct H0; congruence.
      * tauto.
    + rewrite app_nil_r. pose proof (Hinv h') as H'. unfold indexRepr in *.
      destruct (occ h') as [|a [|b rest]]; rewrite lookup_insert_ne by done; done.
Qed.

(** [uniqueLineByHash] maps a fingerprint to a line exactly when that is
    the one line of the file with the fingerprint. *)
Lemma uniqueLineByHash_spec lines h n :
  uniqueLineByHash lines !! h = Some n ↔ linesWithFingerprint lines h = [n].
Proof.
  pose proof (hashIndexLoop_spec lines 0 ∅ ∅ (λ _, [])
                ltac:(intros h'; simpl; split; [apply lookup_empty|set_solver]) h) as H.
  simpl in H. unfold uniqueLineByHash, linesWithFingerprint, indexRepr in *.
  destruct (fingerprintLinesFrom lines 0 h) as [|a [|b rest]].
  - destruct H as [-> _]. split; done.
  - destruct H as [-> _]. split; [by intros [= ->] | by intros [= ->]].
  - destruct H as [-> _]. split; done.
Qed.

Lemma uniqueLineByHash_None lines h :
  uniqueLineByHash lines !! h = None ↔ length (linesWithFingerprint lines h) ≠ 1.
Proof.
  destruct (uniqueLineByHash lines !! h) as [n|] eqn:E.
  - apply uniqueLineByHash_spec in E. rewrite E. simpl. split; [done|lia].
  - split; [|done]. intros _ Hlen.
    destruct (linesWithFingerprint lines h) as [|a [|b rest]] eqn:E'; simpl in Hlen; try lia.
    apply uniqueLineByHash_spec in E'. congruence.
Qed.

Lemma fingerprintLinesFrom_elem lines i h n :
  n ∈ fingerprintLinesFrom lines i h ↔
  ∃ l, i < n ∧ lines !! (n - 1 - i) = Some l ∧ computeLineHash n l = h.
Proof.
  revert i. induction lines as [|l r IH]; intros i; simpl.
  - split; [intros H; by apply elem_of_nil in H | intros (l & _ & H & _); done].
  - assert (Hrest : n ∈ fingerprintLinesFrom r (S i) h ↔
              ∃ l', i < n ∧ n ≠ i + 1 ∧ (l :: r) !! (n - 1 - i) = Some l'
                    ∧ computeLineHash n l' = h).
    { rewrite IH. split.
      - intros (l' & Hlt & Hl & Hh). exists l'. split; [lia|]. split; [lia|].
        replace (n - 1 - i) with (S (n - 1 - S i)) by lia. done.
      - intros (l' & Hlt & Hne & Hl & Hh). exists l'. split; [lia|].
        replace (n - 1 - i) with (S (n - 1 - S i)) in Hl by lia. done. }
    destruct (decide (computeLineHash (i + 1) l = h)) as [Hh|Hh].
    + rewrite elem_of_cons, Hrest. split.
      * intros [->|(l' & ? & ? & ? & ?)]; [|eauto].
        exists l. replace (i + 1 - 1 - i) with 0 by lia. split; [lia|done].
      * intros (l' & Hlt & Hl & Hh'). destruct (decide (n = i + 1)) as [->|Hne]; [by left|].
        right. eauto.
    + rewrite Hrest. split; [intros (l' & ? & ? & ? & ?); eauto|].
      intros (l' & Hlt & Hl & Hh'). exists l'. split; [done|]. split; [|done].
      intros ->. replace (i + 1 - 1 - i) with 0 in Hl by lia. simpl in Hl.
      injection Hl as ->. done.
Qed.

(** The lines with a given fingerprint are lines of the file. *)
Lemma linesWithFingerprint_elem lines h n :
  n ∈ linesWithFingerprint lines h ↔
  1 ≤ n ≤ length lines ∧ computeLineHash n (lines !!! (n - 1)) = h.
Proof.
  unfold linesWithFingerprint. rewrite fingerprintLinesFrom_elem. split.
  - intros (l & Hlt & Hl & Hh). rewrite Nat.sub_0_r in Hl.
    pose proof (lookup_lt_Some _ _ _ Hl). split; [lia|].
    by rewrite (list_lookup_total_correct _ _ _ Hl).
  - intros [Hr Hh]. destruct (lookup_lt_is_Some_2 lines (n - 1) ltac:(lia)) as [l Hl].
    exists l. rewrite Nat.sub_0_r. split; [lia|]. split; [done|].
    by rewrite (list_lookup_total_correct _ _ _ Hl) in Hh.
Qed.

(** ** Validation of one anchor *)

Lemma validateOrRelocateRef_ok lines ref ms :
  1 ≤ line ref ≤ length lines →
  computeLineHash (line ref) (lines !!! (line ref - 1)) = toLowerCase (hash ref) →
  validateOrRelocateRef lines (uniqueLineByHash lines) ref ms = inr (RefOk false, ref, ms).
Proof.
  intros Hr Hh. unfold validateOrRelocateRef.
  assert ((line ref <? 1) || (length lines <? line ref) = false) as ->.
  { apply orb_false_intro; apply Nat.ltb_ge; lia. }
  unfold streq. rewrite bool_decide_eq_true_2 by done. done.
Qed.

Lemma validateOrRelocateRef_relocate lines ref ms m :
  1 ≤ line ref ≤ length lines →
  computeLineHash (line ref) (lines !!! (line ref - 1)) ≠ toLowerCase (hash ref) →
  linesWithFingerprint lines (toLowerCase (hash ref)) = [m] →
  validateOrRelocateRef lines (uniqueLineByHash lines) ref ms
  = inr (RefOk true, mkRef m (hash ref), ms).
Proof.
  intros Hr Hh Hm. unfold validateOrRelocateRef.
  assert ((line ref <? 1) || (length lines <? line ref) = false) as ->.
  { apply orb_false_intro; apply Nat.ltb_ge; lia. }
  unfold streq. rewrite bool_decide_eq_false_2 by done.
  apply uniqueLineByHash_spec in Hm. by rewrite Hm.
Qed.

Lemma validateOrRelocateRef_fail lines ref ms :
  anchorFails lines ref →
  validateOrRelocateRef lines (uniqueLineByHash lines) ref ms
  = inr (RefFailed, ref, ms ++ [mismatchOf lines ref]).
Proof.
  intros (Hr & Hh & Hm). unfold validateOrRelocateRef.
  assert ((line ref <? 1) || (length lines <? line ref) = false) as ->.
  { apply orb_false_intro; apply Nat.ltb_ge; lia. }
  unfold streq. rewrite bool_decide_eq_false_2 by done.
  apply uniqueLineByHash_None in Hm. by rewrite Hm.
Qed.

(** Whatever the outcome, the mismatches recorded before stay, and the
    anchor keeps its fingerprint; a validated anchor names a line of the
    file that has its fingerprint. *)
Lemma validateOrRelocateRef_inv lines ref ms st ref' ms' :
  validateOrRelocateRef lines (uniqueLineByHash lines) ref ms = inr (st, ref', ms') →
  hash ref' = hash ref
  ∧ (∃ extra, ms' = ms ++ extra)
  ∧ (∀ relocated, st = RefOk relocated →
       ms' = ms ∧ 1 ≤ line ref' ≤ length lines
       ∧ computeLineHash (line ref') (lines !!! (line ref' - 1)) = toLowerCase (hash ref)).
Proof.
  unfold validateOrRelocateRef.
  destruct ((line ref <? 1) || (length lines <? line ref)) eqn:Er; [done|].
  apply orb_false_elim in Er as [E1 E2]. apply Nat.ltb_ge in E1, E2.
  unfold streq. destruct (bool_decide _) eqn:Eh.
  - apply bool_decide_eq_true in Eh. intros [= <- <- <-].
    split; [done|]. split; [exists []; by rewrite app_nil_r|].
    intros r _. split; [done|]. split; [lia|done].
  - destruct (uniqueLineByHash lines !! toLowerCase (hash ref)) as [m|] eqn:Em.
    + intros [= <- <- <-]. split; [done|]. split; [exists []; by rewrite app_nil_r|].
      intros r _. apply uniqueLineByHash_spec in Em.
      assert (Hin : m ∈ linesWithFingerprint lines (toLowerCase (hash ref))).
      { rewrite Em. apply list_elem_of_singleton. done. }
      apply linesWithFingerprint_elem in Hin. simpl. tauto.
    + intros [= <- <- <-]. split; [done|]. split; [eauto|]. intros r Hr. done.
Qed.

(** ** The validation loop *)

Lemma validateEdit_records lines p ms p' ms' :
  validateEdit lines (uniqueLineByHash lines) p ms = inr (p', ms') →
  (∃ extra, ms' = ms ++ extra)
  ∧ ∀ ref, ref ∈ anchorsOf (spec p) → anchorFails lines ref → mismatchOf lines ref ∈ ms'.
Proof.
  unfold validateEdit. destruct (spec p) as [ref|start end_|after] eqn:Es; simpl.
  - destruct (validateOrRelocateRef _ _ ref ms) as [e|[[st r'] ms1]] eqn:Ev; [done|].
    simpl. intros [= <- <-].
    pose proof (validateOrRelocateRef_inv _ _ _ _ _ _ Ev) as (_ & Hext & _).
    split; [done|]. intros r Hr Hf. apply list_elem_of_singleton in Hr as ->.
    rewrite (validateOrRelocateRef_fail _ _ ms Hf) in Ev. injection Ev as <- <- <-.
    rewrite elem_of_app. right. apply list_elem_of_singleton. done.
  - destruct (line end_ <? line start); [done|].
    destruct (validateOrRelocateRef _ _ start ms) as [e|[[st1 s'] ms1]] eqn:Ev1; [done|].
    simpl.
    destruct (validateOrRelocateRef _ _ end_ ms1) as [e|[[st2 e'] ms2]] eqn:Ev2; [done|].
    simpl.
    pose proof (validateOrRelocateRef_inv _ _ _ _ _ _ Ev1) as (_ & [x1 Hx1] & _).
    pose proof (validateOrRelocateRef_inv _ _ _ _ _ _ Ev2) as (_ & [x2 Hx2] & _).
    intros Hres.
    assert (Hms : ∃ extra, ms' = ms2 ++ extra).
    { destruct st1 as [r1| ], st2 as [r2| ]; try (injection Hres as <- <-; exists []; by rewrite app_nil_r).
      destruct (_ && _); injection Hres as <- <-; [eauto | exists []; by rewrite app_nil_r]. }
    destruct Hms as [x3 Hx3]. split.
    { exists (x1 ++ x2 ++ x3). subst. by rewrite <- !app_assoc. }
    intros r Hr Hf. rewrite elem_of_cons, list_elem_of_singleton in Hr.
    destruct Hr as [-> | ->].
    + rewrite (validateOrRelocateRef_fail _ _ ms Hf) in Ev1. injection Ev1 as <- <- <-.
      subst. rewrite !elem_of_app. left. left. right. apply list_elem_of_singleton. done.
    + rewrite (validateOrRelocateRef_fail _ _ ms1 Hf) in Ev2. injection Ev2 as <- <- <-.
      subst. rewrite !elem_of_app. left. right. apply list_elem_of_singleton. done.
  - destruct (length (dstLines p) =? 0); [done|].
    destruct (validateOrRelocateRef _ _ after ms) as [e|[[st r'] ms1]] eqn:Ev; [done|].
    simpl. intros [= <- <-].
    pose proof (validateOrRelocateRef_inv _ _ _ _ _ _ Ev) as (_ & Hext & _).
    split; [done|]. intros r Hr Hf. apply list_elem_of_singleton in Hr as ->.
    rewrite (validateOrRelocateRef_fail _ _ ms Hf) in Ev. injection Ev as <- <- <-.
    rewrite elem_of_app. right. apply list_elem_of_singleton. done.
Qed.

Lemma validateAll_records lines parsed ms parsed' ms' :
  validateAll lines (uniqueLineByHash lines) parsed ms = inr (parsed', ms') →
  (∃ extra, ms' = ms ++ extra)
  ∧ ∀ p ref, p ∈ parsed → ref ∈ anchorsOf (spec p) → anchorFails lines ref →
             mismatchOf lines ref ∈ ms'.
Proof.
  revert ms parsed' ms'. induction parsed as [|p r IH]; intros ms parsed' ms'; simpl.
  - intros [= <- <-]. split; [exists []; by rewrite app_nil_r|].
    intros p ref Hp. by apply elem_of_nil in Hp.
  - destruct (validateEdit _ _ p ms) as [e|[p1 ms1]] eqn:Ev; [done|]. simpl.
    destruct (validateAll _ _ r ms1) as [e|[r1 ms2]] eqn:Er; [done|]. simpl.
    intros [= <- <-].
    apply validateEdit_records in Ev as ([x1 ->] & Hp1).
    apply IH in Er as ([x2 ->] & Hr1).
    split; [exists (x1 ++ x2); by rewrite app_assoc|].
    intros q ref Hq Hin Hf. apply elem_of_cons in Hq as [-> | Hq].
    + rewrite elem_of_app. left. by apply Hp1.
    + by apply (Hr1 q).
Qed.

Lemma mapE_length {A B} (f : A → Error + B) l l' :
  mapE f l = inr l' → length l' = length l.
Proof.
  revert l'. induction l as [|x r IH]; intros l'; simpl.
  - by intros [= <-].
  - destruct (f x); [done|]. simpl. destruct (mapE f r); [done|]. simpl.
    intros [= <-]. simpl. f_equal. by apply IH.
Qed.

Lemma mapE_elem {A B} (f : A → Error + B) l l' x :
  mapE f l = inr l' → x ∈ l → ∃ y, f x = inr y ∧ y ∈ l'.
Proof.
  revert l'. induction l as [|a r IH]; intros l'; simpl.
  - intros _ H. by apply elem_of_nil in H.
  - destruct (f a) as [e|b] eqn:Ea; [done|]. simpl.
    destruct (mapE f r) as [e|bs] eqn:Er; [done|]. simpl.
    intros [= <-] Hin. apply elem_of_cons in Hin as [-> | Hin].
    + exists b. split; [done|]. apply elem_of_cons. by left.
    + destruct (IH bs eq_refl Hin) as (y & Hy & Hin'). exists y. split; [done|].
      apply elem_of_cons. by right.
Qed.

(** The anchors kept of a submitted operation are the anchors of the
    parsed operation. *)
Lemma keptAnchors_parsed e p a ref :
  parseEdit e = inr p → a ∈ keptAnchors e → parseLineRef a = inr ref →
  ref ∈ anchorsOf (spec p).
Proof.
  unfold parseEdit, parseHashlineEdit, keptAnchors.
  destruct e as [anchor t|sa ea t|anchor t|o n al].
  - intros Hp Ha Hr. apply list_elem_of_singleton in Ha as ->.
    rewrite Hr in Hp. simpl in Hp. injection Hp as <-. simpl.
    by apply list_elem_of_singleton.
  - destruct (parseLineRef sa) as [e1|s] eqn:Es; [done|]. simpl.
    destruct ea as [|c ea'].
    + intros [= <-] Ha Hr. apply list_elem_of_singleton in Ha as ->.
      rewrite Es in Hr. injection Hr as <-. simpl. by apply list_elem_of_singleton.
    + destruct (parseLineRef (c :: ea')) as [e2|en] eqn:Ee; [done|]. simpl.
      destruct (line s =? line en).
      * intros [= <-] Ha Hr. apply list_elem_of_singleton in Ha as ->.
        rewrite Es in Hr. injection Hr as <-. simpl. by apply list_elem_of_singleton.
      * intros [= <-] Ha Hr. simpl.
        apply elem_of_cons in Ha as [-> | Ha].
        { rewrite Es in Hr. injection Hr as <-. apply elem_of_cons. by left. }
        apply list_elem_of_singleton in Ha as ->.
        rewrite Ee in Hr. injection Hr as <-.
        apply elem_of_cons. right. by apply list_elem_of_singleton.
  - intros Hp Ha Hr. apply list_elem_of_singleton in Ha as ->.
    rewrite Hr in Hp. simpl in Hp. injection Hp as <-. simpl.
    by apply list_elem_of_singleton.
  - intros _ Ha. by apply elem_of_nil in Ha.
Qed.




(** ** A batch of one operation *)

Lemma applyHashlineEdits_validated content edits parsed parsed' :
  edits ≠ [] →
  mapE parseEdit edits = inr parsed →
  validateAll (splitLines content) (uniqueLineByHash (splitLines content)) parsed []
  = inr (parsed', []) →
  applyHashlineEdits content edits
  = inr (applyValidated (splitLines content) (length edits) parsed').
Proof.
  intros Hne Hp Hv. unfold applyHashlineEdits.
  destruct edits; [done|]. simpl length. simpl Nat.eqb. cbv iota.
  rewrite Hp. simpl. rewrite Hv. done.
Qed.

Lemma applyValidated_single lines n p :
  applyValidated lines n [p]
  = let st := applyEdit lines (touchedBy (spec p)) (mkState lines None []) (annotate 0 p) in
    mkResult (joinLines (fileLines st)) (firstChangedLine st)
             (reformatWarnings lines (fileLines st) n) (noopEdits st).
Proof.
  unfold applyValidated, collectExplicitlyTouchedLines. simpl.
  rewrite bool_decide_eq_false_2 by set_solver. simpl.
  by rewrite (left_id_L ∅ (∪)).
Qed.

Lemma slice_one (lines : list jsstring) n :
  1 ≤ n ≤ length lines → slice (n - 1) n lines = [lines !!! (n - 1)].
Proof.
  intros Hn. unfold slice.
  destruct (lookup_lt_is_Some_2 lines (n - 1) ltac:(lia)) as [l Hl].
  rewrite (list_lookup_total_correct _ _ _ Hl).
  rewrite (drop_S _ _ _ Hl). replace (n - (n - 1)) with 1 by lia. done.
Qed.

Lemma joinLines_singleton (l : jsstring) : joinLines [l] = l.
Proof. done. Qed.

(** A set_line operation whose anchor validates, when no merge applies. *)
Lemma applyEdit_single_plain lines touched st ref dst i :
  1 ≤ line ref ≤ length lines →
  maybeExpandSingleLineMerge (fileLines st) touched (line ref) dst = None →
  applyEdit lines touched st (mkAnnotated (Single ref) dst i (line ref) 0)
  = replaceOrNoop st i ref [lines !!! (line ref - 1)]
      (resolveReplacement lines [lines !!! (line ref - 1)] (line ref) (line ref) dst)
      (line ref) 1.
Proof.
  intros Hr Hm. unfold applyEdit. simpl. rewrite Hm. by rewrite slice_one.
Qed.

Lemma parseEdit_SetLine anchor new_text ref :
  parseLineRef anchor = inr ref →
  parseEdit (SetLine anchor new_text)
  = inr (mkParsed (Single ref) (stripNewLinePrefixes (splitDstLines new_text))).
Proof. intros H. unfold parseEdit, parseHashlineEdit. by rewrite H. Qed.

Lemma parseEdit_InsertAfter anchor txt ref :
  parseLineRef anchor = inr ref →
  parseEdit (InsertAfter anchor txt)
  = inr (mkParsed (InsertAfterRef ref) (stripNewLinePrefixes (splitDstLines txt))).
Proof. intros H. unfold parseEdit, parseHashlineEdit. by rewrite H. Qed.

Lemma lookup_frame_before {A} (l mid : list A) n i x :
  i < n - 1 → l !! i = Some x → (take (n - 1) l ++ mid ++ drop n l) !! i = Some x.
Proof.
  intros Hi Hl. pose proof (lookup_lt_Some _ _ _ Hl).
  rewrite lookup_app_l by (rewrite length_take; lia).
  by rewrite lookup_take_lt.
Qed.

Lemma lookup_frame_after {A} (l mid : list A) n i x :
  1 ≤ n → n ≤ i → l !! i = Some x →
  (take (n - 1) l ++ mid ++ drop n l) !! (i + length mid - 1) = Some x.
Proof.
  intros Hn Hi Hl. pose proof (lookup_lt_Some _ _ _ Hl).
  rewrite lookup_app_r by (rewrite length_take; lia).
  rewrite length_take. rewrite lookup_app_r by lia.
  rewrite lookup_drop. rewrite <- Hl. f_equal. lia.
Qed.

(** C9 (amended).  Take a file and a batch of one set_line whose anchor
    validates (as it stands or relocated) to line [n], for which merge
    expansion does not apply, and whose resolved replacement differs from
    the current content of line [n].  The resulting file is the original one
    with the resolved replacement lines in the place of line [n]: every
    other line is there unchanged (so is its fingerprint), the lines before
    at their position, the lines after moved by the change of length. *)
Theorem set_line_frame
    (content anchor new_text : jsstring) (ref ref' : LineRef) (relocated : bool) :
  let lines := splitLines content in
  let dst := stripNewLinePrefixes (splitDstLines new_text) in
  let n := line ref' in
  let current := lines !!! (n - 1) in
  let resolved := resolveReplacement lines [current] n n dst in
  let result := take (n - 1) lines ++ resolved ++ drop n lines in
  parseLineRef anchor = inr ref →
  validateOrRelocateRef lines (uniqueLineByHash lines) ref []
  = inr (RefOk relocated, ref', []) →
  maybeExpandSingleLineMerge lines {[n]} n dst = None →
  joinLines resolved ≠ current →
  ∃ res,
    applyHashlineEdits content [SetLine anchor new_text] = inr res
    ∧ Engine.content res = joinLines result
    ∧ resFirstChangedLine res = Some n
    ∧ resNoopEdits res = []
    ∧ 1 ≤ n ≤ length lines
    ∧ (∀ i l, i < n - 1 → lines !! i = Some l →
              result !! i = Some l
              ∧ computeLineHash (i + 1) l = computeLineHash (i + 1) (lines !!! i))
    ∧ (∀ i l, n ≤ i → lines !! i = Some l →
              result !! (i + length resolved - 1) = Some l
              ∧ computeLineHash (i + length resolved) l
                = computeLineHash (i + 1) (lines !!! i)).
Proof.
  intros lines dst n current resolved result Hparse Hval Hmerge Hdiff.
  pose proof (validateOrRelocateRef_inv _ _ _ _ _ _ Hval) as (_ & _ & Hok).
  destruct (Hok relocated eq_refl) as (_ & Hrange & _).
  eexists. split.
  { apply applyHashlineEdits_validated with
      (parsed := [mkParsed (Single ref) dst]); [done| |].
    - simpl. rewrite (parseEdit_SetLine _ _ _ Hparse). done.
    - simpl. unfold validateEdit. simpl. fold lines. rewrite Hval. simpl. done. }
  rewrite applyValidated_single. simpl touchedBy. fold lines.
  change (annotate 0 (mkParsed (Single ref') dst))
    with (mkAnnotated (Single ref') dst 0 (line ref') 0).
  rewrite applyEdit_single_plain by done.
  unfold replaceOrNoop. fold n current resolved.
  unfold streq. rewrite bool_decide_eq_false_2.
  2:{ rewrite joinLines_singleton. congruence. }
  simpl. unfold splice. simpl.
  replace (n - 1 + 1) with n by lia. fold result.
  repeat split; try done; try lia.
  - by apply lookup_frame_before.
  - by rewrite (list_lookup_total_correct _ _ _ H0).
  - apply lookup_frame_after; [lia|done|done].
  - by rewrite (list_lookup_total_correct _ _ _ H0).
Qed.

Lemma set_line_frame_witness :
  ∃ res,
    applyHashlineEdits (lit "aaa" ++ [LF] ++ lit "bbb" ++ [LF] ++ lit "ccc")
      [SetLine (formatRef 2 (computeLineHash 2 (lit "bbb"))) (lit "BBB")] = inr res
    ∧ Engine.content res = lit "aaa" ++ [LF] ++ lit "BBB" ++ [LF] ++ lit "ccc".
Proof.
  destruct (set_line_frame (lit "aaa" ++ [LF] ++ lit "bbb" ++ [LF] ++ lit "ccc")
              (formatRef 2 (computeLineHash 2 (lit "bbb"))) (lit "BBB")
              (mkRef 2 (computeLineHash 2 (lit "bbb")))
              (mkRef 2 (computeLineHash 2 (lit "bbb"))) false
              ltac:(vm_compute; reflexivity) ltac:(vm_compute; reflexivity)
              ltac:(vm_compute; reflexivity) ltac:(vm_compute; congruence))
    as (res & Hres & Hcontent & _).
  exists res. split; [exact Hres|].
  rewrite Hcontent. vm_compute. reflexivity.
Defined.

(** C9 as stated fails when merge expansion applies: in the file
    ["a &&\nb\nc"], set_line on line 1 with ["a && b"] replaces lines 1 and
    2 by the one replacement line.  The line ["b"] is gone and no line of
    the result has its fingerprint; line 2 is now ["c"]. *)
Lemma set_line_merge_counterexample :
  let content := lit "a &&" ++ [LF] ++ lit "b" ++ [LF] ++ lit "c" in
  let edit := SetLine (formatRef 1 (computeLineHash 1 (lit "a &&"))) (lit "a && b") in
  ∃ res,
    applyHashlineEdits content [edit] = inr res
    ∧ splitLines (Engine.content res) = [lit "a && b"; lit "c"]
    ∧ lit "a && b" ≠ splitLines content !!! 0
    ∧ splitLines content !!! 1 = lit "b"
    ∧ lit "b" ∉ splitLines (Engine.content res)
    ∧ computeLineHash 2 (lit "b")
      ∉ map (computeLineHash 0) (splitLines (Engine.content res))
    ∧ computeLineHash 2 (splitLines (Engine.content res) !!! 1)
      ≠ computeLineHash 2 (splitLines content !!! 1).
Proof.
  intros content edit. eexists. split; [vm_compute; reflexivity|].
  split; [vm_compute; reflexivity|].
  split; [vm_compute; congruence|].
  split; [vm_compute; reflexivity|].
  split.
  { vm_compute. intros H. apply list_elem_of_In in H. simpl in H.
    destruct H as [H|[H|[]]]; discriminate. }
  split.
  { vm_compute. intros H. apply list_elem_of_In in H. simpl in H.
    destruct H as [H|[H|[]]]; discriminate. }
  vm_compute. congruence.
Qed.

(** ** Blank lines *)

Lemma trimStart_nil_iff l : trimStart l = [] ↔ forallb isWhitespace l = true.
Proof.
  induction l as [|c r IH]; simpl; [done|].
  destruct (isWhitespace c); simpl; [done|]. split; done.
Qed.

Lemma removeWhitespace_nil_iff l :
  removeWhitespace l = [] ↔ forallb isWhitespace l = true.
Proof.
  unfold removeWhitespace. induction l as [|c r IH]; [done|].
  rewrite filter_cons. simpl forallb.
  destruct (decide (isWhitespace c = false)) as [E|E].
  - rewrite E. split; done.
  - apply not_false_is_true in E. rewrite E. done.
Qed.

Lemma trimStart_head l c r : trimStart l = c :: r → isWhitespace c = false.
Proof.
  induction l as [|x l IH]; simpl; [done|].
  destruct (isWhitespace x) eqn:E; [done|]. by intros [= <- _].
Qed.

Lemma forallb_rev {A} (f : A → bool) l : forallb f (rev l) = forallb f l.
Proof.
  induction l as [|x l IH]; simpl; [done|].
  rewrite forallb_app, IH. simpl. rewrite andb_true_r. apply andb_comm.
Qed.

Lemma trim_nil_iff l : trim l = [] ↔ forallb isWhitespace l = true.
Proof.
  unfold trim, trimEnd. split.
  - intros H. apply (f_equal (@rev N)) in H. rewrite rev_involutive in H. simpl in H.
    apply trimStart_nil_iff in H. rewrite forallb_rev in H.
    destruct (trimStart l) as [|c r] eqn:E; [by apply trimStart_nil_iff|].
    apply trimStart_head in E. simpl in H. by rewrite E in H.
  - intros H. apply trimStart_nil_iff in H. by rewrite H.
Qed.

(** A line is substantive when something is left of it without its
    whitespace. *)
Lemma isSubstantive_spec l : isSubstantive l = true ↔ removeWhitespace l ≠ [].
Proof.
  unfold isSubstantive. rewrite removeWhitespace_nil_iff, <- trim_nil_iff.
  rewrite Nat.ltb_lt. destruct (trim l); simpl; split; try done; lia.
Qed.

Lemma vibeCheck_spec a b :
  vibeCheck a b = true ↔ removeWhitespace a = removeWhitespace b.
Proof.
  unfold vibeCheck, streq. destruct (bool_decide (a = b)) eqn:E.
  - apply bool_decide_eq_true in E as ->. done.
  - apply bool_decide_eq_true.
Qed.

Lemma vibeCheck_substantive a b :
  vibeCheck a b = true → isSubstantive a = true → isSubstantive b = true.
Proof.
  rewrite vibeCheck_spec, !isSubstantive_spec. by intros ->.
Qed.

(** ** Insertion *)

Lemma validateAll_each lines uniq parsed ms r p :
  validateAll lines uniq parsed ms = inr r → p ∈ parsed →
  ∃ ms0 r0, validateEdit lines uniq p ms0 = inr r0.
Proof.
  revert ms r. induction parsed as [|q rest IH]; intros ms r; simpl.
  - intros _ H. by apply elem_of_nil in H.
  - destruct (validateEdit lines uniq q ms) as [e|[q1 ms1]] eqn:Eq; [done|]. simpl.
    destruct (validateAll lines uniq rest ms1) as [e|r1] eqn:Er; [done|].
    intros _ Hin. apply elem_of_cons in Hin as [-> | Hin]; [eauto|].
    eapply IH; eauto.
Qed.

Lemma empty_insert_rejected content edits anchor :
  InsertAfter anchor [] ∈ edits → ∃ e, applyHashlineEdits content edits = inl e.
Proof.
  intros Hin. unfold applyHashlineEdits.
  destruct edits as [|e0 edits']; [by apply elem_of_nil in Hin|].
  simpl length. simpl Nat.eqb. cbv iota.
  destruct (mapE parseEdit (e0 :: edits')) as [e|parsed] eqn:Ep; [by eexists|].
  simpl bindE.
  destruct (validateAll _ _ parsed []) as [e|[parsed' ms]] eqn:Ev; [by eexists|].
  exfalso.
  destruct (mapE_elem _ _ _ _ Ep Hin) as (p & Hp & Hpin).
  destruct (validateAll_each _ _ _ _ _ _ Ev Hpin) as (ms0 & r0 & Hr0).
  unfold parseEdit, parseHashlineEdit in Hp.
  destruct (liftParse (parseLineRef anchor)) as [e|ref]; [done|].
  simpl in Hp. injection Hp as <-.
  unfold validateEdit in Hr0. simpl in Hr0. done.
Qed.




(** ** Relocation *)

Lemma strictMatch_Some s ds h :
  strictMatch s = Some (ds, h) → forallb isAlnum h = true ∧ 1 ≤ length h ≤ 16.
Proof.
  unfold strictMatch. destruct (spanWhile isDigit s) as [ds' r1].
  destruct ds' as [|d ds'']; [done|]. destruct r1 as [|c r2]; [done|].
  destruct (_ && _) eqn:E; [|done]. intros [= <- <-].
  repeat (apply andb_prop in E as [E ?]).
  split; [done|]. split; [by apply Nat.leb_le | by apply Nat.leb_le].
Qed.

Lemma prefixMatch_Some s ds h :
  prefixMatch s = Some (ds, h) → forallb isAlnum h = true ∧ 1 ≤ length h ≤ 16.
Proof.
  unfold prefixMatch. destruct (spanWhile isDigit s) as [ds' r1].
  destruct ds' as [|d ds'']; [done|].
  destruct r1 as [|c [|h1 [|h2 r2]]]; try done.
  destruct (_ && _) eqn:E; [|done]. intros [= <- <-].
  repeat (apply andb_prop in E as [E ?]). simpl.
  split; [|lia]. by rewrite H0, H.
Qed.

(** What [parseLineRef] returns is a line number from 1 on and a
    fingerprint of one to sixteen alphanumeric characters. *)
Lemma parseLineRef_inr anchor ref :
  parseLineRef anchor = inr ref →
  1 ≤ line ref ∧ forallb isAlnum (hash ref) = true ∧ 1 ≤ length (hash ref) ≤ 16.
Proof.
  unfold parseLineRef.
  set (normalized := normalizeColon _).
  destruct (strictMatch normalized) as [[ds h]|] eqn:Es.
  - destruct (parseDigits ds <? 1) eqn:El; [done|]. intros [= <-]. simpl.
    apply Nat.ltb_ge in El. split; [done|]. by apply strictMatch_Some in Es.
  - destruct (prefixMatch normalized) as [[ds h]|] eqn:Ep; [|done].
    destruct (parseDigits ds <? 1) eqn:El; [done|]. intros [= <-]. simpl.
    apply Nat.ltb_ge in El. split; [done|]. by apply prefixMatch_Some in Ep.
Qed.

(** Two batches that differ in one operation, when the two operations
    parse and are validated alike, have the same outcome. *)
Lemma mapE_app_cons_inr {A B} (f : A → Error + B) pre x y post px py :
  f x = inr px → f y = inr py →
  (∃ err, mapE f (pre ++ x :: post) = inl err ∧ mapE f (pre ++ y :: post) = inl err)
  ∨ (∃ ps qs, mapE f (pre ++ x :: post) = inr (ps ++ px :: qs)
              ∧ mapE f (pre ++ y :: post) = inr (ps ++ py :: qs)).
Proof.
  intros Hx Hy. induction pre as [|p pre IH]; simpl.
  - rewrite Hx, Hy. simpl. destruct (mapE f post) as [err|qs]; simpl.
    + left. eauto.
    + right. by exists [], qs.
  - destruct (f p) as [err|b]; simpl; [left; eauto|].
    destruct IH as [(err & -> & ->)|(ps & qs & -> & ->)]; simpl.
    + left. eauto.
    + right. by exists (b :: ps), qs.
Qed.

Lemma validateAll_app_cons_congr lines uniq ps p p' qs ms :
  (∀ ms0, validateEdit lines uniq p ms0 = validateEdit lines uniq p' ms0) →
  validateAll lines uniq (ps ++ p :: qs) ms = validateAll lines uniq (ps ++ p' :: qs) ms.
Proof.
  intros H. revert ms. induction ps as [|q ps IH]; intros ms; simpl.
  - by rewrite H.
  - destruct (validateEdit lines uniq q ms) as [err|[q1 ms1]]; simpl; [done|].
    by rewrite IH.
Qed.

Lemma applyHashlineEdits_validate_congr content pre post e e' p p' :
  let lines := splitLines content in
  parseEdit e = inr p → parseEdit e' = inr p' →
  (∀ ms, validateEdit lines (uniqueLineByHash lines) p ms
         = validateEdit lines (uniqueLineByHash lines) p' ms) →
  applyHashlineEdits content (pre ++ e :: post)
  = applyHashlineEdits content (pre ++ e' :: post).
Proof.
  intros lines Hp Hp' Hv. unfold applyHashlineEdits.
  rewrite !length_app. cbn [length].
  destruct (length pre + S (length post) =? 0); [done|].
  destruct (mapE_app_cons_inr parseEdit pre e e' post p p' Hp Hp')
    as [(err & -> & ->)|(ps & qs & -> & ->)]; [done|].
  simpl. fold lines. by rewrite (validateAll_app_cons_congr _ _ ps p p' qs [] Hv).
Qed.

Lemma formatRef_nonempty n h : formatRef n h ≠ [].
Proof. unfold formatRef. by destruct (numberToString n). Qed.

(** C3 (amended).  Take an anchor that names a line of the file whose
    fingerprint is not the anchor's.  If the anchor's fingerprint (in lower
    case) is that of exactly one line [m] of the file, validation relocates
    the anchor to line [m], and the operation applies there: a set_line or
    an insert_after with this anchor, anywhere in any batch, does exactly
    what it does with the anchor [(m, fingerprint)]; so does a
    replace_lines that starts at this anchor when its end anchor is
    relocated too, as many lines further as it was stated.  Only when the
    relocation changes the span of a replace_lines (its end validates to a
    line before [m], or not as many lines after [m] as stated, which is
    always so when the end anchor is valid as it stands) is the relocation
    discarded and both ends recorded as mismatches; so it is for a
    replace_lines that ends at this anchor and starts at an anchor valid as
    it stands.  If the fingerprint is on no line or on two or more, validation records a mismatch for the
    anchor, and a set_line with it, alone in its batch, ends with the
    HashlineMismatchError of that mismatch.  In the file
    ["zzz\naaa\nbbb\nccc"], set_line with the anchor (1, fingerprint of
    "aaa") and the text "AAA" succeeds and changes line 2. *)
Theorem stale_anchor_relocation
    (content anchor : jsstring) (ref : LineRef) (m : nat) :
  let lines := splitLines content in
  let h := toLowerCase (hash ref) in
  let relocated := formatRef m (hash ref) in
  parseLineRef anchor = inr ref →
  1 ≤ line ref ≤ length lines →
  computeLineHash (line ref) (lines !!! (line ref - 1)) ≠ h →
  (linesWithFingerprint lines h = [m] →
     (∀ ms, validateOrRelocateRef lines (uniqueLineByHash lines) ref ms
            = inr (RefOk true, mkRef m (hash ref), ms))
     ∧ m ≠ line ref ∧ 1 ≤ m ≤ length lines
     ∧ computeLineHash m (lines !!! (m - 1)) = h
     ∧ (∀ pre post new_text,
          applyHashlineEdits content (pre ++ SetLine anchor new_text :: post)
          = applyHashlineEdits content (pre ++ SetLine relocated new_text :: post))
     ∧ (∀ pre post txt,
          applyHashlineEdits content (pre ++ InsertAfter anchor txt :: post)
          = applyHashlineEdits content (pre ++ InsertAfter relocated txt :: post))
     ∧ (∀ pre post end_anchor end_ m2 txt,
          parseLineRef end_anchor = inr end_ →
          line ref < line end_ ≤ length lines →
          computeLineHash (line end_) (lines !!! (line end_ - 1))
          ≠ toLowerCase (hash end_) →
          linesWithFingerprint lines (toLowerCase (hash end_)) = [m2] →
          m2 - m = line end_ - line ref →
          applyHashlineEdits content
            (pre ++ ReplaceLines anchor end_anchor txt :: post)
          = applyHashlineEdits content
              (pre ++ ReplaceLines relocated (formatRef m2 (hash end_)) txt :: post))
     ∧ (∀ end_ end' rel dst ms,
          line ref ≤ line end_ →
          validateOrRelocateRef lines (uniqueLineByHash lines) end_ ms
          = inr (RefOk rel, end', ms) →
          line end' < m ∨ line end' - m ≠ line end_ - line ref →
          validateEdit lines (uniqueLineByHash lines) (mkParsed (Range ref end_) dst) ms
          = inr (mkParsed (Range ref end_) dst,
                 ms ++ [mismatchOf lines ref; mismatchOf lines end_]))
     ∧ (∀ end_ dst ms,
          line ref ≤ line end_ ≤ length lines →
          computeLineHash (line end_) (lines !!! (line end_ - 1))
          = toLowerCase (hash end_) →
          validateEdit lines (uniqueLineByHash lines) (mkParsed (Range ref end_) dst) ms
          = inr (mkParsed (Range ref end_) dst,
                 ms ++ [mismatchOf lines ref; mismatchOf lines end_]))
     ∧ (∀ start dst ms,
          1 ≤ line start ≤ line ref →
          computeLineHash (line start) (lines !!! (line start - 1))
          = toLowerCase (hash start) →
          validateEdit lines (uniqueLineByHash lines) (mkParsed (Range start ref) dst) ms
          = inr (mkParsed (Range start ref) dst,
                 ms ++ [mismatchOf lines start; mismatchOf lines ref])))
  ∧ (length (linesWithFingerprint lines h) ≠ 1 →
     (∀ ms, validateOrRelocateRef lines (uniqueLineByHash lines) ref ms
            = inr (RefFailed, ref, ms ++ [mismatchOf lines ref]))
     ∧ ∀ new_text,
         applyHashlineEdits content [SetLine anchor new_text]
         = inl (HashlineMismatchError [mismatchOf lines ref] lines))
  ∧ applyHashlineEdits (lit "zzz" ++ [LF] ++ lit "aaa" ++ [LF] ++ lit "bbb" ++ [LF] ++ lit "ccc")
      [SetLine (formatRef 1 (computeLineHash 1 (lit "aaa"))) (lit "AAA")]
    = inr (mkResult (lit "zzz" ++ [LF] ++ lit "AAA" ++ [LF] ++ lit "bbb" ++ [LF] ++ lit "ccc")
                    (Some 2) [] []).
Proof.
  intros lines h relocated Hparse Hrange Hneq.
  destruct (parseLineRef_inr _ _ Hparse) as (Hline & Halnum & Hlen).
  split; [|split].
  - intros Hm.
    assert (Hin : m ∈ linesWithFingerprint lines h).
    { rewrite Hm. by apply list_elem_of_singleton. }
    apply linesWithFingerprint_elem in Hin as [Hmr Hmh].
    assert (Hreloc : ∀ ms, validateOrRelocateRef lines (uniqueLineByHash lines) ref ms
            = inr (RefOk true, mkRef m (hash ref), ms)).
    { intros ms. by apply validateOrRelocateRef_relocate. }
    assert (Hparse' : parseLineRef relocated = inr (mkRef m (hash ref))).
    { apply parseLineRef_formatRef; [lia|done|done]. }
    assert (Hok : ∀ ms, validateOrRelocateRef lines (uniqueLineByHash lines)
                          (mkRef m (hash ref)) ms
                        = inr (RefOk false, mkRef m (hash ref), ms)).
    { intros ms. apply validateOrRelocateRef_ok; done. }
    assert (Hmne : m ≠ line ref) by (intros ->; by apply Hneq).
    assert (Hdiscard : ∀ end_ end' rel dst ms,
          line ref ≤ line end_ →
          validateOrRelocateRef lines (uniqueLineByHash lines) end_ ms
          = inr (RefOk rel, end', ms) →
          line end' < m ∨ line end' - m ≠ line end_ - line ref →
          validateEdit lines (uniqueLineByHash lines) (mkParsed (Range ref end_) dst) ms
          = inr (mkParsed (Range ref end_) dst,
                 ms ++ [mismatchOf lines ref; mismatchOf lines end_])).
    { intros end_ end' rel dst ms Hle Hend Hspan. unfold validateEdit. simpl.
      assert ((line end_ <? line ref) = false) as -> by (apply Nat.ltb_ge; lia).
      rewrite Hreloc. simpl. rewrite Hend. simpl.
      pose proof (validateOrRelocateRef_inv _ _ _ _ _ _ Hend) as (Hhash & _ & _).
      assert (Hcond : (line end' <? m)
                      || negb (Z.of_nat (line end') - Z.of_nat m + 1
                               =? Z.of_nat (line end_) - Z.of_nat (line ref) + 1)%Z
                      = true).
      { destruct (line end' <? m) eqn:Elt; [done|]. simpl.
        apply Nat.ltb_ge in Elt. apply negb_true_iff, Z.eqb_neq.
        destruct Hspan as [?|?]; lia. }
      rewrite Hcond. simpl.
      unfold buildMismatch, mismatchOf. simpl. rewrite Hhash.
      destruct ref as [rl rh], end_ as [el eh]. done. }
    split; [exact Hreloc|].
    split; [done|].
    split; [done|]. split; [done|].
    split; [|split; [|split; [|split; [|split]]]].
    + intros pre post new_text.
      apply (applyHashlineEdits_validate_congr content pre post _ _
               (mkParsed (Single ref) (stripNewLinePrefixes (splitDstLines new_text)))
               (mkParsed (Single (mkRef m (hash ref)))
                         (stripNewLinePrefixes (splitDstLines new_text)))).
      * by apply parseEdit_SetLine.
      * by apply parseEdit_SetLine.
      * intros ms. unfold validateEdit. simpl. fold lines. by rewrite Hreloc, Hok.
    + intros pre post txt.
      apply (applyHashlineEdits_validate_congr content pre post _ _
               (mkParsed (InsertAfterRef ref) (stripNewLinePrefixes (splitDstLines txt)))
               (mkParsed (InsertAfterRef (mkRef m (hash ref)))
                         (stripNewLinePrefixes (splitDstLines txt)))).
      * by apply parseEdit_InsertAfter.
      * by apply parseEdit_InsertAfter.
      * intros ms. unfold validateEdit. simpl. fold lines.
        destruct (length _ =? 0); [done|]. by rewrite Hreloc, Hok.
    + intros pre post end_anchor end_ m2 txt Hpe Hend Hendh Hm2 Hspan.
      destruct (parseLineRef_inr _ _ Hpe) as (Hline2 & Halnum2 & Hlen2).
      assert (Hin2 : m2 ∈ linesWithFingerprint lines (toLowerCase (hash end_))).
      { rewrite Hm2. by apply list_elem_of_singleton. }
      apply linesWithFingerprint_elem in Hin2 as [Hm2r Hm2h].
      assert (Hpe' : parseLineRef (formatRef m2 (hash end_)) = inr (mkRef m2 (hash end_))).
      { apply parseLineRef_formatRef; [lia|done|done]. }
      assert (Hlt : m < m2) by lia.
      apply (applyHashlineEdits_validate_congr content pre post _ _
               (mkParsed (Range ref end_) (stripNewLinePrefixes (splitDstLines txt)))
               (mkParsed (Range (mkRef m (hash ref)) (mkRef m2 (hash end_)))
                         (stripNewLinePrefixes (splitDstLines txt)))).
      * unfold parseEdit, parseHashlineEdit. rewrite Hparse. simpl.
        destruct end_anchor as [|c r]; [by vm_compute in Hpe|].
        rewrite Hpe. simpl.
        assert ((line ref =? line end_) = false) as -> by (apply Nat.eqb_neq; lia).
        done.
      * unfold parseEdit, parseHashlineEdit. rewrite Hparse'. simpl.
        pose proof (formatRef_nonempty m2 (hash end_)) as Hne.
        destruct (formatRef m2 (hash end_)) as [|c r] eqn:Ef; [done|].
        rewrite Hpe'. simpl.
        assert ((m =? m2) = false) as -> by (apply Nat.eqb_neq; lia).
        done.
      * intros ms. unfold validateEdit. simpl. fold lines.
        assert ((line end_ <? line ref) = false) as -> by (apply Nat.ltb_ge; lia).
        assert (Hm2m : (m2 <? m) = false) by (apply Nat.ltb_ge; lia).
        rewrite Hreloc. simpl.
        rewrite (validateOrRelocateRef_relocate lines end_ ms m2) by (done || lia).
        simpl. rewrite Hok. simpl.
        rewrite (validateOrRelocateRef_ok lines (mkRef m2 (hash end_)) ms) by done.
        simpl.
        assert ((Z.of_nat m2 - Z.of_nat m + 1
                 =? Z.of_nat (line end_) - Z.of_nat (line ref) + 1)%Z = true) as ->.
        { apply Z.eqb_eq. lia. }
        simpl. rewrite Hm2m. done.
    + exact Hdiscard.
    + intros end_ dst ms Hend Hendh.
      apply (Hdiscard end_ end_ false); [lia| |].
      * apply validateOrRelocateRef_ok; [lia|done].
      * destruct (decide (line end_ < m)); [by left|right; lia].
    + intros start dst ms Hstart Hstarth. unfold validateEdit. simpl.
      assert ((line ref <? line start) = false) as -> by (apply Nat.ltb_ge; lia).
      rewrite validateOrRelocateRef_ok by (done || lia). simpl.
      rewrite Hreloc. simpl.
      assert (Hcond : (m <? line start)
                      || negb (Z.of_nat m - Z.of_nat (line start) + 1
                               =? Z.of_nat (line ref) - Z.of_nat (line start) + 1)%Z
                      = true).
      { destruct (m <? line start) eqn:Elt; [done|]. simpl.
        apply negb_true_iff, Z.eqb_neq. lia. }
      rewrite Hcond. simpl.
      unfold buildMismatch, mismatchOf. simpl.
      destruct ref as [rl rh], start as [sl sh]. done.
  - intros Hm.
    assert (Hf : anchorFails lines ref) by done.
    split; [intros ms; by apply validateOrRelocateRef_fail|].
    intros new_text. unfold applyHashlineEdits. simpl.
    rewrite (parseEdit_SetLine _ _ _ Hparse). simpl. unfold validateEdit. simpl.
    fold lines. rewrite (validateOrRelocateRef_fail _ _ [] Hf). done.
  - vm_compute. reflexivity.
Qed.

Lemma stale_anchor_relocation_witness :
  let content := lit "zzz" ++ [LF] ++ lit "aaa" ++ [LF] ++ lit "bbb" ++ [LF] ++ lit "ccc" in
  let lines := splitLines content in
  let ha := computeLineHash 1 (lit "aaa") in
  let hb := computeLineHash 2 (lit "bbb") in
  validateOrRelocateRef lines (uniqueLineByHash lines) (mkRef 1 ha) []
  = inr (RefOk true, mkRef 2 ha, [])
  ∧ applyHashlineEdits content
      ([] ++ ReplaceLines (formatRef 1 ha) (formatRef 2 hb) (lit "X") :: [])
    = applyHashlineEdits content
        ([] ++ ReplaceLines (formatRef 2 ha) (formatRef 3 hb) (lit "X") :: [])
  ∧ applyHashlineEdits content
      ([] ++ ReplaceLines (formatRef 2 ha) (formatRef 3 hb) (lit "X") :: [])
    = inr (mkResult (lit "zzz" ++ [LF] ++ lit "X" ++ [LF] ++ lit "ccc") (Some 2) [] []).
Proof.
  intros content lines ha hb.
  destruct (stale_anchor_relocation content (formatRef 1 ha) (mkRef 1 ha) 2
              ltac:(vm_compute; reflexivity) ltac:(vm_compute; lia)
              ltac:(vm_compute; congruence))
    as [Hrelocate _].
  destruct (Hrelocate ltac:(vm_compute; reflexivity))
    as (Hvalidate & _ & _ & _ & _ & _ & Hrange & _).
  split; [exact (Hvalidate [])|]. split.
  - exact (Hrange [] [] (formatRef 2 hb) (mkRef 2 hb) 3 (lit "X")
             ltac:(vm_compute; reflexivity) ltac:(vm_compute; lia)
             ltac:(vm_compute; congruence) ltac:(vm_compute; reflexivity)
             ltac:(vm_compute; reflexivity)).
  - vm_compute. reflexivity.
Defined.

(** C3 as stated fails for the anchors of a range: in the file
    ["zzz\naaa\nbbb\nccc"] the start anchor (1, fingerprint of "aaa") of a
    replace_lines that ends at line 3 names a line with another fingerprint,
    and its fingerprint is on line 2 only; the operation is not applied at
    line 2, the batch ends with a mismatch for both ends. *)
Lemma range_relocation_counterexample :
  let content := lit "zzz" ++ [LF] ++ lit "aaa" ++ [LF] ++ lit "bbb" ++ [LF] ++ lit "ccc" in
  let lines := splitLines content in
  let ha := computeLineHash 1 (lit "aaa") in
  let hb := computeLineHash 3 (lit "bbb") in
  computeLineHash 1 (lines !!! 0) ≠ ha
  ∧ linesWithFingerprint lines ha = [2]
  ∧ parseLineRef (formatRef 1 ha) = inr (mkRef 1 ha)
  ∧ applyHashlineEdits content [ReplaceLines (formatRef 1 ha) (formatRef 3 hb) (lit "X")]
    = inl (HashlineMismatchError
             [mkMismatch 1 ha (computeLineHash 1 (lit "zzz")); mkMismatch 3 hb hb]
             lines).
Proof.
  intros content lines ha hb.
  split; [vm_compute; congruence|].
  split; [vm_compute; reflexivity|].
  split; vm_compute; reflexivity.
Qed.

(** ** The batch of no-change edits *)

Lemma indexOf_single_None c l : c ∉ l → indexOf [c] l = None.
Proof.
  unfold indexOf. generalize 0. induction l as [|x r IH]; intros k Hc; [done|].
  rewrite indexOfAt_unfold, startsWith_cons.
  assert ((c =? x)%N = false) as ->.
  { apply N.eqb_neq. intros ->. apply Hc. apply elem_of_cons. by left. }
  simpl. apply IH. intros H. apply Hc. apply elem_of_cons. by right.
Qed.

Lemma splitLines_single l : LF ∉ l → splitLines l = [l].
Proof.
  intros H. unfold splitLines, split, NL. destruct l as [|c r]; [done|].
  simpl length. simpl splitFuel. by rewrite indexOf_single_None.
Qed.

Lemma joinLines_ownDst l : joinLines (ownDst l) = l.
Proof. by destruct l. Qed.

Lemma ownDst_length l : length (ownDst l) ≤ 1.
Proof. destruct l; simpl; lia. Qed.

Lemma stripNewLinePrefixes_own l :
  LF ∉ l → plainLine l → stripNewLinePrefixes (splitDstLines l) = ownDst l.
Proof.
  intros Hlf (Hh & Hp & _). unfold splitDstLines.
  destruct l as [|c r]; [done|].
  rewrite splitLines_single by done. unfold ownDst, stripNewLinePrefixes.
  rewrite filter_cons, decide_True by done. simpl filter.
  rewrite !filter_cons, !filter_nil. rewrite Hh, Hp.
  rewrite !decide_False by (intros [? ?]; done). done.
Qed.

Lemma mapE_imap {A B C} (f : B → Error + C) (g : nat → A → B) (g' : nat → A → C) l :
  (∀ i x, l !! i = Some x → f (g i x) = inr (g' i x)) →
  mapE f (imap g l) = inr (imap g' l).
Proof.
  revert g g'. induction l as [|x r IH]; intros g g' H; [done|].
  simpl. rewrite (H 0 x eq_refl). simpl.
  rewrite (IH (g ∘ S) (g' ∘ S)); [done|]. intros i y Hy. apply (H (S i) y Hy).
Qed.

Lemma parseEdit_own i l :
  LF ∉ l → plainLine l → parseEdit (ownEdit i l) = inr (ownParsed i l).
Proof.
  intros Hlf Hp. unfold ownEdit.
  rewrite (parseEdit_SetLine _ _ (mkRef (i + 1) (computeLineHash (i + 1) l))).
  - by rewrite stripNewLinePrefixes_own.
  - apply parseLineRef_own_anchor. lia.
Qed.

Lemma validateAll_as_is lines parsed ms :
  Forall (λ p, ∃ ref, spec p = Single ref ∧ 1 ≤ line ref ≤ length lines
                     ∧ computeLineHash (line ref) (lines !!! (line ref - 1))
                       = toLowerCase (hash ref)) parsed →
  validateAll lines (uniqueLineByHash lines) parsed ms = inr (parsed, ms).
Proof.
  induction 1 as [|p r (ref & Hs & Hr & Hh) _ IH]; [done|].
  simpl. unfold validateEdit. rewrite Hs.
  rewrite validateOrRelocateRef_ok by done. simpl. rewrite IH. simpl.
  destruct p as [s d]. simpl in Hs. by subst.
Qed.

Lemma collect_touched_acc parsed acc x :
  x ∈ acc ∨ (∃ p, p ∈ parsed ∧ x ∈ touchedBy (spec p)) →
  x ∈ fold_left (λ touched p, touched ∪ touchedBy (spec p)) parsed acc.
Proof.
  revert acc. induction parsed as [|q r IH]; intros acc H; simpl.
  - destruct H as [H|(p & Hp & _)]; [done|]. by apply elem_of_nil in Hp.
  - apply IH. destruct H as [H|(p & Hp & Hx)].
    + left. set_solver.
    + apply elem_of_cons in Hp as [-> | Hp]; [left; set_solver | right; eauto].
Qed.

Lemma ownParsed_touched lines k :
  1 ≤ k ≤ length lines →
  k ∈ collectExplicitlyTouchedLines (imap ownParsed lines).
Proof.
  intros Hk. apply collect_touched_acc. right.
  destruct (lookup_lt_is_Some_2 lines (k - 1) ltac:(lia)) as [l Hl].
  exists (ownParsed (k - 1) l). split.
  - apply elem_of_lookup_imap. eauto.
  - simpl. replace (k - 1 + 1) with k by lia. set_solver.
Qed.

Lemma digits_then_pipe_inj ds1 ds2 x y :
  forallb isDigit ds1 = true → forallb isDigit ds2 = true →
  ds1 ++ 124%N :: x = ds2 ++ 124%N :: y → ds1 = ds2.
Proof.
  revert ds2. induction ds1 as [|a ds1 IH]; intros [|b ds2] H1 H2 Heq; simpl in *.
  - done.
  - injection Heq as <- _. by apply andb_prop in H2 as [H2 _].
  - injection Heq as -> _. by apply andb_prop in H1 as [H1 _].
  - apply andb_prop in H1 as [_ H1]. apply andb_prop in H2 as [_ H2].
    injection Heq as <- Heq. f_equal. by apply IH.
Qed.

Lemma editKey_own_inj i l j l' :
  editKey (ownParsed i l) = editKey (ownParsed j l') → i = j.
Proof.
  unfold editKey, ownParsed. simpl. intros H. injection H as H.
  apply digits_then_pipe_inj in H; try apply numberToString_digits.
  apply numberToString_inj in H. lia.
Qed.

Lemma dedup_distinct seen parsed :
  NoDup (map editKey parsed) →
  (∀ p, p ∈ parsed → editKey p ∉ seen) →
  dedup seen parsed = parsed.
Proof.
  revert seen. induction parsed as [|p r IH]; intros seen Hnd Hseen; [done|].
  simpl. apply NoDup_cons in Hnd as [Hp Hnd].
  rewrite bool_decide_eq_false_2.
  2:{ apply Hseen. apply elem_of_cons. by left. }
  f_equal. apply IH; [done|]. intros q Hq.
  assert (editKey q ≠ editKey p).
  { intros Heq. apply Hp. rewrite <- Heq. apply list_elem_of_fmap. eauto. }
  assert (editKey q ∉ seen) by (apply Hseen; apply elem_of_cons; by right).
  set_solver.
Qed.

Lemma ownParsed_keys_NoDup lines : NoDup (map editKey (imap ownParsed lines)).
Proof.
  apply NoDup_alt. intros i j k Hi Hj.
  rewrite list_lookup_fmap in Hi. apply fmap_Some in Hi as (p & Hp & ->).
  rewrite list_lookup_imap in Hp. apply fmap_Some in Hp as (li & Hli & ->).
  rewrite list_lookup_fmap in Hj. apply fmap_Some in Hj as (q & Hq & Hj).
  rewrite list_lookup_imap in Hq. apply fmap_Some in Hq as (lj & Hlj & ->).
  by apply editKey_own_inj in Hj.
Qed.

Lemma insertBy_perm {A} (cmp : A → A → Z) x l : insertBy cmp x l ≡ₚ x :: l.
Proof.
  induction l as [|y r IH]; [done|]. simpl.
  destruct (0 <? cmp x y)%Z; [|done].
  rewrite IH. apply perm_swap.
Qed.

Lemma sortBy_perm {A} (cmp : A → A → Z) l : sortBy cmp l ≡ₚ l.
Proof.
  induction l as [|x r IH]; [done|]. simpl.
  rewrite insertBy_perm. by constructor.
Qed.

Lemma annotate_own lines : imap annotate (imap ownParsed lines) = imap ownAnnotated lines.
Proof.
  apply list_eq. intros i. rewrite !list_lookup_imap.
  destruct (lines !! i); done.
Qed.

Lemma merge_none_all_touched lines (touched : gset nat) k dst :
  (∀ j, 1 ≤ j ≤ length lines → j ∈ touched) →
  maybeExpandSingleLineMerge lines touched k dst = None.
Proof.
  intros Hall. unfold maybeExpandSingleLineMerge.
  destruct dst as [|newLine [|]]; try done.
  destruct ((k <? 1) || (length lines <? k)) eqn:Er; [done|].
  apply orb_false_elim in Er as [E1 E2]. apply Nat.ltb_ge in E1, E2.
  cbv zeta.
  destruct (length (stripAllWhitespace newLine) =? 0); [done|].
  destruct (length (stripAllWhitespace (lines !!! (k - 1))) =? 0); [done|].
  assert (Hnext : ∀ b, b && (k <? length lines)
                       && negb (bool_decide (k + 1 ∈ touched)) = false).
  { intros b. destruct (k <? length lines) eqn:E; [|by rewrite andb_false_r].
    apply Nat.ltb_lt in E. rewrite bool_decide_eq_true_2 by (apply Hall; lia).
    by rewrite andb_false_r. }
  rewrite Hnext.
  assert (Hprev : (2 <=? k) && negb (bool_decide (k - 1 ∈ touched)) = false).
  { destruct (2 <=? k) eqn:E; [|done].
    apply Nat.leb_le in E. rewrite bool_decide_eq_true_2 by (apply Hall; lia). done. }
  by rewrite Hprev.
Qed.

Lemma restoreLeadingIndent_same l : restoreLeadingIndent l l = l.
Proof.
  unfold restoreLeadingIndent.
  destruct (length l =? 0); [done|].
  destruct (length (leadingWhitespace l) =? 0) eqn:E; [done|].
  apply Nat.eqb_neq in E.
  assert ((0 <? length (leadingWhitespace l)) = true) as -> by (apply Nat.ltb_lt; lia).
  done.
Qed.

Lemma resolveReplacement_own lines l k :
  hasConfusableHyphen l = false →
  resolveReplacement lines [l] k k (ownDst l) = ownDst l.
Proof.
  intros Hh. unfold resolveReplacement.
  assert (Hstrip : stripRangeBoundaryEcho lines k k (ownDst l) = ownDst l).
  { unfold stripRangeBoundaryEcho.
    assert ((length (ownDst l) <=? 1) = true) as ->; [|done].
    apply Nat.leb_le, ownDst_length. }
  rewrite Hstrip.
  assert (Hwrap : restoreOldWrappedLines [l] (ownDst l) = ownDst l).
  { unfold restoreOldWrappedLines.
    assert ((length (ownDst l) <? 2) = true) as ->.
    { apply Nat.ltb_lt. pose proof (ownDst_length l). lia. }
    by rewrite orb_true_r. }
  rewrite Hwrap.
  assert (Hindent : restoreIndentForPairedReplacement [l] (ownDst l) = ownDst l).
  { unfold restoreIndentForPairedReplacement. destruct l as [|c r]; [done|].
    simpl ownDst. simpl length. simpl negb. cbv iota.
    simpl zipRestore. rewrite restoreLeadingIndent_same.
    by rewrite bool_decide_eq_true_2. }
  rewrite Hindent.
  unfold hyphenFallback. simpl existsb. rewrite Hh. by rewrite andb_false_r.
Qed.

Lemma applyEdit_own lines touched st i l :
  (∀ j, 1 ≤ j ≤ length lines → j ∈ touched) →
  lines !! i = Some l →
  hasConfusableHyphen l = false →
  fileLines st = lines →
  applyEdit lines touched st (ownAnnotated i l)
  = mkState lines (firstChangedLine st) (noopEdits st ++ [ownNoop i l]).
Proof.
  intros Hall Hl Hh Hst.
  pose proof (lookup_lt_Some _ _ _ Hl) as Hi.
  unfold ownAnnotated.
  pose proof (applyEdit_single_plain lines touched st
                (mkRef (i + 1) (computeLineHash (i + 1) l)) (ownDst l) i) as Hplain.
  cbn [line hash] in Hplain. rewrite Hplain; clear Hplain.
  2:{ lia. }
  2:{ rewrite Hst. by apply merge_none_all_touched. }
  replace (i + 1 - 1) with i by lia.
  rewrite (list_lookup_total_correct _ _ _ Hl).
  rewrite resolveReplacement_own by done.
  unfold replaceOrNoop, streq.
  rewrite joinLines_ownDst, joinLines_singleton.
  rewrite bool_decide_eq_true_2 by done.
  by rewrite Hst.
Qed.

Lemma fold_applyEdit_own lines touched (l : list Annotated) st :
  (∀ j, 1 ≤ j ≤ length lines → j ∈ touched) →
  Forall (λ a, ∃ i x, lines !! i = Some x ∧ hasConfusableHyphen x = false
                      ∧ a = ownAnnotated i x) l →
  fileLines st = lines →
  fold_left (applyEdit lines touched) l st
  = mkState lines (firstChangedLine st) (noopEdits st ++ map noopOf l).
Proof.
  intros Hall Hl. revert st. induction Hl as [|a r (i & x & Hx & Hh & ->) _ IH]; intros st Hst.
  - simpl. rewrite app_nil_r. destruct st. simpl in Hst. by subst.
  - simpl. rewrite (applyEdit_own _ _ _ _ _ Hall Hx Hh Hst).
    rewrite IH by done. simpl. rewrite <- app_assoc. simpl.
    unfold noopOf at 2. simpl. by rewrite joinLines_ownDst.
Qed.

Lemma countDiffering_same l : countDiffering l l = 0.
Proof.
  induction l as [|x r IH]; [done|]. simpl. unfold streq.
  by rewrite bool_decide_eq_true_2.
Qed.

Lemma reformatWarnings_same lines n : reformatWarnings lines lines n = [].
Proof.
  unfold reformatWarnings. rewrite countDiffering_same, Z.sub_diag.
  change (Z.to_nat (Z.abs 0) + 0) with 0.
  assert ((n * 4 <? 0) = false) as -> by (apply Nat.ltb_ge; lia). done.
Qed.

Lemma filter_imap_all {A B} (f : B → bool) (g : nat → A → B) l :
  (∀ i x, f (g i x) = true) → List.filter f (imap g l) = imap g l.
Proof.
  revert g. induction l as [|x r IH]; intros g H; [done|].
  simpl. rewrite H. f_equal. apply IH. intros i y. apply H.
Qed.

Lemma filter_imap_none {A B} (f : B → bool) (g : nat → A → B) l :
  (∀ i x, f (g i x) = false) → List.filter f (imap g l) = [].
Proof.
  revert g. induction l as [|x r IH]; intros g H; [done|].
  simpl. rewrite H. apply IH. intros i y. apply H.
Qed.

Lemma noopOf_own lines : map noopOf (imap ownAnnotated lines) = imap ownNoop lines.
Proof.
  apply list_eq. intros i. rewrite list_lookup_fmap, !list_lookup_imap.
  destruct (lines !! i) as [l|]; [|done]. simpl. unfold noopOf, ownNoop. simpl.
  by rewrite joinLines_ownDst.
Qed.

(** The batch of no-change edits is applied as a batch of no-ops. *)
Lemma applyHashlineEdits_own content :
  Forall plainLine (splitLines content) →
  ∃ noops,
    applyHashlineEdits content (ownEdits (splitLines content))
    = inr (mkResult content None [] noops)
    ∧ noops ≡ₚ imap ownNoop (splitLines content).
Proof.
  intros Hplain. set (lines := splitLines content) in *.
  pose proof (splitLines_no_LF content) as Hlf. fold lines in Hlf.
  pose proof (splitLines_nonempty content) as Hne. fold lines in Hne.
  assert (Hparse : mapE parseEdit (ownEdits lines) = inr (imap ownParsed lines)).
  { apply mapE_imap. intros i x Hx. apply parseEdit_own.
    - rewrite Forall_lookup in Hlf. by apply (Hlf i).
    - rewrite Forall_lookup in Hplain. by apply (Hplain i). }
  assert (Hval : validateAll lines (uniqueLineByHash lines) (imap ownParsed lines) []
                 = inr (imap ownParsed lines, [])).
  { apply validateAll_as_is. apply Forall_forall. intros p Hp.
    apply elem_of_lookup_imap in Hp as (i & x & -> & Hx).
    pose proof (lookup_lt_Some _ _ _ Hx).
    eexists. split; [done|]. simpl. split; [lia|].
    replace (i + 1 - 1) with i by lia.
    by rewrite (list_lookup_total_correct _ _ _ Hx), toLowerCase_hash. }
  assert (Hedits : ownEdits lines ≠ []).
  { unfold ownEdits. destruct lines; done. }
  rewrite (applyHashlineEdits_validated _ _ _ _ Hedits Hparse Hval).
  fold lines. unfold applyValidated.
  rewrite dedup_distinct; [|apply ownParsed_keys_NoDup|set_solver].
  rewrite annotate_own.
  rewrite (fold_applyEdit_own lines).
  - simpl. exists (map noopOf (sortBy bottomUp (imap ownAnnotated lines))).
    split.
    + rewrite reformatWarnings_same. unfold lines. by rewrite joinLines_splitLines.
    + rewrite sortBy_perm. by rewrite noopOf_own.
  - intros j Hj. by apply ownParsed_touched.
  - rewrite sortBy_perm. apply Forall_forall. intros a Ha.
    apply elem_of_lookup_imap in Ha as (i & x & -> & Hx).
    exists i, x. split; [done|]. split; [|done].
    rewrite Forall_lookup in Hplain. by destruct (Hplain i x Hx) as (_ & _ & ?).
  - done.
Qed.

(** C5 (amended).  Take a file none of whose lines starts with a hashline
    prefix or with a single [+], or contains a confusable hyphen.  The batch
    that submits, for each line, a set_line with the line's own anchor and
    the line itself as replacement passes validation with no mismatch,
    leaves the text as it is, records every operation as a no-op, and is
    reported by [edit_file] as the error of a batch without changes. *)
Theorem own_edits_noop_batch (rounds : nat) (rawContent : jsstring) :
  let content := normalizeToLF (text (stripBom rawContent)) in
  let lines := sourceLines rawContent in
  Forall plainLine lines →
  ∃ noops,
    applyHashlineEdits content (ownEdits lines) = inr (mkResult content None [] noops)
    ∧ editFile rounds rawContent (ownEdits lines) = Some (inl (NoChanges noops))
    ∧ noops ≡ₚ imap ownNoop lines
    ∧ length noops = length lines.
Proof.
  intros content lines Hplain.
  destruct (applyHashlineEdits_own content Hplain) as (noops & Happly & Hperm).
  exists noops. split; [exact Happly|]. split; [|split; [exact Hperm|]].
  - unfold editFile. fold content.
    assert (List.filter isAnchorEdit (ownEdits lines) = ownEdits lines) as ->.
    { by apply filter_imap_all. }
    assert (List.filter (λ e, negb (isAnchorEdit e)) (ownEdits lines) = []) as ->.
    { by apply filter_imap_none. }
    unfold lines, sourceLines. fold content. rewrite Happly. simpl.
    unfold streq. by rewrite bool_decide_eq_true_2.
  - rewrite Hperm. by rewrite length_imap.
Qed.

Lemma own_edits_noop_batch_witness :
  ∃ noops,
    editFile 1 (lit "alpha" ++ [CR; LF] ++ lit "  beta")
      (ownEdits (sourceLines (lit "alpha" ++ [CR; LF] ++ lit "  beta")))
    = Some (inl (NoChanges noops))
    ∧ length noops = 2.
Proof.
  destruct (own_edits_noop_batch 1 (lit "alpha" ++ [CR; LF] ++ lit "  beta"))
    as (noops & _ & Hedit & _ & Hlen).
  - apply (bool_decide_unpack _). vm_compute. reflexivity.
  - exists noops. split; [exact Hedit | exact Hlen].
Defined.

(** C5 as stated fails for a file with a line that starts with a single
    [+]: the replacement text loses the [+] as a diff marker, so the
    no-change edit of the line ["+x"] changes it to ["x"] and the batch
    succeeds.  It fails too for a line with a confusable hyphen, which the
    hyphen fallback turns into an ASCII hyphen. *)
Lemma own_edits_counterexample :
  applyHashlineEdits (lit "+x") (ownEdits (splitLines (lit "+x")))
  = inr (mkResult (lit "x") (Some 1) [] [])
  ∧ editFile 1 (lit "+x") (ownEdits (sourceLines (lit "+x")))
    = Some (inr (mkUpdated (lit "x") []))
  ∧ editFile 1 [97%N; 8211%N; 98%N] (ownEdits (sourceLines [97%N; 8211%N; 98%N]))
    = Some (inr (mkUpdated [97%N; 45%N; 98%N] [])).
Proof.
  split; [vm_compute; reflexivity|].
  split; vm_compute; reflexivity.
Qed.

(** ** Substring replace: exact occurrences *)

Lemma replaceCRLF_nil_iff s : replaceCRLF s = [] ↔ s = [].
Proof.
  destruct s as [|c [|d r]]; simpl; [done|done|].
  destruct ((c =? CR)%N && (d =? LF)%N); done.
Qed.

Lemma normalizeToLF_nil_iff s : normalizeToLF s = [] ↔ s = [].
Proof.
  unfold normalizeToLF, replaceCR. split.
  - intros H. apply replaceCRLF_nil_iff. by destruct (replaceCRLF s).
  - by intros ->.
Qed.

Lemma normalizeToLF_hasNoCR s : hasNoCR (normalizeToLF s) = true.
Proof.
  unfold normalizeToLF, replaceCR, hasNoCR.
  induction (replaceCRLF s) as [|c r IH]; [done|]. simpl. rewrite IH, andb_true_r.
  destruct (c =? CR)%N eqn:E; [done|]. by rewrite E.
Qed.

Lemma normalizeToLF_idem s : normalizeToLF (normalizeToLF s) = normalizeToLF s.
Proof. apply normalizeToLF_noCR, normalizeToLF_hasNoCR. Qed.

Lemma countOccurrences_indexOf sep s :
  sep ≠ [] → 0 < countOccurrences sep s → ∃ i, indexOf sep s = Some i.
Proof.
  intros Hsep. unfold countOccurrences, split.
  destruct sep as [|c sep']; [done|].
  destruct (length s) as [|f]; simpl; [lia|].
  destruct (indexOf (c :: sep') s) as [i|]; [eauto|]. simpl. lia.
Qed.

Lemma countOccurrences_zero sep s :
  sep ≠ [] → indexOf sep s = None → countOccurrences sep s = 0.
Proof.
  intros Hsep Hi. unfold countOccurrences, split.
  destruct sep as [|c sep']; [done|].
  destruct (length s) as [|f]; simpl; [done|]. by rewrite Hi.
Qed.

Lemma splitFuel_replaceOccurrences fuel old new s :
  (join new (splitFuel fuel old s), length (splitFuel fuel old s) - 1)
  = replaceOccurrences fuel old new s.
Proof.
  revert s. induction fuel as [|f IH]; intros s; [done|]. simpl.
  destruct (indexOf old s) as [i|]; [|done].
  rewrite <- IH.
  pose proof (splitFuel_nonempty f old (drop (i + length old) s)) as Hne.
  destruct (splitFuel f old (drop (i + length old) s)) as [|p rest]; [done|].
  simpl. f_equal. lia.
Qed.

Lemma length_slice_le {A} a b (l : list A) : length (slice a b l) ≤ b - a.
Proof. unfold slice. rewrite length_take. lia. Qed.

Lemma indexOfAt_bound sub s k i :
  indexOfAt sub s k = Some i → k ≤ i ∧ i - k + length sub ≤ length s.
Proof.
  revert k i. induction s as [|c r IH]; intros k i H; rewrite indexOfAt_unfold in H.
  - destruct (startsWith sub []) eqn:E; [|done]. injection H as <-.
    apply startsWith_spec in E as [x Hx]. apply (f_equal length) in Hx.
    rewrite length_app in Hx. simpl in *. lia.
  - destruct (startsWith sub (c :: r)) eqn:E.
    + injection H as <-. apply startsWith_spec in E as [x Hx].
      apply (f_equal length) in Hx. rewrite length_app in Hx. simpl in *. lia.
    + apply IH in H. simpl. lia.
Qed.

(** The search from an index on finds the first occurrence at or after
    it. *)
Lemma indexOfAt_head t r k :
  t ≠ [] →
  indexOfAt t r k
  = head (List.filter (λ i, startsWith t (drop (i - k) r)) (seq k (length r))).
Proof.
  intros Ht. revert k. induction r as [|c r IH]; intros k.
  - simpl. by destruct t.
  - rewrite indexOfAt_unfold. cbn [length seq List.filter].
    rewrite Nat.sub_diag. cbn [drop].
    destruct (startsWith t (c :: r)); [done|].
    rewrite IH. f_equal. apply filter_ext_in. intros i Hi.
    apply in_seq in Hi. replace (i - k) with (S (i - S k)) by lia. done.
Qed.

Lemma indexOfFrom_head t c s :
  t ≠ [] → s ≤ length c →
  indexOfFrom t c s
  = head (List.filter (λ i, startsWith t (drop i c)) (seq s (length c - s))).
Proof.
  intros Ht Hs. unfold indexOfFrom.
  replace (s `min` length c) with s by lia.
  rewrite indexOfAt_head by done. rewrite length_drop. f_equal.
  apply filter_ext_in. intros i Hi. apply in_seq in Hi.
  rewrite drop_drop. f_equal. f_equal. lia.
Qed.

Lemma filter_seq_head (P : nat → bool) s n i :
  head (List.filter P (seq s n)) = Some i →
  s ≤ i < s + n
  ∧ List.filter P (seq s n) = i :: List.filter P (seq (S i) (s + n - S i)).
Proof.
  revert s. induction n as [|n IH]; intros s; [done|].
  cbn [seq List.filter]. destruct (P s) eqn:E.
  - intros [= <-]. split; [lia|]. f_equal. f_equal. f_equal. lia.
  - intros H. apply IH in H as [Hi ->]. split; [lia|].
    f_equal. f_equal. f_equal. lia.
Qed.

Lemma filter_seq_shift (P Q : nat → bool) d s n :
  (∀ j, P (d + j) = Q j) →
  List.filter P (seq (d + s) n) = map (Nat.add d) (List.filter Q (seq s n)).
Proof.
  intros H. revert s. induction n as [|n IH]; intros s; [done|].
  cbn [seq List.filter]. rewrite H.
  replace (S (d + s)) with (d + S s) by lia. rewrite IH.
  by destruct (Q s).
Qed.

(** The loop over the occurrences lists the first occurrences, one after
    the other, those that overlap too. *)
Lemma collectOccurrences_filter rounds c t contentLines s :
  t ≠ [] → s ≤ length c →
  collectOccurrences rounds c t contentLines s
  = map (λ i, (lineNumberAt c i, occurrencePreview contentLines (lineNumberAt c i)))
        (take rounds (List.filter (λ i, startsWith t (drop i c))
                                  (seq s (length c - s)))).
Proof.
  intros Ht. revert s. induction rounds as [|k IH]; intros s Hs; [done|].
  cbn [collectOccurrences]. rewrite indexOfFrom_head by done.
  destruct (head _) as [i|] eqn:E.
  - apply filter_seq_head in E as [Hi ->]. cbn [take map]. f_equal.
    rewrite IH by lia. replace (i + 1) with (S i) by lia.
    by replace (s + (length c - s) - S i) with (length c - S i) by lia.
  - by destruct (List.filter _ _).
Qed.

(** The occurrences that [split] cuts at are occurrences. *)
Lemma splitFuel_count_le fuel t s :
  t ≠ [] →
  length (splitFuel fuel t s) - 1 ≤ length (occurrenceIndices t s).
Proof.
  intros Ht. revert s. induction fuel as [|f IH]; intros s; [simpl; lia|].
  cbn [splitFuel]. destruct (indexOf t s) as [i|] eqn:E; [|simpl; lia].
  pose proof (indexOf_lt _ _ _ E Ht) as Hi.
  apply indexOf_Some in E as [Hs _].
  set (d := i + length t).
  assert (Hd : d ≤ length s).
  { apply (f_equal length) in Hs. rewrite !length_app, length_take in Hs. lia. }
  assert (Hocc : startsWith t (drop i s) = true).
  { apply startsWith_spec. exists (drop d s). rewrite Hs at 1.
    rewrite drop_app_length'; [done|]. rewrite length_take. lia. }
  pose proof (splitFuel_nonempty f t (drop d s)) as Hne.
  specialize (IH (drop d s)).
  cbn [length]. unfold occurrenceIndices in *.
  replace (length s) with (d + (length s - d)) at 1 by lia.
  rewrite seq_app, List.filter_app, length_app. change (0 + d) with d.
  assert (Hshift : List.filter (λ i0, startsWith t (drop i0 s)) (seq d (length s - d))
                   = map (Nat.add d)
                         (List.filter (λ j, startsWith t (drop j (drop d s)))
                                      (seq 0 (length s - d)))).
  { rewrite <- (filter_seq_shift (λ i0, startsWith t (drop i0 s)) _ d 0).
    - by rewrite Nat.add_0_r.
    - intros j. by rewrite drop_drop. }
  rewrite Hshift, length_map. rewrite length_drop in IH.
  assert (1 ≤ length (List.filter (λ i0, startsWith t (drop i0 s)) (seq 0 d))).
  { assert (Hin : In i (List.filter (λ i0, startsWith t (drop i0 s)) (seq 0 d))).
    { apply filter_In. split; [|done]. apply in_seq.
      destruct t; [done|]. unfold d. simpl. lia. }
    destruct (List.filter _ (seq 0 d)); [done|simpl; lia]. }
  destruct (splitFuel f t (drop d s)); [done|]. simpl in *. lia.
Qed.

Lemma countOccurrences_le_indices t s :
  t ≠ [] → countOccurrences t s ≤ length (occurrenceIndices t s).
Proof.
  intros Ht. unfold countOccurrences, split. destruct t as [|x t']; [done|].
  by apply splitFuel_count_le.
Qed.

(** The lines of a text are one more than its line feeds. *)
Lemma filter_LF_prefix (s : jsstring) i :
  (∀ j, j < i → startsWith [LF] (drop j s) = false) → i ≤ length s →
  List.filter (λ ch, (ch =? LF)%N) (take i s) = [].
Proof.
  revert s. induction i as [|i IH]; intros s H Hi; [done|].
  destruct s as [|ch r]; [simpl in Hi; lia|]. simpl.
  pose proof (H 0 ltac:(lia)) as H0. simpl in H0. rewrite andb_true_r in H0.
  rewrite N.eqb_sym, H0. apply IH; [|simpl in Hi; lia].
  intros j Hj. apply (H (S j)). lia.
Qed.

Lemma length_splitFuel_LF fuel (s : jsstring) :
  length s ≤ fuel →
  length (splitFuel fuel [LF] s) = S (length (List.filter (λ ch, (ch =? LF)%N) s)).
Proof.
  revert s. induction fuel as [|f IH]; intros s Hf.
  - destruct s; [done|simpl in Hf; lia].
  - cbn [splitFuel]. destruct (indexOf [LF] s) as [i|] eqn:E.
    + pose proof (indexOf_lt _ _ _ E ltac:(done)) as Hi.
      apply indexOf_Some in E as [Hs Hfirst].
      cbn [length]. rewrite IH by (rewrite length_drop; simpl; lia).
      rewrite Hs at 2. rewrite !List.filter_app.
      rewrite (filter_LF_prefix s i Hfirst) by lia. simpl. done.
    + pose proof (indexOfAt_None _ _ _ E) as Hnone.
      rewrite <- (take_ge s (length s)) at 2 by lia.
      rewrite (filter_LF_prefix s (length s)) by (intros; apply Hnone || lia). done.
Qed.

Lemma lineNumberAt_lineOfIndex c i : lineNumberAt c i = lineOfIndex c i.
Proof.
  unfold lineNumberAt, lineOfIndex, splitLines, split, NL.
  by apply length_splitFuel_LF.
Qed.

(** The preview of a line shows the lines around it with their numbers. *)
Lemma occurrencePreview_rows contentLines ln :
  occurrencePreview contentLines ln = joinLines (contextRows contentLines ln).
Proof.
  unfold occurrencePreview, contextRows, OCCURRENCE_PREVIEW_CONTEXT. f_equal.
  set (start := ln - 1 - 5).
  set (end_ := length contentLines `min` (ln + 5 + 1)).
  replace (Nat.max 1 (ln - 5)) with (start + 1) by (unfold start; lia).
  replace (length contentLines `min` (ln + 6)) with end_ by (unfold end_; lia).
  replace (end_ + 1 - (start + 1)) with (end_ - start) by lia.
  apply list_eq. intros i.
  rewrite list_lookup_imap, list_lookup_fmap. unfold slice.
  destruct (decide (i < end_ - start)) as [Hi|Hi].
  - rewrite lookup_take_lt by done. rewrite lookup_drop.
    assert (Hlt : start + i < length contentLines) by (unfold end_ in *; lia).
    destruct (lookup_lt_is_Some_2 contentLines (start + i) Hlt) as [l Hl].
    rewrite Hl. rewrite lookup_seq_lt by done. simpl.
    replace (start + 1 + i - 1) with (start + i) by lia.
    rewrite (list_lookup_total_correct _ _ _ Hl).
    unfold previewRow, shownLine, OCCURRENCE_PREVIEW_MAX_LEN, ELLIPSIS.
    replace (start + 1 + i) with (start + i + 1) by lia. done.
  - rewrite lookup_take_ge by lia. rewrite lookup_seq_ge by lia. done.
Qed.

(** C8 (amended).  [replaceText] works on the text and the target with
    their line endings collapsed, and counts the occurrences of the target
    as [String.split] cuts them: from left to right, without overlap.
    Without "replace all", a target that occurs more than once in this
    count makes it raise the error of the ambiguous match and return no
    text.  The error carries that count and the previews of the first five
    places where the target stands in the text (those that overlap are all
    listed, so there are at least two previews and at most five); the
    preview of a place shows the lines of the text from 5 before the line
    of the place (one more than the line feeds before the place) to 6 after
    it, each after its number, a line of more than 80 characters cut to 79
    and an ellipsis.  The message of the error
    notes the five shown when the count is above five.  With "replace all",
    a target that occurs at least once has every occurrence of this count
    replaced and the count returned.  Replacing "cat" by "CAT" everywhere
    in ["cat\ndog\ncat\nbird\ncat"] gives ["CAT\ndog\nCAT\nbird\nCAT"] and
    the count 3. *)
Theorem replaceText_exact_occurrences
    (rounds : nat) (content oldText newText : jsstring) (useFuzzy : bool)
    (thr : option float) :
  let c := normalizeToLF content in
  let o := normalizeToLF oldText in
  let n := normalizeToLF newText in
  let k := countOccurrences o c in
  let places := occurrenceIndices o c in
  let previews :=
    map (λ i, joinLines (contextRows (splitLines c) (lineOfIndex c i)))
        (take 5 places) in
  oldText ≠ [] →
  (1 < k →
     replaceText rounds content oldText newText (mkOptions useFuzzy false thr)
     = Some (inl (AmbiguousOccurrences k previews (ambiguousMessage k previews)))
     ∧ k ≤ length places
     ∧ length previews = Nat.min 5 (length places)
     ∧ 2 ≤ length previews ≤ 5
     ∧ Forall (λ i, startsWith o (drop i c) = true) places
     ∧ (5 < k →
        ∃ rest, ambiguousMessage k previews
                = lit "Found " ++ numberToString k
                  ++ lit " occurrences (showing first 5 of " ++ numberToString k
                  ++ lit ")" ++ rest)
     ∧ (k ≤ 5 →
        ambiguousMessage k previews
        = lit "Found " ++ numberToString k ++ lit " occurrences:" ++ [LF; LF]
          ++ join [LF; LF] previews ++ [LF; LF]
          ++ lit "Add more context lines to disambiguate."))
  ∧ (0 < k →
       replaceText rounds content oldText newText (mkOptions useFuzzy true thr)
       = Some (inr (mkReplaced (join n (split o c)) k))
       ∧ (join n (split o c), k) = replaceOccurrences (length c) o n c)
  ∧ replaceText rounds
      (lit "cat" ++ [LF] ++ lit "dog" ++ [LF] ++ lit "cat" ++ [LF] ++ lit "bird"
       ++ [LF] ++ lit "cat")
      (lit "cat") (lit "CAT") (mkOptions useFuzzy true thr)
    = Some (inr (mkReplaced
                   (lit "CAT" ++ [LF] ++ lit "dog" ++ [LF] ++ lit "CAT" ++ [LF]
                    ++ lit "bird" ++ [LF] ++ lit "CAT") 3)).
Proof.
  intros c o n k places previews Hold.
  assert (Hlen : (length oldText =? 0) = false).
  { apply Nat.eqb_neq. by destruct oldText. }
  assert (Ho : o ≠ []).
  { unfold o. by rewrite normalizeToLF_nil_iff. }
  assert (Holen : (length o =? 0) = false).
  { apply Nat.eqb_neq. by destruct o. }
  split; [|split].
  - intros Hk.
    destruct (countOccurrences_indexOf o c Ho ltac:(fold k; lia)) as [i Hi].
    set (found := collectOccurrences 5 c o (splitLines c) 0).
    assert (Hfound : map snd found = previews).
    { unfold found. rewrite collectOccurrences_filter by (done || lia).
      rewrite Nat.sub_0_r. fold (occurrenceIndices o c). fold places.
      unfold previews. rewrite map_map. apply map_ext. intros j. simpl.
      rewrite lineNumberAt_lineOfIndex. apply occurrencePreview_rows. }
    assert (Hk' : (1 <? k) = true) by (by apply Nat.ltb_lt).
    pose proof (countOccurrences_le_indices o c Ho) as Hle. fold k places in Hle.
    assert (Hpl : length previews = Nat.min 5 (length places)).
    { unfold previews. by rewrite length_map, length_take. }
    split.
    { unfold replaceText. rewrite Hlen. simpl all. cbv iota. cbv zeta.
      fold c o. unfold findMatch. rewrite Holen, Hi. fold k. rewrite Hk'.
      simpl occurrences. simpl occurrencePreviews. simpl default. rewrite Hk'.
      transitivity (@Some (Error + ReplaceResult)
                      (inl (AmbiguousOccurrences k (map snd found)
                              (ambiguousMessage k (map snd found)))));
        [reflexivity | by rewrite Hfound]. }
    split; [exact Hle|]. split; [exact Hpl|]. split; [lia|].
    split.
    { apply Forall_forall. intros j Hj. apply list_elem_of_In in Hj.
      unfold places, occurrenceIndices in Hj. by apply filter_In in Hj as [_ Hj]. }
    split.
    + intros H5. unfold ambiguousMessage.
      assert ((5 <? k) = true) as -> by (by apply Nat.ltb_lt).
      eexists. rewrite <- !app_assoc. reflexivity.
    + intros H5. unfold ambiguousMessage.
      assert ((5 <? k) = false) as -> by (apply Nat.ltb_ge; lia).
      reflexivity.
  - intros Hk.
    assert (Hk' : (0 <? k) = true) by (by apply Nat.ltb_lt).
    split.
    + unfold replaceText. rewrite Hlen. simpl all. cbv iota. cbv zeta.
      fold c o n k. by rewrite Hk'.
    + unfold k, countOccurrences, split. destruct o as [|x o']; [done|].
      apply splitFuel_replaceOccurrences.
  - vm_compute. reflexivity.
Qed.

Lemma replaceText_exact_occurrences_witness :
  let content := lit "cat" ++ [LF] ++ lit "dog" ++ [LF] ++ lit "cat" ++ [LF] ++ lit "bird" in
  replaceText 1 content (lit "cat") (lit "CAT") (mkOptions true false None)
  = Some (inl (AmbiguousOccurrences 2
                 [lit "  1 | cat" ++ [LF] ++ lit "  2 | dog" ++ [LF] ++ lit "  3 | cat"
                  ++ [LF] ++ lit "  4 | bird";
                  lit "  1 | cat" ++ [LF] ++ lit "  2 | dog" ++ [LF] ++ lit "  3 | cat"
                  ++ [LF] ++ lit "  4 | bird"]
                 (lit "Found 2 occurrences:" ++ [LF; LF]
                  ++ lit "  1 | cat" ++ [LF] ++ lit "  2 | dog" ++ [LF] ++ lit "  3 | cat"
                  ++ [LF] ++ lit "  4 | bird" ++ [LF; LF]
                  ++ lit "  1 | cat" ++ [LF] ++ lit "  2 | dog" ++ [LF] ++ lit "  3 | cat"
                  ++ [LF] ++ lit "  4 | bird" ++ [LF; LF]
                  ++ lit "Add more context lines to disambiguate."))).
Proof.
  intros content.
  destruct (replaceText_exact_occurrences 1 content (lit "cat") (lit "CAT") true None
              ltac:(discriminate))
    as [Hambiguous _].
  destruct (Hambiguous ltac:(vm_compute; lia)) as (Hres & _).
  etrans; [exact Hres|]. vm_compute. reflexivity.
Defined.

(** C8 as stated fails for occurrences that overlap: in ["aaa"] the target
    ["aa"] stands at the indices 0 and 1, twice, but [split] cuts the text
    once; without "replace all" no error is raised and the first occurrence
    is replaced, with "replace all" one occurrence is replaced and the count
    returned is 1. *)
Lemma overlapping_occurrences_counterexample :
  let content := lit "aaa" in
  let target := lit "aa" in
  occurrenceIndices target content = [0; 1]
  ∧ countOccurrences target content = 1
  ∧ (∀ useFuzzy all_,
       replaceText 1 content target (lit "X") (mkOptions useFuzzy all_ None)
       = Some (inr (mkReplaced (lit "Xa") 1))).
Proof.
  intros content target.
  split; [vm_compute; reflexivity|].
  split; [vm_compute; reflexivity|].
  intros [|] [|]; vm_compute; reflexivity.
Qed.

(** ** Substring replace: a target that is not found *)

(** A best window at or above the threshold has been counted. *)
Lemma coreStep_counted contentLines targetLines targetNormalized offsets thr depth st start :
  (∀ b, cBest st = Some b → fge (confidence b) thr = true → 1 ≤ cAbove st) →
  let st' := coreStep contentLines targetLines targetNormalized offsets thr depth st start in
  ∀ b, cBest st' = Some b → fge (confidence b) thr = true → 1 ≤ cAbove st'.
Proof.
  intros Hinv st'. subst st'. unfold coreStep.
  set (score := windowScore _ _ _).
  destruct (fgt score (cBestScore st)).
  - simpl. intros b [= <-]. simpl. intros ->. lia.
  - assert (Hmono : ∀ b, cBest st = Some b → fge (confidence b) thr = true →
                         1 ≤ (if fge score thr then S (cAbove st) else cAbove st)).
    { intros b Hb Hc. specialize (Hinv b Hb Hc). destruct (fge score thr); lia. }
    destruct (fgt score (cSecond st)); simpl; exact Hmono.
Qed.

Lemma findBestFuzzyMatchCore_counted contentLines targetLines offsets thr depth b :
  best (findBestFuzzyMatchCore contentLines targetLines offsets thr depth) = Some b →
  fge (confidence b) thr = true →
  1 ≤ aboveThresholdCount (findBestFuzzyMatchCore contentLines targetLines offsets thr depth).
Proof.
  unfold findBestFuzzyMatchCore. simpl.
  set (step := coreStep _ _ _ _ _ _).
  assert (Hfold : ∀ starts st,
            (∀ b, cBest st = Some b → fge (confidence b) thr = true → 1 ≤ cAbove st) →
            ∀ b, cBest (fold_left step starts st) = Some b →
                 fge (confidence b) thr = true → 1 ≤ cAbove (fold_left step starts st)).
  { induction starts as [|s starts IH]; intros st Hinv; [exact Hinv|].
    simpl. apply IH. apply coreStep_counted. exact Hinv. }
  apply Hfold. simpl. done.
Qed.

Lemma findBestFuzzyMatch_counted content target thr b :
  best (findBestFuzzyMatch content target thr) = Some b →
  fge (confidence b) thr = true →
  1 ≤ aboveThresholdCount (findBestFuzzyMatch content target thr).
Proof.
  unfold findBestFuzzyMatch.
  destruct (_ || _); [done|]. destruct (_ <? _); [done|].
  pose proof (findBestFuzzyMatchCore_counted (splitLines content) (splitLines target)
                (computeLineOffsets (splitLines content)) thr true) as H1.
  pose proof (findBestFuzzyMatchCore_counted (splitLines content) (splitLines target)
                (computeLineOffsets (splitLines content)) thr false) as H2.
  cbv zeta.
  set (r1 := findBestFuzzyMatchCore _ _ _ thr true) in *.
  set (r2 := findBestFuzzyMatchCore _ _ _ thr false) in *.
  destruct (best r1) as [b1|] eqn:E1; [|rewrite E1; done].
  destruct (_ && _).
  - destruct (best r2) as [b2|] eqn:E2; [|rewrite E1; apply H1].
    destruct (fgt _ _); [rewrite E2; apply H2 | rewrite E1; apply H1].
  - rewrite E1. apply H1.
Qed.

(** Without an accepted match, [replaceText] has no match to use: the
    closest candidate is never taken in its place. *)
Lemma chosenMatch_none content target useFuzzy thr :
  target ≠ [] →
  indexOf target content = None →
  match_ (findMatch content target useFuzzy (Some thr)) = None →
  chosenMatch useFuzzy thr (findMatch content target useFuzzy (Some thr)) = None.
Proof.
  intros Ht Hidx. unfold findMatch.
  assert ((length target =? 0) = false) as -> by (apply Nat.eqb_neq; by destruct target).
  rewrite Hidx. simpl default.
  pose proof (findBestFuzzyMatch_counted content target thr) as Hcount.
  destruct (best (findBestFuzzyMatch content target thr)) as [b|] eqn:Eb;
    [|intros _; unfold chosenMatch; simpl; by destruct useFuzzy].
  specialize (Hcount b eq_refl).
  destruct (useFuzzy && fge (confidence b) thr
            && (aboveThresholdCount (findBestFuzzyMatch content target thr) =? 1)) eqn:E1;
    [done|].
  destruct (_ && _ && _ && _ && _) eqn:E2; [done|].
  intros _. unfold chosenMatch. simpl.
  destruct useFuzzy; [|done]. simpl in *.
  destruct (fge (confidence b) thr) eqn:Ec; [|done]. simpl in *.
  specialize (Hcount eq_refl). apply Nat.eqb_neq in E1.
  assert ((aboveThresholdCount (findBestFuzzyMatch content target thr) <=? 1) = false) as ->.
  { apply Nat.leb_gt. lia. }
  done.
Qed.

(** C10 (amended).  Take a non-empty target that has no exact occurrence
    in the text (line endings collapsed on both, as [replaceText] does) and
    for which the matcher accepts no fuzzy match.  [replaceText] raises no
    error and returns, with the count 0, the text with its line endings
    collapsed: the text itself when it has no carriage return.  In
    [edit_file], a batch whose anchored operations leave the text unchanged
    and whose only substring replace is such a not-found replace, as a batch
    made of the replace alone, ends with the error of a batch without
    changes. *)
Theorem replaceText_not_found
    (rounds : nat) (content oldText newText : jsstring) (options : ReplaceOptions) :
  let c := normalizeToLF content in
  let o := normalizeToLF oldText in
  let thr := default DEFAULT_FUZZY_THRESHOLD (threshold options) in
  oldText ≠ [] →
  0 < rounds →
  indexOf o c = None →
  match_ (findMatch c o (fuzzy options) (Some thr)) = None →
  replaceText rounds content oldText newText options = Some (inr (mkReplaced c 0))
  ∧ replaceText rounds c oldText newText options = Some (inr (mkReplaced c 0))
  ∧ (hasNoCR content = true → c = content)
  ∧ (∀ rawContent all_,
       content = text (stripBom rawContent) →
       options = mkOptions true (default false all_) (Some DEFAULT_FUZZY_THRESHOLD) →
       editFile rounds rawContent [Replace oldText newText all_]
       = Some (inl (NoChanges [])))
  ∧ (∀ rawContent edits all_ res,
       content = text (stripBom rawContent) →
       options = mkOptions true (default false all_) (Some DEFAULT_FUZZY_THRESHOLD) →
       List.filter (λ e, negb (isAnchorEdit e)) edits = [Replace oldText newText all_] →
       applyHashlineEdits c (List.filter isAnchorEdit edits) = inr res →
       Engine.content res = c →
       editFile rounds rawContent edits = Some (inl (NoChanges (resNoopEdits res)))).
Proof.
  intros c o thr Hold Hrounds Hidx Hmatch.
  assert (Hlen : (length oldText =? 0) = false).
  { apply Nat.eqb_neq. by destruct oldText. }
  assert (Ho : o ≠ []).
  { unfold o. by rewrite normalizeToLF_nil_iff. }
  assert (Hgen : ∀ x, normalizeToLF x = c →
                      replaceText rounds x oldText newText options
                      = Some (inr (mkReplaced c 0))).
  { intros x Hx. unfold replaceText. rewrite Hlen. cbv zeta. rewrite Hx. fold o thr.
    destruct (all options).
    - rewrite (countOccurrences_zero o c Ho Hidx). simpl.
      destruct rounds as [|k]; [lia|]. simpl.
      by rewrite (chosenMatch_none c o (fuzzy options) thr Ho Hidx Hmatch).
    - destruct (findMatch c o (fuzzy options) (Some thr)) as [m cl occ ol op fm df] eqn:Ef.
      simpl in Hmatch. subst m. simpl.
      assert (occ = None) as ->; [|done].
      unfold findMatch in Ef.
      assert ((length o =? 0) = false) as Hol by (apply Nat.eqb_neq; by destruct o).
      rewrite Hol, Hidx in Ef.
      destruct (best _); [|by injection Ef].
      repeat (destruct (_ && _) in Ef; try (by injection Ef)). }
  assert (Hc : replaceText rounds c oldText newText options = Some (inr (mkReplaced c 0))).
  { apply Hgen. apply normalizeToLF_idem. }
  assert (Hbatch : ∀ rawContent edits all_ res,
       content = text (stripBom rawContent) →
       options = mkOptions true (default false all_) (Some DEFAULT_FUZZY_THRESHOLD) →
       List.filter (λ e, negb (isAnchorEdit e)) edits = [Replace oldText newText all_] →
       applyHashlineEdits c (List.filter isAnchorEdit edits) = inr res →
       Engine.content res = c →
       editFile rounds rawContent edits = Some (inl (NoChanges (resNoopEdits res)))).
  { intros rawContent edits all_ res Hraw Hopt Hrep Happly Hsame.
    unfold editFile. rewrite <- Hraw. fold c. rewrite Happly, Hrep, Hsame.
    unfold applyReplaceEdits. rewrite Hlen. rewrite <- Hopt. rewrite Hc. simpl rcontent.
    unfold streq. by rewrite bool_decide_eq_true_2. }
  split; [by apply Hgen|].
  split; [exact Hc|].
  split; [intros H; by apply normalizeToLF_noCR|].
  split; [|exact Hbatch].
  intros rawContent all_ Hraw Hopt.
  apply (Hbatch rawContent [Replace oldText newText all_] all_ (mkResult c None [] []));
    done.
Qed.

Lemma replaceText_not_found_witness :
  replaceText 1 (lit "alpha" ++ [LF] ++ lit "beta") (lit "gamma delta") (lit "x")
    (mkOptions true true None)
  = Some (inr (mkReplaced (normalizeToLF (lit "alpha" ++ [LF] ++ lit "beta")) 0))
  ∧ editFile 1 (lit "alpha" ++ [LF] ++ lit "beta")
      [Replace (lit "gamma delta") (lit "x") None]
    = Some (inl (NoChanges [])).
Proof.
  split.
  - destruct (replaceText_not_found 1 (lit "alpha" ++ [LF] ++ lit "beta")
                (lit "gamma delta") (lit "x") (mkOptions true true None)
                ltac:(discriminate) ltac:(lia)
                ltac:(vm_compute; reflexivity) ltac:(vm_compute; reflexivity))
      as [H _].
    exact H.
  - destruct (replaceText_not_found 1 (lit "alpha" ++ [LF] ++ lit "beta")
                (lit "gamma delta") (lit "x")
                (mkOptions true false (Some DEFAULT_FUZZY_THRESHOLD))
                ltac:(discriminate) ltac:(lia)
                ltac:(vm_compute; reflexivity) ltac:(vm_compute; reflexivity))
      as (_ & _ & _ & H & _).
    exact (H (lit "alpha" ++ [LF] ++ lit "beta") None
             ltac:(vm_compute; reflexivity) eq_refl).
Defined.

(** C10 as stated fails for a text with a carriage return: the text
    ["a\r\nb"] does not hold the target ["zzz"], and [replaceText] returns
    ["a\nb"], not the text as it was.  [edit_file] can pass such a text: on
    the file ["a"], a set_line whose text ends with a carriage return
    followed by the not-found replace writes ["x\n"], where the set_line
    alone writes ["x\r"]. *)
Lemma replaceText_not_found_counterexample :
  let content := lit "a" ++ [CR; LF] ++ lit "b" in
  let anchor := formatRef 1 (computeLineHash 1 (lit "a")) in
  indexOf (lit "zzz") (normalizeToLF content) = None
  ∧ match_ (findMatch (normalizeToLF content) (lit "zzz") true
              (Some DEFAULT_FUZZY_THRESHOLD)) = None
  ∧ (∀ all_,
       replaceText 1 content (lit "zzz") (lit "x")
         (mkOptions true all_ (Some DEFAULT_FUZZY_THRESHOLD))
       = Some (inr (mkReplaced (lit "a" ++ [LF] ++ lit "b") 0)))
  ∧ lit "a" ++ [LF] ++ lit "b" ≠ content
  ∧ editFile 1 (lit "a") [SetLine anchor (lit "x" ++ [CR])]
    = Some (inr (mkUpdated (lit "x" ++ [CR]) []))
  ∧ editFile 1 (lit "a")
      [SetLine anchor (lit "x" ++ [CR]); Replace (lit "zzz") (lit "y") None]
    = Some (inr (mkUpdated (lit "x" ++ [LF]) [])).
Proof.
  intros content anchor.
  split; [vm_compute; reflexivity|].
  split; [vm_compute; reflexivity|].
  split; [intros [|]; vm_compute; reflexivity|].
  split; [vm_compute; congruence|].
  split; vm_compute; reflexivity.
Qed.
(** ** Anchors copied with their row *)

Lemma cutWhere_app m (p s : jsstring) :
  (∀ j, j < length p → m (drop j (p ++ s)) = false) →
  cutWhere m (p ++ s) = p ++ cutWhere m s.
Proof.
  induction p as [|c p IH]; intros H; [done|].
  rewrite <- app_comm_cons. simpl cutWhere.
  pose proof (H 0 ltac:(simpl; lia)) as H0. simpl in H0. rewrite H0.
  simpl. f_equal. apply IH. intros j Hj. apply (H (S j)). simpl. lia.
Qed.

Lemma cutWhere_cons m c (s : jsstring) :
  m (c :: s) = false → cutWhere m (c :: s) = c :: cutWhere m s.
Proof. intros H. simpl. by rewrite H. Qed.

Lemma trimStart_app_nonws (x : jsstring) c y :
  isWhitespace c = false → trimStart (x ++ c :: y) = trimStart x ++ c :: y.
Proof.
  intros Hc. induction x as [|d x IH]; simpl.
  - by rewrite Hc.
  - destruct (isWhitespace d); done.
Qed.

Lemma trimEnd_app_nonws (a : jsstring) c r :
  isWhitespace c = false → trimEnd (a ++ c :: r) = a ++ c :: trimEnd r.
Proof.
  intros Hc. unfold trimEnd. rewrite rev_app_distr. simpl.
  rewrite <- app_assoc. simpl. rewrite trimStart_app_nonws by done.
  rewrite rev_app_distr. simpl. rewrite rev_involutive, <- app_assoc. done.
Qed.

(** The text of a row up to its bar, followed by nothing or by a bar and
    more. *)
Lemma parseLineRef_prefix ds h1 h2 t :
  ds ≠ [] → forallb isDigit ds = true →
  isAlnum h1 = true → isAlnum h2 = true →
  parseLineRef (ds ++ [58%N] ++ [h1; h2] ++ 124%N :: t)
  = if parseDigits ds <? 1
    then inl (LineNumberBelowOne (parseDigits ds) (ds ++ [58%N] ++ [h1; h2] ++ 124%N :: t))
    else inr (mkRef (parseDigits ds) [h1; h2]).
Proof.
  intros Hne Hd H1 H2.
  set (p := ds ++ [58%N] ++ [h1; h2]).
  assert (Hp : ∀ c, c ∈ p → c ≠ 124%N ∧ c ≠ 32%N ∧ isWhitespace c = false).
  { intros c Hc. unfold p in Hc. rewrite !elem_of_app in Hc.
    rewrite forallb_forall in Hd.
    destruct Hc as [Hc|[Hc|Hc]].
    - apply list_elem_of_In, Hd in Hc.
      pose proof (isDigit_not_ws _ Hc). apply isDigit_isAlnum, isAlnum_props in Hc. tauto.
    - apply list_elem_of_singleton in Hc as ->. done.
    - rewrite elem_of_cons, list_elem_of_singleton in Hc.
      destruct Hc as [-> | ->].
      + pose proof (isAlnum_not_ws _ H1). apply isAlnum_props in H1. tauto.
      + pose proof (isAlnum_not_ws _ H2). apply isAlnum_props in H2. tauto. }
  assert (Hhead : ∀ j s, j < length p → ∃ c r, drop j (p ++ s) = c :: r ∧ c ∈ p).
  { intros j s Hj. destruct (lookup_lt_is_Some_2 p j Hj) as [c Hc].
    exists c, (drop (S j) (p ++ s)). split.
    - apply drop_S. by rewrite lookup_app_l.
    - by apply list_elem_of_lookup_2 in Hc. }
  assert (Hcut1 : ∃ t1, cutWhere twoSpacesToEnd (cutWhere pipeToEnd (p ++ 124%N :: t))
                        = p ++ t1 ∧ (t1 = [] ∨ ∃ t', t1 = 124%N :: t')).
  { rewrite (cutWhere_app pipeToEnd).
    2:{ intros j Hj. destruct (Hhead j (124%N :: t) Hj) as (c & r & -> & Hc).
        apply Hp in Hc as (Hc & _). simpl. apply N.eqb_neq in Hc. by rewrite Hc. }
    assert (Hcut2 : ∀ s, cutWhere twoSpacesToEnd (p ++ s) = p ++ cutWhere twoSpacesToEnd s).
    { intros s. apply cutWhere_app. intros j Hj.
      destruct (Hhead j s Hj) as (c & r & -> & Hc).
      apply Hp in Hc as (_ & Hc & _). simpl. apply N.eqb_neq in Hc. rewrite Hc.
      by destruct r. }
    rewrite Hcut2.
    assert (Hpipe : cutWhere pipeToEnd (124%N :: t)
                    = if noLineTerminator t then [] else 124%N :: cutWhere pipeToEnd t).
    { reflexivity. }
    rewrite Hpipe.
    destruct (noLineTerminator t).
    - exists []. split; [reflexivity|]. by left.
    - rewrite cutWhere_cons.
      2:{ destruct (cutWhere pipeToEnd t); reflexivity. }
      eexists. split; [done|]. right. eauto. }
  destruct Hcut1 as (t1 & Hcut & Ht1).
  assert (Hclean : ∃ t2, trim (p ++ t1) = p ++ t2 ∧ (t2 = [] ∨ ∃ t', t2 = 124%N :: t')).
  { unfold trim.
    assert (trimStart (p ++ t1) = p ++ t1) as ->.
    { unfold p. destruct ds as [|d ds']; [done|]. simpl in Hd.
      apply andb_prop in Hd as [Hd0 _]. rewrite <- !app_comm_cons.
      apply trimStart_id. by apply isDigit_not_ws. }
    destruct Ht1 as [-> | [t' ->]].
    - exists []. split; [|by left]. rewrite !app_nil_r. unfold p.
      change (ds ++ [58%N] ++ [h1; h2]) with (ds ++ [58%N; h1] ++ [h2]).
      rewrite app_assoc. apply trimEnd_id. by apply isAlnum_not_ws.
    - exists (124%N :: trimEnd t'). split; [|right; eauto].
      by apply trimEnd_app_nonws. }
  destruct Hclean as (t2 & Hclean & Ht2).
  assert (Hnorm : normalizeColon (p ++ t2) = p ++ t2).
  { unfold normalizeColon, p. rewrite <- !app_assoc.
    unfold indexOf. rewrite indexOfAt_colon by done. simpl.
    rewrite take_app_length.
    assert (drop (S (length ds)) (ds ++ 58%N :: h1 :: h2 :: t2) = h1 :: h2 :: t2) as Hdrop.
    { rewrite cons_middle, app_assoc. apply drop_app_length'.
      rewrite length_app. simpl. lia. }
    assert (trimEnd ds = ds) as ->.
    { destruct (exists_last Hne) as (d' & c & ->).
      rewrite forallb_app in Hd. apply andb_prop in Hd as [_ Hc]. simpl in Hc.
      apply andb_prop in Hc as [Hc _]. apply trimEnd_id. by apply isDigit_not_ws. }
    simpl. rewrite Hdrop. simpl. rewrite (isAlnum_not_ws _ H1). done. }
  assert (Hspan : spanWhile isDigit (p ++ t2) = (ds, 58%N :: [h1; h2] ++ t2)).
  { unfold p. rewrite <- !app_assoc. apply spanWhile_app; done. }
  set (ref := ds ++ [58%N] ++ [h1; h2] ++ 124%N :: t).
  assert (Href : ref = p ++ 124%N :: t).
  { unfold ref, p. by rewrite <- !app_assoc. }
  assert (Hn : normalizeColon (trim (cutWhere twoSpacesToEnd (cutWhere pipeToEnd ref)))
               = p ++ t2).
  { by rewrite Href, Hcut, Hclean, Hnorm. }
  clearbody ref.
  unfold parseLineRef. rewrite Hn.
  unfold strictMatch, prefixMatch. rewrite Hspan.
  destruct ds as [|d ds']; [done|].
  destruct Ht2 as [-> | [t' ->]].
  - simpl. rewrite H1, H2. simpl. done.
  - simpl. rewrite H1, H2. simpl.
    done.
Qed.

Lemma parseLineRef_row n l :
  1 ≤ n → parseLineRef (formatHashLine n l) = inr (mkRef n (computeLineHash n l)).
Proof.
  intros Hn. unfold formatHashLine, formatRef.
  destruct (computeLineHash_shape n l) as [Hlen Hhex].
  destruct (computeLineHash n l) as [|h1 [|h2 [|h3 r]]] eqn:Eh; try done.
  simpl in Hhex. apply andb_prop in Hhex as [Hh1 Hhex].
  apply andb_prop in Hhex as [Hh2 _].
  apply isLowerHexDigit_isAlnum in Hh1, Hh2.
  destruct (numberToString_digits n) as [Hne Hd].
  rewrite <- !app_assoc.
  change ([58%N] ++ [h1; h2] ++ [124%N] ++ l) with ([58%N] ++ [h1; h2] ++ 124%N :: l).
  rewrite parseLineRef_prefix by done.
  rewrite parseDigits_numberToString.
  assert ((n <? 1) = false) as -> by (apply Nat.ltb_ge; lia). done.
Qed.

(** X1.  A whole row of the display of [formatHashLines], the anchor with
    the bar and the line's text behind it, for a line number from 1 on that
    JavaScript holds exactly (below 2^53), is parsed to the row's line
    number and fingerprint, whatever the text of the line is; and the
    reference obtained validates as it stands against every file that has
    this text as its line [n]. *)
Theorem parseLineRef_display_row (n : nat) (l : jsstring) :
  1 ≤ n → exactInteger n →
  ∃ ref,
    parseLineRef (formatHashLine n l) = inr ref
    ∧ line ref = n ∧ hash ref = computeLineHash n l
    ∧ ∀ lines seen,
        lines !! (n - 1) = Some l →
        validateOrRelocateRef lines (uniqueLineByHash lines) ref seen
        = inr (RefOk false, ref, seen).
Proof.
  intros Hn _. exists (mkRef n (computeLineHash n l)).
  split; [by apply parseLineRef_row|]. split; [done|]. split; [done|].
  intros lines seen Hl. apply validateOrRelocateRef_ok; simpl.
  - apply lookup_lt_Some in Hl. lia.
  - rewrite (list_lookup_total_correct _ _ _ Hl). by rewrite toLowerCase_hash.
Qed.

Lemma parseLineRef_display_row_witness :
  ∃ ref, parseLineRef (formatHashLine 3 (lit "a | b  c")) = inr ref ∧ line ref = 3.
Proof.
  destruct (parseLineRef_display_row 3 (lit "a | b  c") ltac:(lia)
              ltac:(unfold exactInteger, exactIntegerBound; lia))
    as (ref & H1 & H2 & _).
  exists ref. split; [exact H1|exact H2].
Defined.

(** ** Lines split and joined *)

Lemma indexOf_single_app c (l r : jsstring) :
  c ∉ l → indexOf [c] (l ++ c :: r) = Some (length l).
Proof.
  intros Hc. unfold indexOf.
  assert (H : ∀ k, indexOfAt [c] (l ++ c :: r) k = Some (k + length l)).
  { induction l as [|x l IH]; intros k.
    - rewrite indexOfAt_unfold. simpl app. rewrite startsWith_cons, N.eqb_refl.
      simpl. f_equal. lia.
    - rewrite <- app_comm_cons, indexOfAt_unfold, startsWith_cons.
      assert ((c =? x)%N = false) as ->.
      { apply N.eqb_neq. intros ->. apply Hc. apply elem_of_cons. by left. }
      simpl. rewrite IH.
      + f_equal. lia.
      + intros H. apply Hc. apply elem_of_cons. by right. }
  by rewrite H.
Qed.

Lemma join_cons2 sep (p q : jsstring) rest :
  join sep (p :: q :: rest) = p ++ sep ++ join sep (q :: rest).
Proof. done. Qed.

Lemma splitFuel_join_inv c (ls : list jsstring) fuel :
  ls ≠ [] → Forall (λ l, c ∉ l) ls → length (join [c] ls) ≤ fuel →
  splitFuel fuel [c] (join [c] ls) = ls.
Proof.
  revert fuel. induction ls as [|l rest IH]; intros fuel Hne Hall Hlen; [done|].
  apply Forall_cons in Hall as [Hl Hrest].
  destruct rest as [|q rest].
  - simpl. destruct fuel; [done|]. simpl. by rewrite indexOf_single_None.
  - rewrite join_cons2 in *. specialize (IH (fuel - 1) ltac:(done) Hrest).
    set (j := join [c] (q :: rest)) in *. clearbody j.
    rewrite length_app in Hlen. simpl in Hlen.
    destruct fuel as [|f]; [lia|].
    simpl splitFuel. simpl app.
    rewrite indexOf_single_app by done.
    rewrite take_app_length.
    replace (drop (length l + 1) (l ++ c :: j)) with j.
    2:{ rewrite cons_middle, app_assoc. symmetry. apply drop_app_length'.
        rewrite length_app. done. }
    f_equal. replace (S f - 1) with f in IH by lia. apply IH. lia.
Qed.

(** Lines without a line feed, joined and split again, are the lines. *)
Lemma splitLines_joinLines (ls : list jsstring) :
  ls ≠ [] → Forall (λ l, LF ∉ l) ls → splitLines (joinLines ls) = ls.
Proof.
  intros Hne Hall. unfold splitLines, joinLines, split, NL.
  by apply splitFuel_join_inv.
Qed.

Lemma join_nil_iff sep (ls : list jsstring) :
  join sep ls = [] → ls = [] ∨ ls = [[]] ∨ sep = [].
Proof.
  destruct ls as [|p [|q rest]]; [by left| |].
  - simpl. intros ->. right. by left.
  - rewrite join_cons2. intros H. apply app_eq_nil in H as [_ H].
    apply app_eq_nil in H as [H _]. right. by right.
Qed.

(** ** Replacement text copied from the display *)

Lemma matchHashlinePrefix_row n l : matchHashlinePrefix (formatHashLine n l) = Some l.
Proof.
  unfold formatHashLine, formatRef.
  destruct (computeLineHash_shape n l) as [Hlen Hhex].
  destruct (computeLineHash_alnum n l) as [Hal _].
  destruct (numberToString_digits n) as [Hne Hd].
  unfold matchHashlinePrefix. rewrite <- !app_assoc. cbn [app].
  rewrite (spanWhile_app isDigit) by done.
  destruct (numberToString n) as [|d ds]; [done|].
  assert ((58 =? 58)%N = true) as -> by done.
  rewrite (spanWhile_app isAlnum) by done.
  rewrite Hlen. done.
Qed.

Lemma formatRows_length lines n : length (formatRows lines n) = length lines.
Proof. revert n. induction lines as [|l r IH]; intros n; simpl; [done|]. by rewrite IH. Qed.

Lemma formatHashLine_nonempty n l : formatHashLine n l ≠ [].
Proof.
  unfold formatHashLine, formatRef. destruct (numberToString_digits n) as [Hne _].
  destruct (numberToString n); done.
Qed.

Lemma formatHashLine_no_LF n l : LF ∉ l → LF ∉ formatHashLine n l.
Proof.
  intros Hl. unfold formatHashLine, formatRef.
  destruct (numberToString_digits n) as [_ Hd].
  destruct (computeLineHash_alnum n l) as [Hal _].
  rewrite forallb_forall in Hd. rewrite forallb_forall in Hal.
  rewrite !elem_of_app. intros [[H|[H|H]]|[H|H]].
  - apply list_elem_of_In, Hd in H. done.
  - apply list_elem_of_singleton in H. done.
  - apply list_elem_of_In, Hal in H. done.
  - apply list_elem_of_singleton in H. done.
  - done.
Qed.

Lemma formatRows_no_LF lines n :
  Forall (λ l, LF ∉ l) lines → Forall (λ l, LF ∉ l) (formatRows lines n).
Proof.
  revert n. induction lines as [|l r IH]; intros n H; simpl; [done|].
  apply Forall_cons in H as [Hl Hr]. constructor; [by apply formatHashLine_no_LF|auto].
Qed.

Lemma formatRows_all_prefixed lines n :
  filter (λ l, l ≠ []) (formatRows lines n) = formatRows lines n
  ∧ filter (λ l, is_Some (matchHashlinePrefix l)) (formatRows lines n) = formatRows lines n
  ∧ map (λ l, default l (matchHashlinePrefix l)) (formatRows lines n) = lines.
Proof.
  revert n. induction lines as [|l r IH]; intros n; simpl; [done|].
  destruct (IH (S n)) as (H1 & H2 & H3).
  rewrite filter_cons_True by apply formatHashLine_nonempty.
  rewrite filter_cons_True by (rewrite matchHashlinePrefix_row; eauto).
  rewrite H1, H2, H3, matchHashlinePrefix_row. done.
Qed.

Lemma stripNewLinePrefixes_rows lines n :
  stripNewLinePrefixes (formatRows lines n) = lines.
Proof.
  destruct lines as [|l r]; [done|].
  destruct (formatRows_all_prefixed (l :: r) n) as (H1 & H2 & H3).
  unfold stripNewLinePrefixes. rewrite H1, H2.
  rewrite formatRows_length. simpl length.
  assert ((S (length r) =? 0) = false) as -> by done.
  assert ((0 <? S (length r)) && (S (length r) <=? 2 * S (length r)) = true) as ->.
  { apply andb_true_intro. split; [done|]. apply Nat.leb_le. lia. }
  simpl negb. cbv iota. simpl andb. cbv iota. exact H3.
Qed.

(** X2.  Replacement text that is the display of [formatHashLines] for
    some text, every line with its anchor and the bar in front, the line
    numbers all numbers that JavaScript holds exactly (below 2^53), is taken
    as the lines of that text: all the prefixes are removed and nothing
    else. *)
Theorem echoed_display_is_unprefixed (content : jsstring) (startLine : nat) :
  exactInteger (startLine + length (splitLines content)) →
  stripNewLinePrefixes (splitDstLines (formatHashLines content startLine))
  = splitLines content.
Proof.
  intros _. unfold formatHashLines, splitDstLines.
  destruct (joinLines (formatRows (splitLines content) startLine)) eqn:E.
  - apply join_nil_iff in E as [E|[E|E]]; [| |done].
    + apply (f_equal length) in E. rewrite formatRows_length in E.
      pose proof (splitLines_nonempty content). by destruct (splitLines content).
    + destruct (splitLines content) as [|l r]; [done|]. simpl in E.
      injection E as E _. by apply formatHashLine_nonempty in E.
  - rewrite <- E. rewrite splitLines_joinLines.
    + apply stripNewLinePrefixes_rows.
    + intros H. apply (f_equal length) in H. rewrite formatRows_length in H.
      pose proof (splitLines_nonempty content). by destruct (splitLines content).
    + apply formatRows_no_LF, splitLines_no_LF.
Qed.

Lemma echoed_display_is_unprefixed_witness :
  stripNewLinePrefixes
    (splitDstLines (formatHashLines (lit "a" ++ [LF] ++ lit "b") 1))
  = [lit "a"; lit "b"].
Proof.
  etrans.
  - apply (echoed_display_is_unprefixed (lit "a" ++ [LF] ++ lit "b") 1).
    unfold exactInteger, exactIntegerBound. vm_compute. reflexivity.
  - vm_compute. reflexivity.
Defined.

Lemma matchHashlinePrefix_plus l : matchHashlinePrefix (43%N :: l) = None.
Proof. unfold matchHashlinePrefix. simpl. done. Qed.

Lemma matchDiffPlus_plus l : startsWith [43%N] l = false → matchDiffPlus (43%N :: l) = Some l.
Proof.
  intros H. unfold matchDiffPlus.
  assert ((43 =? 43)%N = true) as -> by done.
  destruct l as [|d r]; [done|].
  rewrite startsWith_cons in H. simpl in H. rewrite andb_true_r in H.
  rewrite N.eqb_sym in H. by rewrite H.
Qed.

Lemma plus_rows_all_prefixed (lines : list jsstring) :
  Forall (λ l, startsWith [43%N] l = false) lines →
  filter (λ l, l ≠ []) (map (cons 43%N) lines) = map (cons 43%N) lines
  ∧ filter (λ l, is_Some (matchHashlinePrefix l)) (map (cons 43%N) lines) = []
  ∧ filter (λ l, is_Some (matchDiffPlus l)) (map (cons 43%N) lines) = map (cons 43%N) lines
  ∧ map (λ l, default l (matchDiffPlus l)) (map (cons 43%N) lines) = lines.
Proof.
  induction lines as [|l r IH]; intros H; [done|]. cbn [map].
  apply Forall_cons in H as [Hl Hr]. destruct (IH Hr) as (H1 & H2 & H3 & H4).
  rewrite filter_cons_True by done.
  rewrite filter_cons_False by (rewrite matchHashlinePrefix_plus; by intros [x Hx]).
  rewrite filter_cons_True by (rewrite matchDiffPlus_plus by done; eauto).
  rewrite H1, H2, H3, H4, matchDiffPlus_plus by done. done.
Qed.

(** X3.  Replacement lines copied from a diff, every one with a [+] in
    front of a text that does not itself start with [+], are taken without
    the [+]. *)
Theorem diff_plus_lines_are_unprefixed (lines : list jsstring) :
  lines ≠ [] →
  Forall (λ l, startsWith [43%N] l = false) lines →
  stripNewLinePrefixes (map (cons 43%N) lines) = lines.
Proof.
  intros Hne Hall.
  destruct (plus_rows_all_prefixed lines Hall) as (H1 & H2 & H3 & H4).
  unfold stripNewLinePrefixes. rewrite H1, H2, H3. rewrite length_map.
  destruct lines as [|l r]; [done|]. simpl length.
  assert ((S (length r) =? 0) = false) as -> by done.
  assert ((S (length r) <=? 2 * S (length r)) = true) as ->.
  { apply Nat.leb_le. lia. }
  simpl. exact H4.
Qed.

Lemma diff_plus_lines_are_unprefixed_witness :
  stripNewLinePrefixes [lit "+a"; lit "+"; lit "+ b"] = [lit "a"; []; lit " b"].
Proof.
  apply (diff_plus_lines_are_unprefixed [lit "a"; []; lit " b"]).
  - done.
  - repeat constructor.
Defined.

(** ** A range of one line *)

Lemma mapE_app_cons {A B} (f : A → Error + B) pre x y post :
  f x = f y → mapE f (pre ++ x :: post) = mapE f (pre ++ y :: post).
Proof.
  intros H. induction pre as [|p pre IH]; simpl.
  - by rewrite H.
  - by rewrite IH.
Qed.

Lemma parseEdit_one_line_range a b t :
  (b = [] ∨ ∃ ra rb, parseLineRef a = inr ra ∧ parseLineRef b = inr rb
                     ∧ line ra = line rb) →
  parseEdit (ReplaceLines a b t) = parseEdit (SetLine a t).
Proof.
  intros [-> | (ra & rb & Ha & Hb & Hl)]; unfold parseEdit, parseHashlineEdit.
  - destruct (liftParse (parseLineRef a)); done.
  - rewrite Ha, Hb. simpl. destruct b as [|c b']; [done|].
    apply Nat.eqb_eq in Hl. by rewrite Hl.
Qed.

(** X4.  A replace_lines whose end anchor is empty, or whose two anchors
    parse to the same line number, is handled as the set_line of its start
    anchor, at any place of a batch: the same result or the same error.
    The fingerprint of the end anchor is then never looked at. *)
Theorem one_line_range_is_set_line
    (content : jsstring) (pre post : list HashlineEdit) (a b t : jsstring) :
  (b = [] ∨ ∃ ra rb, parseLineRef a = inr ra ∧ parseLineRef b = inr rb
                     ∧ line ra = line rb) →
  applyHashlineEdits content (pre ++ ReplaceLines a b t :: post)
  = applyHashlineEdits content (pre ++ SetLine a t :: post).
Proof.
  intros H. unfold applyHashlineEdits.
  rewrite !length_app. cbn [length].
  by rewrite (mapE_app_cons parseEdit pre _ _ post (parseEdit_one_line_range a b t H)).
Qed.

Lemma one_line_range_is_set_line_witness :
  let content := lit "aaa" ++ [LF] ++ lit "bbb" in
  applyHashlineEdits content ([] ++ ReplaceLines (lit "1:5f") (lit "1:zz") (lit "x") :: [])
  = applyHashlineEdits content ([] ++ SetLine (lit "1:5f") (lit "x") :: []).
Proof.
  apply (one_line_range_is_set_line _ [] [] (lit "1:5f") (lit "1:zz") (lit "x")).
  right. exists (mkRef 1 (lit "5f")), (mkRef 1 (lit "zz")).
  split; [vm_compute; reflexivity|]. split; [vm_compute; reflexivity|reflexivity].
Defined.

(** ** Deleting lines, replacing a range *)

Lemma resolveReplacement_nil lines orig s e : resolveReplacement lines orig s e [] = [].
Proof.
  unfold resolveReplacement.
  assert (stripRangeBoundaryEcho lines s e [] = []) as -> by done.
  assert (restoreOldWrappedLines orig [] = []) as ->.
  { unfold restoreOldWrappedLines. by rewrite orb_true_r. }
  assert (restoreIndentForPairedReplacement orig [] = []) as ->.
  { unfold restoreIndentForPairedReplacement. destruct orig; done. }
  unfold hyphenFallback. by destruct (_ && _).
Qed.

Lemma stripNewLinePrefixes_nil : stripNewLinePrefixes (splitDstLines []) = [].
Proof. done. Qed.

(** What a batch of one set_line does once its anchor has validated, when
    no merge applies. *)
Lemma set_line_apply content anchor new_text ref ref' relocated :
  let lines := splitLines content in
  let dst := stripNewLinePrefixes (splitDstLines new_text) in
  let n := line ref' in
  let current := lines !!! (n - 1) in
  parseLineRef anchor = inr ref →
  validateOrRelocateRef lines (uniqueLineByHash lines) ref []
  = inr (RefOk relocated, ref', []) →
  maybeExpandSingleLineMerge lines {[n]} n dst = None →
  1 ≤ n ≤ length lines
  ∧ applyHashlineEdits content [SetLine anchor new_text]
    = inr (let st := replaceOrNoop (mkState lines None []) 0 ref' [current]
                       (resolveReplacement lines [current] n n dst) n 1 in
           mkResult (joinLines (fileLines st)) (firstChangedLine st)
                    (reformatWarnings lines (fileLines st) 1) (noopEdits st)).
Proof.
  intros lines dst n current Hparse Hval Hmerge.
  pose proof (validateOrRelocateRef_inv _ _ _ _ _ _ Hval) as (_ & _ & Hok).
  destruct (Hok relocated eq_refl) as (_ & Hrange & _).
  split; [done|].
  rewrite (applyHashlineEdits_validated content _ [mkParsed (Single ref) dst]
             [mkParsed (Single ref') dst]); [|done| |].
  - rewrite applyValidated_single. simpl touchedBy. fold lines.
    change (annotate 0 (mkParsed (Single ref') dst))
      with (mkAnnotated (Single ref') dst 0 (line ref') 0).
    rewrite applyEdit_single_plain by done. done.
  - simpl. rewrite (parseEdit_SetLine _ _ _ Hparse). done.
  - simpl. unfold validateEdit. simpl. fold lines. rewrite Hval. simpl. done.
Qed.

(** X5.  A set_line with empty text, alone in its batch, whose anchor
    validates to line [n]: when line [n] is not empty it is deleted, the
    other lines staying in their order; when line [n] is the empty line the
    operation changes nothing and is recorded as a no-op. *)
Theorem set_line_empty_text
    (content anchor : jsstring) (ref ref' : LineRef) (relocated : bool) :
  let lines := splitLines content in
  let n := line ref' in
  parseLineRef anchor = inr ref →
  validateOrRelocateRef lines (uniqueLineByHash lines) ref []
  = inr (RefOk relocated, ref', []) →
  (lines !!! (n - 1) ≠ [] →
   ∃ res,
     applyHashlineEdits content [SetLine anchor []] = inr res
     ∧ Engine.content res = joinLines (take (n - 1) lines ++ drop n lines)
     ∧ resFirstChangedLine res = Some n
     ∧ resNoopEdits res = [])
  ∧ (lines !!! (n - 1) = [] →
     applyHashlineEdits content [SetLine anchor []]
     = inr (mkResult content None [] [mkNoop 0 (formatRef n (hash ref')) []])).
Proof.
  intros lines n Hparse Hval.
  destruct (set_line_apply content anchor [] ref ref' relocated Hparse Hval)
    as [Hrange Happly].
  { done. }
  rewrite stripNewLinePrefixes_nil, resolveReplacement_nil in Happly.
  fold lines n in Happly, Hrange.
  unfold replaceOrNoop, streq in Happly. rewrite joinLines_singleton in Happly.
  split.
  - intros Hcur.
    rewrite bool_decide_eq_false_2 in Happly by done.
    eexists. split; [exact Happly|]. simpl. unfold splice. simpl.
    replace (n - 1 + 1) with n by lia. done.
  - intros Hcur.
    rewrite bool_decide_eq_true_2 in Happly by done.
    rewrite Hcur in Happly.
    rewrite Happly. simpl. unfold lines.
    by rewrite joinLines_splitLines, reformatWarnings_same.
Qed.

Lemma set_line_empty_text_witness :
  ∃ res,
    applyHashlineEdits (lit "aaa" ++ [LF] ++ lit "bbb" ++ [LF] ++ lit "ccc")
      [SetLine (lit "2:67") []] = inr res
    ∧ Engine.content res = lit "aaa" ++ [LF] ++ lit "ccc".
Proof.
  destruct (set_line_empty_text (lit "aaa" ++ [LF] ++ lit "bbb" ++ [LF] ++ lit "ccc")
              (lit "2:67") (mkRef 2 (lit "67")) (mkRef 2 (lit "67")) false
              ltac:(vm_compute; reflexivity) ltac:(vm_compute; reflexivity))
    as [Hdel _].
  destruct (Hdel ltac:(vm_compute; congruence)) as (res & Hres & Hcontent & _).
  exists res. split; [exact Hres|]. rewrite Hcontent. vm_compute. reflexivity.
Defined.

Lemma validateOrRelocateRef_cases lines uniq ref ms st ref' ms' :
  validateOrRelocateRef lines uniq ref ms = inr (st, ref', ms') →
  (st = RefOk false ∧ ref' = ref ∧ ms' = ms)
  ∨ (st = RefOk true ∧ ms' = ms)
  ∨ (st = RefFailed ∧ ∃ m, ms' = ms ++ [m]).
Proof.
  unfold validateOrRelocateRef.
  destruct (_ || _); [done|].
  destruct (streq _ _).
  - intros [= <- <- <-]. by left.
  - destruct (uniq !! _).
    + intros [= <- <- <-]. right. by left.
    + intros [= <- <- <-]. right. right. eauto.
Qed.

Lemma parseEdit_ReplaceLines a b t rs re :
  parseLineRef a = inr rs → parseLineRef b = inr re → line rs ≠ line re →
  parseEdit (ReplaceLines a b t)
  = inr (mkParsed (Range rs re) (stripNewLinePrefixes (splitDstLines t))).
Proof.
  intros Ha Hb Hne. unfold parseEdit, parseHashlineEdit. rewrite Ha. simpl.
  destruct b as [|c b']; [by vm_compute in Hb|].
  rewrite Hb. simpl. apply Nat.eqb_neq in Hne. by rewrite Hne.
Qed.

(** A range that has passed validation without a mismatch names lines of
    the file, the start not after the end, and spans as many lines as it
    was submitted with. *)
Lemma validateEdit_range_inv lines rs re dst p' :
  validateEdit lines (uniqueLineByHash lines) (mkParsed (Range rs re) dst) []
  = inr (p', []) →
  ∃ rs' re', p' = mkParsed (Range rs' re') dst
    ∧ 1 ≤ line rs' ∧ line rs' ≤ line re' ∧ line re' ≤ length lines
    ∧ line re' - line rs' = line re - line rs.
Proof.
  unfold validateEdit. simpl.
  destruct (line re <? line rs) eqn:Elt; [done|]. apply Nat.ltb_ge in Elt.
  destruct (validateOrRelocateRef _ _ rs []) as [e|[[st1 s1] ms1]] eqn:Ev1; [done|].
  simpl.
  destruct (validateOrRelocateRef _ _ re ms1) as [e|[[st2 e1] ms2]] eqn:Ev2; [done|].
  simpl.
  pose proof (validateOrRelocateRef_cases _ _ _ _ _ _ _ Ev1) as Hc1.
  pose proof (validateOrRelocateRef_cases _ _ _ _ _ _ _ Ev2) as Hc2.
  pose proof (validateOrRelocateRef_inv _ _ _ _ _ _ Ev1) as (_ & _ & Hok1).
  pose proof (validateOrRelocateRef_inv _ _ _ _ _ _ Ev2) as (_ & _ & Hok2).
  destruct Hc1 as [(-> & -> & ->)|[(-> & ->)|(-> & m1 & ->)]].
  - destruct (Hok1 false eq_refl) as (_ & Hr1 & _).
    destruct Hc2 as [(-> & -> & ->)|[(-> & ->)|(-> & m2 & ->)]].
    + destruct (Hok2 false eq_refl) as (_ & Hr2 & _).
      simpl. intros [= <-]. exists rs, re. repeat split; try lia.
    + destruct (Hok2 true eq_refl) as (_ & Hr2 & _). simpl.
      destruct (_ || _) eqn:Ec; [done|]. intros [= <-].
      apply orb_false_elim in Ec as [Ec1 Ec2].
      apply Nat.ltb_ge in Ec1. apply negb_false_iff, Z.eqb_eq in Ec2.
      exists rs, e1. repeat split; try lia.
    + intros [= _ H].
  - destruct (Hok1 true eq_refl) as (_ & Hr1 & _).
    destruct Hc2 as [(-> & -> & ->)|[(-> & ->)|(-> & m2 & ->)]].
    + destruct (Hok2 false eq_refl) as (_ & Hr2 & _). simpl.
      destruct (_ || _) eqn:Ec; [done|]. intros [= <-].
      apply orb_false_elim in Ec as [Ec1 Ec2].
      apply Nat.ltb_ge in Ec1. apply negb_false_iff, Z.eqb_eq in Ec2.
      exists s1, re. repeat split; try lia.
    + destruct (Hok2 true eq_refl) as (_ & Hr2 & _). simpl.
      destruct (_ || _) eqn:Ec; [done|]. intros [= <-].
      apply orb_false_elim in Ec as [Ec1 Ec2].
      apply Nat.ltb_ge in Ec1. apply negb_false_iff, Z.eqb_eq in Ec2.
      exists s1, e1. repeat split; try lia.
    + intros [= _ H].
  - intros H.
    assert (∃ x y, ms2 = x :: y) as (x & y & ->).
    { destruct Hc2 as [(_ & _ & ->)|[(_ & ->)|(_ & m2 & ->)]]; by eexists _, _. }
    destruct st2; injection H as _ H; done.
Qed.

(** What a batch of one replace_lines over two or more lines does once the
    range has validated. *)
Lemma replace_lines_apply content a b new_text rs re rs' re' :
  let lines := splitLines content in
  let dst := stripNewLinePrefixes (splitDstLines new_text) in
  let s := line rs' in
  let e := line re' in
  let current := slice (s - 1) e lines in
  parseLineRef a = inr rs → parseLineRef b = inr re → line rs ≠ line re →
  validateEdit lines (uniqueLineByHash lines) (mkParsed (Range rs re) dst) []
  = inr (mkParsed (Range rs' re') dst, []) →
  1 ≤ s ∧ s < e ∧ e ≤ length lines
  ∧ applyHashlineEdits content [ReplaceLines a b new_text]
    = inr (let st := replaceOrNoop (mkState lines None []) 0 rs' current
                       (resolveReplacement lines current s e dst) s (e - s + 1) in
           mkResult (joinLines (fileLines st)) (firstChangedLine st)
                    (reformatWarnings lines (fileLines st) 1) (noopEdits st)).
Proof.
  intros lines dst s e current Ha Hb Hne Hval.
  pose proof Hval as Hinv. apply validateEdit_range_inv in Hinv
    as (rs2 & re2 & [= <- <-] & H1 & H2 & H3 & H4).
  assert (Hlt : s < e).
  { unfold s, e. unfold validateEdit in Hval. simpl in Hval.
    destruct (line re <? line rs) eqn:Elt; [done|]. apply Nat.ltb_ge in Elt. lia. }
  repeat split; try done.
  rewrite (applyHashlineEdits_validated content _ [mkParsed (Range rs re) dst]
             [mkParsed (Range rs' re') dst]); [|done| |].
  - rewrite applyValidated_single. unfold applyEdit. simpl.
    fold lines s e.
    replace (s - 1 + (e - s + 1)) with e by lia. done.
  - simpl. rewrite (parseEdit_ReplaceLines _ _ _ _ _ Ha Hb Hne). done.
  - simpl. fold lines dst. rewrite Hval. done.
Qed.

Lemma slice_length_range {A} (l : list A) s e :
  1 ≤ s → s ≤ e → e ≤ length l → length (slice (s - 1) e l) = e - s + 1.
Proof. intros. unfold slice. rewrite length_take, length_drop. lia. Qed.

Lemma lookup_range_after {A} (l mid : list A) s e i x :
  1 ≤ s → s ≤ e → e ≤ i → l !! i = Some x →
  (take (s - 1) l ++ mid ++ drop e l) !! (i + s + length mid - e - 1) = Some x.
Proof.
  intros Hs Hse Hi Hl. pose proof (lookup_lt_Some _ _ _ Hl).
  rewrite lookup_app_r by (rewrite length_take; lia).
  rewrite length_take. rewrite lookup_app_r by lia.
  rewrite lookup_drop. rewrite <- Hl. f_equal. lia.
Qed.

(** X6.  Take a batch of one replace_lines whose anchors parse to two
    different lines and validate (as they stand or relocated) to the lines
    [s..e].  Then [s < e], both lines of the file.  If the resolved
    replacement differs from the current text of the lines [s..e], the
    resulting file is the original one with the resolved replacement in the
    place of these lines, the lines before at their position and the lines
    after moved by the change of length; if it is the same text, nothing
    changes and the operation is recorded as a no-op. *)
Theorem replace_lines_frame
    (content a b new_text : jsstring) (rs re rs' re' : LineRef) :
  let lines := splitLines content in
  let dst := stripNewLinePrefixes (splitDstLines new_text) in
  let s := line rs' in
  let e := line re' in
  let current := slice (s - 1) e lines in
  let resolved := resolveReplacement lines current s e dst in
  let result := take (s - 1) lines ++ resolved ++ drop e lines in
  parseLineRef a = inr rs → parseLineRef b = inr re → line rs ≠ line re →
  validateEdit lines (uniqueLineByHash lines) (mkParsed (Range rs re) dst) []
  = inr (mkParsed (Range rs' re') dst, []) →
  1 ≤ s ∧ s < e ∧ e ≤ length lines
  ∧ (joinLines resolved ≠ joinLines current →
     ∃ res,
       applyHashlineEdits content [ReplaceLines a b new_text] = inr res
       ∧ Engine.content res = joinLines result
       ∧ resFirstChangedLine res = Some s
       ∧ resNoopEdits res = []
       ∧ (∀ i l, i < s - 1 → lines !! i = Some l → result !! i = Some l)
       ∧ (∀ i l, e ≤ i → lines !! i = Some l →
                 result !! (i + s + length resolved - e - 1) = Some l))
  ∧ (joinLines resolved = joinLines current →
     applyHashlineEdits content [ReplaceLines a b new_text]
     = inr (mkResult content None []
                     [mkNoop 0 (formatRef s (hash rs')) (joinLines current)])).
Proof.
  intros lines dst s e current resolved result Ha Hb Hne Hval.
  destruct (replace_lines_apply content a b new_text rs re rs' re' Ha Hb Hne Hval)
    as (H1 & H2 & H3 & Happly).
  fold lines dst s e current resolved in Happly, H1, H2, H3.
  repeat split; try done.
  - intros Hdiff. unfold replaceOrNoop, streq in Happly.
    rewrite bool_decide_eq_false_2 in Happly by congruence.
    eexists. split; [exact Happly|]. simpl. unfold splice.
    replace (s - 1 + (e - s + 1)) with e by lia. fold result.
    repeat split; try done.
    + intros i l Hi Hl. pose proof (lookup_lt_Some _ _ _ Hl).
      unfold result. rewrite lookup_app_l by (rewrite length_take; lia).
      by rewrite lookup_take_lt.
    + intros i l Hi Hl. unfold result. apply lookup_range_after; [lia|lia|done|done].
  - intros Hsame. unfold replaceOrNoop, streq in Happly.
    rewrite bool_decide_eq_true_2 in Happly by congruence.
    rewrite Happly. simpl. unfold lines.
    by rewrite joinLines_splitLines, reformatWarnings_same.
Qed.

Lemma replace_lines_frame_witness :
  ∃ res,
    applyHashlineEdits (lit "aaa" ++ [LF] ++ lit "bbb" ++ [LF] ++ lit "ccc")
      [ReplaceLines (lit "1:5f") (lit "2:67") (lit "X")] = inr res
    ∧ Engine.content res = lit "X" ++ [LF] ++ lit "ccc".
Proof.
  destruct (replace_lines_frame (lit "aaa" ++ [LF] ++ lit "bbb" ++ [LF] ++ lit "ccc")
              (lit "1:5f") (lit "2:67") (lit "X")
              (mkRef 1 (lit "5f")) (mkRef 2 (lit "67"))
              (mkRef 1 (lit "5f")) (mkRef 2 (lit "67"))
              ltac:(vm_compute; reflexivity) ltac:(vm_compute; reflexivity)
              ltac:(vm_compute; congruence) ltac:(vm_compute; reflexivity))
    as (_ & _ & _ & Hchange & _).
  destruct (Hchange ltac:(vm_compute; congruence)) as (res & Hres & Hcontent & _).
  exists res. split; [exact Hres|]. rewrite Hcontent. vm_compute. reflexivity.
Defined.

(** X7.  A replace_lines with empty text over the validated lines
    [s..e], [s < e], alone in its batch, always deletes these lines: the
    result is the file without them, and the first changed line is [s]. *)
Theorem replace_lines_empty_text
    (content a b : jsstring) (rs re rs' re' : LineRef) :
  let lines := splitLines content in
  let s := line rs' in
  let e := line re' in
  parseLineRef a = inr rs → parseLineRef b = inr re → line rs ≠ line re →
  validateEdit lines (uniqueLineByHash lines) (mkParsed (Range rs re) []) []
  = inr (mkParsed (Range rs' re') [], []) →
  ∃ res,
    applyHashlineEdits content [ReplaceLines a b []] = inr res
    ∧ Engine.content res = joinLines (take (s - 1) lines ++ drop e lines)
    ∧ resFirstChangedLine res = Some s
    ∧ resNoopEdits res = [].
Proof.
  intros lines s e Ha Hb Hne Hval.
  destruct (replace_lines_apply content a b [] rs re rs' re' Ha Hb Hne Hval)
    as (H1 & H2 & H3 & Happly).
  rewrite stripNewLinePrefixes_nil, resolveReplacement_nil in Happly.
  fold lines s e in Happly, H1, H2, H3.
  assert (Hcur : joinLines (slice (s - 1) e lines) ≠ []).
  { pose proof (slice_length_range lines s e ltac:(lia) ltac:(lia) H3) as Hlen.
    destruct (slice (s - 1) e lines) as [|x [|y r]]; simpl in Hlen; try lia.
    unfold joinLines. rewrite join_cons2. intros H.
    apply app_eq_nil in H as [_ H]. done. }
  unfold replaceOrNoop, streq in Happly.
  rewrite bool_decide_eq_false_2 in Happly by done.
  eexists. split; [exact Happly|]. simpl. unfold splice. simpl.
  replace (s - 1 + (e - s + 1)) with e by lia. done.
Qed.

Lemma replace_lines_empty_text_witness :
  ∃ res,
    applyHashlineEdits (lit "aaa" ++ [LF] ++ lit "bbb" ++ [LF] ++ lit "ccc")
      [ReplaceLines (lit "1:5f") (lit "2:67") []] = inr res
    ∧ Engine.content res = lit "ccc".
Proof.
  destruct (replace_lines_empty_text (lit "aaa" ++ [LF] ++ lit "bbb" ++ [LF] ++ lit "ccc")
              (lit "1:5f") (lit "2:67")
              (mkRef 1 (lit "5f")) (mkRef 2 (lit "67"))
              (mkRef 1 (lit "5f")) (mkRef 2 (lit "67"))
              ltac:(vm_compute; reflexivity) ltac:(vm_compute; reflexivity)
              ltac:(vm_compute; congruence) ltac:(vm_compute; reflexivity))
    as (res & Hres & Hcontent & _).
  exists res. split; [exact Hres|]. rewrite Hcontent. vm_compute. reflexivity.
Defined.

(** ** An operation submitted twice *)

Lemma mapE_Forall2 {A B} (f : A → Error + B) l l' :
  mapE f l = inr l' ↔ Forall2 (λ x y, f x = inr y) l l'.
Proof.
  revert l'. induction l as [|x r IH]; intros l'; simpl.
  - split.
    + intros [= <-]. constructor.
    + intros H. by apply Forall2_nil_inv_l in H as ->.
  - split.
    + destruct (f x) as [e|y] eqn:Ex; [done|]. simpl.
      destruct (mapE f r) as [e|ys] eqn:Er; [done|]. simpl.
      intros [= <-]. constructor; [done|]. by apply IH.
    + intros H. apply Forall2_cons_inv_l in H as (y & ys & Hy & Hys & ->).
      rewrite Hy. simpl. apply IH in Hys. rewrite Hys. done.
Qed.

Lemma validateAll_Forall2 lines parsed parsed' :
  validateAll lines (uniqueLineByHash lines) parsed [] = inr (parsed', [])
  ↔ Forall2 (λ p p', validateEdit lines (uniqueLineByHash lines) p [] = inr (p', []))
            parsed parsed'.
Proof.
  revert parsed'. induction parsed as [|p r IH]; intros parsed'; simpl.
  - split.
    + intros [= <-]. constructor.
    + intros H. by apply Forall2_nil_inv_l in H as ->.
  - split.
    + destruct (validateEdit _ _ p []) as [e|[p1 ms1]] eqn:Ep; [done|]. simpl.
      destruct (validateAll _ _ r ms1) as [e|[r1 ms2]] eqn:Er; [done|]. simpl.
      intros [= <- ->].
      apply validateAll_records in Er as Hrec. destruct Hrec as [[x Hx] _].
      symmetry in Hx. apply app_eq_nil in Hx as [-> ->].
      constructor; [done|]. by apply IH.
    + intros H. apply Forall2_cons_inv_l in H as (y & ys & Hy & Hys & ->).
      rewrite Hy. simpl. apply IH in Hys. rewrite Hys. done.
Qed.

Lemma applyHashlineEdits_inr content edits res :
  edits ≠ [] →
  applyHashlineEdits content edits = inr res ↔
  ∃ parsed parsed',
    Forall2 (λ x y, parseEdit x = inr y) edits parsed
    ∧ Forall2 (λ p p', validateEdit (splitLines content)
                         (uniqueLineByHash (splitLines content)) p [] = inr (p', []))
              parsed parsed'
    ∧ res = applyValidated (splitLines content) (length edits) parsed'.
Proof.
  intros Hne. split.
  - unfold applyHashlineEdits.
    destruct (length edits =? 0) eqn:El.
    { apply Nat.eqb_eq in El. by destruct edits. }
    destruct (mapE parseEdit edits) as [e|parsed] eqn:Ep; [done|]. simpl.
    destruct (validateAll _ _ parsed []) as [e|[parsed' ms]] eqn:Ev; [done|]. simpl.
    destruct ms as [|m ms]; [|done]. simpl. intros [= <-].
    exists parsed, parsed'. split; [by apply mapE_Forall2|].
    split; [by apply validateAll_Forall2|done].
  - intros (parsed & parsed' & Hp & Hv & ->).
    apply applyHashlineEdits_validated with (parsed := parsed); [done| |].
    + by apply mapE_Forall2.
    + by apply validateAll_Forall2.
Qed.

Lemma collect_touched_fold parsed acc :
  fold_left (λ touched p, touched ∪ touchedBy (spec p)) parsed acc
  = acc ∪ collectExplicitlyTouchedLines parsed.
Proof.
  unfold collectExplicitlyTouchedLines.
  revert acc. induction parsed as [|p r IH]; intros acc; simpl.
  - set_solver.
  - rewrite IH, (IH (∅ ∪ _)). set_solver.
Qed.

Lemma collect_touched_app a b :
  collectExplicitlyTouchedLines (a ++ b)
  = collectExplicitlyTouchedLines a ∪ collectExplicitlyTouchedLines b.
Proof.
  unfold collectExplicitlyTouchedLines at 1. rewrite fold_left_app.
  by rewrite collect_touched_fold.
Qed.

Lemma collect_touched_cons p r :
  collectExplicitlyTouchedLines (p :: r)
  = touchedBy (spec p) ∪ collectExplicitlyTouchedLines r.
Proof.
  unfold collectExplicitlyTouchedLines at 1. simpl.
  rewrite collect_touched_fold. set_solver.
Qed.

Lemma dedup_app seen a b :
  dedup seen (a ++ b)
  = dedup seen a ++ dedup (list_to_set (map editKey a) ∪ seen) b.
Proof.
  revert seen. induction a as [|p a IH]; intros seen; simpl.
  - by rewrite (left_id_L ∅ (∪)).
  - destruct (bool_decide (editKey p ∈ seen)) eqn:E.
    + rewrite IH. f_equal. f_equal.
      apply bool_decide_eq_true in E. set_solver.
    + rewrite <- app_comm_cons. f_equal. rewrite IH. f_equal. f_equal. set_solver.
Qed.

Lemma dedup_repeated seen a p b c :
  dedup seen (a ++ p :: b ++ p :: c) = dedup seen (a ++ p :: b ++ c).
Proof.
  rewrite !(dedup_app seen a). f_equal.
  rewrite !(app_comm_cons b), !dedup_app. f_equal.
  simpl. rewrite bool_decide_eq_true_2; [done|]. set_solver.
Qed.

Lemma applyValidated_repeated lines n n' a p b c :
  let r := applyValidated lines n (a ++ p :: b ++ p :: c) in
  let r' := applyValidated lines n' (a ++ p :: b ++ c) in
  Engine.content r = Engine.content r'
  ∧ resFirstChangedLine r = resFirstChangedLine r'
  ∧ resNoopEdits r = resNoopEdits r'.
Proof.
  unfold applyValidated. simpl.
  rewrite dedup_repeated.
  assert (collectExplicitlyTouchedLines (a ++ p :: b ++ p :: c)
          = collectExplicitlyTouchedLines (a ++ p :: b ++ c)) as ->; [|done].
  rewrite !collect_touched_app, !collect_touched_cons, !collect_touched_app,
    collect_touched_cons.
  set_solver.
Qed.

Lemma Forall2_repeated {A B} (R : A → B → Prop) a x b c l' :
  (∀ y y', R x y → R x y' → y = y') →
  Forall2 R (a ++ x :: b ++ x :: c) l' →
  ∃ a' y b' c', l' = a' ++ y :: b' ++ y :: c'
    ∧ Forall2 R (a ++ x :: b ++ c) (a' ++ y :: b' ++ c').
Proof.
  intros Hfun H.
  apply Forall2_app_inv_l in H as (a' & r1 & Ha & H & ->).
  apply Forall2_cons_inv_l in H as (y & r2 & Hy & H & ->).
  apply Forall2_app_inv_l in H as (b' & r3 & Hb & H & ->).
  apply Forall2_cons_inv_l in H as (y' & c' & Hy' & Hc & ->).
  assert (y' = y) as -> by eauto.
  exists a', y, b', c'. split; [done|].
  apply Forall2_app; [done|]. constructor; [done|]. by apply Forall2_app.
Qed.

Lemma Forall2_repeat {A B} (R : A → B → Prop) a x b c l' :
  Forall2 R (a ++ x :: b ++ c) l' →
  ∃ a' y b' c', l' = a' ++ y :: b' ++ c'
    ∧ Forall2 R (a ++ x :: b ++ x :: c) (a' ++ y :: b' ++ y :: c').
Proof.
  intros H.
  apply Forall2_app_inv_l in H as (a' & r1 & Ha & H & ->).
  apply Forall2_cons_inv_l in H as (y & r2 & Hy & H & ->).
  apply Forall2_app_inv_l in H as (b' & c' & Hb & Hc & ->).
  exists a', y, b', c'. split; [done|].
  apply Forall2_app; [done|]. constructor; [done|]. apply Forall2_app; [done|].
  by constructor.
Qed.

(** X8.  An operation that is in a batch twice is applied once.  The
    batch with the second copy and the batch without it end the same way:
    both with an error, or both with the same text, the same first changed
    line and the same no-op records. *)
Theorem repeated_operation_applied_once
    (content : jsstring) (l1 l2 l3 : list HashlineEdit) (e : HashlineEdit) :
  sameOutcome (applyHashlineEdits content (l1 ++ e :: l2 ++ e :: l3))
              (applyHashlineEdits content (l1 ++ e :: l2 ++ l3)).
Proof.
  assert (Hne1 : l1 ++ e :: l2 ++ e :: l3 ≠ []) by (by destruct l1).
  assert (Hne2 : l1 ++ e :: l2 ++ l3 ≠ []) by (by destruct l1).
  assert (Hfun1 : ∀ x y y' : Parsed, parseEdit e = inr y → parseEdit e = inr y' → y = y').
  { intros _ y y' H1 H2. congruence. }
  assert (Hfun2 : ∀ p y y',
            validateEdit (splitLines content) (uniqueLineByHash (splitLines content)) p []
            = inr (y, []) →
            validateEdit (splitLines content) (uniqueLineByHash (splitLines content)) p []
            = inr (y', []) → y = y').
  { intros p y y' H1 H2. congruence. }
  destruct (applyHashlineEdits content (l1 ++ e :: l2 ++ e :: l3)) as [err|res] eqn:E1;
    destruct (applyHashlineEdits content (l1 ++ e :: l2 ++ l3)) as [err'|res'] eqn:E2;
    simpl; try done.
  - apply applyHashlineEdits_inr in E2 as (P & P' & Hp & Hv & ->); [|done].
    apply Forall2_repeat in Hp as (a & y & b & c & -> & Hp).
    apply Forall2_repeat in Hv as (a' & y' & b' & c' & -> & Hv).
    assert (applyHashlineEdits content (l1 ++ e :: l2 ++ e :: l3)
            = inr (applyValidated (splitLines content)
                     (length (l1 ++ e :: l2 ++ e :: l3)) (a' ++ y' :: b' ++ y' :: c'))) as H.
    { apply applyHashlineEdits_inr; [done|]. eauto. }
    congruence.
  - apply applyHashlineEdits_inr in E1 as (P & P' & Hp & Hv & ->); [|done].
    apply Forall2_repeated in Hp as (a & y & b & c & -> & Hp); [|eauto].
    apply Forall2_repeated in Hv as (a' & y' & b' & c' & -> & Hv); [|eauto].
    assert (applyHashlineEdits content (l1 ++ e :: l2 ++ l3)
            = inr (applyValidated (splitLines content)
                     (length (l1 ++ e :: l2 ++ l3)) (a' ++ y' :: b' ++ c'))) as H.
    { apply applyHashlineEdits_inr; [done|]. eauto. }
    congruence.
  - apply applyHashlineEdits_inr in E1 as (P & P' & Hp & Hv & ->); [|done].
    apply Forall2_repeated in Hp as (a & y & b & c & -> & Hp); [|eauto].
    apply Forall2_repeated in Hv as (a' & y' & b' & c' & -> & Hv); [|eauto].
    assert (applyHashlineEdits content (l1 ++ e :: l2 ++ l3)
            = inr (applyValidated (splitLines content)
                     (length (l1 ++ e :: l2 ++ l3)) (a' ++ y' :: b' ++ c'))) as H.
    { apply applyHashlineEdits_inr; [done|]. eauto. }
    rewrite E2 in H. injection H as ->.
    apply applyValidated_repeated.
Qed.

(** ** The order of anchored and substring operations *)

Lemma filter_filter_same {A} (f : A → bool) l :
  List.filter f (List.filter f l) = List.filter f l.
Proof.
  induction l as [|x r IH]; [done|]. simpl.
  destruct (f x) eqn:E; [|done]. simpl. by rewrite E, IH.
Qed.

Lemma filter_filter_neg {A} (f : A → bool) l :
  List.filter f (List.filter (λ x, negb (f x)) l) = []
  ∧ List.filter (λ x, negb (f x)) (List.filter f l) = [].
Proof.
  induction l as [|x r [IH1 IH2]]; [done|]. simpl.
  destruct (f x) eqn:E; simpl; rewrite E; simpl; done.
Qed.


(** ** Line endings written and read back *)

Lemma restore_CRLF_cons c t :
  restoreLineEndings (c :: t) CRLF
  = (if (c =? LF)%N then [CR; LF] else [c]) ++ restoreLineEndings t CRLF.
Proof. done. Qed.

Lemma restore_CRLF_spec t :
  hasNoCR t = true →
  normalizeToLF (restoreLineEndings t CRLF) = t
  ∧ allCRLF (restoreLineEndings t CRLF) = true.
Proof.
  unfold normalizeToLF, hasNoCR.
  induction t as [|c t IH]; [done|]. intros H. simpl in H.
  apply andb_prop in H as [Hc Ht]. apply negb_true_iff in Hc.
  destruct (IH Ht) as [IH1 IH2]. rewrite restore_CRLF_cons.
  set (R := restoreLineEndings t CRLF) in *. clearbody R.
  destruct (c =? LF)%N eqn:El.
  - apply N.eqb_eq in El as ->. simpl. rewrite IH2. split; [|done].
    f_equal. exact IH1.
  - cbn [app].
    assert (replaceCRLF (c :: R) = c :: replaceCRLF R) as ->.
    { simpl. destruct R; [done|]. by rewrite Hc. }
    split.
    + simpl. rewrite Hc. f_equal. exact IH1.
    + simpl. rewrite Hc, El. exact IH2.
Qed.

Lemma restore_CRLF_has_LF t :
  LF ∈ t → indexOf [LF] (restoreLineEndings t CRLF) ≠ None.
Proof.
  intros Hin Hnone.
  assert (LF ∈ restoreLineEndings t CRLF) as Hin'.
  { simpl. apply list_elem_of_In, in_flat_map. exists LF.
    split; [by apply list_elem_of_In|]. simpl. tauto. }
  apply list_elem_of_lookup in Hin' as [j Hj].
  pose proof (indexOfAt_None _ _ _ Hnone j) as Hs.
  rewrite (drop_S _ _ _ Hj) in Hs. done.
Qed.

(** X10.  Text without carriage returns that is written with a
    line-ending style is read back as the same text: collapsing the line
    endings undoes the restoring.  When the text has a line break, the style
    detected in what was written is the style it was written with. *)
Theorem written_text_reads_back (t : jsstring) (ending : LineEnding) :
  hasNoCR t = true →
  normalizeToLF (restoreLineEndings t ending) = t
  ∧ (LF ∈ t → detectLineEnding (restoreLineEndings t ending) = ending).
Proof.
  intros H. destruct ending.
  - destruct (restore_CRLF_spec t H) as [H1 H2]. split; [done|].
    intros Hin. pose proof (restore_CRLF_has_LF t Hin) as Hlf.
    unfold detectLineEnding.
    destruct (indexOf_allCRLF _ H2) as [[Hn _]|(i & Hi & Hj)]; [done|].
    rewrite Hi, Hj. assert ((i <? S i) = true) as -> by (apply Nat.ltb_lt; lia). done.
  - simpl. split; [by apply normalizeToLF_noCR|]. intros _.
    by apply detectLineEnding_noCR.
Qed.

Lemma written_text_reads_back_witness :
  normalizeToLF (restoreLineEndings (lit "a" ++ [LF] ++ lit "b") CRLF)
  = lit "a" ++ [LF] ++ lit "b"
  ∧ detectLineEnding (restoreLineEndings (lit "a" ++ [LF] ++ lit "b") CRLF) = CRLF.
Proof.
  destruct (written_text_reads_back (lit "a" ++ [LF] ++ lit "b") CRLF
              ltac:(vm_compute; reflexivity)) as [H1 H2].
  split; [exact H1|]. apply H2. vm_compute. apply elem_of_cons. right.
  apply elem_of_cons. by left.
Defined.

(** X11.  [normalizeToLF] gives a text without carriage returns, leaves
    such a text as it is, so that applying it twice is applying it once,
    and never makes a text longer. *)
Theorem normalizeToLF_normal_form (s : jsstring) :
  hasNoCR (normalizeToLF s) = true
  ∧ normalizeToLF (normalizeToLF s) = normalizeToLF s
  ∧ (hasNoCR s = true → normalizeToLF s = s)
  ∧ length (normalizeToLF s) ≤ length s.
Proof.
  split; [apply normalizeToLF_hasNoCR|].
  split; [apply normalizeToLF_idem|].
  split; [apply normalizeToLF_noCR|].
  unfold normalizeToLF, replaceCR. rewrite length_map.
  remember (length s) as n eqn:Hn. revert s Hn.
  induction (lt_wf n) as [n _ IH]. intros s ->.
  destruct s as [|c [|d r]]; [done|done|].
  simpl replaceCRLF. destruct ((c =? CR)%N && (d =? LF)%N).
  - simpl. specialize (IH (length r) ltac:(simpl; lia) r eq_refl). lia.
  - change (length (c :: replaceCRLF (d :: r))) with (S (length (replaceCRLF (d :: r)))).
    specialize (IH (length (d :: r)) ltac:(simpl; lia) (d :: r) eq_refl). simpl in *. lia.
Qed.

(** ** Substring replace: one exact occurrence *)

(** X12.  Without "replace all", a target that occurs exactly once in the
    text (line endings collapsed on both) is replaced there by the new text
    with its line endings collapsed, which is the new text as given when it
    has no carriage return; the indentation of the new text is not
    adjusted, whatever the fuzzy settings are.  The text before and after
    the occurrence stays, and the count is 1. *)
Theorem replaceText_unique_exact
    (rounds : nat) (content oldText newText : jsstring) (useFuzzy : bool)
    (thr : option float) :
  let c := normalizeToLF content in
  let o := normalizeToLF oldText in
  let n := normalizeToLF newText in
  oldText ≠ [] →
  countOccurrences o c = 1 →
  ∃ i,
    indexOf o c = Some i
    ∧ c = take i c ++ o ++ drop (i + length o) c
    ∧ replaceText rounds content oldText newText (mkOptions useFuzzy false thr)
      = Some (inr (mkReplaced (take i c ++ n ++ drop (i + length o) c) 1))
    ∧ (hasNoCR newText = true → n = newText).
Proof.
  intros c o n Hold Hk.
  assert (Hlen : (length oldText =? 0) = false).
  { apply Nat.eqb_neq. by destruct oldText. }
  assert (Ho : o ≠ []).
  { unfold o. by rewrite normalizeToLF_nil_iff. }
  assert (Holen : (length o =? 0) = false).
  { apply Nat.eqb_neq. by destruct o. }
  destruct (countOccurrences_indexOf o c Ho ltac:(lia)) as [i Hi].
  exists i. split; [done|]. split; [by apply indexOf_Some in Hi as [Hi _]|].
  split; [|intros H; by apply normalizeToLF_noCR].
  unfold replaceText. rewrite Hlen. simpl all. cbv iota. cbv zeta.
  fold c o n. unfold findMatch. rewrite Holen, Hi, Hk. simpl.
  unfold adjustIndentation, streq. rewrite bool_decide_eq_true_2 by done.
  done.
Qed.

Lemma replaceText_unique_exact_witness :
  ∃ i,
    indexOf (lit "dog") (lit "cat dog") = Some i
    ∧ replaceText 1 (lit "cat dog") (lit "dog") (lit "cow") (mkOptions true false None)
      = Some (inr (mkReplaced (take i (lit "cat dog") ++ lit "cow"
                               ++ drop (i + 3) (lit "cat dog")) 1)).
Proof.
  destruct (replaceText_unique_exact 1 (lit "cat dog") (lit "dog") (lit "cow") true None
              ltac:(vm_compute; congruence) ltac:(vm_compute; reflexivity))
    as (i & Hi & _ & Hr & _).
  exists i. split; [exact Hi|exact Hr].
Defined.

(** ** What read_file shows and what edit_file checks *)

Lemma replaceCRLF_cons_other c r :
  (c =? CR)%N = false → replaceCRLF (c :: r) = c :: replaceCRLF r.
Proof. intros H. simpl. destruct r; [done|]. by rewrite H. Qed.

Lemma replaceCRLF_noCR_app p x :
  hasNoCR p = true → replaceCRLF (p ++ x) = p ++ replaceCRLF x.
Proof.
  unfold hasNoCR. induction p as [|c p IH]; [done|]. intros H. simpl in H.
  apply andb_prop in H as [Hc Hp]. apply negb_true_iff in Hc.
  rewrite <- app_comm_cons, replaceCRLF_cons_other by done. by rewrite IH.
Qed.

Lemma replaceCRLF_noCR p : hasNoCR p = true → replaceCRLF p = p.
Proof.
  intros H. rewrite <- (app_nil_r p) at 1. rewrite replaceCRLF_noCR_app by done.
  by rewrite app_nil_r.
Qed.

Lemma stripTrailingCR_noCR l : hasNoCR l = true → stripTrailingCR l = l.
Proof.
  intros H. unfold stripTrailingCR. destruct (endsWith [CR] l) eqn:E; [|done].
  apply endsWith_spec in E as [r ->]. unfold hasNoCR in H.
  rewrite forallb_app in H. apply andb_prop in H as [_ H]. done.
Qed.

Lemma stripTrailingCR_snoc l : stripTrailingCR (l ++ [CR]) = l.
Proof.
  unfold stripTrailingCR.
  assert (endsWith [CR] (l ++ [CR]) = true) as ->.
  { apply endsWith_spec. eauto. }
  rewrite length_app. simpl. replace (length l + 1 - 1) with (length l) by lia.
  apply take_app_length.
Qed.

(** A line before a line feed, in a text where every carriage return is
    followed by a line feed: the line has no carriage return but possibly
    its last character. *)
Lemma everyCRbeforeLF_line l J :
  LF ∉ l →
  everyCRbeforeLF (l ++ LF :: J) = true →
  (hasNoCR l = true ∨ ∃ l', l = l' ++ [CR] ∧ hasNoCR l' = true)
  ∧ everyCRbeforeLF J = true.
Proof.
  induction l as [|c l IH]; intros Hlf H.
  - simpl in H. split; [by left|]. done.
  - rewrite <- app_comm_cons in H. simpl in H. apply andb_prop in H as [Hc H].
    assert (LF ∉ l) as Hl' by (intros ?; apply Hlf; apply elem_of_cons; by right).
    destruct (IH Hl' H) as [Hl HJ]. split; [|done].
    destruct (c =? CR)%N eqn:Ec.
    + apply N.eqb_eq in Ec as ->.
      destruct l as [|d l'].
      * right. exists []. split; reflexivity.
      * simpl in Hc. apply N.eqb_eq in Hc as ->.
        exfalso. apply Hl'. apply elem_of_cons. by left.
    + destruct Hl as [Hl|(l2 & -> & Hl2)].
      * left. unfold hasNoCR in *. simpl. by rewrite Ec, Hl.
      * right. exists (c :: l2). split; [done|]. unfold hasNoCR in *. simpl.
        by rewrite Ec, Hl2.
Qed.

Lemma everyCRbeforeLF_last l :
  LF ∉ l → everyCRbeforeLF l = true → hasNoCR l = true.
Proof.
  unfold hasNoCR. induction l as [|c l IH]; [done|]. intros Hlf H.
  simpl in H. apply andb_prop in H as [Hc H].
  assert (LF ∉ l) as Hl by (intros ?; apply Hlf; apply elem_of_cons; by right).
  simpl. rewrite (IH Hl H), andb_true_r.
  destruct (c =? CR)%N eqn:Ec; [|done].
  destruct l as [|d l']; [done|]. apply N.eqb_eq in Hc as ->.
  exfalso. apply Hl. apply elem_of_cons. by left.
Qed.

Lemma replaceCRLF_joinLines ls :
  Forall (λ l, LF ∉ l) ls → everyCRbeforeLF (joinLines ls) = true →
  replaceCRLF (joinLines ls) = joinLines (map stripTrailingCR ls)
  ∧ hasNoCR (joinLines (map stripTrailingCR ls)) = true.
Proof.
  unfold joinLines, NL.
  induction ls as [|l rest IH]; intros Hall H; [done|].
  apply Forall_cons in Hall as [Hl Hrest].
  destruct rest as [|q rest].
  - simpl in *. pose proof (everyCRbeforeLF_last l Hl H) as Hn.
    rewrite stripTrailingCR_noCR, replaceCRLF_noCR by done. done.
  - rewrite join_cons2 in H. cbn [map]. rewrite join_cons2.
    set (J := join [LF] (q :: rest)) in *.
    change (map stripTrailingCR (q :: rest)) with (map stripTrailingCR (q :: rest)) in *.
    set (J' := join [LF] (stripTrailingCR q :: map stripTrailingCR rest)) in *.
    cbn [app] in *.
    destruct (everyCRbeforeLF_line l J Hl H) as [Hline HJ].
    destruct (IH Hrest HJ) as [IH1 IH2]. fold J' in IH1, IH2.
    assert (Hno : ∀ p, hasNoCR p = true → hasNoCR (p ++ LF :: J') = true).
    { intros p Hp. unfold hasNoCR in *. rewrite forallb_app, Hp. simpl. exact IH2. }
    destruct Hline as [Hn|(l' & -> & Hn)].
    + rewrite stripTrailingCR_noCR by done.
      rewrite replaceCRLF_noCR_app by done.
      rewrite (replaceCRLF_cons_other LF) by done. rewrite IH1. split; [done|by apply Hno].
    + rewrite stripTrailingCR_snoc. rewrite <- app_assoc. cbn [app].
      rewrite replaceCRLF_noCR_app by done.
      assert (replaceCRLF (CR :: LF :: J) = LF :: replaceCRLF J) as -> by done.
      rewrite IH1. split; [done|by apply Hno].
Qed.

Lemma stripTrailingCR_no_LF l : LF ∉ l → LF ∉ stripTrailingCR l.
Proof.
  intros H. unfold stripTrailingCR. destruct (endsWith [CR] l); [|done].
  intros Hin. apply H. apply elem_of_take in Hin as (i & Hi & _).
  by apply list_elem_of_lookup_2 in Hi.
Qed.

Lemma splitLines_replaceCRLF s :
  everyCRbeforeLF s = true →
  normalizeToLF s = replaceCRLF s
  ∧ splitLines (replaceCRLF s) = map stripTrailingCR (splitLines s).
Proof.
  intros H.
  pose proof (splitLines_no_LF s) as Hall.
  pose proof (splitLines_nonempty s) as Hne.
  pose proof (joinLines_splitLines s) as Hj.
  rewrite <- Hj in H.
  destruct (replaceCRLF_joinLines (splitLines s) Hall H) as [H1 H2].
  rewrite Hj in H1. split.
  - unfold normalizeToLF. fold (normalizeToLF s).
    rewrite H1. unfold normalizeToLF. rewrite <- H1.
    assert (Hcr : hasNoCR (replaceCRLF s) = true) by (by rewrite H1).
    clear -Hcr. unfold replaceCR, hasNoCR in *.
    induction (replaceCRLF s) as [|c r IH]; [done|]. simpl in *.
    apply andb_prop in Hcr as [Hc Hr]. apply negb_true_iff in Hc.
    by rewrite Hc, IH.
  - rewrite H1. apply splitLines_joinLines.
    + by destruct (splitLines s).
    + apply Forall_fmap. eapply Forall_impl; [exact Hall|].
      intros l Hl. by apply stripTrailingCR_no_LF.
Qed.

Lemma computeLineHash_stripTrailingCR i l :
  computeLineHash i (stripTrailingCR l) = computeLineHash i l.
Proof.
  unfold computeLineHash. by rewrite !removeWhitespace_stripTrailingCR.
Qed.

Lemma computeLineHash_BOM i l : computeLineHash i (BOM :: l) = computeLineHash i l.
Proof.
  unfold computeLineHash. rewrite !removeWhitespace_stripTrailingCR.
  unfold removeWhitespace. by rewrite filter_cons_False by done.
Qed.

Lemma fingerprints_stripTrailingCR ls :
  fingerprints (map stripTrailingCR ls) = fingerprints ls.
Proof.
  unfold fingerprints. rewrite imap_fmap. apply imap_ext.
  intros i l _. simpl. apply computeLineHash_stripTrailingCR.
Qed.

Lemma splitLines_cons_other c s :
  c ≠ LF →
  ∃ l0 rest, splitLines s = l0 :: rest ∧ splitLines (c :: s) = (c :: l0) :: rest.
Proof.
  intros Hc.
  pose proof (splitLines_no_LF s) as Hall.
  pose proof (splitLines_nonempty s) as Hne.
  pose proof (joinLines_splitLines s) as Hj.
  destruct (splitLines s) as [|l0 rest]; [done|].
  exists l0, rest. split; [done|].
  rewrite <- Hj.
  assert (c :: joinLines (l0 :: rest) = joinLines ((c :: l0) :: rest)) as ->.
  { by destruct rest. }
  apply splitLines_joinLines; [done|].
  apply Forall_cons in Hall as [H0 Hr]. constructor; [|done].
  intros Hin. apply elem_of_cons in Hin as [Hin|Hin]; [by symmetry in Hin|done].
Qed.

(** X13.  In a text where every carriage return is followed by a line
    feed, the lines as [read_file] takes them (the text as read, split at
    the line feeds) and the lines as [edit_file] takes them (byte-order mark
    removed, line endings collapsed, then split) are as many and have, one
    by one, the same fingerprints: the anchors read are the anchors
    checked. *)
Theorem read_and_edit_fingerprints_agree (rawContent : jsstring) :
  everyCRbeforeLF rawContent = true →
  fingerprints (splitLines rawContent)
  = fingerprints (splitLines (normalizeToLF (text (stripBom rawContent)))).
Proof.
  intros H.
  assert (Hgen : ∀ s, everyCRbeforeLF s = true →
                      fingerprints (splitLines (normalizeToLF s))
                      = fingerprints (splitLines s)).
  { intros s Hs. destruct (splitLines_replaceCRLF s Hs) as [-> ->].
    apply fingerprints_stripTrailingCR. }
  unfold stripBom. destruct (startsWith [BOM] rawContent) eqn:E.
  - apply startsWith_spec in E as [s ->]. simpl text. cbn [app] in *.
    rewrite drop_0.
    assert (Hs : everyCRbeforeLF s = true).
    { simpl in H. done. }
    rewrite (Hgen s Hs).
    destruct (splitLines_cons_other BOM s ltac:(done)) as (l0 & rest & -> & ->).
    unfold fingerprints. simpl. by rewrite computeLineHash_BOM.
  - simpl. by rewrite Hgen.
Qed.

Lemma read_and_edit_fingerprints_agree_witness :
  fingerprints (splitLines ([BOM] ++ lit "a b" ++ [CR; LF] ++ lit "c"))
  = fingerprints
      (splitLines (normalizeToLF (text (stripBom ([BOM] ++ lit "a b" ++ [CR; LF] ++ lit "c"))))).
Proof.
  apply (read_and_edit_fingerprints_agree ([BOM] ++ lit "a b" ++ [CR; LF] ++ lit "c")).
  vm_compute. reflexivity.
Defined.

(** ** The rows of read_file *)

Lemma formatRows_imap lines n :
  formatRows lines n = imap (λ k l, formatHashLine (n + k) l) lines.
Proof.
  revert n. induction lines as [|l r IH]; intros n; [done|].
  simpl. rewrite Nat.add_0_r. f_equal. rewrite IH. apply imap_ext.
  intros i x _. simpl. f_equal. lia.
Qed.

Lemma formatHashLines_of_lines (ls : list jsstring) n :
  ls ≠ [] → Forall (λ l, LF ∉ l) ls →
  splitLines (formatHashLines (joinLines ls) n) = formatRows ls n.
Proof.
  intros Hne Hall. unfold formatHashLines.
  rewrite (splitLines_joinLines ls) by done.
  apply splitLines_joinLines.
  - intros H. apply (f_equal length) in H. rewrite formatRows_length in H.
    by destruct ls.
  - by apply formatRows_no_LF.
Qed.

Lemma readStartLine_ge offset : (1 ≤ readStartLine offset)%Z.
Proof. unfold readStartLine. lia. Qed.

(** The lines selected are consecutive lines of the file from the line
    [startLine] on. *)
Lemma selectedLines_spec content offset limit :
  let lines := splitLines content in
  let start := Z.to_nat (readStartLine offset) in
  selectedLines content offset limit ≠ [] →
  start - 1 < length lines
  ∧ ∃ n, selectedLines content offset limit = take n (drop (start - 1) lines).
Proof.
  intros lines start. unfold selectedLines, sliceZ. fold lines.
  pose proof (readStartLine_ge offset) as Hs.
  assert (((readStartLine offset - 1 <? 0) = false)%Z) as -> by lia.
  set (e := if (readEndLine content offset limit <? 0)%Z then _ else _).
  intros Hne.
  assert (Hlt : (readStartLine offset - 1 < Z.of_nat (length lines))%Z).
  { destruct (Z.lt_ge_cases (readStartLine offset - 1) (Z.of_nat (length lines)))
      as [|Hge]; [done|].
    exfalso. apply Hne.
    rewrite drop_ge; [by rewrite take_nil|]. lia. }
  split; [unfold start; lia|].
  eexists. f_equal. f_equal. unfold start. lia.
Qed.

(** X14.  Whatever integers [offset] and [limit] are, when [read_file]
    shows lines of the file at all, its rows are the rows of consecutive
    lines of the file, the first one being line [max(1, offset)]: each row
    is the number the line has in the file, the fingerprint of the line,
    and the line.  With a limit that is not negative, as many lines are
    shown as the limit and the end of the file allow. *)
Theorem read_file_rows (content : jsstring) (offset limit : option Z) :
  let lines := splitLines content in
  let start := Z.to_nat (readStartLine offset) in
  let sel := selectedLines content offset limit in
  sel ≠ [] →
  1 ≤ start
  ∧ splitLines (readFormatted content offset limit)
    = imap (λ k l, formatHashLine (start + k) l) sel
  ∧ (∀ k l, sel !! k = Some l → lines !! (start - 1 + k) = Some l)
  ∧ ((0 ≤ default DEFAULT_MAX_LINES limit)%Z →
     length sel
     = Nat.min (Z.to_nat (default DEFAULT_MAX_LINES limit)) (length lines - (start - 1))).
Proof.
  intros lines start sel Hne.
  pose proof (readStartLine_ge offset) as Hs.
  destruct (selectedLines_spec content offset limit Hne) as (Hlt & n & Hsel).
  fold lines start sel in Hlt, Hsel.
  split; [unfold start; lia|].
  assert (Hall : Forall (λ l, LF ∉ l) sel).
  { rewrite Hsel. apply Forall_take, Forall_drop, splitLines_no_LF. }
  split; [|split].
  - unfold readFormatted. fold sel start.
    rewrite formatHashLines_of_lines by done. apply formatRows_imap.
  - intros k l Hk. rewrite Hsel in Hk.
    apply lookup_take_Some in Hk as [Hk _]. by rewrite lookup_drop in Hk.
  - intros Hlim. unfold sel, selectedLines, sliceZ, readEndLine. fold lines.
    set (m := default DEFAULT_MAX_LINES limit) in *.
    assert (((readStartLine offset - 1 <? 0) = false)%Z) as -> by lia.
    assert (((Z.of_nat (length lines) `min` (readStartLine offset - 1 + m) <? 0)
             = false)%Z) as -> by lia.
    rewrite length_take, length_drop. unfold start in *. lia.
Qed.

Lemma read_file_rows_witness :
  splitLines (readFormatted (lit "aaa" ++ [LF] ++ lit "bbb" ++ [LF] ++ lit "ccc")
                            (Some 2%Z) (Some 1%Z))
  = [formatHashLine 2 (lit "bbb")].
Proof.
  destruct (read_file_rows (lit "aaa" ++ [LF] ++ lit "bbb" ++ [LF] ++ lit "ccc")
              (Some 2%Z) (Some 1%Z) ltac:(vm_compute; congruence)) as (_ & H & _).
  exact H.
Defined.

(** X15.  With an integer offset past the last line, one that JavaScript
    holds exactly (below 2^53), and an integer limit, [read_file] still
    shows one row: the row of an empty line numbered with the offset.  The
    anchor of that row names no line of the file, and an operation that uses
    it is refused with the error of the line that does not exist. *)
Theorem read_file_past_end
    (content : jsstring) (o : Z) (limit : option Z) (new_text : jsstring) :
  let lines := splitLines content in
  (Z.of_nat (length lines) < o)%Z →
  (o < exactIntegerBound)%Z →
  readFormatted content (Some o) limit = formatHashLine (Z.to_nat o) []
  ∧ applyHashlineEdits content [SetLine (readFormatted content (Some o) limit) new_text]
    = inl (LineDoesNotExist (Z.to_nat o) (length lines)).
Proof.
  intros lines Ho _.
  assert (Hlen : 1 ≤ length lines).
  { pose proof (splitLines_nonempty content). unfold lines.
    destruct (splitLines content); [done|simpl; lia]. }
  assert (Hstart : readStartLine (Some o) = o).
  { unfold readStartLine. simpl. lia. }
  assert (Hsel : selectedLines content (Some o) limit = []).
  { unfold selectedLines, sliceZ. fold lines. rewrite Hstart.
    assert (((o - 1 <? 0) = false)%Z) as -> by lia.
    rewrite drop_ge; [by rewrite take_nil|]. lia. }
  assert (Hfmt : readFormatted content (Some o) limit = formatHashLine (Z.to_nat o) []).
  { unfold readFormatted. rewrite Hsel, Hstart. done. }
  split; [done|]. rewrite Hfmt.
  unfold applyHashlineEdits. simpl length. simpl Nat.eqb. cbv iota.
  simpl mapE. rewrite (parseEdit_SetLine _ _ (mkRef (Z.to_nat o) (computeLineHash (Z.to_nat o) []))).
  2:{ apply parseLineRef_row. lia. }
  simpl. unfold validateEdit. simpl. unfold validateOrRelocateRef. simpl line.
  fold lines.
  assert ((Z.to_nat o <? 1) || (length lines <? Z.to_nat o) = true) as ->.
  { apply orb_true_iff. right. apply Nat.ltb_lt. lia. }
  done.
Qed.

Lemma read_file_past_end_witness :
  readFormatted (lit "aaa" ++ [LF] ++ lit "bbb") (Some 10%Z) None
  = formatHashLine 10 [].
Proof.
  destruct (read_file_past_end (lit "aaa" ++ [LF] ++ lit "bbb") 10%Z None []
              ltac:(vm_compute; reflexivity) ltac:(vm_compute; reflexivity))
    as [H _].
  exact H.
Defined.

(** ** The mismatch error *)

Lemma digits_then_colon_inj ds1 ds2 x y :
  forallb isDigit ds1 = true → forallb isDigit ds2 = true →
  ds1 ++ 58%N :: x = ds2 ++ 58%N :: y → ds1 = ds2.
Proof.
  revert ds2. induction ds1 as [|a ds1 IH]; intros [|b ds2] H1 H2 Heq; simpl in *.
  - done.
  - injection Heq as <- _. by apply andb_prop in H2 as [H2 _].
  - injection Heq as -> _. by apply andb_prop in H1 as [H1 _].
  - apply andb_prop in H1 as [_ H1]. apply andb_prop in H2 as [_ H2].
    injection Heq as <- Heq. f_equal. by apply IH.
Qed.

Lemma formatRef_line_inj n h n' h' : formatRef n h = formatRef n' h' → n = n'.
Proof.
  unfold formatRef. intros H. apply numberToString_inj.
  apply (digits_then_colon_inj _ _ h h'); try apply numberToString_digits. done.
Qed.

Lemma validateOrRelocateRef_current lines uniq ref ms st ref' ms' :
  Forall (currentMismatch lines) ms →
  validateOrRelocateRef lines uniq ref ms = inr (st, ref', ms') →
  Forall (currentMismatch lines) ms' ∧ 1 ≤ line ref ≤ length lines.
Proof.
  intros Hms. unfold validateOrRelocateRef.
  destruct ((line ref <? 1) || (length lines <? line ref)) eqn:Er; [done|].
  apply orb_false_elim in Er as [E1 E2]. apply Nat.ltb_ge in E1, E2.
  destruct (streq _ _).
  - intros [= <- <- <-]. split; [done|lia].
  - destruct (uniq !! _).
    + intros [= <- <- <-]. split; [done|lia].
    + intros [= <- <- <-]. split; [|lia].
      apply Forall_app. split; [done|]. constructor; [|done].
      split; simpl; [lia|done].
Qed.

Lemma validateEdit_current lines uniq p ms p' ms' :
  Forall (currentMismatch lines) ms →
  validateEdit lines uniq p ms = inr (p', ms') →
  Forall (currentMismatch lines) ms'.
Proof.
  intros Hms. unfold validateEdit. destruct (spec p) as [ref|start end_|after].
  - destruct (validateOrRelocateRef _ _ ref ms) as [e|[[st r'] ms1]] eqn:Ev; [done|].
    simpl. intros [= <- <-]. by apply (validateOrRelocateRef_current _ _ _ _ _ _ _ Hms Ev).
  - destruct (line end_ <? line start); [done|].
    destruct (validateOrRelocateRef _ _ start ms) as [e|[[st1 s'] ms1]] eqn:Ev1; [done|].
    simpl.
    destruct (validateOrRelocateRef _ _ end_ ms1) as [e|[[st2 e'] ms2]] eqn:Ev2; [done|].
    simpl.
    destruct (validateOrRelocateRef_current _ _ _ _ _ _ _ Hms Ev1) as [Hms1 Hr1].
    destruct (validateOrRelocateRef_current _ _ _ _ _ _ _ Hms1 Ev2) as [Hms2 Hr2].
    destruct st1 as [r1| ], st2 as [r2| ]; try (by intros [= <- <-]).
    destruct (_ && _); intros [= <- <-]; [|done].
    apply Forall_app. split; [done|].
    constructor; [split; simpl; [lia|done]|].
    constructor; [split; simpl; [lia|done]|done].
  - destruct (length (dstLines p) =? 0); [done|].
    destruct (validateOrRelocateRef _ _ after ms) as [e|[[st r'] ms1]] eqn:Ev; [done|].
    simpl. intros [= <- <-]. by apply (validateOrRelocateRef_current _ _ _ _ _ _ _ Hms Ev).
Qed.

Lemma validateAll_current lines uniq parsed ms parsed' ms' :
  Forall (currentMismatch lines) ms →
  validateAll lines uniq parsed ms = inr (parsed', ms') →
  Forall (currentMismatch lines) ms'.
Proof.
  revert ms parsed' ms'. induction parsed as [|p r IH]; intros ms parsed' ms' Hms; simpl.
  - by intros [= <- <-].
  - destruct (validateEdit _ _ p ms) as [e|[p1 ms1]] eqn:Ev; [done|]. simpl.
    destruct (validateAll _ _ r ms1) as [e|[r1 ms2]] eqn:Er; [done|]. simpl.
    intros [= <- <-]. eapply IH; [|exact Er]. eapply validateEdit_current; eauto.
Qed.

Lemma mapE_parseEdit_error edits e ms fl :
  mapE parseEdit edits = inl e → e ≠ HashlineMismatchError ms fl.
Proof.
  induction edits as [|x r IH]; simpl; [done|].
  destruct (parseEdit x) as [e1|y] eqn:Ex.
  - simpl. intros [= <-]. unfold parseEdit, parseHashlineEdit in Ex.
    destruct x as [a t|a b t|a t|o n al]; simpl in Ex.
    + destruct (parseLineRef a); simpl in Ex; [by injection Ex as <-|done].
    + destruct (parseLineRef a); simpl in Ex; [by injection Ex as <-|].
      destruct b; [done|].
      destruct (parseLineRef _); simpl in Ex; [by injection Ex as <-|done].
    + destruct (parseLineRef a); simpl in Ex; [by injection Ex as <-|done].
    + by injection Ex as <-.
  - simpl. destruct (mapE parseEdit r); [|done]. simpl. intros [= <-]. by apply IH.
Qed.

Lemma validateOrRelocateRef_error lines uniq ref ms0 e ms fl :
  validateOrRelocateRef lines uniq ref ms0 = inl e → e ≠ HashlineMismatchError ms fl.
Proof.
  unfold validateOrRelocateRef. destruct (_ || _).
  - by intros [= <-].
  - destruct (streq _ _); [done|]. by destruct (uniq !! _).
Qed.

Lemma validateEdit_error lines uniq p ms0 e ms fl :
  validateEdit lines uniq p ms0 = inl e → e ≠ HashlineMismatchError ms fl.
Proof.
  unfold validateEdit. destruct (spec p) as [ref|start end_|after].
  - destruct (validateOrRelocateRef _ _ ref ms0) as [e1|[[st r'] ms1]] eqn:Ev; [|done].
    simpl. intros [= <-]. by eapply validateOrRelocateRef_error.
  - destruct (line end_ <? line start); [by intros [= <-]|].
    destruct (validateOrRelocateRef _ _ start ms0) as [e1|[[st1 s'] ms1]] eqn:Ev1.
    { simpl. intros [= <-]. by eapply validateOrRelocateRef_error. }
    simpl.
    destruct (validateOrRelocateRef _ _ end_ ms1) as [e1|[[st2 e'] ms2]] eqn:Ev2.
    { simpl. intros [= <-]. by eapply validateOrRelocateRef_error. }
    simpl. destruct st1, st2; try done. by destruct (_ && _).
  - destruct (length (dstLines p) =? 0); [by intros [= <-]|].
    destruct (validateOrRelocateRef _ _ after ms0) as [e1|[[st r'] ms1]] eqn:Ev; [|done].
    simpl. intros [= <-]. by eapply validateOrRelocateRef_error.
Qed.

Lemma validateAll_error lines uniq parsed ms0 e ms fl :
  validateAll lines uniq parsed ms0 = inl e → e ≠ HashlineMismatchError ms fl.
Proof.
  revert ms0. induction parsed as [|p r IH]; intros ms0; simpl; [done|].
  destruct (validateEdit _ _ p ms0) as [e1|[p1 ms1]] eqn:Ev.
  - simpl. intros [= <-]. by eapply validateEdit_error.
  - simpl. destruct (validateAll _ _ r ms1) as [e1|[r1 ms2]] eqn:Er; [|done].
    simpl. intros [= <-]. by eapply IH.
Qed.

(** The mismatch error comes from the check after the validation loop
    only, with the mismatches the loop has recorded. *)
Lemma applyHashlineEdits_mismatch_inv content edits ms fl :
  applyHashlineEdits content edits = inl (HashlineMismatchError ms fl) →
  fl = splitLines content ∧ ms ≠ [] ∧ Forall (currentMismatch fl) ms.
Proof.
  unfold applyHashlineEdits. destruct (length edits =? 0); [done|].
  destruct (mapE parseEdit edits) as [e|parsed] eqn:Ep.
  { simpl. intros [= ->]. by eapply mapE_parseEdit_error in Ep. }
  simpl.
  destruct (validateAll _ _ parsed []) as [e|[parsed' ms']] eqn:Ev.
  { simpl. intros [= ->]. by eapply validateAll_error in Ev. }
  simpl. destruct ms' as [|m ms']; [done|]. simpl. intros [= <- <-].
  split; [done|]. split; [done|].
  eapply validateAll_current; [|exact Ev]. done.
Qed.

Lemma remaps_lookup ms fl m :
  m ∈ ms →
  remaps ms fl !! formatRef (mline m) (expected m) = Some (currentRef fl m).
Proof.
  unfold remaps. generalize (∅ : gmap (list N) jsstring).
  induction ms as [|x ms IH] using rev_ind; intros acc Hin.
  - by apply elem_of_nil in Hin.
  - rewrite fold_left_app. simpl.
    destruct (decide (formatRef (mline x) (expected x) = formatRef (mline m) (expected m)))
      as [Heq|Hne].
    + rewrite Heq, lookup_insert_eq. f_equal. unfold currentRef.
      apply formatRef_line_inj in Heq. by rewrite Heq.
    + rewrite lookup_insert_ne by done. apply IH.
      apply elem_of_app in Hin as [Hin|Hin]; [done|].
      apply list_elem_of_singleton in Hin as ->. done.
Qed.

(** X16.  When a batch ends with the mismatch error, the error carries
    the untouched lines of the file and at least one mismatch; every
    mismatch names a line of the file and holds the fingerprint the line
    has now; [remaps] sends its stale reference to the reference made of
    that line number and that fingerprint, and this reference parses and
    validates as it stands against the file. *)
Theorem mismatch_remaps_are_current
    (content : jsstring) (edits : list HashlineEdit) (ms : list HashMismatch)
    (fl : list jsstring) :
  applyHashlineEdits content edits = inl (HashlineMismatchError ms fl) →
  fl = splitLines content ∧ ms ≠ []
  ∧ ∀ m, m ∈ ms →
      currentMismatch fl m
      ∧ remaps ms fl !! formatRef (mline m) (expected m)
        = Some (formatRef (mline m) (actual m))
      ∧ ∃ r, parseLineRef (formatRef (mline m) (actual m)) = inr r
             ∧ line r = mline m
             ∧ ∀ seen, validateOrRelocateRef fl (uniqueLineByHash fl) r seen
                       = inr (RefOk false, r, seen).
Proof.
  intros H. apply applyHashlineEdits_mismatch_inv in H as (Hfl & Hne & Hall).
  split; [done|]. split; [done|]. intros m Hm.
  rewrite Forall_forall in Hall. pose proof (Hall m Hm) as [Hr Ha].
  split; [done|]. split.
  - rewrite (remaps_lookup ms fl m Hm). unfold currentRef. by rewrite Ha.
  - rewrite Ha. eexists. split; [apply parseLineRef_own_anchor; lia|].
    split; [done|]. intros seen. apply validateOrRelocateRef_ok; simpl; [done|].
    by rewrite toLowerCase_hash.
Qed.

Lemma mismatch_remaps_are_current_witness :
  remaps [mkMismatch 1 (lit "zz") (lit "5f")] (splitLines (lit "aaa" ++ [LF] ++ lit "bbb"))
    !! lit "1:zz" = Some (lit "1:5f").
Proof.
  destruct (mismatch_remaps_are_current (lit "aaa" ++ [LF] ++ lit "bbb")
              [SetLine (lit "1:zz") (lit "x")]
              [mkMismatch 1 (lit "zz") (lit "5f")]
              (splitLines (lit "aaa" ++ [LF] ++ lit "bbb"))
              ltac:(vm_compute; reflexivity)) as (_ & _ & H).
  destruct (H (mkMismatch 1 (lit "zz") (lit "5f")) ltac:(apply elem_of_cons; by left))
    as (_ & Hr & _).
  exact Hr.
Defined.

(** ** The report of the mismatch error *)

Lemma addDisplay_fold w acc x :
  x ∈ fold_left addDisplay w acc ↔ x ∈ acc ∨ x ∈ w.
Proof.
  revert acc. induction w as [|i w IH]; intros acc; simpl.
  - split; [by left|]. intros [H|H]; [done|]. by apply elem_of_nil in H.
  - rewrite IH. unfold addDisplay. destruct (bool_decide (i ∈ acc)) eqn:E.
    + apply bool_decide_eq_true in E. rewrite elem_of_cons. split.
      * intros [H|H]; auto.
      * intros [H|[->|H]]; auto.
    + rewrite elem_of_app, list_elem_of_singleton, elem_of_cons. tauto.
Qed.

Lemma displayLines_elem ms total x :
  x ∈ displayLines ms total ↔ ∃ m, m ∈ ms ∧ x ∈ displayWindow total m.
Proof.
  unfold displayLines.
  assert (H : ∀ acc, x ∈ fold_left (λ acc m, fold_left addDisplay (displayWindow total m) acc)
                            ms acc
                     ↔ x ∈ acc ∨ ∃ m, m ∈ ms ∧ x ∈ displayWindow total m).
  { induction ms as [|m ms IH]; intros acc; simpl.
    - split; [by left|]. intros [H|(m & Hm & _)]; [done|]. by apply elem_of_nil in Hm.
    - rewrite IH, addDisplay_fold. split.
      + intros [[H|H]|(m' & Hm' & Hx)]; [by left| |].
        * right. exists m. split; [apply elem_of_cons; by left|done].
        * right. exists m'. split; [apply elem_of_cons; by right|done].
      + intros [H|(m' & Hm' & Hx)]; [by left; left|].
        apply elem_of_cons in Hm' as [->|Hm']; [by left; right|]. right. eauto. }
  rewrite H. split; [|by right]. intros [Hx|Hx]; [|done]. by apply elem_of_nil in Hx.
Qed.

Lemma displayWindow_elem total m x :
  x ∈ displayWindow total m
  ↔ 1 ≤ x ≤ total ∧ mline m - MISMATCH_CONTEXT ≤ x ≤ mline m + MISMATCH_CONTEXT.
Proof. unfold displayWindow. rewrite elem_of_seq. lia. Qed.

Lemma reportRows_elem ms fl prev sorted x :
  x ∈ sorted →
  ((if isMismatchLine ms x then lit ">>> " else lit "    ")
   ++ formatHashLine x (fl !!! (x - 1))) ∈ reportRows ms fl prev sorted.
Proof.
  revert prev. induction sorted as [|y r IH]; intros prev Hx.
  - by apply elem_of_nil in Hx.
  - cbn [reportRows]. rewrite elem_of_app. right.
    apply elem_of_cons in Hx as [->|Hx].
    + apply elem_of_cons. left. by destruct (isMismatchLine ms y).
    + apply elem_of_cons. right. by apply IH.
Qed.

Lemma reportRows_inv ms fl prev sorted row :
  row ∈ reportRows ms fl prev sorted →
  row = GAP_ROW
  ∨ ∃ x, x ∈ sorted
         ∧ row = (if isMismatchLine ms x then lit ">>> " else lit "    ")
                 ++ formatHashLine x (fl !!! (x - 1)).
Proof.
  revert prev. induction sorted as [|y r IH]; intros prev Hrow.
  - by apply elem_of_nil in Hrow.
  - cbn [reportRows] in Hrow. rewrite elem_of_app, elem_of_cons in Hrow.
    destruct Hrow as [Hg|[->|Hrow]].
    + left. destruct prev as [p|]; [|by apply elem_of_nil in Hg].
      destruct (p + 1 <? y); [|by apply elem_of_nil in Hg].
      by apply list_elem_of_singleton in Hg.
    + right. exists y. split; [apply elem_of_cons; by left|].
      by destruct (isMismatchLine ms y).
    + apply IH in Hrow as [->|(x & Hx & ->)]; [by left|].
      right. exists x. split; [apply elem_of_cons; by right|done].
Qed.

Lemma isMismatchLine_spec ms x : isMismatchLine ms x = true ↔ ∃ m, m ∈ ms ∧ mline m = x.
Proof.
  unfold isMismatchLine. rewrite existsb_exists. split.
  - intros (m & Hm & He). apply Nat.eqb_eq in He. exists m.
    split; [by apply list_elem_of_In|done].
  - intros (m & Hm & He). exists m. split; [by apply list_elem_of_In|].
    by apply Nat.eqb_eq.
Qed.

(** X17.  In the report of the mismatch error, every mismatch that names
    a line of the file has its row, marked [>>>], with the line number, the
    fingerprint the line has now, and the line; and it has its entry in the
    list of quick fixes.  Every other row of the listing is the gap row or
    the row of a line of the file at most two lines away from a mismatch,
    with that line's number, fingerprint and text, marked exactly when a
    mismatch names the line. *)
Theorem mismatch_report_rows
    (ms : list HashMismatch) (fl : list jsstring) :
  (∀ m, m ∈ ms → 1 ≤ mline m ≤ length fl →
        (lit ">>> " ++ formatHashLine (mline m) (fl !!! (mline m - 1)))
          ∈ messageLines ms fl
        ∧ remapEntry fl m ∈ messageLines ms fl)
  ∧ ∀ row,
      row ∈ reportRows ms fl None
              (sortBy (λ a b, (Z.of_nat a - Z.of_nat b)%Z) (displayLines ms (length fl))) →
      row = GAP_ROW
      ∨ ∃ x m, m ∈ ms ∧ 1 ≤ x ≤ length fl
               ∧ mline m - MISMATCH_CONTEXT ≤ x ≤ mline m + MISMATCH_CONTEXT
               ∧ row = (if isMismatchLine ms x then lit ">>> " else lit "    ")
                       ++ formatHashLine x (fl !!! (x - 1)).
Proof.
  split.
  - intros m Hm Hr. unfold messageLines. split.
    + rewrite !elem_of_app. right. left.
      assert (Hmis : isMismatchLine ms (mline m) = true).
      { apply isMismatchLine_spec. eauto. }
      pose proof (reportRows_elem ms fl None
                    (sortBy (λ a b, (Z.of_nat a - Z.of_nat b)%Z)
                            (displayLines ms (length fl))) (mline m)) as Hrow.
      rewrite Hmis in Hrow. apply Hrow.
      rewrite sortBy_perm. apply displayLines_elem. exists m. split; [done|].
      apply displayWindow_elem. lia.
    + rewrite !elem_of_app. right. right. rewrite length_map.
      assert ((0 <? length ms) = true) as ->.
      { destruct ms; [by apply elem_of_nil in Hm|done]. }
      rewrite elem_of_app. right. apply list_elem_of_fmap. eauto.
  - intros row Hrow. apply reportRows_inv in Hrow as [->|(x & Hx & ->)]; [by left|].
    right. rewrite sortBy_perm in Hx. apply displayLines_elem in Hx as (m & Hm & Hx).
    apply displayWindow_elem in Hx. exists x, m. tauto.
Qed.

Lemma mismatch_report_rows_witness :
  (lit ">>> " ++ formatHashLine 1 (lit "aaa"))
    ∈ messageLines [mkMismatch 1 (lit "zz") (lit "5f")] [lit "aaa"; lit "bbb"].
Proof.
  destruct (mismatch_report_rows [mkMismatch 1 (lit "zz") (lit "5f")] [lit "aaa"; lit "bbb"])
    as [H _].
  destruct (H (mkMismatch 1 (lit "zz") (lit "5f")) ltac:(apply elem_of_cons; by left)
              ltac:(simpl; lia)) as [Hrow _].
  exact Hrow.
Defined.

(** ** The edit distance *)

Lemma levRow_spec a b i aCode :
  a !! i = Some aCode →
  ∀ brest prev left j,
    drop j b = brest →
    length prev = S (length brest) →
    levCell a b (S i) j left →
    (∀ k p, prev !! k = Some p → levCell a b i (j + k) p) →
    length (levRow aCode brest prev left) = length brest
    ∧ ∀ k v, levRow aCode brest prev left !! k = Some v → levCell a b (S i) (j + 1 + k) v.
Proof.
  intros Ha. induction brest as [|bc b' IH]; intros prev left j Hb Hlen Hleft Hprev.
  - simpl. split; [done|]. intros k v Hk. by destruct k.
  - destruct prev as [|pdiag [|pj tl]]; simpl in Hlen; try lia.
    cbn [levRow].
    set (cost := if (aCode =? bc)%N then 0 else 1).
    set (v := Nat.min (Nat.min (pj + 1) (left + 1)) (pdiag + cost)).
    assert (Hbj : b !! j = Some bc).
    { rewrite <- (Nat.add_0_r j), <- lookup_drop, Hb. done. }
    assert (Hb' : drop (S j) b = b').
    { rewrite (drop_S _ _ _ Hbj) in Hb. by injection Hb. }
    pose proof (Hprev 0 pdiag eq_refl) as (Hd1 & Hd2 & Hd3 & Hd4).
    pose proof (Hprev 1 pj eq_refl) as (Hj1 & Hj2 & Hj3 & Hj4).
    destruct Hleft as (Hl1 & Hl2 & Hl3 & Hl4).
    rewrite Nat.add_0_r in *.
    assert (Hv : levCell a b (S i) (S j) v).
    { assert (Hcost : cost ≤ 1) by (unfold cost; destruct (aCode =? bc)%N; lia).
      unfold levCell. repeat split; try (unfold v; lia).
      - intros Hv0.
        assert (pdiag = 0 ∧ cost = 0) as [Hp Hc] by (unfold v in Hv0; lia).
        rewrite (take_S_r _ _ _ Ha), (take_S_r _ _ _ Hbj).
        apply Hd4 in Hp. rewrite Hp. f_equal. f_equal.
        unfold cost in Hc. destruct (aCode =? bc)%N eqn:E; [|done].
        by apply N.eqb_eq in E.
      - intros Heq.
        rewrite (take_S_r _ _ _ Ha), (take_S_r _ _ _ Hbj) in Heq.
        apply app_inj_tail in Heq as [Hp Hc].
        apply Hd4 in Hp. subst bc. unfold v, cost. rewrite N.eqb_refl. lia. }
    destruct (IH (pj :: tl) v (S j) Hb' ltac:(simpl; lia) Hv) as [IHlen IHcells].
    { intros k p Hk. replace (S j + k) with (j + S k) by lia. apply Hprev. done. }
    split; [simpl; by rewrite IHlen|].
    intros [|k] w Hk.
    + injection Hk as <-. by replace (j + 1 + 0) with (S j) by lia.
    + replace (j + 1 + S k) with (S j + 1 + k) by lia. by apply IHcells.
Qed.

Lemma levFold_spec a b :
  ∀ arest adone prev,
    a = adone ++ arest →
    length prev = S (length b) →
    (∀ k p, prev !! k = Some p → levCell a b (length adone) k p) →
    ∃ prev' n,
      fold_left (λ '(prev, i) aCode, (i :: levRow aCode b prev i, S i))
                arest (prev, S (length adone)) = (prev', n)
      ∧ length prev' = S (length b)
      ∧ ∀ k p, prev' !! k = Some p → levCell a b (length a) k p.
Proof.
  induction arest as [|c arest IH]; intros adone prev Ha Hlen Hprev.
  - simpl. exists prev, (S (length adone)). split; [done|]. split; [done|].
    rewrite app_nil_r in Ha. by subst.
  - simpl.
    assert (Hc : a !! length adone = Some c).
    { rewrite Ha. by rewrite list_lookup_middle. }
    assert (Hleft : levCell a b (S (length adone)) 0 (S (length adone))).
    { unfold levCell. repeat split; try lia; try done.
      rewrite (take_S_r _ _ _ Hc). simpl. intros H. by destruct (take _ a). }
    destruct (levRow_spec a b (length adone) c Hc b prev (S (length adone)) 0
                eq_refl Hlen Hleft) as [Hrl Hrc].
    { intros k p. simpl. apply Hprev. }
    destruct (IH (adone ++ [c]) (S (length adone) :: levRow c b prev (S (length adone))))
      as (prev' & n & Hfold & Hl' & Hc').
    + by rewrite <- app_assoc.
    + simpl. by rewrite Hrl.
    + rewrite length_app. simpl. replace (length adone + 1) with (S (length adone)) by lia.
      intros [|k] p Hk.
      * injection Hk as <-. done.
      * simpl in Hk. apply Hrc in Hk. by replace (0 + 1 + k) with (S k) in Hk by lia.
    + rewrite length_app in Hfold. simpl in Hfold.
      replace (length adone + 1) with (S (length adone)) in Hfold by lia.
      exists prev', n. done.
Qed.

(** X18.  The distance [levenshteinDistance] returns is at least the
    difference of the two lengths and at most the longer length, and it is
    zero exactly when the two strings are equal. *)
Theorem levenshteinDistance_bounds (a b : jsstring) :
  let d := levenshteinDistance a b in
  length a - length b ≤ d
  ∧ length b - length a ≤ d
  ∧ d ≤ Nat.max (length a) (length b)
  ∧ (d = 0 ↔ a = b).
Proof.
  unfold levenshteinDistance, streq.
  destruct (bool_decide (a = b)) eqn:E.
  { apply bool_decide_eq_true in E as ->. simpl. repeat split; lia. }
  apply bool_decide_eq_false in E.
  destruct (length a =? 0) eqn:Ea.
  { apply Nat.eqb_eq in Ea. destruct a; [|done]. simpl.
    repeat split; try lia; try done. intros H. by destruct b. }
  destruct (length b =? 0) eqn:Eb.
  { apply Nat.eqb_eq in Eb. destruct b; [|done]. simpl.
    repeat split; try lia; try done. intros H. by destruct a. }
  apply Nat.eqb_neq in Ea, Eb.
  destruct (levFold_spec a b a [] (seq 0 (S (length b))) eq_refl) as (prev' & n & Hfold & Hl & Hc).
  { by rewrite length_seq. }
  { intros k p Hk. apply lookup_seq in Hk as [-> Hk]. simpl.
    unfold levCell. split; [lia|]. split; [lia|]. split; [lia|]. split.
    - by intros ->.
    - intros H. destruct k; [done|]. by destruct b. }
  simpl length in Hfold. rewrite Hfold.
  destruct (lookup_lt_is_Some_2 prev' (length b) ltac:(lia)) as [v Hv].
  assert (last prev' = Some v) as ->.
  { rewrite last_lookup. replace (pred (length prev')) with (length b) by lia. done. }
  simpl. apply Hc in Hv as (H1 & H2 & H3 & H4).
  rewrite !firstn_all in H4. done.
Qed.

(** ** Indentation restored *)

Lemma spanWhile_spec p (s : jsstring) :
  fst (spanWhile p s) ++ snd (spanWhile p s) = s
  ∧ forallb p (fst (spanWhile p s)) = true
  ∧ match snd (spanWhile p s) with c :: _ => p c = false | [] => True end.
Proof.
  induction s as [|c r IH]; simpl; [done|].
  destruct (p c) eqn:E.
  - destruct (spanWhile p r) as [a b]. simpl in *. destruct IH as (H1 & H2 & H3).
    rewrite E, H1, H2. done.
  - simpl. done.
Qed.

Lemma removeWhitespace_ws ws : forallb isWhitespace ws = true → removeWhitespace ws = [].
Proof.
  unfold removeWhitespace. induction ws as [|c r IH]; [done|]. simpl.
  intros H. apply andb_prop in H as [Hc Hr].
  rewrite filter_cons_False by (by rewrite Hc). auto.
Qed.

Lemma computeLineHash_indent i ws l :
  forallb isWhitespace ws = true → computeLineHash i (ws ++ l) = computeLineHash i l.
Proof.
  intros H. unfold computeLineHash. rewrite !removeWhitespace_stripTrailingCR.
  by rewrite removeWhitespace_app, removeWhitespace_ws.
Qed.

Lemma restoreLeadingIndent_spec t l :
  ∃ ws, restoreLeadingIndent t l = ws ++ l ∧ forallb isWhitespace ws = true.
Proof.
  unfold restoreLeadingIndent.
  destruct (length l =? 0); [by exists []|].
  destruct (length (leadingWhitespace t) =? 0); [by exists []|].
  destruct (0 <? length (leadingWhitespace l)); [by exists []|].
  exists (leadingWhitespace t). split; [done|].
  unfold leadingWhitespace. apply spanWhile_spec.
Qed.

Lemma zipRestore_spec old new :
  length old = length new →
  Forall2 (λ o n, ∃ ws, o = ws ++ n ∧ forallb isWhitespace ws = true)
          (zipRestore old new) new.
Proof.
  revert new. induction old as [|o old IH]; intros [|n new] Hlen; simpl in *; try done.
  constructor; [apply restoreLeadingIndent_spec|]. apply IH. lia.
Qed.

Lemma fingerprints_map ls : fingerprints ls = map (computeLineHash 0) ls.
Proof. unfold fingerprints. by rewrite <- imap_const. Qed.

(** X19.  Restoring the indentation of replacement lines from the lines
    they replace gives as many lines, each the replacement line as it was
    with at most whitespace added in front, so each with the fingerprint it
    had. *)
Theorem restoreIndent_adds_leading_whitespace_only (oldLines newLines : list jsstring) :
  let out := restoreIndentForPairedReplacement oldLines newLines in
  Forall2 (λ o n, ∃ ws, o = ws ++ n ∧ forallb isWhitespace ws = true) out newLines
  ∧ length out = length newLines
  ∧ fingerprints out = fingerprints newLines.
Proof.
  intros out.
  assert (H : Forall2 (λ o n, ∃ ws, o = ws ++ n ∧ forallb isWhitespace ws = true)
                      out newLines).
  { unfold out, restoreIndentForPairedReplacement.
    assert (Hid : Forall2 (λ o n : jsstring, ∃ ws, o = ws ++ n ∧ forallb isWhitespace ws = true)
                          newLines newLines).
    { apply Forall2_same_length_lookup_2; [done|]. intros i x y Hx Hy.
      exists []. split; [simpl; congruence|done]. }
    destruct (length oldLines =? length newLines) eqn:E; [|done].
    apply Nat.eqb_eq in E. simpl. destruct (bool_decide _); [done|].
    by apply zipRestore_spec. }
  split; [done|]. split; [by apply Forall2_length in H|].
  rewrite !fingerprints_map. clearbody out.
  induction H as [|x y xs ys (ws & -> & Hws) _ IH]; [done|].
  simpl. rewrite computeLineHash_indent by done. by rewrite IH.
Qed.

(** ** Indentation adjusted *)

Lemma trimStart_ws_app ws (l : jsstring) :
  forallb isWhitespace ws = true → trimStart (ws ++ l) = trimStart l.
Proof.
  induction ws as [|c r IH]; [done|]. simpl. intros H.
  apply andb_prop in H as [-> Hr]. auto.
Qed.

Lemma trimStart_suffix (l : jsstring) :
  ∃ ws, l = ws ++ trimStart l ∧ forallb isWhitespace ws = true.
Proof.
  induction l as [|c r IH]; [by exists []|]. simpl.
  destruct (isWhitespace c) eqn:E; [|by exists []].
  destruct IH as (ws & Hr & Hws). exists (c :: ws). simpl.
  rewrite E, Hws. split; [by rewrite <- Hr|done].
Qed.

Lemma trimStart_idem (l : jsstring) : trimStart (trimStart l) = trimStart l.
Proof.
  induction l as [|c r IH]; [done|]. simpl.
  destruct (isWhitespace c) eqn:E; [done|]. simpl. by rewrite E.
Qed.

Lemma isSpaceOrTab_ws c : isSpaceOrTab c = true → isWhitespace c = true ∧ c ≠ LF.
Proof.
  unfold isSpaceOrTab. intros H. apply orb_prop in H as [H|H];
    apply N.eqb_eq in H as ->; done.
Qed.

Lemma forallb_isSpaceOrTab_ws ws :
  forallb isSpaceOrTab ws = true → forallb isWhitespace ws = true ∧ LF ∉ ws.
Proof.
  induction ws as [|c r IH]; simpl.
  - intros _. split; [done|]. apply not_elem_of_nil.
  - intros H. apply andb_prop in H as [Hc Hr]. destruct (IH Hr) as [H1 H2].
    destruct (isSpaceOrTab_ws c Hc) as [Hw Hl]. rewrite Hw, H1. split; [done|].
    intros Hin. apply elem_of_cons in Hin as [Hin|Hin]; [by symmetry in Hin|done].
Qed.

Lemma getLeadingWhitespace_spec l :
  ∃ rest, l = getLeadingWhitespace l ++ rest
          ∧ forallb isSpaceOrTab (getLeadingWhitespace l) = true
          ∧ length (getLeadingWhitespace l) = countLeadingWhitespace l.
Proof.
  unfold getLeadingWhitespace, countLeadingWhitespace.
  destruct (spanWhile_spec isSpaceOrTab l) as (H1 & H2 & _).
  exists (snd (spanWhile isSpaceOrTab l)).
  assert (take (length (fst (spanWhile isSpaceOrTab l))) l = fst (spanWhile isSpaceOrTab l)) as ->.
  { rewrite <- H1 at 2. apply take_app_length. }
  done.
Qed.

(** A line with some of its leading blanks removed. *)
Lemma drop_leading_spec l k :
  k ≤ countLeadingWhitespace l →
  trimStart (drop k l) = trimStart l ∧ (LF ∉ l → LF ∉ drop k l).
Proof.
  intros Hk. destruct (getLeadingWhitespace_spec l) as (rest & Hl & Hws & Hlen).
  set (ws := getLeadingWhitespace l) in *. split.
  - rewrite Hl. rewrite drop_app_le by lia.
    destruct (forallb_isSpaceOrTab_ws ws Hws) as [Hw _].
    rewrite !trimStart_ws_app; [done|done|].
    rewrite <- (take_drop k ws) in Hw. rewrite forallb_app in Hw.
    by apply andb_prop in Hw as [_ Hw].
  - intros Hlf Hin. apply Hlf. rewrite <- (take_drop k l).
    apply elem_of_app. by right.
Qed.

Lemma profileStep_char acc l :
  (∀ c, accChar acc = Some c → isSpaceOrTab c = true) →
  ∀ c, accChar (profileStep acc l) = Some c → isSpaceOrTab c = true.
Proof.
  intros Hacc c. unfold profileStep.
  destruct (length (trim l) =? 0); [apply Hacc|].
  destruct (getLeadingWhitespace_spec l) as (rest & _ & Hws & _).
  destruct (head (getLeadingWhitespace l)) as [ch|] eqn:Eh.
  - destruct (accChar acc) as [c0|] eqn:Ea; simpl.
    + intros [= <-]. by apply Hacc.
    + intros [= <-]. destruct (getLeadingWhitespace l); [done|].
      injection Eh as ->. simpl in Hws. by apply andb_prop in Hws as [Hws _].
  - simpl. apply Hacc.
Qed.

Lemma buildIndentProfile_char t c :
  pchar (buildIndentProfile t) = Some c → isSpaceOrTab c = true.
Proof.
  unfold buildIndentProfile. simpl.
  assert (H : ∀ ls acc, (∀ c, accChar acc = Some c → isSpaceOrTab c = true) →
                        ∀ c, accChar (fold_left profileStep ls acc) = Some c →
                             isSpaceOrTab c = true).
  { induction ls as [|l ls IH]; intros acc Hacc; simpl; [done|].
    apply IH. by apply profileStep_char. }
  apply H. simpl. done.
Qed.

Lemma detectIndentChar_blank t : isSpaceOrTab (detectIndentChar t) = true.
Proof.
  unfold detectIndentChar.
  induction (splitLines t) as [|l ls IH]; [done|]. simpl.
  destruct (getLeadingWhitespace_spec l) as (rest & _ & Hws & _).
  destruct (getLeadingWhitespace l) as [|c ws]; [done|].
  simpl in *. by apply andb_prop in Hws as [Hws _].
Qed.

(** A text rebuilt from its lines, each line changed in its leading
    whitespace only. *)
Lemma joinLines_map_frame (f : jsstring → jsstring) t :
  (∀ l, LF ∉ l → trimStart (f l) = trimStart l ∧ LF ∉ f l) →
  length (splitLines (joinLines (map f (splitLines t)))) = length (splitLines t)
  ∧ map trimStart (splitLines (joinLines (map f (splitLines t))))
    = map trimStart (splitLines t).
Proof.
  intros Hf.
  pose proof (splitLines_no_LF t) as Hall.
  pose proof (splitLines_nonempty t) as Hne.
  rewrite splitLines_joinLines.
  - rewrite length_map. split; [done|].
    rewrite <- list_fmap_compose. apply Forall_fmap_ext.
    eapply Forall_impl; [exact Hall|]. intros l Hl. simpl. by apply Hf.
  - by destruct (splitLines t).
  - apply Forall_fmap. eapply Forall_impl; [exact Hall|]. intros l Hl. by apply Hf.
Qed.

Lemma replicate_blank n c :
  isSpaceOrTab c = true →
  forallb isWhitespace (replicate n c) = true ∧ LF ∉ replicate n c.
Proof.
  intros Hc. apply forallb_isSpaceOrTab_ws.
  induction n as [|n IH]; [done|]. simpl. by rewrite Hc, IH.
Qed.

Lemma trimStart_no_LF (l : jsstring) : LF ∉ l → LF ∉ trimStart l.
Proof.
  intros H Hin. apply H. destruct (trimStart_suffix l) as (ws & Hl & _).
  rewrite Hl. apply elem_of_app. by right.
Qed.

Lemma convertLeadingTabsToSpaces_frame t n :
  length (splitLines (convertLeadingTabsToSpaces t n)) = length (splitLines t)
  ∧ map trimStart (splitLines (convertLeadingTabsToSpaces t n))
    = map trimStart (splitLines t).
Proof.
  unfold convertLeadingTabsToSpaces. destruct (n =? 0); [done|].
  apply joinLines_map_frame. intros l Hl. cbv zeta.
  destruct (length (trimStart l) =? 0); [done|].
  destruct (_ || _); [done|].
  destruct (replicate_blank (length (getLeadingWhitespace l) * n) 32%N eq_refl) as [Hw Hlf].
  split.
  - rewrite trimStart_ws_app by done. apply trimStart_idem.
  - rewrite elem_of_app. intros [H|H]; [done|]. by apply trimStart_no_LF in H.
Qed.

Lemma shiftIndent_frame t (delta : Z) ic :
  isSpaceOrTab ic = true →
  let f := λ l : jsstring,
             if isBlankLine l then l
             else if (0 <? delta)%Z then replicate (Z.to_nat delta) ic ++ l
             else drop (Nat.min (Z.to_nat (- delta)) (countLeadingWhitespace l)) l in
  length (splitLines (joinLines (map f (splitLines t)))) = length (splitLines t)
  ∧ map trimStart (splitLines (joinLines (map f (splitLines t))))
    = map trimStart (splitLines t).
Proof.
  intros Hic f. apply joinLines_map_frame. intros l Hl. unfold f.
  destruct (isBlankLine l); [done|].
  destruct (0 <? delta)%Z.
  - destruct (replicate_blank (Z.to_nat delta) ic Hic) as [Hw Hlf]. split.
    + by apply trimStart_ws_app.
    + rewrite elem_of_app. tauto.
  - destruct (drop_leading_spec l (Nat.min (Z.to_nat (- delta)) (countLeadingWhitespace l))
                ltac:(lia)) as [H1 H2]. auto.
Qed.

(** X20.  [adjustIndentation] changes the leading whitespace of lines
    and nothing else: the text it returns has as many lines as the new
    text, and each line, without its leading whitespace, is the line of the
    new text without its leading whitespace. *)
Theorem adjustIndentation_changes_indent_only (oldText actualText newText : jsstring) :
  let out := adjustIndentation oldText actualText newText in
  length (splitLines out) = length (splitLines newText)
  ∧ map trimStart (splitLines out) = map trimStart (splitLines newText).
Proof.
  unfold adjustIndentation. cbv zeta.
  destruct (streq oldText actualText); [done|].
  destruct (_ && _); [done|].
  destruct (_ || _ || _); [done|].
  destruct (_ || _ || _); [done|].
  destruct (match pchar (buildIndentProfile oldText) with Some _ => _ | None => _ end).
  { destruct (_ && _ && _ && _); [|done].
    destruct (forallb _ _); [|done]. apply convertLeadingTabsToSpaces_frame. }
  destruct (map _ (pairedLines _ _)) as [|delta deltas]; [done|].
  destruct (negb _); [done|].
  destruct (delta =? 0)%Z; [done|].
  destruct (match pchar (buildIndentProfile newText) with Some _ => _ | None => _ end); [done|].
  apply shiftIndent_frame.
  destruct (pchar (buildIndentProfile actualText)) as [c|] eqn:Ea.
  { by apply buildIndentProfile_char in Ea. }
  destruct (pchar (buildIndentProfile oldText)) as [c|] eqn:Eo.
  { by apply buildIndentProfile_char in Eo. }
  apply detectIndentChar_blank.
Qed.

(** ** The text of a match *)

Lemma joinLines_app (a b : list jsstring) :
  a ≠ [] → b ≠ [] → joinLines (a ++ b) = joinLines a ++ [LF] ++ joinLines b.
Proof.
  unfold joinLines, NL. intros Ha Hb. induction a as [|x a IH]; [done|].
  destruct a as [|y a].
  - simpl. by destruct b.
  - rewrite <- app_comm_cons. change ((y :: a) ++ b) with (y :: (a ++ b)).
    rewrite !join_cons2. rewrite app_comm_cons, IH by done.
    by rewrite <- !app_assoc.
Qed.

Lemma joinLines_app_prefix (w rest : list jsstring) :
  w ≠ [] → ∃ x, joinLines (w ++ rest) = joinLines w ++ x.
Proof.
  intros Hw. destruct rest as [|r rest].
  - exists []. by rewrite !app_nil_r.
  - rewrite joinLines_app by done. eauto.
Qed.

Lemma computeLineOffsetsFrom_lookup lines off k :
  k < length lines →
  computeLineOffsetsFrom lines off !! k
  = Some (off + length (joinLines (take k lines)) + (if k =? 0 then 0 else 1)).
Proof.
  revert off k. induction lines as [|l r IH]; intros off k Hk; [simpl in Hk; lia|].
  destruct k as [|k].
  - simpl. f_equal. lia.
  - simpl in Hk. cbn [computeLineOffsetsFrom lookup list_lookup].
    change ((off :: computeLineOffsetsFrom r
               (off + length l + match r with [] => 0 | _ :: _ => 1 end)) !! S k)
      with (computeLineOffsetsFrom r
              (off + length l + match r with [] => 0 | _ :: _ => 1 end) !! k).
    rewrite IH by lia. f_equal.
    destruct r as [|q r]; [simpl in Hk; lia|].
    cbn [take]. destruct k as [|k].
    + rewrite joinLines_singleton. simpl. lia.
    + cbn [take]. unfold joinLines, NL. rewrite join_cons2.
      rewrite !length_app. simpl. lia.
Qed.

(** The lines [start .. start + n - 1], joined, stand in the text at the
    offset computed for line [start], and that offset is on line
    [start + 1]. *)
Lemma window_in_content (lines : list jsstring) start n :
  Forall (λ l, LF ∉ l) lines →
  1 ≤ n → start + n ≤ length lines →
  let w := joinLines (slice start (start + n) lines) in
  let i := computeLineOffsets lines !!! start in
  joinLines lines = take i (joinLines lines) ++ w ++ drop (i + length w) (joinLines lines)
  ∧ length (splitLines (take i (joinLines lines))) = start + 1.
Proof.
  intros Hall Hn Hlen w i.
  assert (Hi : i = length (joinLines (take start lines)) + (if start =? 0 then 0 else 1)).
  { unfold i, computeLineOffsets.
    erewrite list_lookup_total_correct;
      [|apply computeLineOffsetsFrom_lookup; lia]. lia. }
  set (win := slice start (start + n) lines) in *.
  set (rest := drop (start + n) lines).
  assert (Hlines : lines = take start lines ++ win ++ rest).
  { unfold win, rest, slice. replace (start + n - start) with n by lia.
    rewrite <- (take_drop start lines) at 1. f_equal.
    rewrite <- (take_drop n (drop start lines)) at 1. f_equal.
    rewrite drop_drop. done. }
  assert (Hwin : win ≠ []).
  { intros H. apply (f_equal length) in H. unfold win, slice in H.
    rewrite length_take, length_drop in H. simpl in H. lia. }
  destruct (joinLines_app_prefix win rest Hwin) as [x Hx]. fold w in Hx.
  destruct start as [|s].
  - simpl in Hi. rewrite Hi.
    rewrite take_0 in Hlines. simpl in Hlines.
    assert (HJ : joinLines lines = w ++ x) by (rewrite Hlines at 1; exact Hx).
    rewrite HJ, take_0. simpl. rewrite drop_app_length. done.
  - assert (Hpre : take (S s) lines ≠ []).
    { destruct lines; [simpl in Hlen; lia|done]. }
    set (pre := take (S s) lines) in *.
    assert (HJ : joinLines lines = joinLines pre ++ [LF] ++ w ++ x).
    { rewrite Hlines at 1. rewrite joinLines_app; [|done|by destruct win].
      by rewrite Hx. }
    simpl in Hi.
    assert (Htake : take i (joinLines lines) = joinLines pre ++ [LF]).
    { rewrite HJ, Hi. rewrite app_assoc.
      rewrite take_app_length'; [done|]. rewrite length_app. simpl. lia. }
    assert (Hdrop : drop i (joinLines lines) = w ++ x).
    { rewrite HJ, Hi. rewrite app_assoc.
      rewrite drop_app_length'; [done|]. rewrite length_app. simpl. lia. }
    split.
    + rewrite Htake. rewrite <- drop_drop, Hdrop, drop_app_length.
      rewrite HJ. by rewrite <- !app_assoc.
    + rewrite Htake.
      assert (joinLines pre ++ [LF] = joinLines (pre ++ [[]])) as ->.
      { rewrite joinLines_app by done. done. }
      rewrite splitLines_joinLines.
      * rewrite length_app. unfold pre. rewrite length_take.
        change (length [[]]) with 1. lia.
      * by destruct pre.
      * apply Forall_app. split; [by apply Forall_take|].
        constructor; [apply not_elem_of_nil|done].
Qed.

Lemma coreStep_match content targetLines tn thr d st start :
  let lines := splitLines content in
  targetLines ≠ [] →
  start + length targetLines ≤ length lines →
  (∀ m, cBest st = Some m → matchInContent content m) →
  ∀ m, cBest (coreStep lines targetLines tn (computeLineOffsets lines) thr d st start)
       = Some m →
       matchInContent content m.
Proof.
  intros lines Hne Hlen Hst m. unfold coreStep.
  assert (Hnew : matchInContent content
                   (mkMatch (joinLines (slice start (start + length targetLines) lines))
                            (computeLineOffsets lines !!! start) (start + 1)
                            (windowScore tn
                               (normalizeLines
                                  (slice start (start + length targetLines) lines) d)
                               (length targetLines)))).
  { destruct (window_in_content lines start (length targetLines)
                (splitLines_no_LF content)) as [H1 H2]; [|done|].
    { destruct targetLines; [done|simpl; lia]. }
    assert (HJ : joinLines lines = content) by apply joinLines_splitLines.
    rewrite HJ in H1, H2.
    split; simpl; [done|]. unfold lineNumberAt. by rewrite H2. }
  destruct (fgt _ _).
  - simpl. by intros [= <-].
  - destruct (fgt _ _); simpl; apply Hst.
Qed.

Lemma findBestFuzzyMatchCore_match content targetLines thr d m :
  let lines := splitLines content in
  targetLines ≠ [] →
  best (findBestFuzzyMatchCore lines targetLines (computeLineOffsets lines) thr d) = Some m →
  matchInContent content m.
Proof.
  intros lines Hne. unfold findBestFuzzyMatchCore. simpl.
  set (tn := normalizeLines targetLines d).
  assert (H : ∀ starts st,
            Forall (λ s, s + length targetLines ≤ length lines) starts →
            (∀ m, cBest st = Some m → matchInContent content m) →
            ∀ m, cBest (fold_left
                          (coreStep lines targetLines tn (computeLineOffsets lines) thr d)
                          starts st) = Some m →
                 matchInContent content m).
  { induction starts as [|s starts IH]; intros st Hall Hst; simpl; [done|].
    apply Forall_cons in Hall as [Hs Hall]. apply IH; [done|].
    by apply coreStep_match. }
  apply H; [|done].
  apply Forall_forall. intros s Hs. apply elem_of_seq in Hs. lia.
Qed.

Lemma findBestFuzzyMatch_match content target thr m :
  best (findBestFuzzyMatch content target thr) = Some m → matchInContent content m.
Proof.
  unfold findBestFuzzyMatch.
  destruct (_ || _) eqn:E; [done|].
  apply orb_false_elim in E as [E _]. apply Nat.eqb_neq in E.
  assert (Hne : splitLines target ≠ []) by (by destruct (splitLines target)).
  destruct (_ <? _); [done|].
  destruct (best (findBestFuzzyMatchCore _ _ _ _ true)) as [b|] eqn:Eb.
  - destruct (_ && _).
    + destruct (best (findBestFuzzyMatchCore _ _ _ _ false)) as [nb|] eqn:Enb.
      * destruct (fgt _ _).
        -- rewrite Enb. intros [= <-]. by eapply findBestFuzzyMatchCore_match.
        -- rewrite Eb. intros [= <-]. by eapply findBestFuzzyMatchCore_match.
      * rewrite Eb. intros [= <-]. by eapply findBestFuzzyMatchCore_match.
    + rewrite Eb. intros [= <-]. by eapply findBestFuzzyMatchCore_match.
  - by rewrite Eb.
Qed.

(** X21.  Whatever [findMatch] reports, as the match or as the closest
    candidate, exact or fuzzy, is in the content: the reported text is the
    text that stands at the reported index, and the reported line is the
    line of that index.  So the replacement [replaceText] makes for a match
    takes out exactly the reported text and keeps what is before and after
    it. *)
Theorem findMatch_reports_text_of_content
    (content target : jsstring) (allowFuzzy : bool) (threshold : option float)
    (m : FuzzyMatch) :
  match_ (findMatch content target allowFuzzy threshold) = Some m
  ∨ closest (findMatch content target allowFuzzy threshold) = Some m →
  matchInContent content m
  ∧ ∀ new, ∃ before after,
      content = before ++ actualText m ++ after
      ∧ substitute content m new = before ++ new ++ after.
Proof.
  intros H.
  assert (Hm : matchInContent content m).
  { unfold findMatch in H. destruct (length target =? 0) eqn:El.
    { by destruct H. }
    destruct (indexOf target content) as [i|] eqn:Ei.
    - destruct (1 <? countOccurrences target content).
      { by destruct H. }
      destruct H as [H|H]; [|done]. simpl in H. injection H as <-.
      apply indexOf_Some in Ei as [Ei _]. split; simpl; done.
    - destruct (best (findBestFuzzyMatch content target _)) as [b|] eqn:Eb.
      2:{ by destruct H. }
      apply findBestFuzzyMatch_match in Eb.
      destruct (_ && _ && _).
      { simpl in H. by destruct H as [[= <-]|[= <-]]. }
      destruct (_ && _ && _ && _ && _).
      { simpl in H. by destruct H as [[= <-]|[= <-]]. }
      simpl in H. by destruct H as [[=]|[= <-]]. }
  split; [done|]. intros new.
  exists (take (startIndex m) content),
         (drop (startIndex m + length (actualText m)) content).
  split; [apply Hm|done].
Qed.

Lemma findMatch_reports_text_of_content_witness :
  ∃ m, match_ (findMatch (lit "x" ++ [LF] ++ lit "a  b" ++ [LF] ++ lit "y")
                         (lit "a b") true None) = Some m
       ∧ matchInContent (lit "x" ++ [LF] ++ lit "a  b" ++ [LF] ++ lit "y") m
       ∧ actualText m = lit "a  b".
Proof.
  eexists. split; [vm_compute; reflexivity|]. split; [|reflexivity].
  eapply (findMatch_reports_text_of_content _ (lit "a b") true None).
  left. vm_compute. reflexivity.
Defined.

(** ** The order of the operations in a batch *)

Lemma collect_touched_perm (a b : list Parsed) :
  a ≡ₚ b → collectExplicitlyTouchedLines a = collectExplicitlyTouchedLines b.
Proof.
  induction 1 as [|x l l' _ IH|x y l|l l' l'' _ IH1 _ IH2].
  - done.
  - by rewrite !collect_touched_cons, IH.
  - rewrite !collect_touched_cons. set_solver.
  - by rewrite IH1.
Qed.

Lemma editKey_targetOf p q : editKey p = editKey q → targetOf p = targetOf q.
Proof.
  unfold editKey, targetOf, annotate.
  destruct (spec p) as [r1|s1 e1|a1], (spec q) as [r2|s2 e2|a2]; simpl;
    try (intros H; by injection H).
  - intros H. injection H as H.
    apply digits_then_pipe_inj in H; try apply numberToString_digits.
    apply numberToString_inj in H. by rewrite H.
  - intros H. injection H as H. rewrite <- !app_assoc in H.
    pose proof H as H1.
    apply digits_then_colon_inj in H1; try apply numberToString_digits.
    rewrite H1 in H. apply app_inv_head in H. injection H as H.
    apply digits_then_pipe_inj in H; try apply numberToString_digits.
    apply numberToString_inj in H. by rewrite H.
  - intros H. injection H as H.
    apply digits_then_pipe_inj in H; try apply numberToString_digits.
    apply numberToString_inj in H. by rewrite H.
Qed.

Lemma NoDup_targets_keys (ps : list Parsed) :
  NoDup (map targetOf ps) → NoDup (map editKey ps).
Proof.
  induction ps as [|p ps IH]; simpl; [constructor|].
  rewrite !NoDup_cons. intros [Hp Hps]. split; [|auto].
  intros Hin. apply Hp. apply list_elem_of_fmap in Hin as (q & Hq & Hin).
  apply list_elem_of_fmap. exists q. split; [|done]. by apply editKey_targetOf.
Qed.

Lemma dedup_distinct_targets (ps : list Parsed) :
  NoDup (map targetOf ps) → dedup ∅ ps = ps.
Proof.
  intros H. apply dedup_distinct; [by apply NoDup_targets_keys|]. set_solver.
Qed.

Lemma bottomUp_sign a b :
  keyOf a ≠ keyOf b →
  if (0 <? bottomUp a b)%Z then appliedBefore (keyOf b) (keyOf a)
  else appliedBefore (keyOf a) (keyOf b).
Proof.
  unfold keyOf, bottomUp, appliedBefore. simpl. intros Hne.
  destruct (negb (_ =? 0)%Z) eqn:E1.
  - apply negb_true_iff, Z.eqb_neq in E1.
    destruct (0 <? _)%Z eqn:E; [apply Z.ltb_lt in E|apply Z.ltb_ge in E]; lia.
  - apply negb_false_iff, Z.eqb_eq in E1.
    destruct (negb (_ =? 0)%Z) eqn:E2.
    + apply negb_true_iff, Z.eqb_neq in E2.
      destruct (0 <? _)%Z eqn:E; [apply Z.ltb_lt in E|apply Z.ltb_ge in E]; lia.
    + apply negb_false_iff, Z.eqb_eq in E2. exfalso. apply Hne. f_equal; lia.
Qed.

Lemma appliedBefore_trans a b c :
  appliedBefore a b → appliedBefore b c → appliedBefore a c.
Proof. unfold appliedBefore. lia. Qed.

Lemma appliedBefore_asym a b : appliedBefore a b → appliedBefore b a → False.
Proof. unfold appliedBefore. lia. Qed.

Lemma insertBy_sorted x l :
  (∀ y, y ∈ l → keyOf x ≠ keyOf y) →
  StronglySorted (λ a b, appliedBefore (keyOf a) (keyOf b)) l →
  StronglySorted (λ a b, appliedBefore (keyOf a) (keyOf b)) (insertBy bottomUp x l).
Proof.
  intros Hne Hs. induction Hs as [|y r Hr IH Hy]; simpl.
  - repeat constructor.
  - pose proof (bottomUp_sign x y (Hne y ltac:(apply elem_of_cons; by left))) as Hsign.
    destruct (0 <? bottomUp x y)%Z.
    + constructor.
      * apply IH. intros z Hz. apply Hne. apply elem_of_cons. by right.
      * apply Forall_forall. intros z Hz. rewrite insertBy_perm in Hz.
        apply elem_of_cons in Hz as [->|Hz]; [done|].
        rewrite Forall_forall in Hy. by apply Hy.
    + constructor; [by constructor|].
      constructor; [done|]. apply Forall_forall. intros z Hz.
      rewrite Forall_forall in Hy. eapply appliedBefore_trans; [exact Hsign|by apply Hy].
Qed.

Lemma sortBy_sorted l :
  NoDup (map keyOf l) →
  StronglySorted (λ a b, appliedBefore (keyOf a) (keyOf b)) (sortBy bottomUp l).
Proof.
  induction l as [|x r IH]; simpl; [constructor|].
  rewrite NoDup_cons. intros [Hx Hr]. apply insertBy_sorted; [|auto].
  intros y Hy Heq. rewrite sortBy_perm in Hy. apply Hx.
  apply list_elem_of_fmap. eauto.
Qed.

Lemma annotate_erase i p : eraseIdx (annotate i p) = p ∧ keyOf (annotate i p) = targetOf p.
Proof. unfold annotate, targetOf, annotate. destruct p as [[r|s e|a] d]; done. Qed.

Lemma imap_annotate_erase (ps : list Parsed) :
  map eraseIdx (imap annotate ps) = ps
  ∧ map keyOf (imap annotate ps) = map targetOf ps
  ∧ Forall (λ a, keyOf a = targetOf (eraseIdx a)) (imap annotate ps).
Proof.
  assert (H : ∀ k, map eraseIdx (imap (λ i, annotate (k + i)) ps) = ps
                   ∧ map keyOf (imap (λ i, annotate (k + i)) ps) = map targetOf ps
                   ∧ Forall (λ a, keyOf a = targetOf (eraseIdx a))
                            (imap (λ i, annotate (k + i)) ps)).
  { induction ps as [|p ps IH]; intros k; [done|]. simpl.
    destruct (annotate_erase (k + 0) p) as [H1 H2].
    rewrite H1, H2.
    destruct (IH (S k)) as (I1 & I2 & I3).
    assert (Hext : imap ((λ i, annotate (k + i)) ∘ S) ps = imap (λ i, annotate (S k + i)) ps).
    { apply imap_ext. intros i x _. simpl. f_equal. lia. }
    rewrite Hext, I1, I2. split; [done|]. split; [done|].
    constructor; [by rewrite H1, H2|done]. }
  apply (H 0).
Qed.

Lemma sorted_erase (l : list Annotated) :
  Forall (λ a, keyOf a = targetOf (eraseIdx a)) l →
  StronglySorted (λ a b, appliedBefore (keyOf a) (keyOf b)) l →
  StronglySorted (λ p q, appliedBefore (targetOf p) (targetOf q)) (map eraseIdx l).
Proof.
  intros Hwf Hs. induction Hs as [|x r Hr IH Hx]; simpl; [constructor|].
  apply Forall_cons in Hwf as [Hwx Hwr]. constructor; [auto|].
  apply Forall_fmap. rewrite Forall_forall in Hx, Hwr. apply Forall_forall.
  intros z Hz. simpl. rewrite <- Hwx, <- (Hwr z Hz). by apply Hx.
Qed.

(** Operations with different targets come out of the sort in one order,
    whatever the order they went in. *)
Lemma sorted_order_unique (ps ps' : list Parsed) :
  ps ≡ₚ ps' → NoDup (map targetOf ps) →
  map eraseIdx (sortBy bottomUp (imap annotate ps))
  = map eraseIdx (sortBy bottomUp (imap annotate ps')).
Proof.
  intros Hperm Hnd.
  assert (Hnd' : NoDup (map targetOf ps')) by (by rewrite <- Hperm).
  destruct (imap_annotate_erase ps) as (E1 & K1 & W1).
  destruct (imap_annotate_erase ps') as (E2 & K2 & W2).
  apply (StronglySorted_unique_strong (λ p q, appliedBefore (targetOf p) (targetOf q))).
  - intros x1 x2 _ _ H1 H2. exfalso. by eapply appliedBefore_asym.
  - apply sorted_erase.
    + by rewrite sortBy_perm.
    + apply sortBy_sorted. by rewrite K1.
  - apply sorted_erase.
    + by rewrite sortBy_perm.
    + apply sortBy_sorted. by rewrite K2.
  - rewrite !sortBy_perm, E1, E2. done.
Qed.

Lemma applyEdit_erase lines touched st st' a a' :
  eraseIdx a = eraseIdx a' →
  fileLines st = fileLines st' → firstChangedLine st = firstChangedLine st' →
  fileLines (applyEdit lines touched st a) = fileLines (applyEdit lines touched st' a')
  ∧ firstChangedLine (applyEdit lines touched st a)
    = firstChangedLine (applyEdit lines touched st' a').
Proof.
  unfold eraseIdx. intros [= Hs Hd] Hf Hc. unfold applyEdit.
  rewrite <- Hs, <- Hd, <- Hf.
  destruct (aspec a) as [r|s e|af].
  - destruct (maybeExpandSingleLineMerge _ _ _ _);
      unfold replaceOrNoop; rewrite <- Hf, <- Hc; destruct (streq _ _); done.
  - unfold replaceOrNoop; rewrite <- Hf, <- Hc; destruct (streq _ _); done.
  - rewrite <- Hc. destruct (_ =? 0); done.
Qed.

Lemma fold_applyEdit_erase lines touched (l l' : list Annotated) st st' :
  map eraseIdx l = map eraseIdx l' →
  fileLines st = fileLines st' → firstChangedLine st = firstChangedLine st' →
  fileLines (fold_left (applyEdit lines touched) l st)
  = fileLines (fold_left (applyEdit lines touched) l' st')
  ∧ firstChangedLine (fold_left (applyEdit lines touched) l st)
    = firstChangedLine (fold_left (applyEdit lines touched) l' st').
Proof.
  revert l' st st'. induction l as [|a l IH]; intros [|a' l'] st st' Hm Hf Hc;
    simpl in *; try done.
  injection Hm as Ha Hd Hl.
  assert (He : eraseIdx a = eraseIdx a') by (unfold eraseIdx; by rewrite Ha, Hd).
  destruct (applyEdit_erase lines touched st st' a a' He Hf Hc) as [H1 H2].
  by apply IH.
Qed.

Lemma applyValidated_perm lines n n' (ps ps' : list Parsed) :
  ps ≡ₚ ps' → NoDup (map targetOf ps) →
  Engine.content (applyValidated lines n ps) = Engine.content (applyValidated lines n' ps')
  ∧ resFirstChangedLine (applyValidated lines n ps)
    = resFirstChangedLine (applyValidated lines n' ps').
Proof.
  intros Hperm Hnd.
  assert (Hnd' : NoDup (map targetOf ps')) by (by rewrite <- Hperm).
  unfold applyValidated. simpl.
  rewrite !dedup_distinct_targets by done.
  rewrite (collect_touched_perm ps ps' Hperm).
  destruct (fold_applyEdit_erase lines (collectExplicitlyTouchedLines ps')
              (sortBy bottomUp (imap annotate ps)) (sortBy bottomUp (imap annotate ps'))
              (mkState lines None []) (mkState lines None [])
              (sorted_order_unique ps ps' Hperm Hnd) eq_refl eq_refl) as [H1 H2].
  by rewrite H1, H2.
Qed.

(** X22.  The operations of a batch can be submitted in any order.  A
    batch and a rearrangement of it both fail or both succeed; and when, in
    the batch as validated, no two operations have the same target (the
    same line to sort by with the same precedence), both give the same text
    and the same first changed line. *)
Theorem batch_order_is_irrelevant
    (content : jsstring) (edits edits' : list HashlineEdit) :
  let lines := splitLines content in
  edits ≡ₚ edits' →
  (∀ parsed validated,
     mapE parseEdit edits = inr parsed →
     validateAll lines (uniqueLineByHash lines) parsed [] = inr (validated, []) →
     NoDup (map targetOf validated)) →
  sameText (applyHashlineEdits content edits) (applyHashlineEdits content edits').
Proof.
  intros lines Hperm Hdistinct.
  destruct edits as [|e0 edits0].
  { apply Permutation_nil_l in Hperm. subst edits'. unfold applyHashlineEdits. simpl.
    split; reflexivity. }
  set (edits := e0 :: edits0) in *.
  assert (Hne : edits ≠ []) by done.
  assert (Hne' : edits' ≠ []).
  { intros ->. by apply Permutation_nil_r in Hperm. }
  assert (Hto : ∀ es es' res, es ≠ [] → es' ≠ [] → es ≡ₚ es' →
            applyHashlineEdits content es = inr res →
            ∃ P P' Q',
              Forall2 (λ x y, parseEdit x = inr y) es P
              ∧ Forall2 (λ p p', validateEdit lines (uniqueLineByHash lines) p []
                                 = inr (p', [])) P P'
              ∧ P' ≡ₚ Q'
              ∧ res = applyValidated lines (length es) P'
              ∧ applyHashlineEdits content es'
                = inr (applyValidated lines (length es') Q')).
  { intros es es' res H1 H2 Hp Hres.
    apply applyHashlineEdits_inr in Hres as (P & P' & HP & HV & ->); [|done].
    destruct (Permutation_Forall2 Hp HP) as (Q & HPQ & HQ).
    destruct (Permutation_Forall2 HPQ HV) as (Q' & HPQ' & HQ').
    exists P, P', Q'. repeat split; try done.
    apply applyHashlineEdits_inr; [done|]. eauto. }
  destruct (applyHashlineEdits content edits) as [err|res] eqn:E1;
    destruct (applyHashlineEdits content edits') as [err'|res'] eqn:E2;
    simpl; try done.
  - destruct (Hto edits' edits res' Hne' Hne ltac:(by symmetry) E2)
      as (P & P' & Q' & _ & _ & _ & _ & H). congruence.
  - destruct (Hto edits edits' res Hne Hne' Hperm E1)
      as (P & P' & Q' & _ & _ & _ & _ & H). congruence.
  - destruct (Hto edits edits' res Hne Hne' Hperm E1)
      as (P & P' & Q' & HP & HV & HPQ & -> & H).
    rewrite E2 in H. injection H as ->.
    apply applyValidated_perm; [done|].
    apply (Hdistinct P P'); [by apply mapE_Forall2|by apply validateAll_Forall2].
Qed.

Lemma batch_order_is_irrelevant_witness :
  let content := lit "aaa" ++ [LF] ++ lit "bbb" ++ [LF] ++ lit "ccc" in
  sameText
    (applyHashlineEdits content [SetLine (lit "1:5f") (lit "A"); InsertAfter (lit "3:00") (lit "D")])
    (applyHashlineEdits content [InsertAfter (lit "3:00") (lit "D"); SetLine (lit "1:5f") (lit "A")]).
Proof.
  apply (batch_order_is_irrelevant (lit "aaa" ++ [LF] ++ lit "bbb" ++ [LF] ++ lit "ccc")).
  - apply perm_swap.
  - intros parsed validated Hp Hv.
    vm_compute in Hp. injection Hp as <-.
    vm_compute in Hv. injection Hv as <-.
    apply NoDup_cons. split; [|apply NoDup_singleton].
    intros H. apply list_elem_of_singleton in H. discriminate H.
Defined.
(** ** The first changed line *)

Lemma validateEdit_firstLine lines p p' :
  validateEdit lines (uniqueLineByHash lines) p [] = inr (p', []) →
  1 ≤ firstLine (spec p') ≤ length lines + 1.
Proof.
  destruct p as [[ref|rs re|after] dst].
  - unfold validateEdit. simpl.
    destruct (validateOrRelocateRef _ _ ref []) as [e|[[st r'] ms1]] eqn:Ev; [done|].
    simpl. intros [= <- ->]. simpl.
    pose proof (validateOrRelocateRef_cases _ _ _ _ _ _ _ Ev) as Hc.
    pose proof (validateOrRelocateRef_inv _ _ _ _ _ _ Ev) as (_ & _ & Hok).
    destruct Hc as [(-> & _)|[(-> & _)|(_ & m & Hm)]];
      [destruct (Hok _ eq_refl) as (_ & ? & _); lia
      |destruct (Hok _ eq_refl) as (_ & ? & _); lia
      |simpl in Hm; done].
  - intros H. apply validateEdit_range_inv in H as (rs' & re' & -> & ? & ? & ? & _).
    simpl. lia.
  - unfold validateEdit. simpl. destruct (length dst =? 0); [done|].
    destruct (validateOrRelocateRef _ _ after []) as [e|[[st r'] ms1]] eqn:Ev; [done|].
    simpl. intros [= <- ->]. simpl.
    pose proof (validateOrRelocateRef_cases _ _ _ _ _ _ _ Ev) as Hc.
    pose proof (validateOrRelocateRef_inv _ _ _ _ _ _ Ev) as (_ & _ & Hok).
    destruct Hc as [(-> & _)|[(-> & _)|(_ & m & Hm)]];
      [destruct (Hok _ eq_refl) as (_ & ? & _); lia
      |destruct (Hok _ eq_refl) as (_ & ? & _); lia
      |simpl in Hm; done].
Qed.

Lemma maybeExpandSingleLineMerge_startLine fl touched ln dst m :
  maybeExpandSingleLineMerge fl touched ln dst = Some m →
  Engine.startLine m = ln ∨ (Engine.startLine m = ln - 1 ∧ 2 ≤ ln).
Proof.
  unfold maybeExpandSingleLineMerge. intros H.
  repeat (case_match; try done); simplify_eq; simpl; try (by left);
    right; (split; [done|]);
    match goal with
    | E : (2 <=? ln) && _ = true |- _ =>
        apply andb_prop in E as [E _]; by apply Nat.leb_le in E
    end.
Qed.

Lemma splice_unchangedAbove lines fl first start count (items : list jsstring) :
  1 ≤ start ≤ length lines + 1 →
  unchangedAbove lines first fl →
  unchangedAbove lines (trackFirstChanged start first) (splice (start - 1) count items fl).
Proof.
  intros Hs Hinv.
  assert (Hmain : ∀ n, 1 ≤ n ≤ start → take (n - 1) fl = take (n - 1) lines →
            take (n - 1) (splice (start - 1) count items fl) = take (n - 1) lines).
  { intros n Hn Ht.
    assert (Hlen : n - 1 ≤ length fl).
    { apply (f_equal length) in Ht. rewrite !length_take in Ht. lia. }
    unfold splice. rewrite take_app_le by (rewrite length_take; lia).
    rewrite take_take. replace ((n - 1) `min` (start - 1)) with (n - 1) by lia. done. }
  unfold unchangedAbove, trackFirstChanged in *. destruct first as [f|].
  - destruct Hinv as [Hf Ht]. destruct (start <? f) eqn:E.
    + apply Nat.ltb_lt in E. split; [lia|]. apply Hmain; [lia|].
      apply (f_equal (take (start - 1))) in Ht. rewrite !take_take in Ht.
      by replace ((start - 1) `min` (f - 1)) with (start - 1) in Ht by lia.
    + apply Nat.ltb_ge in E. split; [lia|]. apply Hmain; [lia|done].
  - subst fl. split; [lia|]. apply Hmain; [lia|done].
Qed.

Lemma replaceOrNoop_unchangedAbove lines st i ref orig next start count :
  1 ≤ start ≤ length lines + 1 →
  unchangedAbove lines (firstChangedLine st) (fileLines st) →
  let st' := replaceOrNoop st i ref orig next start count in
  unchangedAbove lines (firstChangedLine st') (fileLines st').
Proof.
  intros Hs Hinv. unfold replaceOrNoop. destruct (streq _ _); simpl; [done|].
  by apply splice_unchangedAbove.
Qed.

Lemma applyEdit_unchangedAbove lines touched st a :
  1 ≤ firstLine (aspec a) ≤ length lines + 1 →
  unchangedAbove lines (firstChangedLine st) (fileLines st) →
  let st' := applyEdit lines touched st a in
  unchangedAbove lines (firstChangedLine st') (fileLines st').
Proof.
  intros Hs Hinv. unfold applyEdit. destruct (aspec a) as [ref|rs re|after]; simpl in Hs.
  - destruct (maybeExpandSingleLineMerge _ _ _ _) as [m|] eqn:Em.
    + apply maybeExpandSingleLineMerge_startLine in Em.
      apply replaceOrNoop_unchangedAbove; [lia|done].
    + by apply replaceOrNoop_unchangedAbove.
  - by apply replaceOrNoop_unchangedAbove.
  - destruct (length _ =? 0); simpl; [done|].
    replace (line after) with (line after + 1 - 1) at 2 by lia.
    by apply splice_unchangedAbove.
Qed.

Lemma fold_applyEdit_unchangedAbove lines touched (l : list Annotated) st :
  Forall (λ a, 1 ≤ firstLine (aspec a) ≤ length lines + 1) l →
  unchangedAbove lines (firstChangedLine st) (fileLines st) →
  let st' := fold_left (applyEdit lines touched) l st in
  unchangedAbove lines (firstChangedLine st') (fileLines st').
Proof.
  intros Hl. revert st. induction Hl as [|a r Ha _ IH]; intros st Hinv; [done|].
  simpl. apply IH. by apply applyEdit_unchangedAbove.
Qed.

Lemma dedup_subseteq seen parsed p : p ∈ dedup seen parsed → p ∈ parsed.
Proof.
  revert seen. induction parsed as [|q r IH]; intros seen; simpl; [done|].
  destruct (bool_decide _).
  - intros H. apply elem_of_cons. right. by eapply IH.
  - rewrite !elem_of_cons. intros [-> | H]; [by left|]. right. by eapply IH.
Qed.

Lemma annotate_aspec i p : aspec (annotate i p) = spec p.
Proof. unfold annotate. by destruct (spec p). Qed.

(** X23.  In the result of a batch, the lines above the first changed line
    are the lines of the original text, at their place; the first changed
    line is a line number between 1 and one more than the number of lines of
    the original text.  A result without a first changed line has the
    original text. *)
Theorem first_changed_line_bounds_the_change
    (content : jsstring) (edits : list HashlineEdit) (res : ApplyResult) :
  applyHashlineEdits content edits = inr res →
  (∃ fl, Engine.content res = joinLines fl
         ∧ unchangedAbove (splitLines content) (resFirstChangedLine res) fl)
  ∧ (resFirstChangedLine res = None → Engine.content res = content).
Proof.
  intros H.
  assert (Hex : ∃ fl, Engine.content res = joinLines fl
         ∧ unchangedAbove (splitLines content) (resFirstChangedLine res) fl).
  { destruct edits as [|e0 es].
    { injection H as <-. exists (splitLines content). simpl.
      by rewrite joinLines_splitLines. }
    apply applyHashlineEdits_inr in H as (parsed & parsed' & _ & Hval & ->); [|done].
    unfold applyValidated. simpl. eexists. split; [reflexivity|].
    apply fold_applyEdit_unchangedAbove; [|done].
    apply Forall_forall. intros a Ha. rewrite sortBy_perm in Ha.
    apply elem_of_lookup_imap in Ha as (i & p & -> & Hp).
    rewrite annotate_aspec.
    apply list_elem_of_lookup_2, dedup_subseteq in Hp.
    apply list_elem_of_lookup in Hp as [k Hk].
    destruct (Forall2_lookup_r _ _ _ _ _ Hval Hk) as (p0 & _ & Hp0).
    by eapply validateEdit_firstLine. }
  split; [done|]. intros Hnone. destruct Hex as (fl & -> & Hinv).
  rewrite Hnone in Hinv. simpl in Hinv. subst fl. apply joinLines_splitLines.
Qed.

Lemma first_changed_line_bounds_the_change_witness :
  let content := lit "a" ++ [LF] ++ lit "b" ++ [LF] ++ lit "c" in
  ∃ res fl,
    applyHashlineEdits content [SetLine (formatRef 2 (computeLineHash 2 (lit "b"))) (lit "B")]
    = inr res
    ∧ resFirstChangedLine res = Some 2
    ∧ Engine.content res = joinLines fl
    ∧ unchangedAbove (splitLines content) (Some 2) fl.
Proof.
  intros content.
  destruct (applyHashlineEdits content
              [SetLine (formatRef 2 (computeLineHash 2 (lit "b"))) (lit "B")])
    as [e|res] eqn:E; [by vm_compute in E|].
  assert (Hf : resFirstChangedLine res = Some 2).
  { vm_compute in E. by injection E as <-. }
  destruct (first_changed_line_bounds_the_change content _ res E) as [(fl & Hc & Hu) _].
  exists res, fl. rewrite Hf in Hu.
  split; [reflexivity|]. split; [exact Hf|]. split; [exact Hc|exact Hu].
Defined.
(** ** Confusable hyphens *)

Lemma normalizeConfusableHyphens_changes l :
  hasConfusableHyphen l = true → normalizeConfusableHyphens l ≠ l.
Proof.
  unfold hasConfusableHyphen, normalizeConfusableHyphens.
  induction l as [|c r IH]; simpl; [done|].
  destruct (isConfusableHyphen c) eqn:Ec; simpl.
  - intros _ [= Hc _]. subst c. by vm_compute in Ec.
  - intros Hr [= Heq]. by apply IH.
Qed.

Lemma normalizeConfusableHyphens_clean l :
  hasConfusableHyphen (normalizeConfusableHyphens l) = false.
Proof.
  unfold hasConfusableHyphen, normalizeConfusableHyphens.
  induction l as [|c r IH]; simpl; [done|]. rewrite IH, orb_false_r.
  destruct (isConfusableHyphen c) eqn:Ec; [done|exact Ec].
Qed.

Lemma resolveReplacement_same lines l n :
  hasConfusableHyphen l = true →
  resolveReplacement lines [l] n n [l] = [normalizeConfusableHyphens l].
Proof.
  intros Hh. unfold resolveReplacement.
  assert (stripRangeBoundaryEcho lines n n [l] = [l]) as -> by done.
  assert (restoreOldWrappedLines [l] [l] = [l]) as -> by done.
  assert (restoreIndentForPairedReplacement [l] [l] = [l]) as ->.
  { unfold restoreIndentForPairedReplacement. simpl.
    rewrite restoreLeadingIndent_same. by rewrite bool_decide_eq_true_2. }
  unfold hyphenFallback, streq. rewrite bool_decide_eq_true_2 by done.
  simpl. by rewrite Hh.
Qed.

Lemma stripNewLinePrefixes_single l :
  l ≠ [] → LF ∉ l → matchHashlinePrefix l = None → matchDiffPlus l = None →
  stripNewLinePrefixes (splitDstLines l) = [l].
Proof.
  intros Hne Hlf Hh Hp. unfold splitDstLines.
  destruct l as [|c r]; [done|].
  rewrite splitLines_single by done. unfold stripNewLinePrefixes.
  rewrite filter_cons, decide_True by done. simpl filter.
  rewrite !filter_cons, !filter_nil. rewrite Hh, Hp.
  rewrite !decide_False by (intros [? ?]; done). done.
Qed.

(** X24.  A set_line that submits, as its text, the line as it stands in
    the file is not a no-op when the line holds a confusable hyphen (a
    Unicode dash or minus): the line is rewritten with every such character
    turned into the ASCII hyphen, and nothing else changes.  The line is one
    that is not read as a display row or a diff line, and for which merge
    expansion does not apply. *)
Theorem set_line_same_text_normalizes_hyphens
    (content anchor : jsstring) (ref ref' : LineRef) (relocated : bool) :
  let lines := splitLines content in
  let n := line ref' in
  let current := lines !!! (n - 1) in
  parseLineRef anchor = inr ref →
  validateOrRelocateRef lines (uniqueLineByHash lines) ref []
  = inr (RefOk relocated, ref', []) →
  matchHashlinePrefix current = None → matchDiffPlus current = None →
  maybeExpandSingleLineMerge lines {[n]} n [current] = None →
  hasConfusableHyphen current = true →
  ∃ res,
    applyHashlineEdits content [SetLine anchor current] = inr res
    ∧ Engine.content res
      = joinLines (<[n - 1 := normalizeConfusableHyphens current]> lines)
    ∧ Engine.content res ≠ content
    ∧ hasConfusableHyphen (normalizeConfusableHyphens current) = false
    ∧ resFirstChangedLine res = Some n
    ∧ resNoopEdits res = [].
Proof.
  intros lines n current Hparse Hval Hhp Hdp Hmerge Hh.
  assert (Hne : current ≠ []) by (intros E; by rewrite E in Hh).
  assert (Hrange : 1 ≤ n ≤ length lines).
  { pose proof (validateOrRelocateRef_inv _ _ _ _ _ _ Hval) as (_ & _ & Hok).
    destruct (Hok _ eq_refl) as (_ & ? & _). done. }
  assert (Hcur : lines !! (n - 1) = Some current).
  { apply list_lookup_lookup_total_lt. lia. }
  assert (Hlf : LF ∉ current).
  { pose proof (splitLines_no_LF content) as Hall. rewrite Forall_lookup in Hall.
    by apply (Hall (n - 1)). }
  assert (Hdst : stripNewLinePrefixes (splitDstLines current) = [current]).
  { by apply stripNewLinePrefixes_single. }
  destruct (set_line_apply content anchor current ref ref' relocated Hparse Hval)
    as [_ Happly].
  { rewrite Hdst. exact Hmerge. }
  rewrite Hdst in Happly. fold lines n current in Happly.
  rewrite resolveReplacement_same in Happly by done.
  pose proof (normalizeConfusableHyphens_changes current Hh) as Hchg.
  unfold replaceOrNoop, streq in Happly. rewrite !joinLines_singleton in Happly.
  rewrite bool_decide_eq_false_2 in Happly by done.
  assert (Hsp : splice (n - 1) 1 [normalizeConfusableHyphens current] lines
                = <[n - 1 := normalizeConfusableHyphens current]> lines).
  { unfold splice. rewrite insert_take_drop by lia.
    replace (n - 1 + 1) with (S (n - 1)) by lia. done. }
  eexists. split; [exact Happly|]. simpl. rewrite Hsp.
  split; [done|]. split.
  - intros Heq0.
    assert (Heq : joinLines (<[n - 1 := normalizeConfusableHyphens current]> lines)
                  = joinLines lines).
    { rewrite Heq0. unfold lines. by rewrite joinLines_splitLines. }
    assert (Hl : Forall (λ l, LF ∉ l) (<[n - 1 := normalizeConfusableHyphens current]> lines)).
    { apply Forall_insert; [apply splitLines_no_LF|].
      unfold normalizeConfusableHyphens. intros Hin.
      apply list_elem_of_fmap in Hin as (c & Hc & Hin).
      destruct (isConfusableHyphen c) eqn:Ec; [done|]. by subst c. }
    apply (f_equal splitLines) in Heq.
    rewrite !splitLines_joinLines in Heq;
      [|apply splitLines_nonempty|apply splitLines_no_LF| |done].
    + apply (f_equal (λ l, l !! (n - 1))) in Heq.
      rewrite list_lookup_insert_eq in Heq by lia. rewrite Hcur in Heq.
      by injection Heq.
    + intros E. apply (f_equal length) in E. rewrite length_insert in E.
      simpl in E. lia.
  - split; [apply normalizeConfusableHyphens_clean|done].
Qed.

Lemma set_line_same_text_normalizes_hyphens_witness :
  let l := [97; 32; 8211; 32; 98]%N in
  ∃ res,
    applyHashlineEdits l [SetLine (formatRef 1 (computeLineHash 1 l)) l] = inr res
    ∧ Engine.content res = [97; 32; 45; 32; 98]%N.
Proof.
  intros l.
  destruct (set_line_same_text_normalizes_hyphens l (formatRef 1 (computeLineHash 1 l))
              (mkRef 1 (computeLineHash 1 l)) (mkRef 1 (computeLineHash 1 l)) false
              ltac:(vm_compute; reflexivity) ltac:(vm_compute; reflexivity)
              ltac:(vm_compute; reflexivity) ltac:(vm_compute; reflexivity)
              ltac:(vm_compute; reflexivity) ltac:(vm_compute; reflexivity))
    as (res & H1 & H2 & _).
  exists res. split; [exact H1|]. rewrite H2. vm_compute. reflexivity.
Defined.
(** ** A set_line that merges two lines *)

Lemma maybeExpandSingleLineMerge_inv fl (touched : gset nat) ln dst m :
  maybeExpandSingleLineMerge fl touched ln dst = Some m →
  deleteCount m = 2 ∧ Engine.newLines m = dst ∧ length dst = 1
  ∧ 1 ≤ Engine.startLine m ∧ Engine.startLine m + 1 ≤ length fl
  ∧ ((Engine.startLine m = ln ∧ ln + 1 ∉ touched)
     ∨ (Engine.startLine m + 1 = ln ∧ Engine.startLine m ∉ touched)).
Proof.
  unfold maybeExpandSingleLineMerge. intros H.
  repeat (case_match; try done); simplify_eq; simpl;
    repeat match goal with
      | E : _ && _ = true |- _ => apply andb_prop in E as [? ?]
      | E : _ || _ = false |- _ => apply orb_false_elim in E as [? ?]
      | E : (_ <? _) = true |- _ => apply Nat.ltb_lt in E
      | E : (_ <? _) = false |- _ => apply Nat.ltb_ge in E
      | E : (_ <=? _) = true |- _ => apply Nat.leb_le in E
      | E : negb _ = true |- _ => apply negb_true_iff in E
      | E : bool_decide _ = false |- _ => apply bool_decide_eq_false in E
      end;
    (split; [done|]); (split; [done|]); (split; [done|]);
    (split; [lia|]); (split; [lia|]).
  all: first [by left | right; split; [lia|done]].
Qed.

Lemma restoreLeadingIndent_no_LF t l :
  LF ∉ t → LF ∉ l → LF ∉ restoreLeadingIndent t l.
Proof.
  intros Ht Hl. unfold restoreLeadingIndent.
  destruct (length l =? 0); [done|].
  destruct (length (leadingWhitespace t) =? 0); [done|].
  destruct (0 <? length (leadingWhitespace l)); [done|].
  rewrite elem_of_app. intros [H|H]; [|done]. apply Ht.
  destruct (spanWhile_spec isWhitespace t) as (Heq & _ & _).
  rewrite <- Heq. apply elem_of_app. by left.
Qed.

Lemma matchHashlinePrefix_suffix l r :
  matchHashlinePrefix l = Some r → ∃ p, l = p ++ r.
Proof.
  unfold matchHashlinePrefix.
  destruct (spanWhile_spec isDigit l) as (H1 & _ & _).
  destruct (spanWhile isDigit l) as [ds r1]. simpl in H1.
  destruct ds as [|d ds]; [done|]. destruct r1 as [|c r2]; [done|].
  destruct (c =? 58)%N; [|done].
  destruct (spanWhile_spec isAlnum r2) as (H2 & _ & _).
  destruct (spanWhile isAlnum r2) as [hs r3]. simpl in H2.
  destruct r3 as [|b r4]; [done|]. destruct (_ && _ && _); [|done].
  intros [= <-]. exists ((d :: ds) ++ c :: hs ++ [b]).
  rewrite <- H1, <- H2. rewrite <- app_assoc. simpl. by rewrite <- app_assoc.
Qed.

Lemma matchDiffPlus_suffix l r : matchDiffPlus l = Some r → ∃ p, l = p ++ r.
Proof.
  unfold matchDiffPlus. destruct l as [|c l]; [done|].
  destruct (c =? 43)%N; [|done].
  destruct l as [|d l'].
  - intros [= <-]. by exists [c].
  - destruct (d =? 43)%N; [done|]. intros [= <-]. by exists [c].
Qed.

Lemma stripNewLinePrefixes_no_LF t :
  Forall (λ l, LF ∉ l) (stripNewLinePrefixes (splitDstLines t)).
Proof.
  assert (H0 : Forall (λ l, LF ∉ l) (splitDstLines t)).
  { unfold splitDstLines. destruct t; [constructor|apply splitLines_no_LF]. }
  unfold stripNewLinePrefixes.
  destruct (_ =? 0); [done|]. destruct (negb _ && negb _); [done|].
  apply Forall_fmap. eapply Forall_impl; [exact H0|].
  intros l Hl. simpl.
  assert (Hs : ∀ o : option jsstring, (∀ r, o = Some r → ∃ p, l = p ++ r) →
               LF ∉ default l o).
  { intros [r|] Ho; [|done]. simpl. destruct (Ho r eq_refl) as [p ->].
    intros Hr. apply Hl, elem_of_app. by right. }
  destruct (_ && _).
  - apply Hs. apply matchHashlinePrefix_suffix.
  - destruct (_ && _ && _); [|done]. apply Hs. apply matchDiffPlus_suffix.
Qed.

Lemma slice_two (lines : list jsstring) s :
  1 ≤ s → s + 1 ≤ length lines →
  slice (s - 1) (s - 1 + 2) lines = [lines !!! (s - 1); lines !!! s].
Proof.
  intros H1 H2. unfold slice.
  destruct (lookup_lt_is_Some_2 lines (s - 1) ltac:(lia)) as [a Ha].
  destruct (lookup_lt_is_Some_2 lines s ltac:(lia)) as [b Hb].
  rewrite (list_lookup_total_correct _ _ _ Ha), (list_lookup_total_correct _ _ _ Hb).
  replace (s - 1 + 2 - (s - 1)) with 2 by lia.
  rewrite (drop_S _ _ _ Ha). replace (S (s - 1)) with s by lia.
  rewrite (drop_S _ _ _ Hb). done.
Qed.

(** X25.  A set_line, alone in its batch, whose anchor validates to line
    [n] and for which merge expansion applies: the replacement is one line,
    and it takes the place of two adjacent lines of the file, line [n] and
    the line after it or the line before it.  The new line is written with
    the indentation of the first of the two when it has none of its own;
    every other line stays, and the file has one line less. *)
Theorem set_line_merge_frame
    (content anchor new_text : jsstring) (ref ref' : LineRef) (relocated : bool)
    (m : Merge) :
  let lines := splitLines content in
  let dst := stripNewLinePrefixes (splitDstLines new_text) in
  let n := line ref' in
  let s := Engine.startLine m in
  parseLineRef anchor = inr ref →
  validateOrRelocateRef lines (uniqueLineByHash lines) ref []
  = inr (RefOk relocated, ref', []) →
  maybeExpandSingleLineMerge lines {[n]} n dst = Some m →
  ∃ res newLine,
    applyHashlineEdits content [SetLine anchor new_text] = inr res
    ∧ dst = [newLine]
    ∧ (s = n ∨ s + 1 = n) ∧ 1 ≤ s ∧ s + 1 ≤ length lines
    ∧ splitLines (Engine.content res)
      = take (s - 1) lines
        ++ [restoreLeadingIndent (lines !!! (s - 1)) newLine]
        ++ drop (s + 1) lines
    ∧ length (splitLines (Engine.content res)) + 1 = length lines
    ∧ resFirstChangedLine res = Some s
    ∧ resNoopEdits res = [].
Proof.
  intros lines dst n s Hparse Hval Hmerge.
  pose proof (maybeExpandSingleLineMerge_inv _ _ _ _ _ Hmerge)
    as (Hdc & Hnl & Hlen & Hs1 & Hs2 & Hcase).
  fold s in Hs1, Hs2, Hcase.
  destruct dst as [|newLine [|? ?]] eqn:Edst; try done.
  assert (Hnew : LF ∉ newLine).
  { pose proof (stripNewLinePrefixes_no_LF new_text) as Hall. fold dst in Hall.
    rewrite Edst in Hall. by apply Forall_inv in Hall. }
  pose proof (splitLines_no_LF content) as Hlines. fold lines in Hlines.
  set (x := restoreLeadingIndent (lines !!! (s - 1)) newLine).
  assert (Hx : LF ∉ x).
  { apply restoreLeadingIndent_no_LF; [|done].
    rewrite Forall_lookup in Hlines. apply (Hlines (s - 1)).
    apply list_lookup_lookup_total_lt. lia. }
  set (out := take (s - 1) lines ++ [x] ++ drop (s + 1) lines).
  assert (Happly : applyHashlineEdits content [SetLine anchor new_text]
                   = inr (mkResult (joinLines out) (Some s)
                            (reformatWarnings lines out 1) [])).
  { rewrite (applyHashlineEdits_validated content _ [mkParsed (Single ref) dst]
               [mkParsed (Single ref') dst]); [|done| |].
    - rewrite applyValidated_single. simpl touchedBy. fold lines. rewrite Edst.
      change (annotate 0 (mkParsed (Single ref') [newLine]))
        with (mkAnnotated (Single ref') [newLine] 0 (line ref') 0).
      unfold applyEdit. cbn [aspec adstLines fileLines idx firstChangedLine noopEdits].
      fold n.
      rewrite Hmerge. fold s. rewrite Hdc, Hnl.
      rewrite slice_two by done. simpl head. simpl default.
      assert (restoreIndentForPairedReplacement [lines !!! (s - 1)] [newLine] = [x]) as ->.
      { unfold restoreIndentForPairedReplacement. simpl. fold x.
        destruct (bool_decide _) eqn:E; simpl; [|done].
        by apply bool_decide_eq_true in E. }
      assert (Hjoin : joinLines [lines !!! (s - 1); lines !!! s] ≠ joinLines [x]).
      { rewrite joinLines_singleton. intros E. apply Hx. rewrite <- E.
        unfold joinLines, NL. simpl. apply elem_of_app. right. by left. }
      unfold hyphenFallback, streq. rewrite bool_decide_eq_false_2 by done. simpl.
      unfold replaceOrNoop, streq. rewrite bool_decide_eq_false_2 by done. simpl.
      unfold splice. replace (s - 1 + 2) with (s + 1) by lia. done.
    - simpl. rewrite (parseEdit_SetLine _ _ _ Hparse). fold dst. by rewrite Edst.
    - simpl. unfold validateEdit. simpl. fold lines. rewrite Hval. simpl.
      fold dst. by rewrite Edst. }
  eexists _, newLine. split; [exact Happly|]. simpl.
  assert (Hout : splitLines (joinLines out) = out).
  { apply splitLines_joinLines.
    - unfold out. intros E. apply (f_equal length) in E.
      rewrite !length_app in E. simpl in E. lia.
    - unfold out. rewrite !Forall_app. split; [by apply Forall_take|].
      split; [by constructor|by apply Forall_drop]. }
  rewrite Hout. split; [done|]. split; [destruct Hcase as [[? _]|[? _]]; lia|].
  split; [done|]. split; [done|]. split; [done|]. split; [|done].
  unfold out. rewrite !length_app, length_take, length_drop. simpl. lia.
Qed.

Lemma set_line_merge_frame_witness :
  let content := lit "const x = a +" ++ [LF] ++ lit "  b;" in
  ∃ res,
    applyHashlineEdits content
      [SetLine (formatRef 1 (computeLineHash 1 (lit "const x = a +")))
               (lit "const x = a + b;")] = inr res
    ∧ splitLines (Engine.content res) = [lit "const x = a + b;"].
Proof.
  intros content.
  destruct (set_line_merge_frame content
              (formatRef 1 (computeLineHash 1 (lit "const x = a +")))
              (lit "const x = a + b;")
              (mkRef 1 (computeLineHash 1 (lit "const x = a +")))
              (mkRef 1 (computeLineHash 1 (lit "const x = a +"))) false
              (mkMerge 1 2 [lit "const x = a + b;"])
              ltac:(vm_compute; reflexivity) ltac:(vm_compute; reflexivity)
              ltac:(vm_compute; reflexivity))
    as (res & newLine & H1 & H2 & _ & _ & _ & H3 & _).
  exists res. split; [exact H1|]. rewrite H3.
  vm_compute in H2. injection H2 as <-. vm_compute. reflexivity.
Defined.
(** ** Several set_line operations in one batch *)

(** Merge detection reads the array of lines at the line of the operation
    and at its two neighbours only, the next one only when it has no
    operation of its own. *)
Lemma maybeExpandSingleLineMerge_local fl fl' (touched : gset nat) ln dst :
  1 ≤ ln → ln ≤ length fl → ln ≤ length fl' →
  take ln fl = take ln fl' →
  (ln + 1 ∈ touched ∨ fl !! ln = fl' !! ln) →
  maybeExpandSingleLineMerge fl touched ln dst
  = maybeExpandSingleLineMerge fl' touched ln dst.
Proof.
  intros H1 Hl Hl' Ht Hnext.
  assert (Hlk : ∀ i, i < ln → fl !!! i = fl' !!! i).
  { intros i Hi. rewrite !list_lookup_total_alt.
    rewrite <- (lookup_take_lt fl ln i), <- (lookup_take_lt fl' ln i) by lia.
    by rewrite Ht. }
  unfold maybeExpandSingleLineMerge.
  destruct dst as [|newLine [|? ?]]; try done.
  assert ((length fl <? ln) = false) as -> by (apply Nat.ltb_ge; lia).
  assert ((length fl' <? ln) = false) as -> by (apply Nat.ltb_ge; lia).
  rewrite (Hlk (ln - 1)), (Hlk (ln - 2)) by lia.
  destruct (decide (ln + 1 ∈ touched)) as [Hin|Hnin].
  - rewrite (bool_decide_eq_true_2 _ Hin). cbn [negb]. rewrite !andb_false_r. done.
  - destruct Hnext as [?|Hnext]; [done|].
    assert ((ln <? length fl) = (ln <? length fl')) as ->.
    { destruct (fl !! ln) as [x|] eqn:E.
      - symmetry in Hnext. apply lookup_lt_Some in E, Hnext.
        transitivity true; [|symmetry]; apply Nat.ltb_lt; lia.
      - symmetry in Hnext. apply lookup_ge_None in E, Hnext.
        transitivity false; [|symmetry]; apply Nat.ltb_ge; lia. }
    assert (fl !!! ln = fl' !!! ln) as ->.
    { by rewrite !list_lookup_total_alt, Hnext. }
    done.
Qed.

Lemma outcomesFrom_step lines ps b l :
  lines !! b = Some l →
  outcomesFrom lines ps b = lineOutcome lines ps (b + 1) l ++ outcomesFrom lines ps (S b).
Proof.
  intros Hl. unfold outcomesFrom. rewrite (drop_S _ _ _ Hl). simpl.
  replace (b + 0 + 1) with (b + 1) by lia. f_equal. f_equal.
  apply imap_ext. intros i x _. simpl. f_equal. lia.
Qed.

Lemma outcomesFrom_end lines ps b : length lines ≤ b → outcomesFrom lines ps b = [].
Proof. intros H. unfold outcomesFrom. by rewrite drop_ge. Qed.

Lemma lineOutcome_none lines ps n l :
  List.find (λ p, firstLine (spec p) =? n) ps = None → lineOutcome lines ps n l = [l].
Proof. intros H. unfold lineOutcome. by rewrite H. Qed.

(** Lines without an operation stay in place. *)
Lemma outcomesFrom_weaken lines ps b b' :
  b' ≤ b → b ≤ length lines →
  (∀ n, b' < n ≤ b → List.find (λ p, firstLine (spec p) =? n) ps = None) →
  take b' lines ++ outcomesFrom lines ps b' = take b lines ++ outcomesFrom lines ps b.
Proof.
  intros Hle Hb Hnone. induction Hle as [|b Hle IH]; [done|].
  rewrite IH; [|lia|intros n Hn; apply Hnone; lia].
  destruct (lookup_lt_is_Some_2 lines b ltac:(lia)) as [l Hl].
  rewrite (outcomesFrom_step _ _ _ _ Hl), lineOutcome_none by (apply Hnone; lia).
  rewrite (take_S_r _ _ _ Hl). by rewrite <- app_assoc.
Qed.

Lemma find_single (ps : list Parsed) p :
  NoDup (map (λ p, firstLine (spec p)) ps) → p ∈ ps →
  List.find (λ q, firstLine (spec q) =? firstLine (spec p)) ps = Some p.
Proof.
  induction ps as [|q r IH]; intros Hnd Hin; [by apply elem_of_nil in Hin|].
  simpl in Hnd. apply NoDup_cons in Hnd as [Hq Hnd]. simpl.
  apply elem_of_cons in Hin as [-> | Hin].
  - by rewrite Nat.eqb_refl.
  - destruct (firstLine (spec q) =? firstLine (spec p)) eqn:E; [|by apply IH].
    apply Nat.eqb_eq in E. exfalso. apply Hq. rewrite E.
    apply list_elem_of_fmap. by exists p.
Qed.

Lemma fold_set_lines lines ps (touched : gset nat) (todo : list Annotated) st b :
  (∀ p, p ∈ ps → firstLine (spec p) ∈ touched) →
  Forall (λ a, ∃ ref, aspec a = Single ref ∧ 1 ≤ line ref ≤ b
               ∧ List.find (λ p, firstLine (spec p) =? line ref) ps = Some (eraseIdx a)
               ∧ maybeExpandSingleLineMerge lines touched (line ref) (adstLines a) = None)
         todo →
  StronglySorted (λ x y, firstLine (aspec y) < firstLine (aspec x)) todo →
  (∀ p, p ∈ ps → firstLine (spec p) ≤ b →
        ∃ a, a ∈ todo ∧ firstLine (aspec a) = firstLine (spec p)) →
  b ≤ length lines →
  fileLines st = take b lines ++ outcomesFrom lines ps b →
  fileLines (fold_left (applyEdit lines touched) todo st) = outcomesFrom lines ps 0.
Proof.
  intros Htouched Hall Hsorted. revert st b Hall.
  induction Hsorted as [|a rest Hrest IH Ha]; intros st b Hall Hcover Hb Hst.
  - simpl. rewrite Hst. symmetry.
    rewrite <- (outcomesFrom_weaken lines ps b 0); [done|lia|done|].
    intros n Hn. destruct (List.find _ ps) as [p|] eqn:E; [|done].
    apply find_some in E as [Hp E]. apply Nat.eqb_eq in E.
    destruct (Hcover p) as (a & Ha & _); [by apply list_elem_of_In|lia|].
    by apply elem_of_nil in Ha.
  - apply Forall_cons in Hall as [(ref & Hspec & Hr & Hfind & Hmerge) Hall].
    set (L := line ref) in *.
    assert (HaL : firstLine (aspec a) = L) by (by rewrite Hspec).
    assert (Hrest_lt : Forall (λ y, firstLine (aspec y) < L) rest).
    { by rewrite <- HaL. }
    (* no operation on the lines between [L] and [b] *)
    assert (Hgap : ∀ n, L < n ≤ b →
              List.find (λ p, firstLine (spec p) =? n) ps = None).
    { intros n Hn.
      destruct (List.find (λ p, firstLine (spec p) =? n) ps) as [p|] eqn:E; [|done].
      apply find_some in E as [Hp E]. apply Nat.eqb_eq in E.
      destruct (Hcover p) as (a' & Ha' & Hl'); [by apply list_elem_of_In|lia|].
      apply elem_of_cons in Ha' as [-> | Ha'].
      - rewrite HaL in Hl'. lia.
      - rewrite Forall_forall in Hrest_lt. specialize (Hrest_lt _ Ha'). lia. }
    assert (HstL : fileLines st = take L lines ++ outcomesFrom lines ps L).
    { rewrite Hst. symmetry. apply outcomesFrom_weaken; [lia|lia|done]. }
    destruct (lookup_lt_is_Some_2 lines (L - 1) ltac:(lia)) as [l Hl].
    assert (Hcur : lines !!! (L - 1) = l) by (by apply list_lookup_total_correct).
    (* merge detection sees the original lines *)
    assert (Hm : maybeExpandSingleLineMerge (fileLines st) touched L (adstLines a) = None).
    { rewrite <- Hmerge. apply maybeExpandSingleLineMerge_local.
      - lia.
      - rewrite HstL, length_app, length_take. lia.
      - lia.
      - rewrite HstL. rewrite take_app_le by (rewrite length_take; lia).
        rewrite take_take. f_equal. lia.
      - destruct (List.find (λ p, firstLine (spec p) =? L + 1) ps) as [p|] eqn:E.
        + left. apply find_some in E as [Hp E]. apply Nat.eqb_eq in E.
          rewrite <- E. apply Htouched. by apply list_elem_of_In.
        + right. rewrite HstL.
          rewrite lookup_app_r by (rewrite length_take; lia).
          rewrite length_take. replace (L - L `min` length lines) with 0 by lia.
          destruct (lines !! L) as [x|] eqn:Ex.
          * rewrite (outcomesFrom_step _ _ _ _ Ex), lineOutcome_none by done. done.
          * apply lookup_ge_None in Ex. by rewrite outcomesFrom_end. }
    simpl. apply (IH _ (L - 1)).
    + eapply Forall_impl.
      * apply Forall_and. split; [exact Hall|exact Hrest_lt].
      * intros y [(r & Hy & Hyr & Hyf & Hym) Hlt]. simpl in Hlt.
        exists r. rewrite Hy in Hlt. simpl in Hlt. repeat split; try done; lia.
    + intros p Hp Hle.
      destruct (Hcover p Hp ltac:(lia)) as (a' & Ha' & Hl').
      apply elem_of_cons in Ha' as [-> | Ha']; [rewrite HaL in Hl'; lia|].
      by exists a'.
    + lia.
    + destruct a as [sp dst i sl pr]. simpl in Hspec, Hm, Hfind, Hmerge. subst sp.
      unfold applyEdit. cbn [aspec adstLines idx]. fold L. rewrite Hm.
      rewrite slice_one by lia. rewrite Hcur.
      unfold replaceOrNoop.
      assert (Hout : outcomesFrom lines ps (L - 1)
                = (if streq (joinLines [l])
                            (joinLines (resolveReplacement lines [l] L L dst))
                   then [l] else resolveReplacement lines [l] L L dst)
                  ++ outcomesFrom lines ps L).
      { rewrite (outcomesFrom_step _ _ _ _ Hl).
        replace (L - 1 + 1) with L by lia. replace (S (L - 1)) with L by lia.
        unfold lineOutcome. rewrite Hfind. done. }
      rewrite Hout.
      assert (HtakeL : take L lines = take (L - 1) lines ++ [l]).
      { replace L with (S (L - 1)) at 1 by lia. by apply take_S_r. }
      assert (Hlen1 : length (take (L - 1) lines) = L - 1).
      { rewrite length_take. lia. }
      destruct (streq _ _); cbn [fileLines].
      * rewrite HstL, HtakeL. by rewrite <- !app_assoc.
      * rewrite HstL, HtakeL. unfold splice. rewrite <- !app_assoc.
        rewrite take_app_le by lia. rewrite take_ge by lia.
        f_equal. f_equal.
        rewrite drop_app_ge by lia. rewrite Hlen1.
        replace (L - 1 + 1 - (L - 1)) with 1 by lia. done.
Qed.

Lemma validateEdit_single_range lines p p' ref :
  validateEdit lines (uniqueLineByHash lines) p [] = inr (p', []) →
  spec p' = Single ref → 1 ≤ line ref ≤ length lines.
Proof.
  destruct p as [[r|rs re|after] dst]; unfold validateEdit; simpl.
  - destruct (validateOrRelocateRef _ _ r []) as [e|[[st r'] ms1]] eqn:Ev; [done|].
    simpl. intros [= <- ->]. simpl. intros [= ->].
    pose proof (validateOrRelocateRef_cases _ _ _ _ _ _ _ Ev) as Hc.
    pose proof (validateOrRelocateRef_inv _ _ _ _ _ _ Ev) as (_ & _ & Hok).
    destruct Hc as [(-> & _)|[(-> & _)|(_ & m & Hm)]];
      [destruct (Hok _ eq_refl) as (_ & ? & _); lia
      |destruct (Hok _ eq_refl) as (_ & ? & _); lia
      |simpl in Hm; done].
  - intros H Hs. exfalso. revert H.
    destruct (line re <? line rs); [done|].
    destruct (validateOrRelocateRef _ _ rs []) as [e|[[st1 s1] ms1]]; [done|]. simpl.
    destruct (validateOrRelocateRef _ _ re ms1) as [e|[[st2 e1] ms2]]; [done|]. simpl.
    destruct st1, st2; try (intros [= <- _]; done).
    destruct (_ && _); intros [= <- _]; done.
  - destruct (length dst =? 0); [done|].
    destruct (validateOrRelocateRef _ _ after []) as [e|[[st r'] ms1]]; [done|].
    simpl. intros [= <- _]. done.
Qed.

Lemma StronglySorted_impl_elem {A} (R R' : A → A → Prop) (l : list A) :
  (∀ x y, x ∈ l → y ∈ l → R x y → R' x y) →
  StronglySorted R l → StronglySorted R' l.
Proof.
  intros Himpl Hs. induction Hs as [|x r Hr IH Hx]; [constructor|].
  constructor.
  - apply IH. intros a b Ha Hb. apply Himpl; apply elem_of_cons; by right.
  - rewrite Forall_forall in Hx. apply Forall_forall. intros y Hy.
    apply Himpl; [apply elem_of_cons; by left|apply elem_of_cons; by right|].
    by apply Hx.
Qed.

(** X26.  A batch of set_line operations on distinct lines, for none of
    which merge expansion applies: every operation works on the line that
    has its number in the original text, whatever the other operations
    insert or delete.  The resulting text is the original one, each line
    with an operation replaced by the resolved replacement of that operation
    (or kept, when the replacement is no change), the other lines kept. *)
Theorem set_lines_use_original_line_numbers
    (content : jsstring) (edits : list HashlineEdit) (parsed validated : list Parsed) :
  let lines := splitLines content in
  edits ≠ [] →
  mapE parseEdit edits = inr parsed →
  validateAll lines (uniqueLineByHash lines) parsed [] = inr (validated, []) →
  Forall (λ p, ∃ ref, spec p = Single ref
               ∧ maybeExpandSingleLineMerge lines
                   (collectExplicitlyTouchedLines validated) (line ref) (dstLines p)
                 = None) validated →
  NoDup (map (λ p, firstLine (spec p)) validated) →
  ∃ res,
    applyHashlineEdits content edits = inr res
    ∧ Engine.content res
      = joinLines (concat (imap (λ i l, lineOutcome lines validated (i + 1) l) lines)).
Proof.
  intros lines Hne Hparse Hval Hall Hnd.
  rewrite (applyHashlineEdits_validated _ _ _ _ Hne Hparse Hval). fold lines.
  eexists. split; [reflexivity|].
  unfold applyValidated. cbn [Engine.content]. f_equal.
  assert (Hnd' : NoDup (map targetOf validated)).
  { assert (map targetOf validated
            = map (λ n, (n, 0)) (map (λ p, firstLine (spec p)) validated)) as ->.
    { rewrite map_map. apply map_ext_Forall. eapply Forall_impl; [exact Hall|].
      intros [sp d] (ref & Hs & _). simpl in Hs. subst sp. done. }
    apply NoDup_fmap_2; [|done]. intros x y [= ->]. done. }
  rewrite dedup_distinct_targets by done.
  apply validateAll_Forall2 in Hval as Hval2.
  assert (Helem : ∀ a, a ∈ sortBy bottomUp (imap annotate validated) →
            ∃ i p ref, validated !! i = Some p ∧ a = annotate i p
                       ∧ spec p = Single ref
                       ∧ a = mkAnnotated (Single ref) (dstLines p) i (line ref) 0).
  { intros a Ha. rewrite sortBy_perm in Ha.
    apply elem_of_lookup_imap in Ha as (i & p & -> & Hp).
    rewrite Forall_lookup in Hall. destruct (Hall i p Hp) as (ref & Hs & _).
    exists i, p, ref. split; [done|]. split; [done|]. split; [done|].
    unfold annotate. by rewrite Hs. }
  rewrite (fold_set_lines lines validated _ _ _ (length lines)).
  - unfold outcomesFrom. rewrite drop_0. f_equal.
  - intros p Hp. apply list_elem_of_lookup in Hp as [i Hp].
    rewrite Forall_lookup in Hall. destruct (Hall i p Hp) as (ref & Hs & _).
    unfold collectExplicitlyTouchedLines. apply collect_touched_acc. right.
    exists p. split; [by eapply list_elem_of_lookup_2|]. rewrite Hs. simpl. set_solver.
  - apply Forall_forall. intros a Ha.
    destruct (Helem a Ha) as (i & p & ref & Hp & _ & Hs & ->).
    exists ref. split; [done|]. simpl.
    destruct (Forall2_lookup_r _ _ _ _ _ Hval2 Hp) as (p0 & _ & Hp0).
    split; [by eapply validateEdit_single_range|].
    split.
    + assert (eraseIdx (mkAnnotated (Single ref) (dstLines p) i (line ref) 0) = p) as ->.
      { unfold eraseIdx. simpl. destruct p as [sp d]. simpl in *. by subst sp. }
      replace (line ref) with (firstLine (spec p)) by (by rewrite Hs).
      apply find_single; [done|]. by eapply list_elem_of_lookup_2.
    + rewrite Forall_lookup in Hall. destruct (Hall i p Hp) as (ref' & Hs' & Hm).
      rewrite Hs in Hs'. by injection Hs' as <-.
  - eapply StronglySorted_impl_elem; [|apply sortBy_sorted].
    + intros x y Hx Hy.
      destruct (Helem x Hx) as (i & p & ref & _ & _ & _ & ->).
      destruct (Helem y Hy) as (j & q & ref' & _ & _ & _ & ->).
      unfold appliedBefore, keyOf. simpl. lia.
    + destruct (imap_annotate_erase validated) as (_ & -> & _). done.
  - intros p Hp _. apply list_elem_of_lookup in Hp as [i Hp].
    exists (annotate i p). split.
    + rewrite sortBy_perm. apply elem_of_lookup_imap. by exists i, p.
    + by rewrite annotate_aspec.
  - done.
  - simpl. rewrite take_ge by done. rewrite outcomesFrom_end by done.
    by rewrite app_nil_r.
Qed.

Lemma set_lines_use_original_line_numbers_witness :
  let content := lit "a" ++ [LF] ++ lit "b" ++ [LF] ++ lit "c" in
  let edits :=
    [SetLine (formatRef 1 (computeLineHash 1 (lit "a"))) (lit "A" ++ [LF] ++ lit "A2");
     SetLine (formatRef 3 (computeLineHash 3 (lit "c"))) (lit "C")] in
  ∃ res,
    applyHashlineEdits content edits = inr res
    ∧ Engine.content res
      = lit "A" ++ [LF] ++ lit "A2" ++ [LF] ++ lit "b" ++ [LF] ++ lit "C".
Proof.
  intros content edits.
  set (ps := [mkParsed (Single (mkRef 1 (computeLineHash 1 (lit "a"))))
                       [lit "A"; lit "A2"];
              mkParsed (Single (mkRef 3 (computeLineHash 3 (lit "c")))) [lit "C"]]).
  assert (H4 : Forall (λ p, ∃ ref, spec p = Single ref
               ∧ maybeExpandSingleLineMerge (splitLines content)
                   (collectExplicitlyTouchedLines ps) (line ref) (dstLines p)
                 = None) ps).
  { repeat constructor; eexists; (split; [reflexivity|vm_compute; reflexivity]). }
  assert (H5 : NoDup (map (λ p, firstLine (spec p)) ps)).
  { cbn. apply NoDup_cons. split; [|apply NoDup_singleton].
    intros H. apply list_elem_of_singleton in H. discriminate. }
  destruct (set_lines_use_original_line_numbers content edits ps ps
              ltac:(done) ltac:(vm_compute; reflexivity) ltac:(vm_compute; reflexivity)
              H4 H5) as (res & H1 & H2).
  exists res. split; [exact H1|]. rewrite H2. vm_compute. reflexivity.
Defined.
(** ** A replacement and an insertion on the same line *)

Lemma sortBy_replace_then_insert (a0 a1 : Annotated) :
  sortLine a0 = sortLine a1 → precedence a0 = 0 → precedence a1 = 1 →
  sortBy bottomUp [a0; a1] = [a0; a1].
Proof.
  intros Hl H0 H1. simpl. unfold bottomUp. rewrite Hl, H0, H1, Z.sub_diag. done.
Qed.

(** X27.  A set_line and an insert_after whose anchors validate to the same
    line [n], in one batch of the two, in either order, when merge expansion
    does not apply to the set_line, its resolved replacement is a change of
    line [n], and the insertion is not empty once an echo of the anchor line
    is dropped: the replacement is applied first, then the insertion at
    index [n] of the array the replacement has left.  When the resolved
    replacement is one line, the inserted lines follow it; when it is empty
    (the line is deleted), the inserted lines land after the line that
    followed line [n].  The first changed line is [n]. *)
Theorem set_line_and_insert_after_same_line
    (content a1 t1 a2 t2 : jsstring) (ref1 ref1' ref2 ref2' : LineRef)
    (rel1 rel2 : bool) (edits : list HashlineEdit) :
  let lines := splitLines content in
  let n := line ref1' in
  let current := lines !!! (n - 1) in
  let dst1 := stripNewLinePrefixes (splitDstLines t1) in
  let dst2 := stripNewLinePrefixes (splitDstLines t2) in
  let resolved := resolveReplacement lines [current] n n dst1 in
  let ins := stripInsertAnchorEchoAfter current dst2 in
  let replaced := take (n - 1) lines ++ resolved ++ drop n lines in
  edits = [SetLine a1 t1; InsertAfter a2 t2]
  ∨ edits = [InsertAfter a2 t2; SetLine a1 t1] →
  parseLineRef a1 = inr ref1 → parseLineRef a2 = inr ref2 →
  validateOrRelocateRef lines (uniqueLineByHash lines) ref1 []
  = inr (RefOk rel1, ref1', []) →
  validateOrRelocateRef lines (uniqueLineByHash lines) ref2 []
  = inr (RefOk rel2, ref2', []) →
  line ref2' = n →
  maybeExpandSingleLineMerge lines {[n]} n dst1 = None →
  joinLines resolved ≠ current →
  ins ≠ [] →
  ∃ res,
    applyHashlineEdits content edits = inr res
    ∧ Engine.content res = joinLines (take n replaced ++ ins ++ drop n replaced)
    ∧ (∀ x, resolved = [x] →
         Engine.content res
         = joinLines (take (n - 1) lines ++ [x] ++ ins ++ drop n lines))
    ∧ (resolved = [] →
         Engine.content res
         = joinLines (take (n - 1) lines ++ take 1 (drop n lines) ++ ins
                      ++ drop (n + 1) lines))
    ∧ resFirstChangedLine res = Some n.
Proof.
  intros lines n current dst1 dst2 resolved ins replaced
    Hedits Hp1 Hp2 Hv1 Hv2 Hn Hmerge Hchg Hins.
  pose proof (validateOrRelocateRef_inv _ _ _ _ _ _ Hv1) as (_ & _ & Hok).
  destruct (Hok _ eq_refl) as (_ & Hrange & _). fold n in Hrange.
  assert (Hd2 : (length dst2 =? 0) = false).
  { apply Nat.eqb_neq. intros E. apply Hins. unfold ins.
    destruct dst2; [done|by simpl in E]. }
  assert (Hlen1 : length (take (n - 1) lines) = n - 1) by (rewrite length_take; lia).
  set (p1 := mkParsed (Single ref1') dst1).
  set (p2 := mkParsed (InsertAfterRef ref2') dst2).
  assert (Hnd : NoDup (map targetOf [p1; p2])).
  { unfold targetOf, annotate. simpl. rewrite Hn. fold n.
    apply NoDup_cons. split; [|apply NoDup_singleton].
    intros H. apply list_elem_of_singleton in H. discriminate. }
  assert (Hval12 : applyValidated lines 2 [p1; p2]
                   = mkResult (joinLines (splice n 0 ins replaced)) (Some n)
                              (reformatWarnings lines (splice n 0 ins replaced) 2) []).
  { unfold applyValidated.
    assert (collectExplicitlyTouchedLines [p1; p2] = {[n]}) as ->.
    { unfold collectExplicitlyTouchedLines. simpl. rewrite Hn. set_solver. }
    rewrite dedup_distinct_targets by done.
    cbn [imap]. unfold compose.
    change (annotate 0 p1) with (mkAnnotated (Single ref1') dst1 0 (line ref1') 0).
    change (annotate 1 p2) with (mkAnnotated (InsertAfterRef ref2') dst2 1 (line ref2') 1).
    rewrite sortBy_replace_then_insert by (simpl; done).
    cbn [fold_left].
    rewrite applyEdit_single_plain by done. fold n current resolved.
    unfold replaceOrNoop, streq. rewrite joinLines_singleton.
    rewrite bool_decide_eq_false_2 by congruence.
    cbn [fileLines firstChangedLine noopEdits trackFirstChanged].
    unfold applyEdit. cbn [aspec adstLines idx fileLines firstChangedLine noopEdits].
    rewrite Hn. fold current ins.
    assert ((length ins =? 0) = false) as ->.
    { apply Nat.eqb_neq. by destruct ins. }
    assert (splice (n - 1) 1 resolved lines = replaced) as ->.
    { unfold splice, replaced. by replace (n - 1 + 1) with n by lia. }
    assert (trackFirstChanged (n + 1) (Some n) = Some n) as ->.
    { unfold trackFirstChanged.
      assert ((n + 1 <? n) = false) as -> by (apply Nat.ltb_ge; lia). done. }
    done. }
  assert (Hres : ∃ res,
            applyHashlineEdits content edits = inr res
            ∧ Engine.content res = joinLines (splice n 0 ins replaced)
            ∧ resFirstChangedLine res = Some n).
  { destruct Hedits as [-> | ->].
    - exists (applyValidated lines 2 [p1; p2]). split; [|by rewrite Hval12].
      rewrite (applyHashlineEdits_validated content _
                 [mkParsed (Single ref1) dst1; mkParsed (InsertAfterRef ref2) dst2]
                 [p1; p2]); [done|done| |].
      + simpl. rewrite (parseEdit_SetLine _ _ _ Hp1), (parseEdit_InsertAfter _ _ _ Hp2).
        done.
      + simpl. unfold validateEdit at 1. simpl. fold lines. rewrite Hv1. simpl.
        unfold validateEdit. simpl. fold dst2. rewrite Hd2. rewrite Hv2. done.
    - exists (applyValidated lines 2 [p2; p1]). split.
      + rewrite (applyHashlineEdits_validated content _
                   [mkParsed (InsertAfterRef ref2) dst2; mkParsed (Single ref1) dst1]
                   [p2; p1]); [done|done| |].
        * simpl. rewrite (parseEdit_SetLine _ _ _ Hp1), (parseEdit_InsertAfter _ _ _ Hp2).
          done.
        * simpl. unfold validateEdit at 1. simpl. fold lines dst2.
          rewrite Hd2. rewrite Hv2. simpl.
          unfold validateEdit. simpl. rewrite Hv1. done.
      + destruct (applyValidated_perm lines 2 2 [p2; p1] [p1; p2]) as [Hc Hf].
        * apply perm_swap.
        * unfold targetOf, annotate. simpl. rewrite Hn. fold n.
          apply NoDup_cons. split; [|apply NoDup_singleton].
          intros H. apply list_elem_of_singleton in H. discriminate.
        * rewrite Hc, Hf, Hval12. done. }
  destruct Hres as (res & Happly & Hcontent & Hfirst).
  exists res. split; [exact Happly|]. rewrite Hcontent.
  unfold splice. rewrite Nat.add_0_r.
  split; [done|]. split; [|split; [|done]].
  - intros x Hx. f_equal. unfold replaced. rewrite Hx.
    rewrite !app_assoc. rewrite take_app_length' by (rewrite length_app; simpl; lia).
    rewrite drop_app_length' by (rewrite length_app; simpl; lia).
    by rewrite <- !app_assoc.
  - intros Hr. f_equal. unfold replaced. rewrite Hr. simpl.
    rewrite take_app_ge by lia. rewrite drop_app_ge by lia. rewrite Hlen1.
    replace (n - (n - 1)) with 1 by lia. rewrite drop_drop.
    by rewrite <- app_assoc.
Qed.

Lemma set_line_and_insert_after_same_line_witness :
  let content := lit "a" ++ [LF] ++ lit "b" ++ [LF] ++ lit "c" in
  let anchor := formatRef 2 (computeLineHash 2 (lit "b")) in
  ∃ res,
    applyHashlineEdits content [InsertAfter anchor (lit "X"); SetLine anchor (lit "B")]
    = inr res
    ∧ Engine.content res
      = lit "a" ++ [LF] ++ lit "B" ++ [LF] ++ lit "X" ++ [LF] ++ lit "c".
Proof.
  intros content anchor.
  destruct (set_line_and_insert_after_same_line content anchor (lit "B") anchor (lit "X")
              (mkRef 2 (computeLineHash 2 (lit "b"))) (mkRef 2 (computeLineHash 2 (lit "b")))
              (mkRef 2 (computeLineHash 2 (lit "b"))) (mkRef 2 (computeLineHash 2 (lit "b")))
              false false
              [InsertAfter anchor (lit "X"); SetLine anchor (lit "B")]
              ltac:(right; reflexivity)
              ltac:(vm_compute; reflexivity) ltac:(vm_compute; reflexivity)
              ltac:(vm_compute; reflexivity) ltac:(vm_compute; reflexivity)
              ltac:(reflexivity) ltac:(vm_compute; reflexivity)
              ltac:(vm_compute; discriminate) ltac:(vm_compute; discriminate))
    as (res & H1 & H2 & _).
  exists res. split; [exact H1|]. rewrite H2. vm_compute. reflexivity.
Defined.
